(** * tmdsimpy: harmonic utilities, nonlinear solver and continuation

    A shallow embedding of the parts of tmdsimpy that the specification
    talks about:

    - [Num]: the scalar model shared by the solver and the continuation,
      rationals extended with the two infinities and NaN;
    - [Solvers]: [tmdsimpy/jax/solvers.py], [_check_convg] and
      [NonlinearSolverOMP.nsolve];
    - [Harmonic]: [tmdsimpy/harmonic_utils.py], [Nhc],
      [harmonic_stiffness], [time_series_deriv], [get_fourier_coeff];
    - [Forces]: the [aft] methods of the Jenkins and rough contact
      elements as state-passing functions over the element object;
    - [Continuation]: [tmdsimpy/continuation.py], the constructor and the
      continuation loop.

    Python exceptions are values of [exn]; a function that may raise
    returns [result]. [Timeout] is not an exception of the program: it
    is what a loop of the embedding returns when its fuel runs out. *)

From Stdlib Require Import QArith Qabs Qround ZArith Lia Bool List String.
From Stdlib Require Import Reals Lra.
From Stdlib Require Lqa.
From stdpp Require Import base option list strings gmap.

Local Open Scope string_scope.

(** ** Exceptions and the result monad *)

Inductive exn : Type :=
| AssertionError (msg : string)
| TypeError
| KeyError (key : string)
| ValueError
| NameError (name : string)
| IndexError
| ZeroDivisionError
| Timeout.

Inductive result (A : Type) : Type :=
| Ok (a : A)
| Raise (e : exn).
Arguments Ok {A} a.
Arguments Raise {A} e.

Global Instance result_ret : MRet result := fun A a => Ok a.

Global Instance result_bind : MBind result := fun A B k m =>
  match m with
  | Ok a => k a
  | Raise e => Raise e
  end.

Definition is_ok {A} (m : result A) : bool :=
  match m with Ok _ => true | Raise _ => false end.

(** ** Scalars *)

Module Num.

(** A numpy float without rounding: a rational, an infinity or NaN.
    Finite arithmetic is exact, with results in lowest terms; the
    special values follow IEEE 754
    (NaN is absorbing, [inf - inf], [0 * inf], [0 / 0] and [inf / inf] are
    NaN, a comparison with NaN is false). Zero is unsigned, so a
    division of a nonzero finite value by zero takes the sign of the
    numerator. *)
Inductive fnum : Type :=
| Fin (q : Q)
| PInf
| NInf
| NaN.

Definition isnan (a : fnum) : bool :=
  match a with NaN => true | _ => false end.

Definition Qsgn (q : Q) : Z := Z.sgn (Qnum q).

Definition fneg (a : fnum) : fnum :=
  match a with
  | Fin q => Fin (- q)
  | PInf => NInf
  | NInf => PInf
  | NaN => NaN
  end.

Definition fadd (a b : fnum) : fnum :=
  match a, b with
  | NaN, _ | _, NaN => NaN
  | Fin p, Fin q => Fin (Qred (p + q))
  | PInf, NInf | NInf, PInf => NaN
  | PInf, _ | _, PInf => PInf
  | NInf, _ | _, NInf => NInf
  end.

Definition fsub (a b : fnum) : fnum := fadd a (fneg b).

(** The infinity of sign [s], NaN when [s] is zero. *)
Definition inf_of_sign (s : Z) : fnum :=
  match s with
  | Z0 => NaN
  | Zpos _ => PInf
  | Zneg _ => NInf
  end.

Definition fsign (a : fnum) : Z :=
  match a with
  | Fin q => Qsgn q
  | PInf => 1
  | NInf => (-1)
  | NaN => 0
  end.

Definition fmul (a b : fnum) : fnum :=
  match a, b with
  | NaN, _ | _, NaN => NaN
  | Fin p, Fin q => Fin (Qred (p * q))
  | _, _ => inf_of_sign (fsign a * fsign b)
  end.

Definition fdiv (a b : fnum) : fnum :=
  match a, b with
  | NaN, _ | _, NaN => NaN
  | Fin p, Fin q =>
      if Qeq_bool q 0 then inf_of_sign (Qsgn p) else Fin (Qred (p / q))
  | Fin _, _ => Fin 0
  | _, Fin q =>
      if Qeq_bool q 0 then a else inf_of_sign (fsign a * Qsgn q)
  | _, _ => NaN
  end.

Definition fabs (a : fnum) : fnum :=
  match a with
  | Fin q => Fin (Qabs q)
  | PInf | NInf => PInf
  | NaN => NaN
  end.

Definition Qlt_bool (p q : Q) : bool := negb (Qle_bool q p).

(** [a < b] as numpy evaluates it. *)
Definition flt (a b : fnum) : bool :=
  match a, b with
  | NaN, _ | _, NaN => false
  | Fin p, Fin q => Qlt_bool p q
  | NInf, NInf | PInf, _ | _, NInf => false
  | _, _ => true
  end.

(** [a <= b] as numpy evaluates it. *)
Definition fle (a b : fnum) : bool :=
  negb (isnan a) && negb (isnan b) && negb (flt b a).

(** [np.maximum(a, b)] and [np.minimum(a, b)], which propagate NaN. *)
Definition fmaximum (a b : fnum) : fnum :=
  if isnan a || isnan b then NaN else if flt a b then b else a.

Definition fminimum (a b : fnum) : fnum :=
  if isnan a || isnan b then NaN else if flt b a then b else a.

(** [np.sqrt], over a square root [qsqrt] of the non-negative rationals. *)
Definition fsqrt (qsqrt : Q -> Q) (a : fnum) : fnum :=
  match a with
  | Fin q => if Qlt_bool q 0 then NaN else Fin (Qred (qsqrt q))
  | PInf => PInf
  | NInf | NaN => NaN
  end.

(** Vectors are one-dimensional arrays, matrices are lists of rows. The
    operations on two vectors are those of numpy on arrays of one
    length, which is what the program applies them to. *)
Definition vec := list fnum.
Definition mat := list (list fnum).

Definition vsum (v : vec) : fnum := fold_left fadd v (Fin 0).
Definition msum (m : mat) : fnum := vsum (concat m).

Definition vzip (f : fnum -> fnum -> fnum) (u v : vec) : vec :=
  map (fun p => f (fst p) (snd p)) (combine u v).

Definition vadd := vzip fadd.
Definition vsub := vzip fsub.
Definition vmul := vzip fmul.
Definition vscale (c : fnum) (v : vec) : vec := map (fmul c) v.
Definition vdivs (v : vec) (c : fnum) : vec := map (fun x => fdiv x c) v.
Definition vneg (v : vec) : vec := map fneg v.
Definition dot (u v : vec) : fnum := vsum (vmul u v).
Definition mscale (c : fnum) (m : mat) : mat := map (vscale c) m.

Definition has_nan (v : vec) : bool := existsb isnan v.
Definition mat_has_nan (m : mat) : bool := existsb has_nan m.

End Num.

(** ** The nonlinear solver, [tmdsimpy/jax/solvers.py] *)

Module Solvers.
Import Num.

(** The solver settings. [self.config] is a dictionary that always holds
    the keys of [default_config]; the six tolerances are [None] or a
    float. *)
Record config : Type := {
  max_steps : nat;
  reform_freq : nat;
  verbose : bool;
  xtol : option fnum;
  rtol : option fnum;
  etol : option fnum;
  xtol_rel : option fnum;
  rtol_rel : option fnum;
  etol_rel : option fnum;
  stopping_tol : list string;
  accepting_tol : list string
}.

Definition default_config : config := {|
  max_steps := 20;
  reform_freq := 1;
  verbose := true;
  xtol := None;
  rtol := None;
  etol := None;
  xtol_rel := None;
  rtol_rel := None;
  etol_rel := None;
  stopping_tol := ["xtol"];
  accepting_tol := []
|}.

Definition set_xtol (cfg : config) (x : option fnum) : config := {|
  max_steps := max_steps cfg;
  reform_freq := reform_freq cfg;
  verbose := verbose cfg;
  xtol := x;
  rtol := rtol cfg;
  etol := etol cfg;
  xtol_rel := xtol_rel cfg;
  rtol_rel := rtol_rel cfg;
  etol_rel := etol_rel cfg;
  stopping_tol := stopping_tol cfg;
  accepting_tol := accepting_tol cfg
|}.

(** [tol_dict[key]] for one of the six tolerance names. *)
Definition tol_dict (cfg : config) (key : string) : result (option fnum) :=
  if String.eqb key "xtol" then Ok (xtol cfg)
  else if String.eqb key "rtol" then Ok (rtol cfg)
  else if String.eqb key "etol" then Ok (etol cfg)
  else if String.eqb key "xtol_rel" then Ok (xtol_rel cfg)
  else if String.eqb key "rtol_rel" then Ok (rtol_rel cfg)
  else if String.eqb key "etol_rel" then Ok (etol_rel cfg)
  else Raise (KeyError key).

(** The six measures of one iteration, in the order in which [nsolve]
    passes them to [_check_convg]. *)
Record errors : Type := {
  r_curr : fnum;
  e_curr : fnum;
  u_curr : fnum;
  r_rel : fnum;
  e_rel : fnum;
  u_rel : fnum
}.

(** The dictionary of current errors built by [_check_convg]. *)
Definition error_dict (er : errors) (key : string) : result fnum :=
  if String.eqb key "xtol" then Ok (u_curr er)
  else if String.eqb key "rtol" then Ok (r_curr er)
  else if String.eqb key "etol" then Ok (e_curr er)
  else if String.eqb key "xtol_rel" then Ok (e_rel er)
  else if String.eqb key "rtol_rel" then Ok (r_rel er)
  else if String.eqb key "etol_rel" then Ok (u_rel er)
  else Raise (KeyError key).

(** [np.abs(error_dict[key]) < tol_dict[key]]; comparing with [None]
    raises. *)
Definition criterion (cfg : config) (er : errors) (key : string)
  : result bool :=
  err ← error_dict er key;
  tol ← tol_dict cfg key;
  match tol with
  | Some t => Ok (flt (fabs err) t)
  | None => Raise TypeError
  end.

(** The loop [converged = converged or (...)]: the right operand is not
    evaluated once [converged] is true. *)
Fixpoint check_loop (cfg : config) (er : errors) (converged : bool)
    (check_list : list string) : result bool :=
  match check_list with
  | [] => Ok converged
  | key :: rest =>
      if converged then check_loop cfg er true rest
      else c ← criterion cfg er key; check_loop cfg er c rest
  end.

Definition _check_convg (check_list : list string) (cfg : config)
    (er : errors) : result bool :=
  check_loop cfg er false check_list.

(** The measure each tolerance is documented to bound, from the class
    docstring of [NonlinearSolverOMP]: [xtol_rel] bounds
    [norm(dX) / norm(dX_step0)] and [etol_rel] bounds
    [norm(e) / norm(e_step0)]. *)
Definition documented_error (er : errors) (key : string) : result fnum :=
  if String.eqb key "xtol" then Ok (u_curr er)
  else if String.eqb key "rtol" then Ok (r_curr er)
  else if String.eqb key "etol" then Ok (e_curr er)
  else if String.eqb key "xtol_rel" then Ok (u_rel er)
  else if String.eqb key "rtol_rel" then Ok (r_rel er)
  else if String.eqb key "etol_rel" then Ok (e_rel er)
  else Raise (KeyError key).

Definition documented_criterion (cfg : config) (er : errors) (key : string)
  : result bool :=
  err ← documented_error er key;
  tol ← tol_dict cfg key;
  match tol with
  | Some t => Ok (flt (fabs err) t)
  | None => Raise TypeError
  end.


(** The result record [sol]. *)
Record sol : Type := {
  message : string;
  nfev : nat;
  njev : nat;
  success : bool
}.

(** A residual function [fun(X, calc_grad)]: the residual and, when
    [calc_grad] holds, its Jacobian (the second component is ignored
    otherwise). It may raise. *)
Definition resfun : Type := vec -> bool -> result (vec * mat).

Section NSolve.

(** The square root of the non-negative rationals behind [np.sqrt], and
    the linear algebra of the solver object ([lin_factor] and
    [lin_factored_solve] call LAPACK through jax). *)
Variable qsqrt : Q -> Q.
Variable factored : Type.
Variable lin_factor : mat -> factored.
Variable lin_factored_solve : factored -> vec -> vec.

Variable cfg : config.
Variable fun_ : resfun.

(** The local variables of [nsolve] that live across iterations. The
    names bound for the first time inside the loop ([R], [dRdX],
    [deltaX], [factored_data], [bfgs_v], [bfgs_w] and the six measures)
    hold a placeholder before iteration 0, which binds them all before
    any read: iteration 0 goes through the Newton branch, and [nsolve]
    with [max_steps = 0], the only call that reads an unbound name, is
    treated apart. *)
Record lstate : Type := {
  X : vec;
  R : vec;
  dRdX : mat;
  deltaX : vec;
  factored_data : factored;
  bfgs_v : list vec;
  bfgs_w : list vec;
  Rminus1 : vec;
  deltaXminus1 : vec;
  bfgs_ind : nat;
  r0 : fnum;
  u0 : fnum;
  e0 : fnum;
  errs : errors;
  s_nfev : nat;
  s_njev : nat
}.

(** How one pass through the loop body ends. *)
Inductive step_end : Type :=
| BreakNaN (st : lstate)
| BreakConverged (st : lstate)
| Continue (st : lstate).

Definition zeros (n : nat) : vec := repeat (Fin 0) n.

Definition col (m : list vec) (k : nat) : vec := nth k m [].

(** [for kk in range(bfgs_ind-1, -1, -1):
       deltaX = deltaX + bfgs_w[:, kk]*(bfgs_v[:, kk] @ deltaX)] *)
Fixpoint apply_down (w v : list vec) (k : nat) (d : vec) : vec :=
  match k with
  | O => d
  | S k' =>
      apply_down w v k' (vadd d (vscale (dot (col v k') d) (col w k')))
  end.

(** [for kk in range(0, bfgs_ind, 1):
       deltaX = deltaX + bfgs_v[:, kk]*(bfgs_w[:, kk] @ deltaX)] *)
Fixpoint apply_up (v w : list vec) (k n : nat) (d : vec) : vec :=
  match n with
  | O => d
  | S n' =>
      apply_up v w (S k) n' (vadd d (vscale (dot (col w k) d) (col v k)))
  end.

(** From [Update Solution] to the end of the loop body: [st] already
    holds the new [R] and [deltaX]. *)
Definition update_and_check (i : nat) (st : lstate) : result step_end :=
  if isnan (vsum (deltaX st)) then Ok (BreakNaN st)
  else
    let X' := vadd (X st) (deltaX st) in
    let u := fsqrt qsqrt (dot (deltaX st) (deltaX st)) in
    let e := dot (R st) (deltaXminus1 st) in
    let r := fsqrt qsqrt (dot (R st) (R st)) in
    let r0' := if Nat.eqb i 0 then r else r0 st in
    let u0' := if Nat.eqb i 0 then u else u0 st in
    let e' := if Nat.eqb i 0 then PInf else e in
    let e0' := if Nat.eqb i 0 then PInf
               else if Nat.eqb i 1 then fabs e' else e0 st in
    let er := {| r_curr := r; e_curr := e'; u_curr := u;
                 r_rel := fdiv r r0'; e_rel := fdiv e' e0';
                 u_rel := fdiv u u0' |} in
    let st' := {| X := X'; R := R st; dRdX := dRdX st;
                  deltaX := deltaX st;
                  factored_data := factored_data st;
                  bfgs_v := bfgs_v st; bfgs_w := bfgs_w st;
                  Rminus1 := Rminus1 st; deltaXminus1 := deltaXminus1 st;
                  bfgs_ind := bfgs_ind st;
                  r0 := r0'; u0 := u0'; e0 := e0'; errs := er;
                  s_nfev := s_nfev st; s_njev := s_njev st |} in
    converged ← _check_convg (stopping_tol cfg) cfg er;
    if converged : bool then Ok (BreakConverged st')
    else
      Ok (Continue
            {| X := X'; R := R st; dRdX := dRdX st; deltaX := deltaX st;
               factored_data := factored_data st;
               bfgs_v := bfgs_v st; bfgs_w := bfgs_w st;
               Rminus1 := R st; deltaXminus1 := deltaX st;
               bfgs_ind := Nat.modulo (S (bfgs_ind st)) (reform_freq cfg);
               r0 := r0'; u0 := u0'; e0 := e0'; errs := er;
               s_nfev := s_nfev st; s_njev := s_njev st |}).

(** The Newton step: factor [-1.0*dRdX], solve with right-hand side [R]. *)
Definition newton_deltaX (dRdX' : mat) (R' : vec) : vec :=
  lin_factored_solve (lin_factor (mscale (Fin (-1)) dRdX')) R'.

(** The full Newton update, [bfgs_ind == 0]. *)
Definition newton_step (i : nat) (st : lstate) : result step_end :=
  '(R', dRdX') ← fun_ (X st) true;
  let st1 := {| X := X st; R := R'; dRdX := dRdX'; deltaX := deltaX st;
                factored_data := factored_data st;
                bfgs_v := bfgs_v st; bfgs_w := bfgs_w st;
                Rminus1 := Rminus1 st; deltaXminus1 := deltaXminus1 st;
                bfgs_ind := bfgs_ind st;
                r0 := r0 st; u0 := u0 st; e0 := e0 st; errs := errs st;
                s_nfev := S (s_nfev st); s_njev := S (s_njev st) |} in
  if isnan (vsum R') then Ok (BreakNaN st1)
  else if isnan (msum dRdX') then Ok (BreakNaN st1)
  else
    match reform_freq cfg with
    | O => Raise ValueError
    | S m =>
        update_and_check i
          {| X := X st; R := R'; dRdX := dRdX';
             deltaX := newton_deltaX dRdX' R';
             factored_data := lin_factor (mscale (Fin (-1)) dRdX');
             bfgs_v := repeat (zeros (length (X st))) m;
             bfgs_w := repeat (zeros (length (X st))) m;
             Rminus1 := Rminus1 st; deltaXminus1 := deltaXminus1 st;
             bfgs_ind := bfgs_ind st;
             r0 := r0 st; u0 := u0 st; e0 := e0 st; errs := errs st;
             s_nfev := S (s_nfev st); s_njev := S (s_njev st) |}
    end.

(** The low-rank update of the quasi-Newton branch: the new columns of
    [bfgs_v] and [bfgs_w] and the step. *)
Definition bfgs_update (st : lstate) (R' : vec)
  : list vec * list vec * vec :=
  let k := Nat.pred (bfgs_ind st) in
  let dR := vsub R' (Rminus1 st) in
  let v' := <[k := vdivs (deltaXminus1 st) (dot (deltaXminus1 st) dR)]>
              (bfgs_v st) in
  let alpha := fsqrt qsqrt
                 (fdiv (dot (vneg (deltaX st)) dR)
                       (dot (deltaX st) (Rminus1 st))) in
  let w' := <[k := vadd (vneg dR) (vscale alpha (Rminus1 st))]>
              (bfgs_w st) in
  let d1 := apply_down w' v' (bfgs_ind st) R' in
  let d2 := lin_factored_solve (factored_data st) d1 in
  (v', w', apply_up v' w' 0 (bfgs_ind st) d2).

(** The quasi-Newton update, [bfgs_ind > 0]. *)
Definition bfgs_step (i : nat) (st : lstate) : result step_end :=
  '(R', _) ← fun_ (X st) false;
  let st1 := {| X := X st; R := R'; dRdX := dRdX st; deltaX := deltaX st;
                factored_data := factored_data st;
                bfgs_v := bfgs_v st; bfgs_w := bfgs_w st;
                Rminus1 := Rminus1 st; deltaXminus1 := deltaXminus1 st;
                bfgs_ind := bfgs_ind st;
                r0 := r0 st; u0 := u0 st; e0 := e0 st; errs := errs st;
                s_nfev := S (s_nfev st); s_njev := s_njev st |} in
  if isnan (vsum R') then Ok (BreakNaN st1)
  else
    let '(v', w', dX) := bfgs_update st R' in
    update_and_check i
      {| X := X st; R := R'; dRdX := dRdX st; deltaX := dX;
         factored_data := factored_data st;
         bfgs_v := v'; bfgs_w := w';
         Rminus1 := Rminus1 st; deltaXminus1 := deltaXminus1 st;
         bfgs_ind := bfgs_ind st;
         r0 := r0 st; u0 := u0 st; e0 := e0 st; errs := errs st;
         s_nfev := S (s_nfev st); s_njev := s_njev st |}.

(** The step [deltaX] that an iteration computes from the evaluated
    residual and Jacobian. *)
Definition computed_step (st : lstate) (R' : vec) (dRdX' : mat) : vec :=
  if Nat.eqb (bfgs_ind st) 0 then newton_deltaX dRdX' R'
  else snd (bfgs_update st R').

Definition body (i : nat) (st : lstate) : result step_end :=
  if Nat.eqb (bfgs_ind st) 0 then newton_step i st else bfgs_step i st.

(** The state of the locals when the [for] loop is left, with the flags
    [no_nan_vals] and [sol['success']]. *)
Record loop_end : Type := {
  final : lstate;
  no_nan_vals : bool;
  converged_in_loop : bool
}.

(** [for i in range(max_iter)], from iteration [i] with [n] iterations
    left. *)
Fixpoint loop (n i : nat) (st : lstate) : result loop_end :=
  match n with
  | O => Ok {| final := st; no_nan_vals := true;
               converged_in_loop := false |}
  | S n' =>
      r ← body i st;
      match r with
      | BreakNaN st' =>
          Ok {| final := st'; no_nan_vals := false;
                converged_in_loop := false |}
      | BreakConverged st' =>
          Ok {| final := st'; no_nan_vals := true;
                converged_in_loop := true |}
      | Continue st' => loop n' (S i) st'
      end
  end.

(** [Final Clean Up and Return]: the check against [accepting_tol], and
    the returned tuple [(X, R, dRdX, sol)]. *)
Definition finish (le : loop_end) : result (vec * vec * mat * sol) :=
  let st := final le in
  accepted ←
    (if no_nan_vals le && negb (converged_in_loop le)
     then _check_convg (accepting_tol cfg) cfg (errs st)
     else Ok false);
  let ok := converged_in_loop le || accepted in
  Ok (X st, R st, dRdX st,
      {| message := if ok then "Converged" else "failed";
         nfev := s_nfev st; njev := s_njev st; success := ok |}).

Definition init_state (X0 : vec) : lstate := {|
  X := X0; R := []; dRdX := []; deltaX := [];
  factored_data := lin_factor []; bfgs_v := []; bfgs_w := [];
  Rminus1 := zeros (length X0);
  deltaXminus1 := repeat NaN (length X0);
  bfgs_ind := 0;
  r0 := NaN; u0 := NaN; e0 := NaN;
  errs := {| r_curr := NaN; e_curr := NaN; u_curr := NaN;
             r_rel := NaN; e_rel := NaN; u_rel := NaN |};
  s_nfev := 0; s_njev := 0
|}.

End NSolve.

(** [xtol] as [nsolve] resolves it: the argument, else the setting, else
    [1e-6*X0.shape[0]]. *)
Definition resolve_xtol (cfg : config) (xtol_arg : option fnum) (X0 : vec)
  : fnum :=
  match xtol_arg with
  | Some x => x
  | None =>
      match xtol cfg with
      | Some x => x
      | None => Fin ((1 # 1000000) * inject_Z (Z.of_nat (length X0)))
      end
  end.

(** [NonlinearSolverOMP.nsolve]. The resolved [xtol] replaces the setting
    for the duration of the call. With [max_steps = 0] the loop body
    never runs and the final check reads the unbound [r_curr]. *)
Definition nsolve (qsqrt : Q -> Q) {factored : Type}
    (lin_factor : mat -> factored)
    (lin_factored_solve : factored -> vec -> vec)
    (cfg : config) (fun_ : resfun) (X0 : vec) (xtol_arg : option fnum)
  : result (vec * vec * mat * sol) :=
  let cfg' := set_xtol cfg (Some (resolve_xtol cfg xtol_arg X0)) in
  match max_steps cfg with
  | O => Raise (NameError "r_curr")
  | S _ =>
      le ← loop qsqrt factored lin_factor lin_factored_solve cfg' fun_
             (max_steps cfg) 0 (init_state factored lin_factor X0);
      finish factored cfg' le
  end.

End Solvers.

(** ** Harmonic utilities, [tmdsimpy/harmonic_utils.py] *)

Module Harmonic.

Local Open Scope Q_scope.

(** [2*(h != 0).sum() + (h == 0).sum()] *)
Definition count_components (h : list nat) : nat :=
  (2 * length (List.filter (fun k => negb (Nat.eqb k 0)) h)
   + length (List.filter (fun k => Nat.eqb k 0) h))%nat.

(** [Nhc]: [np.unique(h)] has as many entries as [h] exactly when no
    harmonic is repeated. *)
Definition Nhc (h : list nat) : result nat :=
  if Nat.eqb (length (remove_dups h)) (length h)
  then Ok (count_components h)
  else Raise (AssertionError "Repeated Harmonics in h are not allowed.").

(** A harmonic set as the functions of the module document it: at least
    one harmonic, none repeated, and the zeroth harmonic first when it is
    included. *)
Definition valid_h (h : list nat) : Prop :=
  h <> [] /\ NoDup h /\ Forall (fun k => k <> 0%nat) (tail h).

(** The first block of a nonzero harmonic: 1 when the set starts with
    the zeroth harmonic ([zi] in the source). *)
Definition zero_offset (h : list nat) : nat :=
  match h with
  | O :: _ => 1
  | _ => 0
  end.

(** A two-dimensional array: its shape and its entries. Only the entries
    inside the shape are meaningful. *)
Record array2 (A : Type) : Type := {
  nrows : nat;
  ncols : nat;
  entry : nat -> nat -> A
}.
Arguments nrows {A} _.
Arguments ncols {A} _.
Arguments entry {A} _ _ _.

(** The arrays of [harmonic_stiffness] hold rationals. *)
Abbreviation matrix := (array2 Q).

Definition square (nd : nat) (A : matrix) : Prop :=
  nrows A = nd /\ ncols A = nd.

Definition mzeros (r c : nat) : matrix :=
  {| nrows := r; ncols := c; entry := fun _ _ => 0 |}.

(** [c*A] *)
Definition mscale (c : Q) (A : matrix) : matrix :=
  {| nrows := nrows A; ncols := ncols A;
     entry := fun i j => c * entry A i j |}.

(** [A + B] for arrays of one shape (broadcasting of unequal shapes is
    not modelled: it raises). *)
Definition madd (A B : matrix) : result matrix :=
  if Nat.eqb (nrows A) (nrows B) && Nat.eqb (ncols A) (ncols B)
  then Ok {| nrows := nrows A; ncols := ncols A;
             entry := fun i j => entry A i j + entry B i j |}
  else Raise ValueError.

Definition in_range (a b i : nat) : bool := Nat.leb a i && Nat.ltb i b.

(** [E[a:b, c:d] = B]. The slice is clipped to the shape of [E]; [B]
    must have the shape of the clipped slice, up to broadcasting of its
    axes of length one. *)
Definition set_slice (E : matrix) (a b c d : nat) (B : matrix)
  : result matrix :=
  let a' := Nat.min a (nrows E) in
  let b' := Nat.max a' (Nat.min b (nrows E)) in
  let c' := Nat.min c (ncols E) in
  let d' := Nat.max c' (Nat.min d (ncols E)) in
  if (Nat.eqb (nrows B) (b' - a') || Nat.eqb (nrows B) 1)
     && (Nat.eqb (ncols B) (d' - c') || Nat.eqb (ncols B) 1)
  then Ok {| nrows := nrows E; ncols := ncols E;
             entry := fun i j =>
               if in_range a' b' i && in_range c' d' j
               then entry B (if Nat.eqb (nrows B) 1 then 0 else i - a')
                            (if Nat.eqb (ncols B) 1 then 0 else j - c')
               else entry E i j |}
  else Raise ValueError.

Definition qnat (k : nat) : Q := inject_Z (Z.of_nat k).

(** The body of [for hind in range(zi, h.shape[0])] for one harmonic
    [k = h[hind]]: the assignments to [E]. *)
Definition stiffness_E (M C K : matrix) (w : Q) (nd zi : nat)
    (include_KM : bool) (hind k : nat) (E : matrix) : result matrix :=
  let p := (hind * 2 - zi)%nat in
  let r0 := (nd * p)%nat in
  let r1 := (nd * (p + 1))%nat in
  let r2 := (nd * (p + 2))%nat in
  let TR := mscale (1 * qnat k * w) C in
  let BL := mscale (-1 * qnat k * w) C in
  E ← set_slice E r0 r1 r1 r2 TR;
  E ← set_slice E r1 r2 r0 r1 BL;
  if include_KM then
    TL ← madd K (mscale (-1 * (qnat k * w) ^ 2) M);
    BR ← madd K (mscale (-1 * (qnat k * w) ^ 2) M);
    E ← set_slice E r0 r1 r0 r1 TL;
    set_slice E r1 r2 r1 r2 BR
  else Ok E.

(** The assignments to [dEdw], under [if calc_grad]. *)
Definition stiffness_dEdw (M C : matrix) (w : Q) (nd zi : nat)
    (include_KM : bool) (hind k : nat) (dEdw : matrix) : result matrix :=
  let p := (hind * 2 - zi)%nat in
  let r0 := (nd * p)%nat in
  let r1 := (nd * (p + 1))%nat in
  let r2 := (nd * (p + 2))%nat in
  let TRdw := mscale (qnat k) C in
  let BLdw := mscale (-1 * qnat k) C in
  dEdw ← set_slice dEdw r0 r1 r1 r2 TRdw;
  dEdw ← set_slice dEdw r1 r2 r0 r1 BLdw;
  if include_KM then
    let TLdw := mscale (-2 * w * qnat k ^ 2) M in
    let BRdw := mscale (-2 * w * qnat k ^ 2) M in
    dEdw ← set_slice dEdw r0 r1 r0 r1 TLdw;
    set_slice dEdw r1 r2 r1 r2 BRdw
  else Ok dEdw.

(** One pass through the loop body, on [E] and, when [calc_grad] holds,
    on [dEdw]. *)
Definition stiffness_body (M C K : matrix) (w : Q) (nd zi : nat)
    (include_KM : bool) (hind k : nat) (acc : matrix * option matrix)
  : result (matrix * option matrix) :=
  E ← stiffness_E M C K w nd zi include_KM hind k (fst acc);
  match snd acc with
  | None => Ok (E, None)
  | Some dEdw =>
      dEdw ← stiffness_dEdw M C w nd zi include_KM hind k dEdw;
      Ok (E, Some dEdw)
  end.

(** The loop over the harmonics [hs = h[hind:]]. *)
Fixpoint stiffness_loop (M C K : matrix) (w : Q) (nd zi : nat)
    (include_KM : bool) (hind : nat) (hs : list nat)
    (acc : matrix * option matrix) : result (matrix * option matrix) :=
  match hs with
  | [] => Ok acc
  | k :: rest =>
      acc' ← stiffness_body M C K w nd zi include_KM hind k acc;
      stiffness_loop M C K w nd zi include_KM (S hind) rest acc'
  end.

(** [harmonic_stiffness]: [(E, dEdw)], or [(E,)] when [calc_grad] is
    false. *)
Definition harmonic_stiffness (M C K : matrix) (w : Q) (h : list nat)
    (calc_grad only_C : bool) : result (matrix * option matrix) :=
  let nd := nrows C in
  Nhc2 ← Nhc h;
  let E := mzeros (Nhc2 * nd) (Nhc2 * nd) in
  let dEdw := if calc_grad then Some (mzeros (Nhc2 * nd) (Nhc2 * nd))
              else None in
  h0 ← match h with [] => Raise IndexError | k :: _ => Ok k end;
  let zi := if Nat.eqb h0 0 then 1%nat else 0%nat in
  let include_KM := negb only_C in
  E ← (if Nat.eqb zi 1 && include_KM then set_slice E 0 nd 0 nd K
       else Ok E);
  stiffness_loop M C K w nd zi include_KM zi (drop zi h) (E, dEdw).

(** The shape of the optional gradient array. *)
Definition grad_dims (D : nat) (dE : option matrix) : Prop :=
  match dE with
  | Some F => nrows F = D /\ ncols F = D
  | None => True
  end.

(** *** Time series and Fourier coefficients

    The time series are arrays of real numbers; [np.fft.ifft] and
    [np.fft.fft] are the discrete Fourier sums that numpy documents. *)

Local Close Scope Q_scope.
Local Open Scope R_scope.

Abbreviation rarray := (array2 R).

(** Complex numbers, as pairs. *)
Definition C : Type := (R * R)%type.
Definition Cre (z : C) : R := fst z.
Definition Cim (z : C) : R := snd z.
Definition Cadd (z1 z2 : C) : C := (fst z1 + fst z2, snd z1 + snd z2).
Definition Cmul (z1 z2 : C) : C :=
  (fst z1 * fst z2 - snd z1 * snd z2, fst z1 * snd z2 + snd z1 * fst z2).
Definition Cscale (c : R) (z : C) : C := (c * fst z, c * snd z).
(** [exp(1j*t)] *)
Definition cis (t : R) : C := (cos t, sin t).

Abbreviation carray := (array2 C).

(** [sum(f(i) for i in range(n))] *)
Fixpoint Rsum (f : nat -> R) (n : nat) : R :=
  match n with
  | O => 0
  | S n' => Rsum f n' + f n'
  end.

Fixpoint Csum (f : nat -> C) (n : nat) : C :=
  match n with
  | O => (0, 0)
  | S n' => Cadd (Csum f n') (f n')
  end.

Definition azeros {A} (zero : A) (r c : nat) : array2 A :=
  {| nrows := r; ncols := c; entry := fun _ _ => zero |}.

(** [X[start::2, :]] for [start] in 0, 1, 2. *)
Definition rows_from {A} (start : nat) (X : array2 A) : array2 A :=
  {| nrows := (nrows X + 1 - start) / 2;
     ncols := ncols X;
     entry := fun i d => entry X (start + 2 * i) d |}.

(** [X[-2:0:-2, :]] for [back = 2] and [X[-1:1:-2, :]] for [back = 1]:
    from the row [nrows - back], two rows down at a time, above row 0
    for the first and above row 1 for the second; both keep
    [(nrows - 1) / 2] rows. *)
Definition rows_back {A} (back : nat) (X : array2 A) : array2 A :=
  {| nrows := (nrows X - 1) / 2;
     ncols := ncols X;
     entry := fun i d => entry X (nrows X - back - 2 * i) d |}.

(** [X[i, :] = row] *)
Definition set_row {A} (X : array2 A) (i : nat) (row : nat -> A)
  : array2 A :=
  {| nrows := nrows X; ncols := ncols X;
     entry := fun i' d => if Nat.eqb i' i then row d else entry X i' d |}.

(** A row index as Python resolves it: a negative index counts from the
    end. *)
Definition py_index (len : nat) (z : Z) : result nat :=
  let z' := if (z <? 0)%Z then (z + Z.of_nat len)%Z else z in
  if (0 <=? z')%Z && (z' <? Z.of_nat len)%Z then Ok (Z.to_nat z')
  else Raise IndexError.

Fixpoint assign_rows_from {A} (X : array2 A) (idxs : list Z)
    (V : array2 A) (t : nat) : result (array2 A) :=
  match idxs with
  | [] => Ok X
  | z :: rest =>
      i ← py_index (nrows X) z;
      assign_rows_from
        (set_row X i (entry V (if Nat.eqb (nrows V) 1 then 0%nat else t)))
        rest V (S t)
  end.

(** [X[idxs, :] = V] for an index array [idxs]: [V] has one row for each
    index, or a single row that is broadcast; rows are assigned in the
    order of [idxs]. *)
Definition assign_rows {A} (X : array2 A) (idxs : list Z) (V : array2 A)
  : result (array2 A) :=
  if Nat.eqb (nrows V) (length idxs) || Nat.eqb (nrows V) 1
  then assign_rows_from X idxs V 0
  else Raise ValueError.

(** [np.vstack((A, B))] *)
Definition vstack {A} (X Y : array2 A) : array2 A :=
  {| nrows := nrows X + nrows Y; ncols := ncols X;
     entry := fun i d =>
       if Nat.ltb i (nrows X) then entry X i d
       else entry Y (i - nrows X) d |}.

(** The row [X[i, :]] as an array of one row. *)
Definition row_of {A} (X : array2 A) (i : nat) : array2 A :=
  {| nrows := 1; ncols := ncols X; entry := fun _ d => entry X i d |}.

Definition amap {A B} (f : A -> B) (X : array2 A) : array2 B :=
  {| nrows := nrows X; ncols := ncols X;
     entry := fun i d => f (entry X i d) |}.

Definition azip {A B D} (f : A -> B -> D) (X : array2 A) (Y : array2 B)
  : array2 D :=
  {| nrows := nrows X; ncols := ncols X;
     entry := fun i d => f (entry X i d) (entry Y i d) |}.

(** [A @ B] *)
Definition matmul (X Y : rarray) : rarray :=
  {| nrows := nrows X; ncols := ncols Y;
     entry := fun i d => Rsum (fun k => entry X i k * entry Y k d) (ncols X) |}.

Definition identity (n : nat) : rarray :=
  {| nrows := n; ncols := n;
     entry := fun i j => if Nat.eqb i j then 1 else 0 |}.

(** [np.linalg.matrix_power(D1, order)] *)
Fixpoint matrix_power (D1 : rarray) (order : nat) : rarray :=
  match order with
  | O => identity (nrows D1)
  | S n => matmul D1 (matrix_power D1 n)
  end.

Definition set_entry (X : rarray) (i j : nat) (x : R) : rarray :=
  {| nrows := nrows X; ncols := ncols X;
     entry := fun i' j' =>
       if Nat.eqb i' i && Nat.eqb j' j then x else entry X i' j' |}.

(** The loop [for k in h[h != 0]] that fills the derivative matrix. *)
Fixpoint derivative_matrix (D1 : rarray) (hs : list nat) : rarray :=
  match hs with
  | [] => D1
  | k :: rest =>
      let cosrows := ((k - 1) * 2 + 1)%nat in
      let sinrows := ((k - 1) * 2 + 2)%nat in
      derivative_matrix
        (set_entry (set_entry D1 cosrows sinrows (INR k))
                   sinrows cosrows (-1 * INR k))
        rest
  end.

(** [np.real(np.fft.ifft(Xf, axis=0))] *)
Definition ifft_real (Xf : carray) : rarray :=
  let N := nrows Xf in
  {| nrows := N; ncols := ncols Xf;
     entry := fun n d =>
       Cre (Cscale (/ INR N)
              (Csum (fun m => Cmul (entry Xf m d)
                                 (cis (2 * PI * INR m * INR n / INR N)))
                    N)) |}.

(** [np.fft.fft(x_t, axis=0)] *)
Definition fft (x_t : rarray) : carray :=
  let N := nrows x_t in
  {| nrows := N; ncols := ncols x_t;
     entry := fun k d =>
       Csum (fun n => Cscale (entry x_t n d)
                        (cis (- (2 * PI * INR k * INR n / INR N))))
            N |}.

Definition list_max_nat (h : list nat) : nat := fold_right Nat.max 0%nat h.

Definition has_zero (h : list nat) : bool := existsb (Nat.eqb 0) h.

Definition starts_with_zero (h : list nat) : bool :=
  match h with
  | O :: _ => true
  | _ => false
  end.

(** The rows of [X0full]: the coefficients of [X0] spread over the
    [2*Nh+1] rows of all the harmonics up to [Nh]. The harmonics are
    natural numbers; the index arrays [2*h-1] are integers, so that a
    harmonic 0 there addresses the last row, as in Python. *)
Definition spread (Nh : nat) (h : list nat) (X0 : rarray) : result rarray :=
  let X0full := azeros 0 (2 * Nh + 1) (ncols X0) in
  let cos_idx (l : list nat) := map (fun k => 2 * Z.of_nat k - 1)%Z l in
  let sin_idx (l : list nat) := map (fun k => 2 * Z.of_nat k)%Z l in
  if starts_with_zero h then
    _ ← (if Nat.ltb 0 (nrows X0) then Ok tt else Raise IndexError);
    let X1 := set_row X0full 0 (entry X0 0) in
    X2 ← assign_rows X1 (cos_idx (tail h)) (rows_from 1 X0);
    assign_rows X2 (sin_idx (tail h)) (rows_from 2 X0)
  else
    X1 ← assign_rows X0full (cos_idx h) (rows_from 0 X0);
    assign_rows X1 (sin_idx h) (rows_from 1 X0).

(** The Fourier coefficients [Xf] that are handed to [np.fft.ifft], from
    the zero-padded [X0full]. *)
Definition fourier_rows (X0full : rarray) (Nt' : nat) : carray :=
  let Xf :=
    vstack (amap (fun x => (2 * x, 0)) (row_of X0full 0))
      (vstack (azip (fun a b => (a, - b))
                    (rows_from 1 X0full) (rows_from 2 X0full))
         (vstack (azeros (0, 0) 1 (ncols X0full))
            (azip (fun a b => (a, b))
                  (rows_back 2 X0full) (rows_back 1 X0full)))) in
  amap (Cscale (INR Nt' / 2)) Xf.

(** [time_series_deriv] *)
Definition time_series_deriv (Nt : nat) (h : list nat) (X0 : rarray)
    (order : nat) : result rarray :=
  if has_zero h && negb (starts_with_zero h)
  then Raise (AssertionError "Zeroth harmonic must be first")
  else
    let nd := ncols X0 in
    Nh ← (match h with [] => Raise ValueError
          | _ => Ok (list_max_nat h) end);
    X0full ← spread Nh h X0;
    if negb (Nat.ltb (2 * Nh + 1) Nt)
    then Raise (AssertionError
                  "More times are required to avoid truncating harmonics.")
    else
      let X0full :=
        if Nat.ltb 0 order then
          let D1 := derivative_matrix
                      (azeros 0 (2 * Nh + 1) (2 * Nh + 1))
                      (List.filter (fun k => negb (Nat.eqb k 0)) h) in
          matmul (matrix_power D1 order) X0full
        else X0full in
      let Nht := (Nt / 2 - 1)%nat in
      let X0full := vstack X0full (azeros 0 (2 * (Nht - Nh)) nd) in
      let Nt' := (2 * Nht + 2)%nat in
      let Xf := fourier_rows X0full Nt' in
      if negb (Nat.eqb (nrows Xf) Nt')
      then Raise (AssertionError "Unexpected length of Fourier Coefficients")
      else Ok (ifft_real Xf).

(** [v[i, :] = row], with the bound check of numpy. *)
Definition set_row_checked {A} (X : array2 A) (i : nat) (row : nat -> A)
  : result (array2 A) :=
  if Nat.ltb i (nrows X) then Ok (set_row X i row) else Raise IndexError.

(** The loop [for i in range(n)] of [get_fourier_coeff], over the
    harmonics [hs = h[i + zi:]]. *)
Fixpoint fourier_loop (xf : carray) (Nt zi : nat) (hs : list nat) (i : nat)
    (v : rarray) : result rarray :=
  match hs with
  | [] => Ok v
  | hi :: rest =>
      _ ← (if Nat.ltb hi (nrows xf) then Ok tt else Raise IndexError);
      v ← set_row_checked v (2 * i + zi)
            (fun d => Cre (entry xf hi d) / (INR Nt / 2));
      v ← set_row_checked v (2 * i + 1 + zi)
            (fun d => - Cim (entry xf hi d) / (INR Nt / 2));
      fourier_loop xf Nt zi rest (S i) v
  end.

(** [get_fourier_coeff] *)
Definition get_fourier_coeff (h : list nat) (x_t : rarray)
  : result rarray :=
  let Nt := nrows x_t in
  let nd := ncols x_t in
  let Nhc := count_components h in
  h0 ← (match h with [] => Raise IndexError | k :: _ => Ok k end);
  let n := (length h - (if Nat.eqb h0 0 then 1 else 0))%nat in
  if has_zero h && negb (starts_with_zero h)
  then Raise (AssertionError "Zeroth harmonic must be first")
  else
    let v := azeros 0 Nhc nd in
    _ ← (if Nat.eqb Nt 0 then Raise ValueError else Ok tt);
    let xf := fft x_t in
    '(v, zi) ←
      (if Nat.eqb h0 0 then
         v ← set_row_checked v 0 (fun d => Cre (entry xf 0 d) / INR Nt);
         Ok (v, 1%nat)
       else Ok (v, 0%nat));
    fourier_loop xf Nt zi (firstn n (drop zi h)) 0 v.

(** *** The trigonometric sums of the transforms *)

(** The angle [2*pi*m*n/N] of harmonic [m] at sample [n] of [N]. *)
Definition angle (N m n : nat) : R := 2 * PI * INR m * INR n / INR N.

(** The value at sample [n] of the harmonics 0 to [K] with the
    coefficients [F], whose rows are [a0, a1, b1, a2, b2, ...]. *)
Definition trig_series (F : rarray) (K N n d : nat) : R :=
  entry F 0 d
  + Rsum (fun j => entry F (2 * j + 1) d * cos (angle N (S j) n)
                   + entry F (2 * j + 2) d * sin (angle N (S j) n)) K.

(** Two arrays with the same shape and the same entries inside it. *)
Definition same_array (X Y : rarray) : Prop :=
  nrows X = nrows Y /\ ncols X = ncols Y
  /\ forall i d, (i < nrows X)%nat -> (d < ncols X)%nat ->
       entry X i d = entry Y i d.

(** *** The time series as samples of a trigonometric polynomial *)

(** The scaled time of sample [n] of [N]: [2*pi*n/N]. *)
Definition sample (N n : nat) : R := 2 * PI * INR n / INR N.

(** The trigonometric polynomial with the coefficients [F], rows
    [a0, a1, b1, a2, b2, ...], of the harmonics 0 to [K], as a function
    of the scaled time. *)
Definition trig_poly (F : rarray) (K d : nat) (tau : R) : R :=
  entry F 0 d
  + Rsum (fun j => entry F (2 * j + 1) d * cos (INR (S j) * tau)
                   + entry F (2 * j + 2) d * sin (INR (S j) * tau)) K.

(** *** Conditioning, zero crossings and phases

    These work on one-dimensional arrays of floats, [Num.vec]. *)

(** [l[a:b]] for [0 <= a] and [0 <= b]: the slice is clipped to the
    list. *)
Definition slice_of {A} (a b : nat) (l : list A) : list A :=
  take (b - a) (drop a l).

(** [l[a:b] = f(l[a:b])], elementwise. *)
Definition update_slice {A} (a b : nat) (f : A -> A) (l : list A)
  : list A :=
  (take a l ++ map f (slice_of a b l) ++ drop (Nat.max a b) l)%list.

(** [l[-m:]] for [m > 0]. *)
Definition last_entries {A} (m : nat) (l : list A) : list A :=
  drop (length l - m) l.

(** [np.mean(np.abs(v))]: NaN for an empty [v]. *)
Definition mean_abs (v : Num.vec) : Num.fnum :=
  Num.fdiv (Num.vsum (map Num.fabs v))
           (Num.Fin (inject_Z (Z.of_nat (length v)))).

(** The argument [delta] of [harmonic_wise_conditioning]: a Python
    float, or anything else, which numpy reads as an array; a scalar
    that is not of type [float] is an array with one entry. *)
Inductive delta_arg : Type :=
| DeltaFloat (d : Num.fnum)
| DeltaArray (d : Num.vec).

(** [for hindex in range(len(h))], from [hindex] with the harmonics
    [hs = h[hindex:]] left. *)
Fixpoint conditioning_loop (X : Num.vec) (Ndof : nat) (hs : list nat)
    (hindex haszero : nat) (CtoP : Num.vec) : result Num.vec :=
  match hs with
  | [] => Ok CtoP
  | k :: rest =>
      '(a, b, haszero') ←
        (if Nat.eqb k 0 then
           if Nat.eqb hindex 0 then Ok (0, Ndof, 1)%nat
           else Raise (AssertionError "Zeroth harmonic must be first.")
         else Ok (((2 * hindex - haszero) * Ndof)%nat,
                  ((2 * hindex + 2 - haszero) * Ndof)%nat, haszero));
      let mean := mean_abs (slice_of a b X) in
      conditioning_loop X Ndof rest (S hindex) haszero'
        (update_slice a b (fun c => Num.fmaximum c mean) CtoP)
  end.

(** The initial [CtoP] for a [delta] that is not a float:
    [np.ones((Ndof*2, h.shape[0]+extras))*np.atleast_2d(delta)],
    flattened by columns, without its first [Ndof*h0] entries, and cut
    at [m-2*Ndof] when there are extras. *)
Definition delta_columns (Ndof : nat) (h : list nat) (m : Z)
    (d : Num.vec) : result Num.vec :=
  h0 ← (match h with [] => Raise IndexError
        | k :: _ => Ok (Nat.eqb k 0) end);
  let extras := (0 <? m)%Z in
  let cols := (length h + (if extras then 1 else 0))%nat in
  row ← (if Nat.eqb (length d) cols then Ok d
         else if Nat.eqb (length d) 1 then Ok (flat_map (fun x => repeat x cols) d)
         else if Nat.eqb cols 1 then Ok d
         else Raise ValueError);
  let CtoP := drop (Ndof * (if h0 : bool then 1 else 0))
                (flat_map (fun x => repeat x (Ndof * 2)) row) in
  if extras then
    let stop := (m - 2 * Z.of_nat Ndof)%Z in
    if (stop <? 0)%Z then Ok (take (length CtoP - Z.to_nat (- stop)) CtoP)
    else Ok (take (Z.to_nat stop) CtoP)
  else Ok CtoP.

(** [CtoP[-m:] = np.maximum(CtoP[-m:], np.abs(X[-m:]))]: the two slices
    have one length, or one of them has a single entry and is
    broadcast, and the result must fit the slice of [CtoP]. *)
Definition condition_extras (X : Num.vec) (m : nat) (CtoP : Num.vec)
  : result Num.vec :=
  let tailC := last_entries m CtoP in
  let tailX := map Num.fabs (last_entries m X) in
  let head := take (length CtoP - m) CtoP in
  if Nat.eqb (length tailC) (length tailX)
  then Ok (head ++ Num.vzip Num.fmaximum tailC tailX)%list
  else
    match tailX with
    | [x] => Ok (head ++ map (fun c => Num.fmaximum c x) tailC)%list
    | _ => Raise ValueError
    end.

(** [harmonic_wise_conditioning] *)
Definition harmonic_wise_conditioning (X : Num.vec) (Ndof : nat)
    (h : list nat) (delta : delta_arg) : result Num.vec :=
  nhc ← Nhc h;
  let m := (Z.of_nat (length X) - Z.of_nat (nhc * Ndof))%Z in
  let extras := (0 <? m)%Z in
  CtoP ← match delta with
         | DeltaFloat d => Ok (map (fun _ => d) X)
         | DeltaArray d => delta_columns Ndof h m d
         end;
  CtoP ← conditioning_loop X Ndof h 0 0 CtoP;
  if extras then condition_extras X (Z.to_nat m) CtoP else Ok CtoP.

(** [zero_crossing]: [X[:-1]*X[1:] < 0] with [False] appended, and
    [abs(X) < zero_tol]. *)
Definition zero_crossing (X : Num.vec) (zero_tol : Num.fnum) : list bool :=
  let TF := (map (fun p => Num.flt (Num.fmul (fst p) (snd p)) (Num.Fin 0))
               (combine (removelast X) (tail X)) ++ [false])%list in
  map (fun p => andb (fst p) (snd p))
      (combine (map (fun x => Num.flt (Num.fabs x) zero_tol) X) TF).

(** [shift_pm_pi], on exact reals: first the entries above [pi] are
    lowered by a turn, then the entries at or below [-pi] are raised by
    one. *)
Definition shift_pm_pi (phase : list R) : list R :=
  let phase := map (fun x => if Rlt_dec PI x then x - 2 * PI else x) phase in
  map (fun x => if Rle_dec x (- PI) then x + 2 * PI else x) phase.

End Harmonic.

(** ** Force elements

    [tmdsimpy/jax/nlforces/jenkins_element.py] and
    [tmdsimpy/jax/nlforces/roughcontact/rough_contact.py]. *)

Module Forces.
Import Num.

(** *** Methods

    A method of an object of class [S] reads and assigns the attributes
    of [self], and returns or raises; what it assigned before it raised
    stays assigned. *)
Definition method (S A : Type) : Type := S -> result A * S.

Global Instance method_ret {S} : MRet (method S) := fun A a s => (Ok a, s).

Global Instance method_bind {S} : MBind (method S) := fun A B k m s =>
  match m s with
  | (Ok a, s') => k a s'
  | (Raise e, s') => (Raise e, s')
  end.

(** [self.f] *)
Definition attr {S A} (f : S -> A) : method S A := fun s => (Ok (f s), s).

(** [self.x = v], as the update [f] of the object. *)
Definition assign {S} (f : S -> S) : method S unit := fun s => (Ok tt, f s).

(** A call of a function that is not a method of the object. *)
Definition call {S A} (r : result A) : method S A := fun s => (r, s).

(** A method that assigns nothing. *)
Definition read_only {S A} (m : method S A) : Prop :=
  forall s, snd (m s) = s.

(** *** Arrays *)

Definition tabulate {A} (n : nat) (f : nat -> A) : list A := map f (seq 0 n).

Definition table (r c : nat) (f : nat -> nat -> fnum) : mat :=
  tabulate r (fun i => tabulate c (f i)).

Definition item (v : vec) (i : nat) : fnum := nth i v (Fin 0).
Definition row (m : mat) (i : nat) : vec := nth i m [].
Definition entry (m : mat) (i j : nat) : fnum := item (row m i) j.

Definition shape0 (m : mat) : nat := length m.
Definition shape1 (m : mat) : nat := length (row m 0).

(** [m[-1, :]]; indexing an array without rows raises. *)
Definition last_row (m : mat) : result vec :=
  match m with
  | [] => Raise IndexError
  | _ => Ok (row m (length m - 1))
  end.

(** [v[-1]] *)
Definition last_item (v : vec) : result fnum :=
  match v with
  | [] => Raise IndexError
  | _ => Ok (item v (length v - 1))
  end.

(** [m[i - 1, :]] for [i] in [0 .. Nt - 1]: the index [-1] is the last
    row. *)
Definition row_before (m : mat) (i : nat) : vec :=
  match i with
  | O => row m (length m - 1)
  | S j => row m j
  end.

(** [m.at[i, :].set(v)] and [m[i, :] = v] for [i] in range. *)
Definition set_row (m : mat) (i : nat) (v : vec) : mat :=
  tabulate (length m) (fun k => if Nat.eqb k i then v else row m k).

Definition zeros_like (m : mat) : mat := map (map (fun _ => Fin 0)) m.

Definition transpose (m : mat) : mat :=
  table (shape1 m) (shape0 m) (fun i j => entry m j i).

(** [np.reshape(v, (r, c), 'F')]: the first index changes fastest. *)
Definition reshape_F (v : vec) (r c : nat) : result mat :=
  if Nat.eqb (length v) (r * c)
  then Ok (table r c (fun i j => item v (i + r * j)))
  else Raise ValueError.

(** [jnp.reshape(v, (r, c), 'F')], which raises a [TypeError] where
    numpy raises a [ValueError]. *)
Definition jnp_reshape_F (v : vec) (r c : nat) : result mat :=
  if Nat.eqb (length v) (r * c)
  then Ok (table r c (fun i j => item v (i + r * j)))
  else Raise TypeError.

(** [np.reshape(v, (r, c))]: the last index changes fastest. *)
Definition reshape_C (v : vec) (r c : nat) : result mat :=
  if Nat.eqb (length v) (r * c)
  then Ok (table r c (fun i j => item v (i * c + j)))
  else Raise ValueError.

(** [np.reshape(m, (-1,), 'F')]: the columns of [m] one after the other. *)
Definition ravel_F (m : mat) : vec :=
  concat (transpose m).

(** [np.reshape(m, (n,), 'F')] *)
Definition flatten_F (m : mat) (n : nat) : result vec :=
  if Nat.eqb (shape0 m * shape1 m) n then Ok (ravel_F m) else Raise ValueError.

(** [a @ v] and [a @ b]; the inner dimensions have to agree. *)
Definition matvec (a : mat) (v : vec) : result vec :=
  if Nat.eqb (shape1 a) (length v)
  then Ok (map (fun r => dot r v) a)
  else Raise ValueError.

Definition vecmat (v : vec) (b : mat) : result vec :=
  if Nat.eqb (length v) (shape0 b)
  then Ok (map (fun c => dot v c) (transpose b))
  else Raise ValueError.

Definition matmul (a b : mat) : result mat :=
  if Nat.eqb (shape1 a) (shape0 b)
  then Ok (map (fun r => map (fun c => dot r c) (transpose b)) a)
  else Raise ValueError.

(** [np.kron(np.eye(n), m)]: [n] copies of [m] on the diagonal. *)
Definition kron_eye (n : nat) (m : mat) : mat :=
  table (n * shape0 m) (n * shape1 m) (fun i j =>
    if Nat.eqb (i / shape0 m) (j / shape1 m)
    then entry m (i mod shape0 m) (j mod shape1 m)
    else Fin 0).

(** [m[:, :-1]] and [m[:, -1]] *)
Definition but_last_column (m : mat) : mat := map (fun r => removelast r) m.

Definition last_column (m : mat) : result vec :=
  if Nat.eqb (shape1 m) 0 then Raise IndexError
  else Ok (map (fun r => item r (length r - 1)) m).

(** An operation on a row and an array of one entry, or on two rows of
    one length, as numpy broadcasts them. *)
Definition broadcast (f : fnum -> fnum -> fnum) (u v : vec) : result vec :=
  match v with
  | [x] => Ok (map (fun a => f a x) u)
  | _ => if Nat.eqb (length u) (length v) then Ok (vzip f u v)
         else Raise ValueError
  end.

(** [jax.lax.fori_loop(0, n, body, init)] *)
Definition fori_loop {A} (n : nat) (body : nat -> A -> A) (init : A) : A :=
  fold_left (fun acc i => body i acc) (seq 0 n) init.

(** [int(a / b)] of two natural numbers *)
Definition int_div (a b : nat) : result nat :=
  if Nat.eqb b 0 then Raise ZeroDivisionError else Ok (a / b)%nat.

(** *** What the elements call

    The functions of JAX and of the modules [jax/harmonic_utils.py] and
    [roughcontact/_asperity_functions.py] are functions of their
    arguments: [jax.jit] and [jax.jacfwd] trace them as such. *)

(** The four arrays [(fn, a, deltabar, Rebar)] of the asperities in the
    normal direction. *)
Definition normal_state : Type := vec * vec * vec * vec.

Class Kernels : Type := {
  (** [jhutils.time_series_deriv(Nt, h, X0, order)] *)
  jh_time_series_deriv : nat -> list nat -> mat -> nat -> result mat;
  (** [jhutils.get_fourier_coeff(h, x_t)] *)
  jh_get_fourier_coeff : list nat -> mat -> result mat;
  (** [jax.jacfwd(f, has_aux=True)(x)] *)
  jacfwd : forall Aux : Type,
    (vec -> result (vec * Aux)) -> vec -> result (mat * Aux);
  (** [asp_funs._normal_asperity_general(un, deltam, Fm, Re, Possion,
      Estar, Emod, Etan, delta_y, Sys)] *)
  _normal_asperity_general :
    vec -> vec -> vec ->
    fnum -> fnum -> fnum -> fnum -> fnum -> fnum -> fnum -> normal_state;
  (** [asp_funs._normal_asperity_unloading(un, deltam, Fm, Re, Estar)] *)
  _normal_asperity_unloading :
    vec -> vec -> vec -> fnum -> fnum -> normal_state;
  (** [asp_funs._tangential_asperity(uxy, uxy0, fxy0, fn, a, Gstar, mu)] *)
  _tangential_asperity :
    vec -> vec -> mat -> vec -> vec -> fnum -> fnum -> mat;
  (** [asp_funs._tangential_asperity_mif(uxy, uxy0, fxy0, fn, a, Gstar,
      mu, rquad0, wquad)] *)
  _tangential_asperity_mif :
    vec -> vec -> mat -> vec -> vec -> fnum -> fnum -> mat -> vec -> mat * mat
}.
Arguments jacfwd {_ Aux} f x.

(** The transformation to local coordinates that the two [aft] methods
    start with: [Nhc], [Ulocal], [Ndnl] and [Uwlocal]. *)
Definition to_local (Q : mat) (U : vec) (w : fnum) (h : list nat)
    : result (nat * mat * nat * vec) :=
  let Nhc := Harmonic.count_components h in
  Ucols ← reshape_F U (shape1 Q) Nhc;
  QU ← matmul Q Ucols;
  let Ulocal := transpose QU in
  let Ndnl := shape0 Q in
  flat ← flatten_F (transpose Ulocal) (Ndnl * Nhc);
  let Uwlocal := (flat ++ [w])%list in
  Ok (Nhc, Ulocal, Ndnl, Uwlocal).

(** The conversion to global coordinates that the two [aft] methods end
    with: [Fnl], [dFnldU] and [dFnldw]. *)
Definition to_global (Q T : mat) (U : vec) (Nhc Ndnl : nat)
    (Flocal dFdUwlocal : mat) : result (vec * mat * vec) :=
  TF ← matmul T Flocal;
  Fnl ← flatten_F TF (length U);
  J1 ← matmul (kron_eye Nhc T) (but_last_column dFdUwlocal);
  dFnldU ← matmul J1 (kron_eye Nhc Q);
  dw ← last_column dFdUwlocal;
  dwm ← reshape_C dw Ndnl Nhc;
  Tdw ← matmul T dwm;
  dFnldw ← flatten_F Tdw (length U);
  Ok (Fnl, dFnldU, dFnldw).

(** *** The Jenkins element *)

Module Jenkins.

Record JenkinsForce : Type := {
  Q : mat;
  T : mat;
  kt : fnum;
  Fs : fnum;
  prestress_Fs : fnum;
  real_Fs : fnum;
  u0 : option fnum
}.

Definition __init__ (Q T : mat) (kt Fs : fnum) (u0 : option fnum)
    : JenkinsForce :=
  {| Q := Q; T := T; kt := kt; Fs := Fs; prestress_Fs := Fin 0;
     real_Fs := Fs; u0 := u0 |}.

Definition with_Fs (v : fnum) (self : JenkinsForce) : JenkinsForce :=
  {| Q := Q self; T := T self; kt := kt self; Fs := v;
     prestress_Fs := prestress_Fs self; real_Fs := real_Fs self;
     u0 := u0 self |}.

Definition nl_force_type : method JenkinsForce nat := mret 1%nat.

Definition set_prestress_mu : method JenkinsForce unit :=
  v ← attr prestress_Fs; assign (with_Fs v).

Definition reset_real_mu : method JenkinsForce unit :=
  v ← attr real_Fs; assign (with_Fs v).

(** [_local_jenkins_loop_body] *)
Definition _local_jenkins_loop_body (ind : nat) (ft unlt : mat)
    (kt Fs : fnum) : mat :=
  let fcurr :=
    map (fun f => fminimum f Fs)
        (vadd (vscale kt (vsub (row unlt ind) (row_before unlt ind)))
              (row_before ft ind)) in
  set_row ft ind (map (fun f => fmaximum f (fneg Fs)) fcurr).

Section Local.
Context `{Kernels}.

(** [_local_aft_jenkins]; [u0] is the array or the number that [aft]
    passes, a number being an array of one entry. *)
Definition _local_aft_jenkins (pars : vec) (u0 : vec) (htuple : list nat)
    (Nt : nat) (u0h0 : bool) (Uwlocal : vec) : result (vec * vec) :=
  Nhc ← Harmonic.Nhc htuple;
  Ndnl ← int_div (length Uwlocal) Nhc;
  let kt := item pars 0 in
  let Fs := item pars 1 in
  Ucols ← jnp_reshape_F (removelast Uwlocal) Ndnl Nhc;
  let Ulocal := transpose Ucols in
  unlt ← jh_time_series_deriv Nt htuple Ulocal 0;
  let ft := zeros_like unlt in
  let u0 := if u0h0 then firstn 1 (row Ulocal 0) else u0 in
  ulast ← last_row unlt;
  d ← broadcast fsub ulast u0;
  let ft := set_row ft (length ft - 1) (vscale kt d) in
  let loop_fun := fun i f => _local_jenkins_loop_body i f unlt kt Fs in
  let ft := fori_loop 2 (fun _ f => fori_loop Nt loop_fun f) ft in
  Fl ← jh_get_fourier_coeff htuple ft;
  let Flocal := ravel_F (transpose Fl) in
  Ok (Flocal, Flocal).

(** [_local_aft_jenkins_grad] *)
Definition _local_aft_jenkins_grad (Uwlocal pars u0 : vec)
    (htuple : list nat) (Nt : nat) (u0h0 : bool) : result (mat * vec) :=
  jacfwd (_local_aft_jenkins pars u0 htuple Nt u0h0) Uwlocal.

(** [JenkinsForce.aft]; the argument [tol] is ignored. *)
Definition aft (U : vec) (w : fnum) (h : list nat) (Nt : nat) (tol : fnum)
    : method JenkinsForce (vec * mat * vec) :=
  Q_ ← attr Q;
  '(Nhc, Ulocal, Ndnl, Uwlocal) ← call (to_local Q_ U w h);
  self_u0 ← attr u0;
  let '(u0, u0h0) :=
    match self_u0 with
    | None => (row Ulocal 0, true)
    | Some x => ([x], false)
    end in
  kt_ ← attr kt;
  Fs_ ← attr Fs;
  let pars := [kt_; Fs_] in
  '(dFdUwlocal, Flocal) ←
    call (_local_aft_jenkins_grad Uwlocal pars u0 h Nt u0h0);
  Flocal ← call (jnp_reshape_F Flocal Ndnl Nhc);
  T_ ← attr T;
  Q_ ← attr Q;
  call (to_global Q_ T_ U Nhc Ndnl Flocal dFdUwlocal).

End Local.

(** The two passes through the hysteresis loop in [_local_aft_jenkins]:
    [for out_ind in range(2): ft = jax.lax.fori_loop(0, Nt, loop_fun, ft)]. *)
Definition hysteresis_loops (passes Nt : nat) (unlt : mat) (kt Fs : fnum)
    (ft : mat) : mat :=
  fori_loop passes
    (fun _ f =>
       fori_loop Nt (fun i f => _local_jenkins_loop_body i f unlt kt Fs) f)
    ft.

(** A force sample that respects the slip limit: between [-Fs] and
    [Fs], or not a number. *)
Definition within_slip_limit (Fs f : fnum) : Prop :=
  isnan f = true \/ (fle (fneg Fs) f = true /\ fle f Fs = true).

End Jenkins.

(** *** The rough contact element *)

Module RoughContact.

Record RoughContactFriction : Type := {
  Q : mat;
  T : mat;
  elastic_mod : fnum;
  poisson : fnum;
  Re : fnum;
  tangent_mod : fnum;
  sys : fnum;
  mu : fnum;
  real_mu : fnum;
  prestress_mu : fnum;
  tangent_model : string;
  u0 : fnum;
  Estar : fnum;
  shear_mod : fnum;
  Gstar : fnum;
  delta_y : fnum;
  meso_gap : fnum;
  gaps : vec;
  gap_weights : vec;
  uxyn_initialize : vec;
  (* history *)
  unmax : fnum;
  Fm_prev : vec;
  fxy0 : mat;
  uxyn0 : vec
}.

Definition with_mu (v : fnum) (self : RoughContactFriction)
    : RoughContactFriction :=
  {| Q := Q self; T := T self; elastic_mod := elastic_mod self;
     poisson := poisson self; Re := Re self;
     tangent_mod := tangent_mod self; sys := sys self; mu := v;
     real_mu := real_mu self; prestress_mu := prestress_mu self;
     tangent_model := tangent_model self; u0 := u0 self;
     Estar := Estar self; shear_mod := shear_mod self;
     Gstar := Gstar self; delta_y := delta_y self;
     meso_gap := meso_gap self; gaps := gaps self;
     gap_weights := gap_weights self;
     uxyn_initialize := uxyn_initialize self; unmax := unmax self;
     Fm_prev := Fm_prev self; fxy0 := fxy0 self; uxyn0 := uxyn0 self |}.

Definition with_uxyn_initialize (v : vec) (self : RoughContactFriction)
    : RoughContactFriction :=
  {| Q := Q self; T := T self; elastic_mod := elastic_mod self;
     poisson := poisson self; Re := Re self;
     tangent_mod := tangent_mod self; sys := sys self; mu := mu self;
     real_mu := real_mu self; prestress_mu := prestress_mu self;
     tangent_model := tangent_model self; u0 := u0 self;
     Estar := Estar self; shear_mod := shear_mod self;
     Gstar := Gstar self; delta_y := delta_y self;
     meso_gap := meso_gap self; gaps := gaps self;
     gap_weights := gap_weights self;
     uxyn_initialize := v; unmax := unmax self;
     Fm_prev := Fm_prev self; fxy0 := fxy0 self; uxyn0 := uxyn0 self |}.

(** The four history attributes, assigned together. *)
Definition with_history (unmax' : fnum) (Fm_prev' : vec) (fxy0' : mat)
    (uxyn0' : vec) (self : RoughContactFriction) : RoughContactFriction :=
  {| Q := Q self; T := T self; elastic_mod := elastic_mod self;
     poisson := poisson self; Re := Re self;
     tangent_mod := tangent_mod self; sys := sys self; mu := mu self;
     real_mu := real_mu self; prestress_mu := prestress_mu self;
     tangent_model := tangent_model self; u0 := u0 self;
     Estar := Estar self; shear_mod := shear_mod self;
     Gstar := Gstar self; delta_y := delta_y self;
     meso_gap := meso_gap self; gaps := gaps self;
     gap_weights := gap_weights self;
     uxyn_initialize := uxyn_initialize self; unmax := unmax';
     Fm_prev := Fm_prev'; fxy0 := fxy0'; uxyn0 := uxyn0' |}.

Definition nl_force_type : method RoughContactFriction nat := mret 1%nat.

Definition init_history : method RoughContactFriction unit :=
  w ← attr gap_weights;
  assign (with_history (Fin 0) (map (fun _ => Fin 0) w)
            (map (fun _ => [Fin 0; Fin 0]) w) [Fin 0; Fin 0; Fin 0]).

Definition update_history (uxyn Fm_curr : vec) (fxy_curr : mat)
    : method RoughContactFriction unit :=
  un ← call (last_item uxyn);
  old ← attr unmax;
  assign (with_history (fmaximum un old) Fm_curr fxy_curr uxyn).

Definition set_prestress_mu : method RoughContactFriction unit :=
  v ← attr prestress_mu; assign (with_mu v).

Definition reset_real_mu : method RoughContactFriction unit :=
  v ← attr real_mu; assign (with_mu v).

Definition set_aft_initialize (X : vec) : method RoughContactFriction unit :=
  Q_ ← attr Q;
  v ← call (matvec Q_ X);
  assign (with_uxyn_initialize v).

(** [x - meso_gap - gaps] *)
Definition asperity_gap (x meso_gap : fnum) (gaps : vec) : vec :=
  map (fun g => fsub (fsub x meso_gap) g) gaps.

(** [(fxyn, Fm_prev, fxy_curr, deltabar, Rebar, a)] *)
Definition static_aux : Type := vec * vec * mat * vec * vec * vec.

(** The outputs of [aft]: [(Fnl, dFnldU, dFnldw)], [(Fnl,)], and with
    [return_local] the local [(Flocal, dFdU, dFdw)] and [(Flocal,)]. *)
Inductive aft_output : Type :=
| Global3 (Fnl : vec) (dFnldU : mat) (dFnldw : vec)
| Global1 (Fnl : vec)
| Local3 (Flocal : mat) (dFdU : mat) (dFdw : vec)
| Local1 (Flocal : mat).

(** The history tuple of [_local_loop_body]:
    [(fxyn_t, uxyn0, fxy0, deltam, Fm, rquad0)]. *)
Definition loop_history : Type := mat * vec * mat * vec * vec * mat.

(** [r.at[:2].set(v)] and [r.at[-1].set(x)] on a row [r] *)
Definition set_first_two (r v : vec) : vec := (v ++ skipn 2 r)%list.
Definition set_last (r : vec) (x : fnum) : vec := (removelast r ++ [x])%list.

Section Local.
Context `{Kernels}.

(** [_static_force] *)
Definition _static_force (uxyn0 : vec) (fxy0 : mat) (unmax : fnum)
    (Fm_prev : vec) (mu meso_gap : fnum) (gaps gap_weights : vec)
    (Re Possion Estar Emod Etan delta_y Sys Gstar : fnum) (uxyn : vec)
    : result (vec * static_aux) :=
  let deltam := asperity_gap unmax meso_gap gaps in
  un_last ← last_item uxyn;
  let un := asperity_gap un_last meso_gap gaps in
  let '(fn_curr, a, deltabar, Rebar) :=
    _normal_asperity_general un deltam Fm_prev
      Re Possion Estar Emod Etan delta_y Sys in
  let fxy_curr :=
    _tangential_asperity (firstn 2 uxyn) (firstn 2 uxyn0) fxy0
      fn_curr a Gstar mu in
  let Fm_prev := vzip fmaximum fn_curr Fm_prev in
  fn_total ← (if Nat.eqb (length fn_curr) (length gap_weights)
              then Ok (dot fn_curr gap_weights) else Raise ValueError);
  fxy_total ← vecmat gap_weights fxy_curr;
  let fxyn := set_first_two (set_last [Fin 0; Fin 0; Fin 0] fn_total)
                fxy_total in
  Ok (fxyn, (fxyn, Fm_prev, fxy_curr, deltabar, Rebar, a)).

(** [_static_force_grad] *)
Definition _static_force_grad (uxyn uxyn0 : vec) (fxy0 : mat)
    (unmax : fnum) (Fm_prev : vec) (mu meso_gap : fnum)
    (gaps gap_weights : vec)
    (Re Possion Estar Emod Etan delta_y Sys Gstar : fnum)
    : result (mat * vec * static_aux) :=
  '(J, aux) ← jacfwd (_static_force uxyn0 fxy0 unmax Fm_prev mu meso_gap
                        gaps gap_weights Re Possion Estar Emod Etan
                        delta_y Sys Gstar) uxyn;
  let '(F, _, _, _, _, _) := aux in
  Ok (J, F, aux).

(** [RoughContactFriction.force] *)
Definition force (X : vec) (update_hist return_aux : bool)
    : method RoughContactFriction
        (vec * mat * option (vec * mat * vec * vec * vec)) :=
  Q_ ← attr Q;
  uxyn ← call (matvec Q_ X);
  self ← attr (fun self => self);
  '(dfnldunl, fnl, aux) ←
    call (_static_force_grad uxyn (uxyn0 self) (fxy0 self) (unmax self)
            (Fm_prev self) (mu self) (meso_gap self) (gaps self)
            (gap_weights self) (Re self) (poisson self) (Estar self)
            (elastic_mod self) (tangent_mod self) (delta_y self)
            (sys self) (Gstar self));
  let '(_, Fm_curr, fxy_curr, deltabar, Rebar, a) := aux in
  T_ ← attr T;
  F ← call (matvec T_ fnl);
  Td ← call (matmul T_ dfnldunl);
  Q_ ← attr Q;
  dFdX ← call (matmul Td Q_);
  _ ← (if update_hist then update_history uxyn Fm_curr fxy_curr
       else mret tt);
  if return_aux
  then mret (F, dFdX, Some (Fm_curr, fxy_curr, deltabar, Rebar, a))
  else mret (F, dFdX, None).

(** [_local_loop_body]; a [tangent_model] other than ['TAN'] and ['MIF']
    leaves [fxy_curr] unbound. *)
Definition _local_loop_body (ind : nat) (history : loop_history)
    (unlt : mat) (mu meso_gap : fnum) (gaps gap_weights : vec)
    (Re Estar Gstar : fnum) (tangent_model : string) (wquad : vec)
    : result loop_history :=
  let '(fxyn_t, uxyn0, fxy0, deltam, Fm, rquad0) := history in
  let un := asperity_gap (entry unlt ind 2) meso_gap gaps in
  let '(fn_curr, a, deltabar, Rebar) :=
    _normal_asperity_unloading un deltam Fm Re Estar in
  '(fxy_curr, rquad_curr) ←
    (if String.eqb tangent_model "TAN"
     then Ok (_tangential_asperity (firstn 2 (row unlt ind))
                (firstn 2 uxyn0) fxy0 fn_curr a Gstar mu, rquad0)
     else if String.eqb tangent_model "MIF"
     then Ok (_tangential_asperity_mif (firstn 2 (row unlt ind))
                (firstn 2 uxyn0) fxy0 fn_curr a Gstar mu rquad0 wquad)
     else Raise (NameError "fxy_curr"));
  fxy_total ← vecmat gap_weights fxy_curr;
  let fxyn_t := set_row fxyn_t ind
                  (set_first_two (row fxyn_t ind) fxy_total) in
  fn_total ← (if Nat.eqb (length fn_curr) (length gap_weights)
              then Ok (dot fn_curr gap_weights) else Raise ValueError);
  let fxyn_t := set_row fxyn_t ind (set_last (row fxyn_t ind) fn_total) in
  Ok (fxyn_t, row unlt ind, fxy_curr, deltam, Fm, rquad_curr).

(** [unlt[:, -1].max()] *)
Definition max_last_column (m : mat) : result fnum :=
  c ← last_column m;
  match c with
  | [] => Raise ValueError
  | x :: rest => Ok (fold_left fmaximum rest x)
  end.

(** [_local_force_history] *)
Definition _local_force_history (unlt : mat) (unlth0 : vec)
    (mu meso_gap : fnum) (gaps gap_weights : vec)
    (Re Possion Estar Emod Etan delta_y Sys Gstar : fnum)
    (repeats : nat) (tangent_model : string) : result mat :=
  let Nt := shape0 unlt in
  unmax ← max_last_column unlt;
  let Fm_prev := map (fun _ => Fin 0) gap_weights in
  let deltam := asperity_gap (Fin 0) meso_gap gaps in
  let unmax_asp := asperity_gap unmax meso_gap gaps in
  let '(fn, a, deltabar, Rebar) :=
    _normal_asperity_general unmax_asp deltam Fm_prev
      Re Possion Estar Emod Etan delta_y Sys in
  let fxy0 := map (fun _ => [Fin 0; Fin 0]) gap_weights in
  let uxyn0 := vscale (Fin 1) unlth0 in
  let fxyn_t := table Nt 3 (fun _ _ => Fin 0) in
  '(rquad, wquad) ←
    (if String.eqb tangent_model "TAN" then Ok ([], [])
     else if String.eqb tangent_model "MIF"
     then Raise (AssertionError "Need to initialize rquad, wquad here.")
     else Raise (NameError "rquad"));
  let loop_fun := fun i (hist : result loop_history) =>
    hist ← hist;
    _local_loop_body i hist unlt mu meso_gap gaps gap_weights
      Re Estar Gstar tangent_model wquad in
  history ← fori_loop repeats (fun _ hist => fori_loop Nt loop_fun hist)
              (Ok (fxyn_t, uxyn0, fxy0, unmax_asp, fn, rquad));
  let '(fxyn_t, _, _, _, _, _) := history in
  Ok fxyn_t.

(** [_local_aft] *)
Definition _local_aft (unlth0 : vec) (mu meso_gap : fnum)
    (gaps gap_weights : vec)
    (Re Possion Estar Emod Etan delta_y Sys Gstar : fnum)
    (htuple : list nat) (Nt repeats : nat) (tangent_model : string)
    (Uwlocal : vec) : result (vec * vec) :=
  Nhc ← Harmonic.Nhc htuple;
  Ndnl ← int_div (length Uwlocal) Nhc;
  Ucols ← jnp_reshape_F (removelast Uwlocal) Ndnl Nhc;
  let Ulocal := transpose Ucols in
  unlt ← jh_time_series_deriv Nt htuple Ulocal 0;
  ft ← _local_force_history unlt unlth0 mu meso_gap gaps gap_weights
         Re Possion Estar Emod Etan delta_y Sys Gstar repeats
         tangent_model;
  Fl ← jh_get_fourier_coeff htuple ft;
  let Flocal := ravel_F (transpose Fl) in
  Ok (Flocal, Flocal).

(** [_local_aft_grad] *)
Definition _local_aft_grad (Uwlocal unlth0 : vec) (mu meso_gap : fnum)
    (gaps gap_weights : vec)
    (Re Possion Estar Emod Etan delta_y Sys Gstar : fnum)
    (htuple : list nat) (Nt repeats : nat) (tangent_model : string)
    : result (mat * vec) :=
  jacfwd (_local_aft unlth0 mu meso_gap gaps gap_weights Re Possion Estar
            Emod Etan delta_y Sys Gstar htuple Nt repeats tangent_model)
    Uwlocal.

(** [RoughContactFriction.local_force_history]; [unltdot], [h], [cst],
    [atol] and [rtol] are ignored. *)
Definition local_force_history (unlt : mat) (unlth0 : vec)
    (max_repeats : nat) : method RoughContactFriction mat :=
  self ← attr (fun self => self);
  call (_local_force_history unlt unlth0 (mu self) (meso_gap self)
          (gaps self) (gap_weights self) (Re self) (poisson self)
          (Estar self) (elastic_mod self) (tangent_mod self)
          (delta_y self) (sys self) (Gstar self) max_repeats
          (tangent_model self)).

(** [RoughContactFriction.aft]; the argument [tol] is ignored. *)
Definition aft (U : vec) (w : fnum) (h : list nat) (Nt : nat) (tol : fnum)
    (max_repeats : nat) (return_local calc_grad : bool)
    : method RoughContactFriction aft_output :=
  Q_ ← attr Q;
  '(Nhc, Ulocal, Ndnl, Uwlocal) ← call (to_local Q_ U w h);
  self ← attr (fun self => self);
  '(dFdUwlocal, Flocal) ←
    (if calc_grad
     then call (_local_aft_grad Uwlocal (uxyn_initialize self) (mu self)
                  (meso_gap self) (gaps self) (gap_weights self) (Re self)
                  (poisson self) (Estar self) (elastic_mod self)
                  (tangent_mod self) (delta_y self) (sys self)
                  (Gstar self) h Nt max_repeats (tangent_model self))
     else
       '(Flocal, _) ←
         call (_local_aft (uxyn_initialize self) (mu self)
                 (meso_gap self) (gaps self) (gap_weights self) (Re self)
                 (poisson self) (Estar self) (elastic_mod self)
                 (tangent_mod self) (delta_y self) (sys self)
                 (Gstar self) h Nt max_repeats (tangent_model self)
                 Uwlocal);
       mret ([], Flocal));
  Flocal ← call (jnp_reshape_F Flocal Ndnl Nhc);
  if return_local
  then
    if calc_grad
    then
      dw ← call (last_column dFdUwlocal);
      mret (Local3 Flocal (but_last_column dFdUwlocal) dw)
    else mret (Local1 Flocal)
  else
    T_ ← attr T;
    if calc_grad
    then
      Q_ ← attr Q;
      '(Fnl, dFnldU, dFnldw) ←
        call (to_global Q_ T_ U Nhc Ndnl Flocal dFdUwlocal);
      mret (Global3 Fnl dFnldU dFnldw)
    else
      TF ← call (matmul T_ Flocal);
      Fnl ← call (flatten_F TF (length U));
      mret (Global1 Fnl).

End Local.

(** A method that assigns at most the four history attributes. *)
Definition history_only {A} (m : method RoughContactFriction A) : Prop :=
  forall s, snd (m s) = s
            \/ exists a b c d, snd (m s) = with_history a b c d s.

End RoughContact.

End Forces.

(** ** The Jenkins slider, sample by sample

    Notions for the analysis of the hysteresis loop of
    [_local_aft_jenkins]. *)

Module SliderAnalysis.
Import Num.
Local Open Scope Q_scope.

(** The value of a finite scalar. *)
Definition qval (a : fnum) : Q := match a with Fin q => q | _ => 0 end.

Definition finite (a : fnum) : bool :=
  match a with Fin _ => true | _ => false end.

(** [max(min(y, b), a)] on the rationals. *)
Definition med (a y b : Q) : Q :=
  let m := if Qlt_le_dec b y then b else y in
  if Qlt_le_dec m a then a else m.

(** One sample of one slider: the force [x] of the sample before, the
    displacements [u] and [uprev] of the sample and of the one before. *)
Definition slide (kt Fs u uprev x : fnum) : fnum :=
  fmaximum (fminimum (fadd (fmul kt (fsub u uprev)) x) Fs) (fneg Fs).

(** The displacement of the sample before sample [i] in a cycle of [N]
    samples [U]. *)
Definition before (N : nat) (U : nat -> fnum) (i : nat) : fnum :=
  match i with
  | O => U (N - 1)%nat
  | S j => U j
  end.

(** The force after the first [n] samples of a cycle that is entered
    with the force [x]. *)
Fixpoint run (kt Fs : fnum) (N : nat) (U : nat -> fnum) (n : nat)
    (x : fnum) : fnum :=
  match n with
  | O => x
  | S n' => slide kt Fs (U n') (before N U n') (run kt Fs N U n' x)
  end.

(** The row of forces at sample [i], from the row [p] of the sample
    before: the value that [_local_jenkins_loop_body] assigns. *)
Definition new_row (kt Fs : fnum) (unlt : mat) (i : nat) (p : vec) : vec :=
  map (fun f => fmaximum f (fneg Fs))
    (map (fun f => fminimum f Fs)
       (vadd (vscale kt (vsub (Forces.row unlt i) (Forces.row_before unlt i)))
             p)).

(** The displacement of sample [i] in column [c]. *)
Definition column (unlt : mat) (c i : nat) : fnum :=
  nth c (Forces.row unlt i) (Fin 0).

(** One pass through the hysteresis loop. *)
Definition pass (Nt : nat) (unlt : mat) (kt Fs : fnum) (ft : mat) : mat :=
  Forces.fori_loop Nt
    (fun i f => Forces.Jenkins._local_jenkins_loop_body i f unlt kt Fs) ft.

(** An array of [C] columns whose entries are finite. *)
Definition finite_rows (C : nat) (m : mat) : Prop :=
  Forall (fun r => length r = C /\ Forall (fun a => finite a = true) r) m.

End SliderAnalysis.


(** ** The solver as an object

    [nsolve] assigns [self.config['xtol']] for the duration of a call. *)

Module SolverObject.
Import Num Solvers Forces.

(** [NonlinearSolverOMP.nsolve] as a method of the solver object, whose
    state is [self.config]: the resolved [xtol] is written into the
    settings before the iteration, and the saved setting is written
    back before the return. An exception leaves the method in
    between. *)
Definition nsolve (qsqrt : Q -> Q) {factored : Type}
    (lin_factor : mat -> factored)
    (lin_factored_solve : factored -> vec -> vec)
    (fun_ : resfun) (X0 : vec) (xtol_arg : option fnum)
  : method config (vec * vec * mat * sol) :=
  xtol_setting ← attr xtol;
  xtol' ← attr (fun cfg => resolve_xtol cfg xtol_arg X0);
  _ ← assign (fun cfg => set_xtol cfg (Some xtol'));
  self_config ← attr (fun cfg => cfg);
  r ← call (match max_steps self_config with
            | O => Raise (NameError "r_curr")
            | S _ =>
                le ← loop qsqrt factored lin_factor lin_factored_solve
                       self_config fun_ (max_steps self_config) 0
                       (init_state factored lin_factor X0);
                finish factored self_config le
            end);
  _ ← assign (fun cfg => set_xtol cfg xtol_setting);
  mret r.

End SolverObject.

(** ** Continuation, [tmdsimpy/continuation.py] *)

Module Continuation.
Import Num.

(** *** The constructor *)

(** Python list objects live in a store, and a value that is a list is a
    reference into it: two names for one list see each other's
    updates. *)
Definition loc : Type := positive.
Abbreviation store := (gmap loc (list fnum)).

(** [a == b] on floats. *)
Definition feqb (a b : fnum) : bool :=
  match a, b with
  | Fin p, Fin q => Qeq_bool p q
  | PInf, PInf | NInf, NInf => true
  | _, _ => false
  end.

(** [len(l) > 0 and l[0] == x] *)
Definition starts_with (x : fnum) (l : list fnum) : bool :=
  match l with
  | [] => false
  | y :: _ => feqb y x
  end.

(** The residual scaling [self.RPtoC]: a scalar or a vector. *)
Inductive rptoc : Type :=
| RScalar (x : fnum)
| RVector (v : vec).

(** The dictionary [config] that the caller passes: every recognised key
    is present or absent. The value of ['FracLamList'] is a list
    object of the caller. *)
Record user_config : Type := {
  u_FracLam : option fnum;
  u_ds0 : option fnum;
  u_dsmax : option fnum;
  u_dsmin : option fnum;
  u_MaxSteps : option nat;
  u_TargetNfev : option fnum;
  u_DynamicCtoP : option bool;
  u_verbose : option Z;
  u_xtol : option (option fnum);
  u_corrector : option string;
  u_FracLamList : option loc;
  u_backtrackStop : option fnum;
  u_MaxIncrease : option fnum;
  u_nsolve_verbose : option bool;
  u_callback : option bool
}.

(** The empty dictionary [{}]. *)
Definition no_config : user_config := {|
  u_FracLam := None; u_ds0 := None; u_dsmax := None; u_dsmin := None;
  u_MaxSteps := None; u_TargetNfev := None; u_DynamicCtoP := None;
  u_verbose := None; u_xtol := None; u_corrector := None;
  u_FracLamList := None; u_backtrackStop := None; u_MaxIncrease := None;
  u_nsolve_verbose := None; u_callback := None
|}.

(** [self.config]: [default_config] after the keys of the caller's
    dictionary have been copied into it. [callback] tells whether a
    callback is set. *)
Record config : Type := {
  FracLam : fnum;
  ds0 : fnum;
  dsmax : fnum;
  dsmin : fnum;
  MaxSteps : nat;
  TargetNfev : fnum;
  DynamicCtoP : bool;
  verbose : Z;
  xtol : option fnum;
  corrector : string;
  FracLamList : loc;
  backtrackStop : fnum;
  MaxIncrease : fnum;
  nsolve_verbose : bool;
  callback : bool
}.

(** The Continuation object. [CtoP] has no value while [setCtoPto1]
    holds and no continuation has run; [CtoP0] has none before a
    continuation with dynamic conditioning. *)
Record continuation_object : Type := {
  setCtoPto1 : bool;
  CtoP : vec;
  setRPtoCto1 : bool;
  RPtoC : rptoc;
  CtoP0 : vec;
  cfg : config
}.

(** [for key in config.keys(): default_config[key] = config[key]], for
    the default list object [fresh_list] of ['FracLamList' : []]. *)
Definition merge_config (ds0_arg : fnum) (fresh_list : loc)
    (u : user_config) : config := {|
  FracLam := default (Fin (1 # 2)) (u_FracLam u);
  ds0 := default ds0_arg (u_ds0 u);
  dsmax := default (fmul (Fin 5) ds0_arg) (u_dsmax u);
  dsmin := default (fdiv ds0_arg (Fin 5)) (u_dsmin u);
  MaxSteps := default 500%nat (u_MaxSteps u);
  TargetNfev := default (Fin 20) (u_TargetNfev u);
  DynamicCtoP := default false (u_DynamicCtoP u);
  verbose := default 100%Z (u_verbose u);
  xtol := default None (u_xtol u);
  corrector := default "Ortho" (u_corrector u);
  FracLamList := default fresh_list (u_FracLamList u);
  backtrackStop := default PInf (u_backtrackStop u);
  MaxIncrease := default (Fin (12 # 10)) (u_MaxIncrease u);
  nsolve_verbose := default false (u_nsolve_verbose u);
  callback := default false (u_callback u)
|}.

(** [Continuation.__init__(solver, ds0, CtoP, RPtoC, config)] on the
    store [st]: the new object and the store after the call. The empty
    list of [default_config] is a new object, allocated here when the
    caller's dictionary does not replace it. A reference of the
    caller's dictionary always has its list in the store. *)
Definition __init__ (st : store) (ds0_arg : fnum) (CtoP_arg : option vec)
    (RPtoC_arg : option rptoc) (u : user_config)
  : result (continuation_object * store) :=
  let fresh_list := fresh (dom st) in
  let st := match u_FracLamList u with
            | Some _ => st
            | None => <[fresh_list := []]> st
            end in
  let default_config := merge_config ds0_arg fresh_list u in
  let l := FracLamList default_config in
  match st !! l with
  | None => Raise (NameError "FracLamList")
  | Some xs =>
      let st' :=
        if Nat.eqb (length xs) 0
           || negb (starts_with (FracLam default_config) xs)
        then <[l := FracLam default_config :: xs]> st
        else st in
      Ok ({| setCtoPto1 := match CtoP_arg with None => true | _ => false end;
             CtoP := match CtoP_arg with
                     | None => []
                     | Some v => map fabs v
                     end;
             setRPtoCto1 := match RPtoC_arg with
                            | None => true | _ => false end;
             RPtoC := default (RScalar (Fin 1)) RPtoC_arg;
             CtoP0 := [];
             cfg := default_config |},
          st')
  end.

(** *** Vectors in conditioned and physical coordinates *)

(** [v[-1]] *)
Definition last_entry (v : vec) : result fnum :=
  match last v with
  | Some x => Ok x
  | None => Raise IndexError
  end.

(** [np.sign] *)
Definition fsignum (a : fnum) : fnum :=
  match a with
  | Fin q => Fin (inject_Z (Qsgn q))
  | PInf => Fin 1
  | NInf => Fin (-1)
  | NaN => NaN
  end.

(** The builtins [max(a, b)] and [min(a, b)] of Python: the first
    argument unless the second is greater, respectively smaller. *)
Definition pymax (a b : fnum) : fnum := if flt a b then b else a.
Definition pymin (a b : fnum) : fnum := if flt b a then b else a.

Definition sq (x : fnum) : fnum := fmul x x.

Definition ones_like (v : vec) : vec := map (fun _ => Fin 1) v.

(** [np.max(v)] *)
Definition vmax (v : vec) : result fnum :=
  match v with
  | [] => Raise ValueError
  | x :: rest => Ok (fold_left fmaximum rest x)
  end.

(** [np.diag(m)] *)
Definition diag (m : mat) : vec :=
  map (fun p => nth (fst p) (snd p) (Fin 0)) (combine (seq 0 (length m)) m).

(** [np.mean(self.RPtoC)] *)
Definition rptoc_mean (r : rptoc) : fnum :=
  match r with
  | RScalar x => x
  | RVector v => fdiv (vsum v) (Fin (inject_Z (Z.of_nat (length v))))
  end.

(** [self.RPtoC*R] for a vector [R], and for the rows of a matrix. *)
Definition rptoc_scale (r : rptoc) (R : vec) : result vec :=
  match r with
  | RScalar x => Ok (vscale x R)
  | RVector v =>
      if Nat.eqb (length v) (length R) || Nat.eqb (length v) 1
         || Nat.eqb (length R) 1
      then Ok (match v, R with
               | [x], _ => vscale x R
               | _, [y] => vscale y v
               | _, _ => vmul v R
               end)
      else Raise ValueError
  end.

Definition rptoc_scale_rows (r : rptoc) (m : mat) : result mat :=
  match r with
  | RScalar x => Ok (mscale x m)
  | RVector v =>
      if forallb (fun row => Nat.eqb (length v) (length row)) m
      then Ok (map (vmul v) m)
      else Raise ValueError
  end.

(** [np.hstack((dRdXP*CtoP[:-1], np.atleast_2d(dRdlamP).T*CtoP[-1]))] *)
Definition condition_jacobian (dRdXP : mat) (dRdlamP : vec) (CtoP : vec)
  : result mat :=
  ctop_lam ← last_entry CtoP;
  Ok (map (fun p => (vmul (fst p) (removelast CtoP)
                     ++ [fmul (snd p) ctop_lam])%list)
          (combine dRdXP dRdlamP)).

(** The function that a continuation follows: [fun(XlamP, calc_grad)]
    returns [(R, dRdX, dRdlam)]; without gradient only [R] is read. *)
Definition cfun : Type := vec -> bool -> result (vec * mat * vec).

(** [_initial_wrapper_fun] *)
Definition _initial_wrapper_fun (fun_ : cfun) (lam0 : fnum)
  : Solvers.resfun :=
  fun X calc_grad =>
    '(R, dRdX, _) ← fun_ (X ++ [lam0])%list calc_grad;
    Ok (R, dRdX).

(** *** Events

    What a run does to the outside, in order: the calls of
    [solver.nsolve], with the step size and the weighting in force and
    [None] for a call that raised, the points it stores, with the
    conditioning vector in force, and the calls of the callback. *)
Inductive event : Type :=
| SolveInitial (X0 : vec) (success : option bool)
| SolveCorrector (fracLam_ind : nat) (FracLam ds : fnum) (X0 : vec)
    (success : option bool)
| Stored (step : nat) (CtoP XlamP : vec)
| Callback (XlamP dirP : vec).

(** A computation that logs events and may raise; the events logged
    before an exception are kept. *)
Record W (A : Type) : Type := mkW {
  trace : list event;
  outcome : result A
}.
Arguments mkW {A} _ _.
Arguments trace {A} _.
Arguments outcome {A} _.

Global Instance W_ret : MRet W := fun A a => mkW [] (Ok a).

Global Instance W_bind : MBind W := fun A B k m =>
  match outcome m with
  | Ok a => mkW (trace m ++ trace (k a))%list (outcome (k a))
  | Raise e => mkW (trace m) (Raise e)
  end.

Definition lift {A} (r : result A) : W A := mkW [] r.
Definition emit (ev : event) : W unit := mkW [ev] (Ok tt).

Definition set_FracLam (c : config) (x : fnum) : config := {|
  FracLam := x; ds0 := ds0 c; dsmax := dsmax c; dsmin := dsmin c;
  MaxSteps := MaxSteps c; TargetNfev := TargetNfev c;
  DynamicCtoP := DynamicCtoP c; verbose := verbose c; xtol := xtol c;
  corrector := corrector c; FracLamList := FracLamList c;
  backtrackStop := backtrackStop c; MaxIncrease := MaxIncrease c;
  nsolve_verbose := nsolve_verbose c; callback := callback c
|}.

Definition set_verbose (c : config) (v : Z) : config := {|
  FracLam := FracLam c; ds0 := ds0 c; dsmax := dsmax c; dsmin := dsmin c;
  MaxSteps := MaxSteps c; TargetNfev := TargetNfev c;
  DynamicCtoP := DynamicCtoP c; verbose := v; xtol := xtol c;
  corrector := corrector c; FracLamList := FracLamList c;
  backtrackStop := backtrackStop c; MaxIncrease := MaxIncrease c;
  nsolve_verbose := nsolve_verbose c; callback := callback c
|}.

Definition with_cfg (o : continuation_object) (c : config)
  : continuation_object := {|
  setCtoPto1 := setCtoPto1 o; CtoP := CtoP o;
  setRPtoCto1 := setRPtoCto1 o; RPtoC := RPtoC o; CtoP0 := CtoP0 o;
  cfg := c
|}.

Definition with_CtoP (o : continuation_object) (v : vec)
  : continuation_object := {|
  setCtoPto1 := setCtoPto1 o; CtoP := v;
  setRPtoCto1 := setRPtoCto1 o; RPtoC := RPtoC o; CtoP0 := CtoP0 o;
  cfg := cfg o
|}.

Definition with_RPtoC (o : continuation_object) (r : rptoc)
  : continuation_object := {|
  setCtoPto1 := setCtoPto1 o; CtoP := CtoP o;
  setRPtoCto1 := setRPtoCto1 o; RPtoC := r; CtoP0 := CtoP0 o;
  cfg := cfg o
|}.

Definition with_CtoP0 (o : continuation_object) (v : vec)
  : continuation_object := {|
  setCtoPto1 := setCtoPto1 o; CtoP := CtoP o;
  setRPtoCto1 := setRPtoCto1 o; RPtoC := RPtoC o; CtoP0 := v;
  cfg := cfg o
|}.

(** *** Predictor and corrector *)

Section Run.

(** [str.upper] of Python, which maps every character of a text to its
    upper case by the tables of Unicode; a text is kept as its bytes. *)
Variable str_upper : string -> string.

(** The square root behind [np.sqrt], and the solver object: its
    [nsolve(fun, X0, xtol=...)], [lin_solve(A, b)] and
    [conditioning_wrapper(fun, CtoP, RPtoC=...)]. *)
Variable qsqrt : Q -> Q.
Variable nsolve :
  Solvers.resfun -> vec -> option fnum ->
  result (vec * vec * mat * Solvers.sol).
Variable lin_solve : mat -> vec -> vec.
Variable conditioning_wrapper :
  Solvers.resfun -> vec -> vec -> Solvers.resfun.

(** The store of list objects, which a run only reads. *)
Variable st : store.

(** [np.linalg.norm] *)
Definition norm (v : vec) : fnum := fsqrt qsqrt (dot v v).

(** [predict]: the direction [dirC], and the value that the method
    leaves in [self.RPtoC]. *)
Definition predict (o : continuation_object) (fun_ : cfun)
    (XlamP0 XlamPprev dirC_prev : vec) : result (vec * rptoc) :=
  '(R, dRdXP, dRdlamP) ← fun_ XlamP0 true;
  dRdXlamC_top ← condition_jacobian dRdXP dRdlamP (CtoP o);
  let dRdXlamC := (dRdXlamC_top ++ [dirC_prev])%list in
  let predictR := (repeat (Fin 0) (length R) ++ [Fin 1])%list in
  let dirC := lin_solve dRdXlamC predictR in
  let b := FracLam (cfg o) in
  let XC0 := vzip fdiv (removelast XlamP0) (removelast (CtoP o)) in
  let c := fdiv (fsub (Fin 1) b) (sq (norm XC0)) in
  dirC_lam ← last_entry dirC;
  let step_sq := fadd (fmul c (sq (norm (removelast dirC))))
                      (fmul b (sq dirC_lam)) in
  let dirC := vdivs dirC (fsqrt qsqrt step_sq) in
  let dXlamCprev := vzip fdiv (vsub XlamP0 XlamPprev) (CtoP o) in
  dirC_lam ← last_entry dirC;
  dprev_lam ← last_entry dXlamCprev;
  let signarg := fadd (dot (vscale c (removelast dirC))
                           (removelast dXlamCprev))
                      (fmul (fmul b dirC_lam) dprev_lam) in
  let sign := fsignum signarg in
  let sign := if feqb sign (Fin 0) then Fin 1 else sign in
  let dirC := vscale sign dirC in
  RPtoC' ←
    (if DynamicCtoP (cfg o) then
       m ← vmax (map fabs (removelast (diag dRdXlamC)));
       Ok (RScalar (fdiv (Fin 1) m))
     else Ok (RScalar (rptoc_mean (RPtoC o))));
  Ok (dirC, RPtoC').

(** [pseudo_arc_res] *)
Definition pseudo_arc_res (XlamC XlamC0 : vec) (ds b c : fnum)
  : result (fnum * vec) :=
  lamC ← last_entry XlamC;
  lamC0 ← last_entry XlamC0;
  let dlamC := fsub lamC lamC0 in
  let dXC := vsub (removelast XlamC) (removelast XlamC0) in
  let dstep_sq := fadd (fmul c (sq (norm dXC))) (fmul b (sq dlamC)) in
  let dstep_sq_dXC := vscale (fmul (Fin 2) c) dXC in
  let dstep_sq_dlamC := fmul (fmul (Fin 2) b) dlamC in
  let Rarc := fdiv (fsub dstep_sq (sq ds)) (sq ds) in
  Ok (Rarc, vdivs (dstep_sq_dXC ++ [dstep_sq_dlamC])%list (sq ds)).

(** [orthogonal_arc_res] *)
Definition orthogonal_arc_res (XlamC XlamC0 dirC : vec) (ds b c : fnum)
  : result (fnum * vec) :=
  let dXlamC := vsub XlamC (vadd XlamC0 (vscale ds dirC)) in
  d_lam ← last_entry dXlamC;
  dirC_lam ← last_entry dirC;
  let Rarc := fdiv (fadd (fmul c (dot (removelast dXlamC) (removelast dirC)))
                         (fmul (fmul b d_lam) dirC_lam)) ds in
  Ok (Rarc,
      vdivs (vscale c (removelast dirC) ++ [fmul b dirC_lam])%list ds).

(** [correct_res]: [(Raug, dRaugdXlamC)], or [(Raug,)] without
    gradient. *)
Definition correct_res (o : continuation_object) (fun_ : cfun)
    (XlamC XlamC0 : vec) (ds : fnum) (dirC : option vec) (calc_grad : bool)
  : result (vec * mat) :=
  let XlamP := vmul XlamC (CtoP o) in
  '(R, dRdXP, dRdlamP) ← fun_ XlamP calc_grad;
  dRdXlamC ← (if calc_grad
              then condition_jacobian dRdXP dRdlamP (CtoP o)
              else Ok []);
  let b := FracLam (cfg o) in
  let c := fdiv (fsub (Fin 1) b) (sq (norm (removelast XlamC0))) in
  '(Rarc, dRarcdXlamC) ←
    (if String.eqb (str_upper (corrector (cfg o))) "PSEUDO"
     then pseudo_arc_res XlamC XlamC0 ds b c
     else if String.eqb (str_upper (corrector (cfg o))) "ORTHO"
     then match dirC with
          | None => Raise (AssertionError
                             "In proper call, need dirC for ortho corrector.")
          | Some d => orthogonal_arc_res XlamC XlamC0 d ds b c
          end
     else Raise (AssertionError
                   ("Invalid corrector type: "
                    ++ str_upper (corrector (cfg o)))));
  R' ← rptoc_scale (RPtoC o) R;
  let Raug := (R' ++ [Rarc])%list in
  if calc_grad then
    J' ← rptoc_scale_rows (RPtoC o) dRdXlamC;
    Ok (Raug, (J' ++ [dRarcdXlamC])%list)
  else Ok (Raug, []).

(** *** The retry ladder of one step *)

(** The names of [continuation] that the loops over [FracLamList] and
    over the step size update. [XlamC] and the result [sol] are those
    of the last call of [nsolve]; [XlamC] is unbound before the first
    corrector solve of a run. *)
Record ladder_state : Type := {
  l_obj : continuation_object;
  l_dirC : vec;
  l_ds : fnum;
  l_XlamC : option vec;
  l_sol : Solvers.sol
}.

(** One corrector solve from the predicted point with step size [ds],
    logged. *)
Definition solve_corrector (fun_ : cfun) (XlamP0 : vec) (ind : nat)
    (ls : ladder_state) (ds : fnum) : W ladder_state :=
  let o := l_obj ls in
  let correct_fun : Solvers.resfun := fun XlamC calc_grad =>
    correct_res o fun_ XlamC (vzip fdiv XlamP0 (CtoP o)) ds
                (Some (l_dirC ls)) calc_grad in
  let X0 := vadd (vzip fdiv XlamP0 (CtoP o)) (vscale ds (l_dirC ls)) in
  match nsolve correct_fun X0 (xtol (cfg o)) with
  | Raise e =>
      mkW [SolveCorrector ind (FracLam (cfg o)) ds X0 None] (Raise e)
  | Ok (XlamC, _, _, sol) =>
      mkW [SolveCorrector ind (FracLam (cfg o)) ds X0
             (Some (Solvers.success sol))]
          (Ok {| l_obj := o; l_dirC := l_dirC ls; l_ds := ds;
                 l_XlamC := Some XlamC; l_sol := sol |})
  end.

(** [while (not sol['success']) and ds > self.config['dsmin']]. The
    loop of the program need not end (a step size that is infinite, or
    a minimum that is not positive); [fuel] bounds the number of
    passes. *)
Fixpoint retry (fuel : nat) (fun_ : cfun) (XlamP0 : vec) (ind : nat)
    (ls : ladder_state) : W ladder_state :=
  if negb (Solvers.success (l_sol ls))
     && flt (dsmin (cfg (l_obj ls))) (l_ds ls)
  then
    match fuel with
    | O => lift (Raise Timeout)
    | S fuel' =>
        let ds := pymax (fdiv (l_ds ls) (Fin 2)) (dsmin (cfg (l_obj ls))) in
        ls' ← solve_corrector fun_ XlamP0 ind ls ds;
        retry fuel' fun_ XlamP0 ind ls'
    end
  else mret ls.

(** [for fracLam_ind in range(len(FracLamList))], over the values
    [lams = FracLamList[ind:]]. *)
Fixpoint ladder (fuel : nat) (fun_ : cfun) (XlamP0 XlamPprev : vec)
    (lams : list fnum) (ind : nat) (ls : ladder_state) : W ladder_state :=
  match lams with
  | [] => mret ls
  | fl :: rest =>
      let o := with_cfg (l_obj ls) (set_FracLam (cfg (l_obj ls)) fl) in
      '(dirC, RPtoC') ← lift (predict o fun_ XlamP0 XlamPprev (l_dirC ls));
      let o := with_RPtoC o RPtoC' in
      let ls1 := {| l_obj := o; l_dirC := dirC; l_ds := l_ds ls;
                    l_XlamC := l_XlamC ls; l_sol := l_sol ls |} in
      ls2 ← solve_corrector fun_ XlamP0 ind ls1 (l_ds ls);
      ls3 ← retry fuel fun_ XlamP0 ind ls2;
      if Solvers.success (l_sol ls3) then mret ls3
      else ladder fuel fun_ XlamP0 XlamPprev rest (S ind) ls3
  end.

(** *** The continuation loop *)

(** The local names of [continuation] that live across steps.
    [XlamP_full] holds the rows filled so far, [XlamP_full[:step]]. *)
Record loop_state : Type := {
  obj : continuation_object;
  step : nat;
  XlamP_full : list vec;
  XlamP0 : vec;
  XlamPprev : vec;
  dirC : vec;
  ds : fnum;
  XlamC : option vec;
  sol : Solvers.sol
}.

(** The condition of the [while] loop. *)
Definition keep_going (s : loop_state) (direct lam0 lam1 : fnum)
  : result bool :=
  if Nat.ltb (step s) (MaxSteps (cfg (obj s))) then
    lam ← last_entry (List.last (XlamP_full s) []);
    Ok (flt (fmul direct lam) (fmul direct lam1)
        && flt (fmul direct
                  (fsub lam0 (fmul direct (backtrackStop (cfg (obj s))))))
               (fmul direct lam))
  else Ok false.

(** One pass through the body of the [while] loop: the new state, and
    whether the loop goes on ([false] after [break]). *)
Definition step_body (fuel : nat) (fun_ : cfun) (silent : bool)
    (s : loop_state) : W (loop_state * bool) :=
  let o := obj s in
  let o := if DynamicCtoP (cfg o)
           then with_CtoP o (vzip fmaximum
                               (map fabs (List.last (XlamP_full s) []))
                               (CtoP0 o))
           else o in
  lams ← lift (match st !! FracLamList (cfg o) with
               | Some l => Ok l
               | None => Raise (NameError "FracLamList")
               end);
  ls ← ladder fuel fun_ (XlamP0 s) (XlamPprev s) lams 0
         {| l_obj := o; l_dirC := dirC s; l_ds := ds s;
            l_XlamC := XlamC s; l_sol := sol s |};
  let o := l_obj ls in
  if negb (Solvers.success (l_sol ls)) && negb silent then
    mret ({| obj := o; step := step s; XlamP_full := XlamP_full s;
             XlamP0 := XlamP0 s; XlamPprev := XlamPprev s;
             dirC := l_dirC ls; ds := l_ds ls;
             XlamC := l_XlamC ls; sol := l_sol ls |}, false)
  else
    xc ← lift (match l_XlamC ls with
               | Some x => Ok x
               | None => Raise (NameError "XlamC")
               end);
    let point := vmul (CtoP o) xc in
    _ ← emit (Stored (step s) (CtoP o) point);
    ratio ← lift (if Nat.eqb (Solvers.nfev (l_sol ls)) 0
                  then Raise ZeroDivisionError
                  else Ok (fdiv (TargetNfev (cfg o))
                             (Fin (inject_Z
                                     (Z.of_nat (Solvers.nfev (l_sol ls)))))));
    let ds1 := fmul (l_ds ls) (pymin ratio (MaxIncrease (cfg o))) in
    let ds2 := pymin (pymax ds1 (dsmin (cfg o))) (dsmax (cfg o)) in
    _ ← (if callback (cfg o)
         then emit (Callback point (vmul (l_dirC ls) (CtoP o)))
         else mret tt);
    mret ({| obj := o; step := S (step s);
             XlamP_full := (XlamP_full s ++ [point])%list;
             XlamP0 := point; XlamPprev := XlamP0 s;
             dirC := l_dirC ls; ds := ds2;
             XlamC := l_XlamC ls; sol := l_sol ls |}, true).

(** The [while] loop, with [n] passes left before [step] reaches
    [MaxSteps]. *)
Fixpoint steps (n : nat) (fuel : nat) (fun_ : cfun) (silent : bool)
    (direct lam0 lam1 : fnum) (s : loop_state) : W loop_state :=
  match n with
  | O => mret s
  | S n' =>
      go ← lift (keep_going s direct lam0 lam1);
      if go : bool then
        '(s', continue) ← step_body fuel fun_ silent s;
        if continue : bool
        then steps n' fuel fun_ silent direct lam0 lam1 s'
        else mret s'
      else mret s
  end.

(** The statements of [continuation] before the initial solve, on the
    object: a negative ['verbose'] is replaced by 0, the conditioning
    vectors that were not given are set to ones, and [RPtoC] is made a
    vector. *)
Definition prepare (o : continuation_object) (XlamP0_arg : vec)
  : continuation_object :=
  let silent := (verbose (cfg o) <? 0)%Z in
  let o := if silent then with_cfg o (set_verbose (cfg o) 0) else o in
  let o := if setCtoPto1 o then with_CtoP o (ones_like XlamP0_arg) else o in
  let o := if setRPtoCto1 o
           then with_RPtoC o (RVector (ones_like XlamP0_arg)) else o in
  match RPtoC o with
  | RScalar x => with_RPtoC o (RVector (map (fun _ => x) XlamP0_arg))
  | RVector [x] => with_RPtoC o (RVector (map (fun _ => x) XlamP0_arg))
  | RVector _ => o
  end.

(** [XlamP0[:-1]/self.CtoP[:-1]] *)
Definition initial_guess (o : continuation_object) (XlamP0_arg : vec)
  : vec :=
  vzip fdiv (removelast XlamP0_arg) (removelast (CtoP o)).

(** The solve of the initial point, at [lam0], by the prepared object:
    [self.solver.nsolve(fun0_cond, XlamP0[:-1]/self.CtoP[:-1], ...)]. *)
Definition solve_initial (o : continuation_object) (fun_ : cfun)
    (XlamP0_arg : vec) (lam0 : fnum)
  : result (vec * vec * mat * Solvers.sol) :=
  let RPtoC_vec := match RPtoC o with
                   | RVector v => v
                   | RScalar x => [x]
                   end in
  let fun0 := _initial_wrapper_fun fun_ lam0 in
  let fun0_cond := conditioning_wrapper fun0 (removelast (CtoP o))
                     (removelast RPtoC_vec) in
  nsolve fun0_cond (initial_guess o XlamP0_arg) (xtol (cfg o)).

(** [continuation(fun, XlamP0, lam0, lam1, return_grad)] on the object
    [o]: the history [XlamP_full] and the object after the run. *)
Definition continuation (fuel : nat) (o : continuation_object)
    (fun_ : cfun) (XlamP0_arg : vec) (lam0 lam1 : fnum) (return_grad : bool)
  : W (list vec * continuation_object) :=
  _ ← lift (if return_grad
            then Raise (AssertionError "Have not implemented this flag yet.")
            else Ok tt);
  let silent := (verbose (cfg o) <? 0)%Z in
  let o := prepare o XlamP0_arg in
  let start := initial_guess o XlamP0_arg in
  '(Xc, _, _, sol0) ←
    match solve_initial o fun_ XlamP0_arg lam0 with
    | Raise e => mkW [SolveInitial start None] (Raise e)
    | Ok r => mkW [SolveInitial start (Some (Solvers.success (snd r)))]
                  (Ok r)
    end;
  let X := vmul Xc (removelast (CtoP o)) in
  _ ← lift (if Solvers.success sol0 then Ok tt
            else Raise (AssertionError
              "Failed to converge to initial point, give a better initial guess."));
  let XlamP_first := (X ++ [lam0])%list in
  _ ← (if callback (cfg o)
       then emit (Callback XlamP_first (vscale NaN XlamP_first))
       else mret tt);
  let direct := fsignum (fsub lam1 lam0) in
  let XlamP_before := (X ++ [fsub lam0 direct])%list in
  _ ← lift (if Nat.eqb (MaxSteps (cfg o)) 0 then Raise IndexError
            else Ok tt);
  let dirC_first := vsub XlamP_first XlamP_before in
  let o := if DynamicCtoP (cfg o) then with_CtoP0 o (CtoP o) else o in
  s ← steps (MaxSteps (cfg o) - 1) fuel fun_ silent direct lam0 lam1
        {| obj := o; step := 1; XlamP_full := [XlamP_first];
           XlamP0 := XlamP_first; XlamPprev := XlamP_before;
           dirC := dirC_first;
           ds := ds0 (cfg o); XlamC := None; sol := sol0 |};
  s ← (if callback (cfg (obj s)) then
         if negb (Solvers.success (sol s)) then
           _ ← emit (Callback (vscale NaN (dirC s))
                              (vmul (dirC s) (CtoP (obj s))));
           mret s
         else
           '(dirC', RPtoC') ←
             lift (predict (obj s) fun_ (XlamP0 s) (XlamPprev s) (dirC s));
           _ ← emit (Callback (vscale NaN dirC')
                              (vmul dirC' (CtoP (obj s))));
           mret {| obj := with_RPtoC (obj s) RPtoC'; step := step s;
                   XlamP_full := XlamP_full s; XlamP0 := XlamP0 s;
                   XlamPprev := XlamPprev s; dirC := dirC';
                   ds := ds s; XlamC := XlamC s; sol := sol s |}
       else mret s);
  mret (XlamP_full s, obj s).

End Run.

(** *** Reading a trace *)

Definition is_solve (ev : event) : bool :=
  match ev with
  | SolveInitial _ _ | SolveCorrector _ _ _ _ _ => true
  | _ => false
  end.

(** The conditioning vectors in force at the stored steps, in order. *)
Definition stored_CtoP (t : list event) : list vec :=
  omap (fun ev => match ev with
                  | Stored _ c _ => Some c
                  | _ => None
                  end) t.

(** The corrector solves of a trace: index and value of [FracLam], and
    step size. *)
Definition corrector_attempts (t : list event) : list (nat * fnum * fnum) :=
  omap (fun ev => match ev with
                  | SolveCorrector i fl d _ _ => Some (i, fl, d)
                  | _ => None
                  end) t.

(** Two corrector solves in a row within one step: the first one failed,
    and the second one retries the same [FracLam] with the step size
    [max(ds/2, dsmin)] when [ds > dsmin], and otherwise moves to the next
    entry of [FracLamList] with the step size as it is. *)
Definition retry_link (ds_min : fnum) (e1 e2 : event) : Prop :=
  match e1, e2 with
  | SolveCorrector i1 f1 d1 _ s1, SolveCorrector i2 f2 d2 _ _ =>
      s1 = Some false
      /\ ((flt ds_min d1 = true /\ i2 = i1 /\ f2 = f1
           /\ d2 = pymax (fdiv d1 (Fin 2)) ds_min)
          \/ (flt ds_min d1 = false /\ i2 = S i1 /\ d2 = d1))
  | _, _ => False
  end.

(** A list of events in which each one is linked to the next. *)
Inductive chain (ds_min : fnum) : list event -> Prop :=
| chain_nil : chain ds_min []
| chain_one (e : event) : chain ds_min [e]
| chain_cons (e1 e2 : event) (t : list event) :
    retry_link ds_min e1 e2 -> chain ds_min (e2 :: t) ->
    chain ds_min (e1 :: e2 :: t).

(** What the object of a ladder state keeps through the ladder. *)
Definition same_frame (o o' : continuation_object) : Prop :=
  CtoP o' = CtoP o /\ CtoP0 o' = CtoP0 o
  /\ DynamicCtoP (cfg o') = DynamicCtoP (cfg o)
  /\ dsmin (cfg o') = dsmin (cfg o)
  /\ callback (cfg o') = callback (cfg o)
  /\ MaxSteps (cfg o') = MaxSteps (cfg o)
  /\ FracLamList (cfg o') = FracLamList (cfg o).


(** [np.maximum(np.abs(point), floor)] *)
Definition floored (point floor : vec) : vec :=
  vzip fmaximum (map fabs point) floor.


(** The steps that a trace stores, in order: the conditioning vector in
    force and the point. *)
Definition stored_rows (t : list event) : list (vec * vec) :=
  omap (fun ev => match ev with
                  | Stored _ c p => Some (c, p)
                  | _ => None
                  end) t.

(** Every step of [rows] is conditioned by
    [np.maximum(np.abs(prev), floor)], where [prev] is the point that
    was stored last: the point of the step before it, and [last] for
    the first step. *)
Fixpoint conditioned_by_last (floor last : vec) (rows : list (vec * vec))
  : Prop :=
  match rows with
  | [] => True
  | (c, p) :: rest =>
      c = floored last floor /\ conditioned_by_last floor p rest
  end.

(** The step size [d] does not exceed [2^n] times the minimum [m], both
    finite and [m] positive: halving [d] [n] times brings it down to
    [m]. *)
Definition halvings_suffice (n : nat) (d m : fnum) : Prop :=
  exists p q : Q,
    d = Fin p /\ m = Fin q /\ (0 < q)%Q
    /\ (p <= q * inject_Z (2 ^ Z.of_nat n))%Q.

Definition is_callback (ev : event) : bool :=
  match ev with
  | Callback _ _ => true
  | _ => false
  end.

(** The points that a trace stores, in order. *)
Definition stored_points (t : list event) : list vec :=
  omap (fun ev => match ev with
                  | Stored _ _ p => Some p
                  | _ => None
                  end) t.

(** The condition on the last stored row under which the [while] loop
    goes on: its last entry [lam] has
    [direct*lam < direct*lam1] and
    [direct*lam > direct*(lam0 - direct*backtrackStop)]. *)
Definition inside_range (direct lam0 lam1 bstop : fnum) (row : vec)
  : bool :=
  match last_entry row with
  | Ok lam =>
      flt (fmul direct lam) (fmul direct lam1)
      && flt (fmul direct (fsub lam0 (fmul direct bstop))) (fmul direct lam)
  | Raise _ => false
  end.

(** A corrector solve that returned with success. *)
Definition is_success (ev : event) : bool :=
  match ev with
  | SolveCorrector _ _ _ _ (Some true) => true
  | _ => false
  end.

(** Whether every point that a trace stores comes directly after a
    corrector solve that succeeded; [prev_ok] tells whether the event
    before the trace is one. *)
Fixpoint stored_after_success (prev_ok : bool) (t : list event) : bool :=
  match t with
  | [] => true
  | ev :: rest =>
      (match ev with Stored _ _ _ => prev_ok | _ => true end)
      && stored_after_success (is_success ev) rest
  end.

End Continuation.

(** ** Concrete inputs used to run the definitions *)

Module Examples.
Import Num Solvers.

(** A square root that is exact on quotients of perfect squares. *)
Definition qsqrt_floor (q : Q) : Q := Z.sqrt (Qnum q) # Pos.sqrt (Qden q).

(** Linear algebra for one unknown: the factorisation keeps the matrix,
    the solve divides. *)
Definition lin_factor1 (A : mat) : mat := A.

Definition lin_factored_solve1 (A : mat) (b : vec) : vec :=
  match A, b with
  | [[a]], [b0] => [fdiv b0 a]
  | _, _ => map (fun _ => NaN) b
  end.

(** [R(x) = x^2], with Jacobian [2x]. *)
Definition square_residual : resfun := fun X _ =>
  match X with
  | [x] => Ok ([fmul x x], [[fmul (Fin 2) x]])
  | _ => Raise ValueError
  end.

(** A residual that is NaN everywhere. *)
Definition nan_residual : resfun := fun X _ =>
  Ok (map (fun _ => NaN) X, map (fun _ => map (fun _ => Fin 1) X) X).

(** Settings that stop on the relative step norm alone. *)
Definition xtol_rel_config : config := {|
  max_steps := 5;
  reform_freq := 1;
  verbose := false;
  xtol := None;
  rtol := None;
  etol := None;
  xtol_rel := Some (Fin (6 # 10));
  rtol_rel := None;
  etol_rel := None;
  stopping_tol := ["xtol_rel"];
  accepting_tol := []
|}.

(** The measures of iteration 1 of Newton's method on [x^2] from
    [x = 1]: the step went from 1/2 to 1/4 and the energy ratio is -1. *)
Definition errors_at_iteration_1 : errors := {|
  r_curr := Fin (1 # 4);
  e_curr := Fin (-1 # 8);
  u_curr := Fin (1 # 4);
  r_rel := Fin (1 # 4);
  e_rel := Fin (-1);
  u_rel := Fin (1 # 2)
|}.

(** Two degrees of freedom: mass, damping and stiffness matrices. *)
Definition ex_M : Harmonic.matrix :=
  {| Harmonic.nrows := 2; Harmonic.ncols := 2;
     Harmonic.entry := fun i j => if Nat.eqb i j then 1%Q else 0%Q |}.

Definition ex_C : Harmonic.matrix :=
  {| Harmonic.nrows := 2; Harmonic.ncols := 2;
     Harmonic.entry := fun i j => if Nat.eqb i j then (1 # 10)%Q else 0%Q |}.

Definition ex_K : Harmonic.matrix :=
  {| Harmonic.nrows := 2; Harmonic.ncols := 2;
     Harmonic.entry := fun i j =>
       if Nat.eqb i j then 4%Q else (-1)%Q |}.

(** The harmonics 0, 1 and 3. *)
Definition ex_h : list nat := [0; 1; 3]%nat.

(** Harmonic coefficients for [ex_h], one degree of freedom. *)
Definition ex_X0 : Harmonic.rarray :=
  {| Harmonic.nrows := 5; Harmonic.ncols := 1;
     Harmonic.entry := fun i _ => INR i |}.

(** A harmonic set without repeated harmonics whose zeroth harmonic is
    not first, and coefficients for its three components. *)
Definition ex_h_zero_last : list nat := [1; 0]%nat.

Definition ex_X0_zero_last : Harmonic.rarray :=
  {| Harmonic.nrows := 3; Harmonic.ncols := 1;
     Harmonic.entry := fun i _ => INR i |}.

(** A caller's dictionary [{'FracLam': 0.5, 'FracLamList': l}] whose list
    [l = [0.9, 0.7]] is the object at location 1 of the store. *)
Definition ex_list : Continuation.loc := 1%positive.

Definition ex_store : gmap Continuation.loc (list fnum) :=
  {[ ex_list := [Fin (9 # 10); Fin (7 # 10)] ]}.

Definition ex_user_config : Continuation.user_config := {|
  Continuation.u_FracLam := Some (Fin (1 # 2));
  Continuation.u_ds0 := None;
  Continuation.u_dsmax := None;
  Continuation.u_dsmin := None;
  Continuation.u_MaxSteps := None;
  Continuation.u_TargetNfev := None;
  Continuation.u_DynamicCtoP := None;
  Continuation.u_verbose := None;
  Continuation.u_xtol := None;
  Continuation.u_corrector := None;
  Continuation.u_FracLamList := Some ex_list;
  Continuation.u_backtrackStop := None;
  Continuation.u_MaxIncrease := None;
  Continuation.u_nsolve_verbose := None;
  Continuation.u_callback := None
|}.

(** A square root to six decimals, exact on the squares of such
    numbers. *)
Definition qsqrt_approx (q : Q) : Q :=
  Z.sqrt (Qnum q * 10 ^ 12 / Zpos (Qden q)) # 1000000.

(** Linear algebra for one and two unknowns, by Cramer's rule. *)
Definition lin_solve2 (A : mat) (b : vec) : vec :=
  match A, b with
  | [[a]], [b0] => [fdiv b0 a]
  | [[a11; a12]; [a21; a22]], [b1; b2] =>
      let det := fsub (fmul a11 a22) (fmul a12 a21) in
      [fdiv (fsub (fmul b1 a22) (fmul a12 b2)) det;
       fdiv (fsub (fmul a11 b2) (fmul b1 a21)) det]
  | _, _ => map (fun _ => NaN) b
  end.

(** Modelled from the spec: [conditioning_wrapper] of the base class
    [NonlinearSolver], which is not among the sources. The wrapped
    function takes conditioned unknowns, [X = CtoP * Xc], and returns
    the residual scaled by [RPtoC] with its Jacobian in conditioned
    coordinates. *)
Definition conditioning_wrapper (fun_ : resfun) (CtoP RPtoC : vec)
  : resfun :=
  fun Xc calc_grad =>
    '(R, dRdX) ← fun_ (vmul CtoP Xc) calc_grad;
    Ok (vmul RPtoC R,
        map (fun p => vscale (fst p) (vmul (snd p) CtoP))
            (combine RPtoC dRdX)).

(** Solver settings: Newton iterations that stop on [xtol]. *)
Definition newton_config : config := {|
  max_steps := 5;
  reform_freq := 1;
  verbose := false;
  xtol := Some (Fin (1 # 1000000));
  rtol := None;
  etol := None;
  xtol_rel := None;
  rtol_rel := None;
  etol_rel := None;
  stopping_tol := ["xtol"];
  accepting_tol := []
|}.

(** The solver object [NonlinearSolverOMP(newton_config)]. *)
Definition omp_nsolve (fun_ : resfun) (X0 : vec) (xtol_arg : option fnum)
  : result (vec * vec * mat * sol) :=
  nsolve qsqrt_approx (fun A => A) lin_solve2 newton_config fun_ X0 xtol_arg.

(** The line [x = 10 - 8 lam]: [R(x, lam) = x + 8 lam - 10]. *)
Definition falling_line : Continuation.cfun := fun Xlam _ =>
  match Xlam with
  | [x; lam] =>
      Ok ([fsub (fadd x (fmul (Fin 8) lam)) (Fin 10)], [[Fin 1]], [Fin 8])
  | _ => Raise ValueError
  end.

(** [R(x, lam) = x - 1] at [lam <= 0] and NaN beyond. *)
Definition nan_beyond_start : Continuation.cfun := fun Xlam _ =>
  match Xlam with
  | [x; lam] =>
      if flt (Fin 0) lam
      then Ok ([NaN], [[Fin 1]], [Fin 0])
      else Ok ([fsub x (Fin 1)], [[Fin 1]], [Fin 0])
  | _ => Raise ValueError
  end.

(** The caller's dictionary with the keys ['corrector'],
    ['DynamicCtoP'], ['MaxSteps'], ['FracLamList'] and ['dsmin'], each
    present or not. *)
Definition user_dict (corr : option string) (dyn : option bool)
    (maxsteps : option nat) (lams : option Continuation.loc)
    (ds_min : option fnum) : Continuation.user_config := {|
  Continuation.u_FracLam := None;
  Continuation.u_ds0 := None;
  Continuation.u_dsmax := None;
  Continuation.u_dsmin := ds_min;
  Continuation.u_MaxSteps := maxsteps;
  Continuation.u_TargetNfev := None;
  Continuation.u_DynamicCtoP := dyn;
  Continuation.u_verbose := None;
  Continuation.u_xtol := None;
  Continuation.u_corrector := corr;
  Continuation.u_FracLamList := lams;
  Continuation.u_backtrackStop := None;
  Continuation.u_MaxIncrease := None;
  Continuation.u_nsolve_verbose := None;
  Continuation.u_callback := None
|}.

(** [str.upper] on a text of ASCII characters: the letters [a] to [z]
    are replaced by [A] to [Z]. *)
Fixpoint ascii_upper (s : string) : string :=
  match s with
  | EmptyString => EmptyString
  | String c rest =>
      let n := Ascii.nat_of_ascii c in
      String (if Nat.leb 97 n && Nat.leb n 122
              then Ascii.ascii_of_nat (n - 32) else c)
             (ascii_upper rest)
  end.

(** [Continuation(solver, ds0=0.04, CtoP=CtoP, config=u)] on the store
    [st] with the solver above, then
    [continuation(fun, XlamP0, lam0, lam1)]. *)
Definition construct_and_run (st : gmap Continuation.loc (list fnum))
    (CtoP : option vec) (u : Continuation.user_config)
    (fun_ : Continuation.cfun) (XlamP0 : vec) (lam0 lam1 : fnum)
  : Continuation.W (list vec * Continuation.continuation_object) :=
  match Continuation.__init__ st (Fin (1 # 25)) CtoP None u with
  | Ok (o, st') =>
      Continuation.continuation ascii_upper qsqrt_approx omp_nsolve lin_solve2
        conditioning_wrapper st' 10 o fun_ XlamP0 lam0 lam1 false
  | Raise e => Continuation.lift (Raise e)
  end.

(** The object and the store that [falling_run] below is run on. *)
Definition falling_object : Continuation.continuation_object := {|
  Continuation.setCtoPto1 := true;
  Continuation.CtoP := [];
  Continuation.setRPtoCto1 := true;
  Continuation.RPtoC := Continuation.RScalar (Fin 1);
  Continuation.CtoP0 := [];
  Continuation.cfg :=
    Continuation.merge_config (Fin (1 # 25)) 1%positive
      (user_dict None (Some true) (Some 3%nat) None None)
|}.

Definition falling_store : gmap Continuation.loc (list fnum) :=
  {[ 1%positive := [Fin (1 # 2)] ]}.

(** A run with [corrector='invalid']. *)
Definition invalid_corrector_run :=
  construct_and_run ∅ None
    (user_dict (Some "invalid") None None None None)
    falling_line [Fin 10; Fin 0] (Fin 0) (Fin 1).

(** The same run with [MaxSteps = 1]. *)
Definition invalid_corrector_short_run :=
  construct_and_run ∅ None
    (user_dict (Some "invalid") None (Some 1%nat) None None)
    falling_line [Fin 10; Fin 0] (Fin 0) (Fin 1).

(** A run of two steps down the falling line with dynamic
    conditioning, from the conditioning vector of ones. *)
Definition falling_run :=
  construct_and_run ∅ None
    (user_dict None (Some true) (Some 3%nat) None None)
    falling_line [Fin 10; Fin 0] (Fin 0) (Fin 1).

(** A run whose corrector solves all fail, with the ladder
    [FracLamList = [0.5, 0.9]], [ds0 = 0.04] and [dsmin = 0.01]. *)
Definition ladder_list : Continuation.loc := 1%positive.

Definition failing_run :=
  construct_and_run {[ ladder_list := [Fin (1 # 2); Fin (9 # 10)] ]} None
    (user_dict None None None (Some ladder_list) (Some (Fin (1 # 100))))
    nan_beyond_start [Fin 1; Fin 0] (Fin 0) (Fin 1).

(** The same failing run with two rows at most and [verbose = -1],
    which silences the run. *)
Definition silent_failing_run :=
  construct_and_run {[ ladder_list := [Fin (1 # 2); Fin (9 # 10)] ]} None
    {| Continuation.u_FracLam := None;
       Continuation.u_ds0 := None;
       Continuation.u_dsmax := None;
       Continuation.u_dsmin := Some (Fin (1 # 100));
       Continuation.u_MaxSteps := Some 2%nat;
       Continuation.u_TargetNfev := None;
       Continuation.u_DynamicCtoP := None;
       Continuation.u_verbose := Some (-1)%Z;
       Continuation.u_xtol := None;
       Continuation.u_corrector := None;
       Continuation.u_FracLamList := Some ladder_list;
       Continuation.u_backtrackStop := None;
       Continuation.u_MaxIncrease := None;
       Continuation.u_nsolve_verbose := None;
       Continuation.u_callback := None |}
    nan_beyond_start [Fin 1; Fin 0] (Fin 0) (Fin 1).

(** An object with [corrector='invalid'] and a conditioning vector. *)
Definition invalid_corrector_object : Continuation.continuation_object := {|
  Continuation.setCtoPto1 := false;
  Continuation.CtoP := [Fin 1; Fin 1];
  Continuation.setRPtoCto1 := true;
  Continuation.RPtoC := Continuation.RScalar (Fin 1);
  Continuation.CtoP0 := [];
  Continuation.cfg :=
    Continuation.merge_config (Fin (1 # 25)) 1%positive
      (user_dict (Some "invalid") None None None None)
|}.

(** The state in which the ladder of the first step of [failing_run] is
    entered. *)
Definition failing_ladder_state : Continuation.ladder_state := {|
  Continuation.l_obj :=
    Continuation.with_CtoP
      (Continuation.with_cfg invalid_corrector_object
         (Continuation.merge_config (Fin (1 # 25)) 1%positive
            (user_dict None None None None (Some (Fin (1 # 100))))))
      [Fin 1; Fin 1];
  Continuation.l_dirC := [Fin 0; Fin 1];
  Continuation.l_ds := Fin (1 # 25);
  Continuation.l_XlamC := None;
  Continuation.l_sol := {| message := "Converged"; nfev := 1; njev := 1;
                           success := true |}
|}.

(** *** Force elements *)

(** Four samples of the harmonics 0 and 1, where the cosines and sines
    are 0, 1 and -1: the time series [a0 + a1 cos + b1 sin] and its
    Fourier coefficients. Other numbers of samples and other harmonics
    are not tabulated. *)
Definition quarter_time_series (Nt : nat) (h : list nat) (X0 : mat)
    (order : nat) : result mat :=
  match Nt, h, X0, order with
  | 4%nat, [0%nat; 1%nat], [a0; a1; b1], 0%nat =>
      Ok [vadd a0 a1; vadd a0 b1; vsub a0 a1; vsub a0 b1]
  | _, _, _, _ => Raise ValueError
  end.

Definition quarter_fourier_coeff (h : list nat) (x_t : mat) : result mat :=
  match h, x_t with
  | [0%nat; 1%nat], [x0; x1; x2; x3] =>
      Ok [vdivs (vadd (vadd x0 x1) (vadd x2 x3)) (Fin 4);
          vdivs (vsub x0 x2) (Fin 2);
          vdivs (vsub x1 x3) (Fin 2)]
  | _, _ => Raise ValueError
  end.

(** A forward difference of step 1 in place of the derivative: column
    [j] is [f (x + e_j) - f x]. *)
Definition difference_jacobian (Aux : Type)
    (f : vec -> result (vec * Aux)) (x : vec) : result (mat * Aux) :=
  '(y, aux) ← f x;
  cols ← fold_right (fun j acc =>
            acc ← acc;
            '(yj, _) ← f (Forces.tabulate (length x) (fun k =>
                            if Nat.eqb k j then fadd (Forces.item x k) (Fin 1)
                            else Forces.item x k));
            Ok (vsub yj y :: acc))
          (Ok []) (seq 0 (length x));
  Ok (Forces.table (length y) (length x)
        (fun i j => Forces.entry cols j i), aux).

(** Asperities as springs: a normal force [Estar * un] in contact, and a
    tangential force that follows the displacement with stiffness
    [Gstar] up to the slip limit [mu * fn]. *)
Definition spring_normal (un : vec) (Re Estar : fnum) : Forces.normal_state :=
  (map (fun u => fmaximum (fmul Estar u) (Fin 0)) un,
   map (fun _ => Re) un, map (fun _ => Fin 0) un, map (fun _ => Re) un).

Definition spring_tangential (uxy uxy0 : vec) (fxy0 : mat) (fn : vec)
    (Gstar mu : fnum) : mat :=
  map (fun p =>
         let limit := fmul mu (snd p) in
         map (fun f => fmaximum (fminimum f limit) (fneg limit))
             (vadd (fst p) (vscale Gstar (vsub uxy uxy0))))
      (combine fxy0 fn).

Definition spring_kernels : Forces.Kernels := {|
  Forces.jh_time_series_deriv := quarter_time_series;
  Forces.jh_get_fourier_coeff := quarter_fourier_coeff;
  Forces.jacfwd := difference_jacobian;
  Forces._normal_asperity_general :=
    fun un _ _ Re _ Estar _ _ _ _ => spring_normal un Re Estar;
  Forces._normal_asperity_unloading :=
    fun un _ _ Re Estar => spring_normal un Re Estar;
  Forces._tangential_asperity :=
    fun uxy uxy0 fxy0 fn _ Gstar mu =>
      spring_tangential uxy uxy0 fxy0 fn Gstar mu;
  Forces._tangential_asperity_mif :=
    fun uxy uxy0 fxy0 fn _ Gstar mu rquad0 _ =>
      (spring_tangential uxy uxy0 fxy0 fn Gstar mu, rquad0)
|}.

(** A slider on the first of two degrees of freedom. *)
Definition ex_jenkins : Forces.Jenkins.JenkinsForce :=
  Forces.Jenkins.__init__ [[Fin 1; Fin 0]] [[Fin 1]; [Fin 0]]
    (Fin 2) (Fin 1) (Some (Fin 0)).

(** Harmonic coefficients of the two degrees of freedom for the
    harmonics 0 and 1. *)
Definition ex_U2 : vec :=
  [Fin 0; Fin 0; Fin 3; Fin 1; Fin 0; Fin 0].

(** A contact of two asperities on three degrees of freedom. *)
Definition ex_contact : Forces.RoughContact.RoughContactFriction := {|
  Forces.RoughContact.Q :=
    [[Fin 1; Fin 0; Fin 0]; [Fin 0; Fin 1; Fin 0]; [Fin 0; Fin 0; Fin 1]];
  Forces.RoughContact.T :=
    [[Fin 1; Fin 0; Fin 0]; [Fin 0; Fin 1; Fin 0]; [Fin 0; Fin 0; Fin 1]];
  Forces.RoughContact.elastic_mod := Fin 8;
  Forces.RoughContact.poisson := Fin 0;
  Forces.RoughContact.Re := Fin 1;
  Forces.RoughContact.tangent_mod := Fin 0;
  Forces.RoughContact.sys := Fin 1;
  Forces.RoughContact.mu := Fin (1 # 2);
  Forces.RoughContact.real_mu := Fin (1 # 2);
  Forces.RoughContact.prestress_mu := Fin 0;
  Forces.RoughContact.tangent_model := "TAN";
  Forces.RoughContact.u0 := Fin 0;
  Forces.RoughContact.Estar := Fin 4;
  Forces.RoughContact.shear_mod := Fin 4;
  Forces.RoughContact.Gstar := Fin 1;
  Forces.RoughContact.delta_y := Fin 1;
  Forces.RoughContact.meso_gap := Fin 0;
  Forces.RoughContact.gaps := [Fin 0; Fin 1];
  Forces.RoughContact.gap_weights := [Fin 1; Fin 1];
  Forces.RoughContact.uxyn_initialize := [Fin 0; Fin 0; Fin 0];
  Forces.RoughContact.unmax := Fin 0;
  Forces.RoughContact.Fm_prev := [Fin 0; Fin 0];
  Forces.RoughContact.fxy0 := [[Fin 0; Fin 0]; [Fin 0; Fin 0]];
  Forces.RoughContact.uxyn0 := [Fin 0; Fin 0; Fin 0]
|}.

(** Harmonic coefficients of the three degrees of freedom for the
    harmonics 0 and 1. *)
Definition ex_U3 : vec :=
  [Fin 0; Fin 0; Fin 2; Fin 3; Fin 0; Fin 0; Fin 0; Fin 1; Fin 0].

End Examples.

(** * Properties of the nonlinear solver *)

Section SolverFacts.
Import Num Solvers Examples.

(** ** NaN propagates through [np.sum] *)

Lemma fadd_nan_l (b : fnum) : fadd NaN b = NaN.
Proof. reflexivity. Qed.

Lemma fadd_nan_r (a : fnum) : fadd a NaN = NaN.
Proof. destruct a; reflexivity. Qed.

Lemma fold_fadd_nan (v : vec) : fold_left fadd v NaN = NaN.
Proof. induction v as [|x v IH]; simpl; [reflexivity | exact IH]. Qed.

Lemma fold_fadd_has_nan (v : vec) (acc : fnum) :
  has_nan v = true -> fold_left fadd v acc = NaN.
Proof.
  revert acc. induction v as [|x v IH]; intros acc Hnan; simpl in *.
  - discriminate.
  - apply orb_true_iff in Hnan as [Hx | Hv].
    + destruct x; try discriminate.
      rewrite fadd_nan_r. apply fold_fadd_nan.
    + apply IH, Hv.
Qed.

Lemma vsum_has_nan (v : vec) : has_nan v = true -> isnan (vsum v) = true.
Proof. intros H. unfold vsum. rewrite fold_fadd_has_nan; auto. Qed.

Lemma has_nan_concat (m : mat) :
  mat_has_nan m = true -> has_nan (concat m) = true.
Proof.
  unfold mat_has_nan, has_nan.
  induction m as [|row m IH]; simpl; intros H; [discriminate|].
  rewrite existsb_app. apply orb_true_iff.
  apply orb_true_iff in H as [H | H]; [left | right]; auto.
Qed.

Lemma msum_has_nan (m : mat) :
  mat_has_nan m = true -> isnan (msum m) = true.
Proof. intros H. apply vsum_has_nan, has_nan_concat, H. Qed.

(** ** The OR-combination of [_check_convg] *)

(** When every listed criterion evaluates without raising, the answer is
    the disjunction of the criteria. *)
Lemma check_loop_existsb cfg er (f : string -> bool) (l : list string)
    (c : bool) :
  Forall (fun key => criterion cfg er key = Ok (f key)) l ->
  check_loop cfg er c l = Ok (c || existsb f l).
Proof.
  intros H. revert c. induction H as [|key l Hk _ IH]; intros c; simpl.
  - now rewrite orb_false_r.
  - destruct c; simpl.
    + apply IH.
    + rewrite Hk. simpl. apply IH.
Qed.

(** C1. The criterion named [xtol_rel] is compared with the relative
    energy norm, not with the relative step norm: with
    [stopping_tol = ['xtol_rel']] and [xtol_rel = 0.6], Newton's method
    on [x^2] from [x = 1] reaches iteration 1 with
    [|deltaX|/|deltaX_0| = 1/2 < 0.6], the documented criterion holds,
    and [_check_convg] answers that the iteration has not converged; the
    solve returns one evaluation later. *)
Theorem check_convg_xtol_rel_reads_energy_norm :
  match loop qsqrt_floor mat lin_factor1 lin_factored_solve1
             xtol_rel_config square_residual 2 0
             (init_state mat lin_factor1 [Fin 1]) with
  | Ok le =>
      errs mat (final mat le) = errors_at_iteration_1
      /\ s_nfev mat (final mat le) = 2%nat
      /\ converged_in_loop mat le = false
  | Raise _ => False
  end
  /\ documented_criterion xtol_rel_config errors_at_iteration_1 "xtol_rel"
       = Ok true
  /\ _check_convg ["xtol_rel"] xtol_rel_config errors_at_iteration_1
       = Ok false
  /\ (exists Xf Rf Jf,
        nsolve qsqrt_floor lin_factor1 lin_factored_solve1 xtol_rel_config
               square_residual [Fin 1] None
        = Ok (Xf, Rf, Jf,
              {| message := "Converged"; nfev := 3; njev := 3;
                 success := true |})).
Proof.
  split; [vm_compute; repeat split|].
  split; [vm_compute; reflexivity|].
  split; [vm_compute; reflexivity|].
  eexists _, _, _. vm_compute. reflexivity.
Qed.

(** ** NaN is fatal for the solve *)

Section NaNStop.

Variable qsqrt : Q -> Q.
Variable factored : Type.
Variable lin_factor : mat -> factored.
Variable lin_factored_solve : factored -> vec -> vec.
Variable cfg : config.
Variable fun_ : resfun.

Local Abbreviation loop' := (loop qsqrt factored lin_factor lin_factored_solve cfg fun_).
Local Abbreviation step' := (computed_step qsqrt factored lin_factor lin_factored_solve).

(** A loop that was left on a NaN is reported as failed, whatever
    [accepting_tol] holds. *)
Lemma finish_after_nan (le : loop_end factored) :
  no_nan_vals factored le = false ->
  converged_in_loop factored le = false ->
  finish factored cfg le
  = Ok (X factored (final factored le), R factored (final factored le),
        dRdX factored (final factored le),
        {| message := "failed";
           nfev := s_nfev factored (final factored le);
           njev := s_njev factored (final factored le);
           success := false |}).
Proof.
  intros Hnan Hconv. unfold finish. rewrite Hnan, Hconv. reflexivity.
Qed.

Lemma update_and_check_nan (i : nat) (st : lstate factored) :
  has_nan (deltaX factored st) = true ->
  update_and_check qsqrt factored cfg i st = Ok (BreakNaN factored st).
Proof.
  intros H. unfold update_and_check. now rewrite (vsum_has_nan _ H).
Qed.

(** One pass through the loop body in which a NaN appears ends in the
    NaN break, with the iterate untouched and one more evaluation
    counted. *)
Lemma body_nan (i : nat) (st : lstate factored) (R' : vec) (dRdX' : mat) :
  reform_freq cfg <> 0%nat ->
  fun_ (X factored st) (Nat.eqb (bfgs_ind factored st) 0) = Ok (R', dRdX') ->
  has_nan R' = true
  \/ (bfgs_ind factored st = 0%nat /\ mat_has_nan dRdX' = true)
  \/ has_nan (step' st R' dRdX') = true ->
  exists st',
    body qsqrt factored lin_factor lin_factored_solve cfg fun_ i st
      = Ok (BreakNaN factored st')
    /\ X factored st' = X factored st
    /\ R factored st' = R'
    /\ s_nfev factored st' = S (s_nfev factored st).
Proof.
  intros Hrf Hfun Hnan. unfold body, computed_step in *.
  destruct (Nat.eqb (bfgs_ind factored st) 0) eqn:Hind.
  - (* Newton branch *)
    unfold newton_step. rewrite Hfun. cbn [mbind result_bind].
    destruct (isnan (vsum R')) eqn:HR.
    { eexists. split; [reflexivity|]. repeat split. }
    destruct (isnan (msum dRdX')) eqn:HJ.
    { eexists. split; [reflexivity|]. repeat split. }
    destruct Hnan as [H | [[_ H] | H]].
    + rewrite (vsum_has_nan _ H) in HR. discriminate.
    + rewrite (msum_has_nan _ H) in HJ. discriminate.
    + destruct (reform_freq cfg) as [|m]; [congruence|].
      rewrite update_and_check_nan by exact H.
      eexists. split; [reflexivity|]. repeat split.
  - (* quasi-Newton branch *)
    unfold bfgs_step. rewrite Hfun. cbn [mbind result_bind].
    destruct (isnan (vsum R')) eqn:HR.
    { eexists. split; [reflexivity|]. repeat split. }
    destruct Hnan as [H | [[H _] | H]].
    + rewrite (vsum_has_nan _ H) in HR. discriminate.
    + apply Nat.eqb_neq in Hind. contradiction.
    + destruct (bfgs_update qsqrt factored lin_factored_solve st R')
        as [[v' w'] dX] eqn:Hup.
      simpl in H. rewrite update_and_check_nan by exact H.
      eexists. split; [reflexivity|]. repeat split.
Qed.

(** C7. If a NaN appears in the residual that an iteration evaluates, in
    the Jacobian that a Newton iteration evaluates, or in the step that
    the iteration computes, the loop is left at once, however many
    iterations remain: the iterate is the one before the iteration, one
    evaluation has been added and nothing is evaluated after it; the
    solve returns [success = False] with the message ['failed'] whatever
    [accepting_tol] and the tolerances are. *)
Theorem nsolve_nan_is_fatal (n i : nat) (st : lstate factored)
    (R' : vec) (dRdX' : mat) :
  reform_freq cfg <> 0%nat ->
  fun_ (X factored st) (Nat.eqb (bfgs_ind factored st) 0) = Ok (R', dRdX') ->
  has_nan R' = true
  \/ (bfgs_ind factored st = 0%nat /\ mat_has_nan dRdX' = true)
  \/ has_nan (step' st R' dRdX') = true ->
  exists le Jf njev',
    loop' (S n) i st = Ok le
    /\ no_nan_vals factored le = false
    /\ X factored (final factored le) = X factored st
    /\ s_nfev factored (final factored le) = S (s_nfev factored st)
    /\ finish factored cfg le
       = Ok (X factored st, R', Jf,
             {| message := "failed"; nfev := S (s_nfev factored st);
                njev := njev'; success := false |}).
Proof.
  intros Hrf Hfun Hnan.
  destruct (body_nan i st R' dRdX' Hrf Hfun Hnan)
    as (st' & Hbody & HX & HR & Hnfev).
  eexists _, _, _. cbn [loop]. rewrite Hbody. cbn [mbind result_bind].
  split; [reflexivity|]. cbn [no_nan_vals final].
  split; [reflexivity|]. split; [exact HX|]. split; [exact Hnfev|].
  rewrite finish_after_nan by reflexivity.
  cbn [final]. rewrite HX, HR, Hnfev. reflexivity.
Qed.

End NaNStop.

(** The theorem at the first iteration of a solve whose residual is NaN,
    with settings that would accept any finite residual. *)
Lemma nsolve_nan_is_fatal_witness :
  exists le Jf njev',
    loop qsqrt_floor mat lin_factor1 lin_factored_solve1
         xtol_rel_config nan_residual 5 0
         (init_state mat lin_factor1 [Fin 1]) = Ok le
    /\ no_nan_vals mat le = false
    /\ X mat (final mat le) = [Fin 1]
    /\ s_nfev mat (final mat le) = 1%nat
    /\ finish mat xtol_rel_config le
       = Ok ([Fin 1], [NaN], Jf,
             {| message := "failed"; nfev := 1; njev := njev';
                success := false |}).
Proof.
  apply (nsolve_nan_is_fatal qsqrt_floor mat lin_factor1
           lin_factored_solve1 xtol_rel_config nan_residual 4 0
           (init_state mat lin_factor1 [Fin 1]) [NaN] [[Fin 1]]).
  - simpl. lia.
  - reflexivity.
  - left. reflexivity.
Defined.

End SolverFacts.

(** * Properties of the harmonic utilities *)

Section HarmonicFacts.
Import Harmonic Examples.
Local Open Scope Q_scope.

(** ** Harmonic sets *)

Lemma remove_dups_length_le (h : list nat) :
  (length (remove_dups h) <= length h)%nat.
Proof.
  induction h as [|x h IH]; simpl; [lia|].
  destruct (decide_rel elem_of x h); simpl; lia.
Qed.

Lemma remove_dups_length_NoDup (h : list nat) :
  length (remove_dups h) = length h <-> NoDup h.
Proof.
  induction h as [|x h IH]; simpl.
  - split; [constructor | reflexivity].
  - pose proof (remove_dups_length_le h) as Hle.
    destruct (decide_rel elem_of x h) as [Hin | Hnin]; simpl.
    + split; [lia|]. intros Hnd. apply NoDup_cons in Hnd as [Hx _].
      contradiction.
    + split.
      * intros Hlen. apply NoDup_cons. split; [exact Hnin|].
        apply IH. lia.
      * intros Hnd. apply NoDup_cons in Hnd as [_ Hnd].
        apply IH in Hnd. lia.
Qed.

Lemma Nhc_NoDup (h : list nat) :
  NoDup h -> Nhc h = Ok (count_components h).
Proof.
  intros Hnd. unfold Nhc.
  apply remove_dups_length_NoDup in Hnd. rewrite Hnd, Nat.eqb_refl.
  reflexivity.
Qed.

Lemma Nhc_dup (h : list nat) :
  ~ NoDup h ->
  Nhc h = Raise (AssertionError "Repeated Harmonics in h are not allowed.").
Proof.
  intros Hdup. unfold Nhc.
  destruct (Nat.eqb_spec (length (remove_dups h)) (length h)) as [Heq|];
    [|reflexivity].
  apply remove_dups_length_NoDup in Heq. contradiction.
Qed.

Lemma count_components_nonzero (l : list nat) :
  Forall (fun k => k <> 0%nat) l ->
  count_components l = (2 * length l)%nat.
Proof.
  unfold count_components. induction 1 as [|k l Hk _ IH]; [reflexivity|].
  destruct k as [|k]; [congruence|]. simpl in *. lia.
Qed.

Lemma count_components_valid (h : list nat) :
  valid_h h -> count_components h = (2 * length h - zero_offset h)%nat.
Proof.
  intros (Hne & _ & Htl). destruct h as [|k h]; [congruence|].
  simpl in Htl. pose proof (count_components_nonzero h Htl) as Hc.
  unfold count_components in *.
  destruct k as [|k]; simpl in *; lia.
Qed.

(** ** Block assignment *)

Lemma in_range_true (a b i : nat) :
  (a <= i < b)%nat -> in_range a b i = true.
Proof.
  intros [H1 H2]. unfold in_range.
  apply andb_true_iff. split; [apply Nat.leb_le | apply Nat.ltb_lt]; lia.
Qed.

Lemma in_range_false (a b i : nat) :
  ~ (a <= i < b)%nat -> in_range a b i = false.
Proof.
  intros H. unfold in_range.
  destruct (Nat.leb_spec a i), (Nat.ltb_spec i b); simpl; try reflexivity.
  lia.
Qed.

(** An assignment to a slice that lies inside the array, from a block of
    the shape of the slice: the block is written, the rest is kept. *)
Lemma set_slice_in_range (E : matrix) (a b c d : nat) (B : matrix) :
  (a <= b <= nrows E)%nat -> (c <= d <= ncols E)%nat ->
  nrows B = (b - a)%nat -> ncols B = (d - c)%nat ->
  exists E',
    set_slice E a b c d B = Ok E'
    /\ nrows E' = nrows E /\ ncols E' = ncols E
    /\ (forall i j, (a <= i < b)%nat -> (c <= j < d)%nat ->
          entry E' i j = entry B (i - a) (j - c))
    /\ (forall i j, ~ ((a <= i < b)%nat /\ (c <= j < d)%nat) ->
          entry E' i j = entry E i j).
Proof.
  intros Hr Hc HBr HBc. unfold set_slice.
  replace (Nat.min a (nrows E)) with a by lia.
  replace (Nat.min c (ncols E)) with c by lia.
  replace (Nat.max a (Nat.min b (nrows E))) with b by lia.
  replace (Nat.max c (Nat.min d (ncols E))) with d by lia.
  rewrite HBr, HBc, !Nat.eqb_refl. simpl.
  eexists. split; [reflexivity|]. simpl.
  split; [reflexivity|]. split; [reflexivity|]. split.
  - intros i j Hi Hj.
    rewrite (in_range_true _ _ _ Hi), (in_range_true _ _ _ Hj). simpl.
    destruct (Nat.eqb_spec (b - a) 1), (Nat.eqb_spec (d - c) 1);
      repeat match goal with
             | |- entry _ ?x ?y = entry _ ?x' ?y' =>
                 replace x with x' by lia; replace y with y' by lia
             end; reflexivity.
  - intros i j Hout.
    destruct (in_range a b i) eqn:Hi; [|reflexivity].
    destruct (in_range c d j) eqn:Hj; [|reflexivity].
    exfalso. apply Hout. unfold in_range in *.
    apply andb_true_iff in Hi as [Hi1 Hi2].
    apply andb_true_iff in Hj as [Hj1 Hj2].
    apply Nat.leb_le in Hi1, Hj1. apply Nat.ltb_lt in Hi2, Hj2. lia.
Qed.

(** ** The loop of [harmonic_stiffness] *)

Ltac write_slice :=
  match goal with
  | |- context [set_slice ?E ?a ?b ?c ?d ?B] =>
      let E' := fresh "E" in
      let Hr := fresh "Hrows" in
      let Hc := fresh "Hcols" in
      let Hin := fresh "Hin" in
      let Hout := fresh "Hout" in
      destruct (set_slice_in_range E a b c d B)
        as (E' & -> & Hr & Hc & Hin & Hout);
      [simpl; lia | simpl; lia | simpl; lia | simpl; lia |];
      cbn [mbind result_bind]
  end.

(** One harmonic: the two coupling blocks are written, the two diagonal
    blocks are written when [K] and [M] are included and kept otherwise,
    and nothing outside the two block rows and columns of the harmonic
    changes. *)
Lemma stiffness_E_spec (M C K : matrix) (w : Q) (nd zi : nat)
    (inc : bool) (hind k D : nat) (E : matrix) :
  let p := (hind * 2 - zi)%nat in
  square nd C ->
  (inc = true -> square nd M /\ square nd K) ->
  nrows E = D -> ncols E = D ->
  (nd * (p + 2) <= D)%nat ->
  exists E',
    stiffness_E M C K w nd zi inc hind k E = Ok E'
    /\ nrows E' = D /\ ncols E' = D
    /\ (forall i j, (i < nd)%nat -> (j < nd)%nat ->
          entry E' (nd * p + i) (nd * (p + 1) + j)
            = 1 * qnat k * w * entry C i j
          /\ entry E' (nd * (p + 1) + i) (nd * p + j)
            = -1 * qnat k * w * entry C i j
          /\ entry E' (nd * p + i) (nd * p + j)
            = (if inc
               then entry K i j + -1 * (qnat k * w) ^ 2 * entry M i j
               else entry E (nd * p + i) (nd * p + j))
          /\ entry E' (nd * (p + 1) + i) (nd * (p + 1) + j)
            = (if inc
               then entry K i j + -1 * (qnat k * w) ^ 2 * entry M i j
               else entry E (nd * (p + 1) + i) (nd * (p + 1) + j)))
    /\ (forall i j,
          (i < nd * p \/ j < nd * p
           \/ nd * (p + 2) <= i \/ nd * (p + 2) <= j)%nat ->
          entry E' i j = entry E i j).
Proof.
  intros p [HCr HCc] HKM HEr HEc Hfit.
  unfold stiffness_E. fold p.
  do 2 write_slice.
  destruct inc.
  - destruct (HKM eq_refl) as [[HMr HMc] [HKr HKc]].
    unfold madd. simpl. rewrite HKr, HKc, HMr, HMc, !Nat.eqb_refl.
    cbn [andb mbind result_bind].
    do 2 write_slice.
    exists E3. split; [reflexivity|].
    split; [congruence|]. split; [congruence|].
    split.
    + intros i j Hi Hj. repeat split.
      * rewrite Hout2, Hout1, Hout0 by lia. rewrite Hin by lia. simpl.
        replace (nd * p + i - nd * p)%nat with i by lia.
        replace (nd * (p + 1) + j - nd * (p + 1))%nat with j by lia.
        reflexivity.
      * rewrite Hout2, Hout1 by lia. rewrite Hin0 by lia. simpl.
        replace (nd * (p + 1) + i - nd * (p + 1))%nat with i by lia.
        replace (nd * p + j - nd * p)%nat with j by lia.
        reflexivity.
      * rewrite Hout2 by lia. rewrite Hin1 by lia. simpl.
        replace (nd * p + i - nd * p)%nat with i by lia.
        replace (nd * p + j - nd * p)%nat with j by lia.
        reflexivity.
      * rewrite Hin2 by lia. simpl.
        replace (nd * (p + 1) + i - nd * (p + 1))%nat with i by lia.
        replace (nd * (p + 1) + j - nd * (p + 1))%nat with j by lia.
        reflexivity.
    + intros i j Hij. rewrite Hout2, Hout1, Hout0, Hout by lia.
      reflexivity.
  - exists E1. split; [reflexivity|].
    split; [congruence|]. split; [congruence|].
    split.
    + intros i j Hi Hj. repeat split.
      * rewrite Hout0 by lia. rewrite Hin by lia. simpl.
        replace (nd * p + i - nd * p)%nat with i by lia.
        replace (nd * (p + 1) + j - nd * (p + 1))%nat with j by lia.
        reflexivity.
      * rewrite Hin0 by lia. simpl.
        replace (nd * (p + 1) + i - nd * (p + 1))%nat with i by lia.
        replace (nd * p + j - nd * p)%nat with j by lia.
        reflexivity.
      * rewrite Hout0, Hout by lia. reflexivity.
      * rewrite Hout0, Hout by lia. reflexivity.
    + intros i j Hij. rewrite Hout0, Hout by lia. reflexivity.
Qed.

(** The assignments to the gradient stay inside the array. *)
Lemma stiffness_dEdw_ok (M C : matrix) (w : Q) (nd zi : nat)
    (inc : bool) (hind k D : nat) (F : matrix) :
  let p := (hind * 2 - zi)%nat in
  square nd C ->
  (inc = true -> square nd M) ->
  nrows F = D -> ncols F = D ->
  (nd * (p + 2) <= D)%nat ->
  exists F',
    stiffness_dEdw M C w nd zi inc hind k F = Ok F'
    /\ nrows F' = D /\ ncols F' = D.
Proof.
  intros p [HCr HCc] HM HFr HFc Hfit.
  unfold stiffness_dEdw. fold p.
  do 2 write_slice.
  destruct inc.
  - destruct (HM eq_refl) as [HMr HMc]. do 2 write_slice.
    eexists. split; [reflexivity|]. split; congruence.
  - eexists. split; [reflexivity|]. split; congruence.
Qed.

Lemma stiffness_body_spec (M C K : matrix) (w : Q) (nd zi : nat)
    (inc : bool) (hind k D : nat) (E : matrix) (dE : option matrix) :
  let p := (hind * 2 - zi)%nat in
  square nd C ->
  (inc = true -> square nd M /\ square nd K) ->
  nrows E = D -> ncols E = D -> grad_dims D dE ->
  (nd * (p + 2) <= D)%nat ->
  exists E' dE',
    stiffness_body M C K w nd zi inc hind k (E, dE) = Ok (E', dE')
    /\ stiffness_E M C K w nd zi inc hind k E = Ok E'
    /\ grad_dims D dE' /\ (dE = None <-> dE' = None).
Proof.
  intros p HC HKM HEr HEc HdE Hfit.
  destruct (stiffness_E_spec M C K w nd zi inc hind k D E HC HKM HEr HEc Hfit)
    as (E' & HE' & _).
  unfold stiffness_body. cbn [fst snd]. rewrite HE'.
  cbn [mbind result_bind].
  destruct dE as [F|].
  - destruct HdE as [HFr HFc].
    destruct (stiffness_dEdw_ok M C w nd zi inc hind k D F HC
                (fun H => proj1 (HKM H)) HFr HFc Hfit)
      as (F' & -> & HFr' & HFc').
    exists E', (Some F'). cbn [mbind result_bind].
    repeat split; try assumption; try discriminate.
  - exists E', None. repeat split; trivial.
Qed.

(** The loop: every harmonic of [hs] gets its blocks, the blocks of the
    harmonics before [hind] and everything after the last block are
    kept. *)
Lemma stiffness_loop_spec (M C K : matrix) (w : Q) (nd zi : nat)
    (inc : bool) (D : nat) :
  square nd C ->
  (inc = true -> square nd M /\ square nd K) ->
  forall (hs : list nat) (hind : nat) (E : matrix) (dE : option matrix),
    (zi <= hind * 2)%nat ->
    nrows E = D -> ncols E = D -> grad_dims D dE ->
    (nd * ((hind + length hs) * 2 - zi) <= D)%nat ->
    exists E' dE',
      stiffness_loop M C K w nd zi inc hind hs (E, dE) = Ok (E', dE')
      /\ nrows E' = D /\ ncols E' = D
      /\ (dE = None <-> dE' = None)
      /\ (forall t k, hs !! t = Some k ->
            let p := ((hind + t) * 2 - zi)%nat in
            forall i j, (i < nd)%nat -> (j < nd)%nat ->
              entry E' (nd * p + i) (nd * (p + 1) + j)
                = 1 * qnat k * w * entry C i j
              /\ entry E' (nd * (p + 1) + i) (nd * p + j)
                = -1 * qnat k * w * entry C i j
              /\ entry E' (nd * p + i) (nd * p + j)
                = (if inc
                   then entry K i j + -1 * (qnat k * w) ^ 2 * entry M i j
                   else entry E (nd * p + i) (nd * p + j))
              /\ entry E' (nd * (p + 1) + i) (nd * (p + 1) + j)
                = (if inc
                   then entry K i j + -1 * (qnat k * w) ^ 2 * entry M i j
                   else entry E (nd * (p + 1) + i) (nd * (p + 1) + j)))
      /\ (forall i j,
            (i < nd * (hind * 2 - zi) \/ j < nd * (hind * 2 - zi)
             \/ nd * ((hind + length hs) * 2 - zi) <= i
             \/ nd * ((hind + length hs) * 2 - zi) <= j)%nat ->
            entry E' i j = entry E i j).
Proof.
  intros HC HKM hs.
  induction hs as [|k hs IH]; intros hind E dE Hzi HEr HEc HdE Hfit.
  - exists E, dE. simpl.
    split; [reflexivity|]. split; [assumption|]. split; [assumption|].
    split; [tauto|]. split; [|reflexivity].
    intros t k Ht. rewrite lookup_nil in Ht. discriminate.
  - simpl in Hfit.
    assert (Hfit0 : (nd * (hind * 2 - zi + 2) <= D)%nat) by nia.
    destruct (stiffness_body_spec M C K w nd zi inc hind k D E dE
                HC HKM HEr HEc HdE Hfit0)
      as (E1 & dE1 & Hbody & HE1 & HdE1 & Hnone1).
    destruct (stiffness_E_spec M C K w nd zi inc hind k D E
                HC HKM HEr HEc Hfit0)
      as (E1' & HE1' & HE1r & HE1c & Hblk1 & Hframe1).
    rewrite HE1 in HE1'. injection HE1' as <-.
    destruct (IH (S hind) E1 dE1) as
      (E' & dE' & Hloop & HEr' & HEc' & Hnone' & Hblk' & Hframe');
      [lia | assumption | assumption | assumption
       | replace (S hind + length hs)%nat with (hind + S (length hs))%nat
           by lia; exact Hfit |].
    exists E', dE'. cbn [stiffness_loop]. rewrite Hbody.
    cbn [mbind result_bind]. split; [exact Hloop|].
    split; [exact HEr'|]. split; [exact HEc'|].
    split; [tauto|]. split.
    + intros [|t] k' Ht i j Hi Hj; simpl in Ht.
      * injection Ht as Ht. subst k'.
        replace (hind + 0)%nat with hind by lia.
        destruct (Hblk1 i j Hi Hj) as (H1 & H2 & H3 & H4).
        rewrite !Hframe' by nia. auto.
      * specialize (Hblk' t k' Ht i j Hi Hj). cbn zeta in Hblk'.
        replace ((hind + S t) * 2 - zi)%nat
          with ((S hind + t) * 2 - zi)%nat by lia.
        destruct Hblk' as (H1 & H2 & H3 & H4).
        split; [exact H1|]. split; [exact H2|].
        destruct inc; [auto|].
        rewrite H3, H4. rewrite !Hframe1 by nia. auto.
    + intros i j Hij.
      rewrite Hframe'.
      * apply Hframe1. simpl length in Hij. nia.
      * simpl length in Hij.
        replace (S hind + length hs)%nat with (hind + S (length hs))%nat
          by lia.
        nia.
Qed.

(** With [only_C] the loop never reads [M] and [K]. *)
Lemma stiffness_loop_only_C (M M' C K K' : matrix) (w : Q) (nd zi : nat)
    (hs : list nat) :
  forall hind acc,
    stiffness_loop M C K w nd zi false hind hs acc
    = stiffness_loop M' C K' w nd zi false hind hs acc.
Proof.
  induction hs as [|k hs IH]; intros hind acc; [reflexivity|].
  cbn [stiffness_loop].
  replace (stiffness_body M' C K' w nd zi false hind k acc)
    with (stiffness_body M C K w nd zi false hind k acc) by reflexivity.
  destruct (stiffness_body M C K w nd zi false hind k acc) as [acc'|e];
    [|reflexivity].
  cbn [mbind result_bind]. apply IH.
Qed.

Lemma harmonic_stiffness_only_C (M M' C K K' : matrix) (w : Q)
    (h : list nat) (calc_grad : bool) :
  harmonic_stiffness M C K w h calc_grad true
  = harmonic_stiffness M' C K' w h calc_grad true.
Proof.
  unfold harmonic_stiffness.
  destruct (Nhc h) as [n|e]; [|reflexivity]. cbn [mbind result_bind].
  destruct h as [|k0 h]; [reflexivity|]. cbn [mbind result_bind negb].
  rewrite andb_false_r. cbn [mbind result_bind].
  apply stiffness_loop_only_C.
Qed.

Lemma harmonic_stiffness_unfold (M C K : matrix) (w : Q) (h : list nat)
    (calc_grad only_C : bool) :
  h <> [] -> NoDup h ->
  harmonic_stiffness M C K w h calc_grad only_C
  = (E ← (if Nat.eqb (zero_offset h) 1 && negb only_C
          then set_slice (mzeros (count_components h * nrows C)
                                 (count_components h * nrows C))
                         0 (nrows C) 0 (nrows C) K
          else Ok (mzeros (count_components h * nrows C)
                          (count_components h * nrows C)));
     stiffness_loop M C K w (nrows C) (zero_offset h) (negb only_C)
       (zero_offset h) (drop (zero_offset h) h)
       (E, if calc_grad
           then Some (mzeros (count_components h * nrows C)
                             (count_components h * nrows C))
           else None)).
Proof.
  intros Hne Hnd. unfold harmonic_stiffness. rewrite (Nhc_NoDup h Hnd).
  destruct h as [|[|k0] h']; [congruence | reflexivity | reflexivity].
Qed.

(** C3. For a valid harmonic set and square matrices of one dimension
    [nd], [harmonic_stiffness] returns the block matrix [E] of dimension
    [Nhc*nd]: when the zeroth harmonic is present its diagonal block is
    [K], or is left zero under [only_C]; the harmonic [k = h[hind]] that
    is not zero occupies the block rows and columns [p] and [p+1],
    [p = 2*hind - zi], with [K - (k w)^2 M] on the two diagonal blocks
    (zero under [only_C]), [+ k w C] above and [- k w C] below the
    diagonal; under [only_C] the result is the same whatever is passed
    for [M] and [K]. The gradient is returned exactly when [calc_grad]
    holds. *)
Theorem harmonic_stiffness_blocks (M C K : matrix) (w : Q) (h : list nat)
    (calc_grad only_C : bool) (nd : nat) :
  valid_h h ->
  square nd C ->
  (only_C = false -> square nd M /\ square nd K) ->
  exists E dEdw,
    harmonic_stiffness M C K w h calc_grad only_C = Ok (E, dEdw)
    /\ nrows E = (count_components h * nd)%nat
    /\ ncols E = (count_components h * nd)%nat
    /\ (calc_grad = false <-> dEdw = None)
    /\ (head h = Some 0%nat ->
        forall i j, (i < nd)%nat -> (j < nd)%nat ->
          entry E i j == (if only_C then 0 else entry K i j))
    /\ (forall hind k, h !! hind = Some k -> k <> 0%nat ->
        let p := (hind * 2 - zero_offset h)%nat in
        let kw := qnat k * w in
        forall i j, (i < nd)%nat -> (j < nd)%nat ->
          entry E (nd * p + i) (nd * p + j)
            == (if only_C then 0 else entry K i j - kw ^ 2 * entry M i j)
          /\ entry E (nd * p + i) (nd * (p + 1) + j) == kw * entry C i j
          /\ entry E (nd * (p + 1) + i) (nd * p + j)
               == - (kw * entry C i j)
          /\ entry E (nd * (p + 1) + i) (nd * (p + 1) + j)
               == (if only_C then 0
                   else entry K i j - kw ^ 2 * entry M i j))
    /\ (only_C = true ->
        forall M' K',
          harmonic_stiffness M' C K' w h calc_grad true = Ok (E, dEdw)).
Proof.
  intros Hvalid HC HKM.
  pose proof (count_components_valid h Hvalid) as Hcount.
  destruct Hvalid as (Hne & Hnd & Htl).
  pose proof (harmonic_stiffness_unfold M C K w h calc_grad only_C
                Hne Hnd) as Hunfold.
  rewrite (proj1 HC) in Hunfold.
  set (zi := zero_offset h) in *.
  set (D := (count_components h * nd)%nat) in *.
  assert (Hzi : (zi <= 1 /\ zi <= length h)%nat
                /\ (zi = 1%nat <-> head h = Some 0%nat)).
  { subst zi. destruct h as [|[|k0] h']; simpl; repeat split;
      try lia; try congruence. }
  destruct Hzi as [[Hzi1 Hzilen] Hzihd].
  assert (HziD : (nd * ((zi + length (drop zi h)) * 2 - zi) <= D)%nat).
  { subst D. rewrite Hcount. rewrite length_drop. fold zi. nia. }
  (* the array before the loop *)
  assert (Hinit : exists E0,
             (if Nat.eqb zi 1 && negb only_C
              then set_slice (mzeros D D) 0 nd 0 nd K
              else Ok (mzeros D D)) = Ok E0
             /\ nrows E0 = D /\ ncols E0 = D
             /\ (forall i j, (i < nd)%nat -> (j < nd)%nat ->
                   entry E0 i j
                   = if Nat.eqb zi 1 && negb only_C then entry K i j else 0)
             /\ (forall i j, (nd * zi <= i \/ nd * zi <= j)%nat ->
                   entry E0 i j = 0)).
  { destruct (Nat.eqb zi 1 && negb only_C) eqn:Hcase.
    - apply andb_true_iff in Hcase as [Hz Ho].
      apply Nat.eqb_eq in Hz. apply negb_true_iff in Ho.
      destruct (HKM Ho) as [_ [HKr HKc]].
      assert (nd <= D)%nat by (subst D; rewrite Hcount; fold zi; nia).
      destruct (set_slice_in_range (mzeros D D) 0 nd 0 nd K)
        as (E0 & -> & Hr & Hc & Hin & Hout); simpl; try lia.
      exists E0. split; [reflexivity|]. split; [exact Hr|].
      split; [exact Hc|]. split.
      + intros i j Hi Hj. rewrite Hin by lia.
        now rewrite !Nat.sub_0_r.
      + intros i j Hij. rewrite Hout by lia. reflexivity.
    - exists (mzeros D D). repeat split; reflexivity. }
  destruct Hinit as (E0 & HE0 & HE0r & HE0c & HE0in & HE0out).
  destruct (stiffness_loop_spec M C K w nd zi (negb only_C) D HC
              ltac:(intros Ho; apply HKM; now apply negb_true_iff in Ho)
              (drop zi h) zi E0
              (if calc_grad then Some (mzeros D D) else None))
    as (E & dE & Hloop & HEr & HEc & Hnone & Hblk & Hframe);
    [lia | assumption | assumption
     | destruct calc_grad; simpl; auto | exact HziD |].
  assert (Hrun : harmonic_stiffness M C K w h calc_grad only_C
                 = Ok (E, dE)).
  { rewrite Hunfold, HE0. cbn [mbind result_bind]. exact Hloop. }
  exists E, dE. split; [exact Hrun|].
  split; [exact HEr|]. split; [exact HEc|]. split.
  { destruct calc_grad; split; intros H; try discriminate; try reflexivity.
    - apply Hnone in H. discriminate.
    - now apply Hnone. }
  split.
  { intros Hhd i j Hi Hj. apply Hzihd in Hhd.
    rewrite Hframe by (rewrite Hhd; simpl; lia).
    rewrite HE0in by assumption. rewrite Hhd. simpl.
    destruct only_C; reflexivity. }
  split.
  { intros hind k Hk Hk0. cbn zeta. intros i j Hi Hj.
    assert (Hge : (zi <= hind)%nat).
    { destruct hind; [|lia].
      destruct (Nat.eq_dec zi 1%nat) as [Hz|]; [|lia].
      apply Hzihd in Hz. destruct h; simpl in *; congruence. }
    assert (Ht : drop zi h !! (hind - zi)%nat = Some k).
    { rewrite lookup_drop. replace (zi + (hind - zi))%nat with hind by lia.
      exact Hk. }
    specialize (Hblk _ _ Ht i j Hi Hj). cbn zeta in Hblk.
    replace (zi + (hind - zi))%nat with hind in Hblk by lia.
    destruct Hblk as (H1 & H2 & H3 & H4).
    rewrite H1, H2, H3, H4.
    assert (Hp : (nd * zi <= nd * (hind * 2 - zi))%nat) by nia.
    destruct only_C; simpl.
    - rewrite !HE0out by lia. repeat split; ring.
    - repeat split; ring. }
  intros -> M' K'.
  rewrite (harmonic_stiffness_only_C M' M C K' K). exact Hrun.
Qed.

(** ** Input validation *)

Local Close Scope Q_scope.

Lemma valid_h_zero_first (h : list nat) :
  valid_h h -> has_zero h && negb (starts_with_zero h) = false.
Proof.
  intros (Hne & _ & Htl). destruct h as [|[|k] h]; [congruence | reflexivity|].
  simpl in *. rewrite andb_true_r. clear Hne.
  induction Htl as [|x l Hx _ IH]; [reflexivity|].
  simpl. destruct x; [congruence | exact IH].
Qed.

Lemma list_max_nat_ge (h : list nat) (k : nat) :
  In k h -> (k <= list_max_nat h)%nat.
Proof.
  induction h as [|x h IH]; simpl; [tauto|].
  intros [-> | Hin]; [lia|]. specialize (IH Hin). lia.
Qed.

Lemma py_index_nonneg (len : nat) (z : Z) :
  (0 <= z < Z.of_nat len)%Z -> py_index len z = Ok (Z.to_nat z).
Proof.
  intros Hz. unfold py_index.
  destruct (Z.ltb_spec z 0); [lia|].
  destruct (Z.leb_spec 0 z); [|lia].
  destruct (Z.ltb_spec z (Z.of_nat len)); [reflexivity | lia].
Qed.

(** Row assignment succeeds when the indices are in range and the shapes
    agree; it keeps the shape of the array. *)
Lemma assign_rows_from_ok {A} (idxs : list Z) :
  forall (X V : array2 A) (t : nat),
    Forall (fun z => (0 <= z < Z.of_nat (nrows X))%Z) idxs ->
    exists X', assign_rows_from X idxs V t = Ok X'
               /\ nrows X' = nrows X /\ ncols X' = ncols X.
Proof.
  induction idxs as [|z idxs IH]; intros X V t Hall.
  - exists X. repeat split.
  - inversion Hall as [|? ? Hz Hrest]; subst.
    cbn [assign_rows_from]. rewrite (py_index_nonneg _ _ Hz).
    cbn [mbind result_bind].
    destruct (IH (set_row X (Z.to_nat z)
                    (entry V (if Nat.eqb (nrows V) 1 then 0%nat else t)))
                 V (S t) Hrest) as (X' & HX' & Hr & Hc).
    exists X'. repeat split; assumption.
Qed.

Lemma assign_rows_ok {A} (X V : array2 A) (idxs : list Z) :
  nrows V = length idxs ->
  Forall (fun z => (0 <= z < Z.of_nat (nrows X))%Z) idxs ->
  exists X', assign_rows X idxs V = Ok X'
             /\ assign_rows_from X idxs V 0 = Ok X'
             /\ nrows X' = nrows X /\ ncols X' = ncols X.
Proof.
  intros Hlen Hall. unfold assign_rows. rewrite Hlen, Nat.eqb_refl.
  cbn [orb].
  destruct (assign_rows_from_ok idxs X V 0 Hall) as (X' & HX' & Hr & Hc).
  exists X'. repeat split; assumption.
Qed.

Lemma cos_idx_in_range (l : list nat) (Nh : nat) :
  Forall (fun k => k <> 0%nat /\ (k <= Nh)%nat) l ->
  Forall (fun z => (0 <= z < Z.of_nat (2 * Nh + 1))%Z)
         (map (fun k => (2 * Z.of_nat k - 1)%Z) l).
Proof.
  intros H. apply Forall_map. eapply Forall_impl; [exact H|].
  simpl. intros k [Hk0 HkN]. lia.
Qed.

Lemma sin_idx_in_range (l : list nat) (Nh : nat) :
  Forall (fun k => k <> 0%nat /\ (k <= Nh)%nat) l ->
  Forall (fun z => (0 <= z < Z.of_nat (2 * Nh + 1))%Z)
         (map (fun k => (2 * Z.of_nat k)%Z) l).
Proof.
  intros H. apply Forall_map. eapply Forall_impl; [exact H|].
  simpl. intros k [Hk0 HkN]. lia.
Qed.

Lemma div2_double (n : nat) : (2 * n / 2 = n)%nat.
Proof. rewrite Nat.mul_comm. apply Nat.div_mul. discriminate. Qed.

Lemma div2_double_succ (n : nat) : ((2 * n + 1) / 2 = n)%nat.
Proof. symmetry. apply (Nat.div_unique _ 2 n 1); lia. Qed.

Lemma valid_h_bounds (h : list nat) :
  valid_h h ->
  Forall (fun k => k <> 0%nat /\ (k <= list_max_nat h)%nat)
         (drop (zero_offset h) h).
Proof.
  intros (Hne & _ & Htl).
  assert (Hle : Forall (fun k => (k <= list_max_nat h)%nat) h).
  { apply Forall_forall. intros k Hk. apply list_max_nat_ge.
    now apply list_elem_of_In. }
  destruct h as [|[|k0] h]; [congruence| |]; simpl in *.
  - try rewrite drop_0. inversion Hle; subst.
    apply Forall_and. split; assumption.
  - try rewrite drop_0. apply Forall_and. split; [|exact Hle].
    constructor; [lia | exact Htl].
Qed.

(** A well-formed call spreads its coefficients without raising. *)
Lemma spread_ok (h : list nat) (X0 : rarray) :
  valid_h h -> nrows X0 = count_components h ->
  exists X, spread (list_max_nat h) h X0 = Ok X
            /\ nrows X = (2 * list_max_nat h + 1)%nat
            /\ ncols X = ncols X0.
Proof.
  intros Hvalid Hrows.
  pose proof (valid_h_bounds h Hvalid) as Hb.
  rewrite (count_components_valid h Hvalid) in Hrows.
  destruct Hvalid as (Hne & _ & _).
  unfold spread.
  destruct h as [|[|k0] h']; [congruence| |]; simpl in Hrows, Hb;
    try rewrite drop_0 in Hb; cbn [starts_with_zero tail].
  - replace (Nat.ltb 0 (nrows X0)) with true
      by (symmetry; apply Nat.ltb_lt; lia).
    cbn [mbind result_bind].
    destruct (assign_rows_ok
                (set_row (azeros 0%R (2 * list_max_nat (0%nat :: h') + 1)
                            (ncols X0)) 0 (entry X0 0))
                (rows_from 1 X0)
                (map (fun k => (2 * Z.of_nat k - 1)%Z) h'))
      as (X2 & -> & _ & Hr2 & Hc2).
    { rewrite length_map. cbn [nrows rows_from].
      replace (nrows X0 + 1 - 1)%nat with (2 * length h' + 1)%nat by lia.
      apply div2_double_succ. }
    { apply cos_idx_in_range, Hb. }
    cbn [mbind result_bind].
    destruct (assign_rows_ok X2 (rows_from 2 X0)
                (map (fun k => (2 * Z.of_nat k)%Z) h'))
      as (X3 & -> & _ & Hr3 & Hc3).
    { rewrite length_map. cbn [nrows rows_from].
      replace (nrows X0 + 1 - 2)%nat with (2 * length h')%nat by lia.
      apply div2_double. }
    { rewrite Hr2. apply sin_idx_in_range, Hb. }
    exists X3. split; [reflexivity|].
    split; [rewrite Hr3, Hr2 | rewrite Hc3, Hc2]; reflexivity.
  - destruct (assign_rows_ok
                (azeros 0%R (2 * list_max_nat (S k0 :: h') + 1) (ncols X0))
                (rows_from 0 X0)
                (map (fun k => (2 * Z.of_nat k - 1)%Z) (S k0 :: h')))
      as (X1 & -> & _ & Hr1 & Hc1).
    { rewrite length_map. cbn [nrows rows_from length].
      replace (nrows X0 + 1 - 0)%nat with (2 * S (length h') + 1)%nat by lia.
      apply div2_double_succ. }
    { apply cos_idx_in_range, Hb. }
    cbn [mbind result_bind].
    destruct (assign_rows_ok X1 (rows_from 1 X0)
                (map (fun k => (2 * Z.of_nat k)%Z) (S k0 :: h')))
      as (X2 & -> & _ & Hr2 & Hc2).
    { rewrite length_map. cbn [nrows rows_from length].
      replace (nrows X0 + 1 - 1)%nat with (2 * S (length h'))%nat by lia.
      apply div2_double. }
    { rewrite Hr1. apply sin_idx_in_range, Hb. }
    exists X2. split; [reflexivity|].
    split; [rewrite Hr2, Hr1 | rewrite Hc2, Hc1]; reflexivity.
Qed.

(** C9. [Nhc] raises its assertion error for every list of harmonics
    with a repeated entry. [time_series_deriv] never returns a time
    series when [Nt <= 2*max(h)+1], and for a well-formed call (a valid
    harmonic set and a coefficient matrix of [Nhc(h)] rows) what it
    raises is the assertion error about the number of times. *)
Theorem input_validation_fails_fast :
  (forall h : list nat,
      ~ NoDup h ->
      Nhc h
      = Raise (AssertionError "Repeated Harmonics in h are not allowed."))
  /\ (forall (Nt : nat) (h : list nat) (X0 : rarray) (order : nat),
        (Nt <= 2 * list_max_nat h + 1)%nat ->
        is_ok (time_series_deriv Nt h X0 order) = false)
  /\ (forall (Nt : nat) (h : list nat) (X0 : rarray) (order : nat),
        valid_h h -> nrows X0 = count_components h ->
        (Nt <= 2 * list_max_nat h + 1)%nat ->
        time_series_deriv Nt h X0 order
        = Raise (AssertionError
                   "More times are required to avoid truncating harmonics.")).
Proof.
  split; [exact Nhc_dup|]. split.
  - intros Nt h X0 order HNt. unfold time_series_deriv.
    destruct (has_zero h && negb (starts_with_zero h)); [reflexivity|].
    destruct h as [|k h']; [reflexivity|]. cbn [mbind result_bind].
    destruct (spread _ _ X0) as [X|e]; [|reflexivity].
    cbn [mbind result_bind].
    replace (Nat.ltb (2 * list_max_nat (k :: h') + 1) Nt) with false
      by (symmetry; apply Nat.ltb_ge; lia).
    reflexivity.
  - intros Nt h X0 order Hvalid Hrows HNt. unfold time_series_deriv.
    rewrite (valid_h_zero_first h Hvalid).
    destruct (spread_ok h X0 Hvalid Hrows) as (X & HX & _).
    destruct Hvalid as (Hne & _).
    destruct h as [|k h']; [congruence|]. cbn [mbind result_bind].
    rewrite HX. cbn [mbind result_bind].
    replace (Nat.ltb (2 * list_max_nat (k :: h') + 1) Nt) with false
      by (symmetry; apply Nat.ltb_ge; lia).
    reflexivity.
Qed.

Lemma ex_h_valid : valid_h ex_h.
Proof.
  split; [discriminate|]. split.
  - unfold ex_h. repeat (apply NoDup_cons; split); try apply NoDup_nil_2;
      rewrite ?elem_of_cons, ?elem_of_nil; intuition discriminate.
  - repeat constructor; discriminate.
Defined.

(** The blocks of the harmonics 0, 1, 3 for two degrees of freedom. *)
Lemma harmonic_stiffness_blocks_witness :
  exists E dEdw,
    harmonic_stiffness ex_M ex_C ex_K (1 # 2) ex_h true false = Ok (E, dEdw)
    /\ nrows E = 10%nat
    /\ (entry E 0 0 == 4)%Q
    /\ (entry E 6 8 == (3 # 20))%Q.
Proof.
  destruct (harmonic_stiffness_blocks ex_M ex_C ex_K (1 # 2) ex_h
              true false 2 ex_h_valid)
    as (E & dE & Hrun & Hr & _ & _ & H0 & Hk & _).
  - split; reflexivity.
  - intros _. split; split; reflexivity.
  - exists E, dE. split; [exact Hrun|]. split; [exact Hr|]. split.
    + apply (H0 eq_refl 0%nat 0%nat); lia.
    + destruct (Hk 2%nat 3%nat eq_refl ltac:(discriminate) 0%nat 0%nat)
        as (_ & HTR & _); [lia | lia |].
      simpl in HTR. rewrite HTR. reflexivity.
Defined.

(** The two checks on concrete inputs: the harmonics 1, 1 and four
    times for the harmonics 0, 1, 3. *)
Lemma input_validation_fails_fast_witness :
  Nhc [1; 1]%nat
  = Raise (AssertionError "Repeated Harmonics in h are not allowed.")
  /\ time_series_deriv 4 ex_h ex_X0 0
     = Raise (AssertionError
                "More times are required to avoid truncating harmonics.").
Proof.
  destruct input_validation_fails_fast as (HNhc & _ & Hts).
  split.
  - apply HNhc. intros Hnd. apply NoDup_cons in Hnd as [Hin _].
    apply Hin. constructor.
  - apply Hts.
    + exact ex_h_valid.
    + reflexivity.
    + simpl. lia.
Defined.

End HarmonicFacts.

(** * Harmonic utilities: the round trip through the time domain *)

Section FourierFacts.
Import Harmonic Examples.
Local Open Scope R_scope.

(** ** Finite sums *)

Lemma Rsum_ext (f g : nat -> R) (n : nat) :
  (forall i, (i < n)%nat -> f i = g i) -> Rsum f n = Rsum g n.
Proof.
  induction n as [|n IH]; intros Hfg; [reflexivity|].
  simpl. rewrite IH by (intros i Hi; apply Hfg; lia).
  rewrite (Hfg n) by lia. reflexivity.
Qed.

Lemma Rsum_zero (f : nat -> R) (n : nat) :
  (forall i, (i < n)%nat -> f i = 0) -> Rsum f n = 0.
Proof.
  induction n as [|n IH]; intros Hf; [reflexivity|].
  simpl. rewrite IH by (intros i Hi; apply Hf; lia).
  rewrite (Hf n) by lia. lra.
Qed.

Lemma Rsum_plus (f g : nat -> R) (n : nat) :
  Rsum (fun i => f i + g i) n = Rsum f n + Rsum g n.
Proof. induction n as [|n IH]; simpl; [lra | rewrite IH; lra]. Qed.

Lemma Rsum_scal (c : R) (f : nat -> R) (n : nat) :
  Rsum (fun i => c * f i) n = c * Rsum f n.
Proof. induction n as [|n IH]; simpl; [lra | rewrite IH; lra]. Qed.

Lemma Rsum_const (c : R) (n : nat) : Rsum (fun _ => c) n = INR n * c.
Proof.
  induction n as [|n IH]; [simpl; lra|].
  cbn [Rsum]. rewrite IH, S_INR. lra.
Qed.

Lemma Rsum_swap (f : nat -> nat -> R) (n m : nat) :
  Rsum (fun i => Rsum (fun j => f i j) m) n
  = Rsum (fun j => Rsum (fun i => f i j) n) m.
Proof.
  induction n as [|n IH]; simpl.
  - symmetry. apply Rsum_zero. reflexivity.
  - rewrite IH, <- Rsum_plus. reflexivity.
Qed.

(** A sum with a single term that is not zero. *)
Lemma Rsum_single (f : nat -> R) (n j : nat) :
  (j < n)%nat -> (forall i, (i < n)%nat -> i <> j -> f i = 0) ->
  Rsum f n = f j.
Proof.
  induction n as [|n IH]; intros Hj Hf; [lia|].
  simpl. destruct (Nat.eq_dec j n) as [-> | Hne].
  - rewrite Rsum_zero by (intros i Hi; apply Hf; lia). lra.
  - rewrite IH by (try lia; intros i Hi Hij; apply Hf; lia).
    rewrite (Hf n) by lia. lra.
Qed.

Lemma Rsum_app (f : nat -> R) (a b : nat) :
  Rsum f (a + b) = Rsum f a + Rsum (fun i => f (a + i)%nat) b.
Proof.
  induction b as [|b IH]; simpl.
  - rewrite Nat.add_0_r. lra.
  - rewrite Nat.add_succ_r. simpl. rewrite IH. lra.
Qed.

Lemma Rsum_rev (f : nat -> R) (n : nat) :
  Rsum f n = Rsum (fun i => f (n - 1 - i)%nat) n.
Proof.
  induction n as [|n IH]; [reflexivity|].
  replace (S n) with (1 + n)%nat at 2 by lia.
  rewrite Rsum_app. simpl.
  replace (n - 0 - 0)%nat with n by lia.
  rewrite IH.
  rewrite (Rsum_ext (fun i => f (n - 0 - S i)%nat)
             (fun i => f (n - 1 - i)%nat))
    by (intros i Hi; f_equal; lia).
  lra.
Qed.

Lemma Cre_Csum (f : nat -> C) (n : nat) :
  Cre (Csum f n) = Rsum (fun i => Cre (f i)) n.
Proof. induction n as [|n IH]; simpl; [reflexivity | rewrite <- IH; reflexivity]. Qed.

Lemma Cim_Csum (f : nat -> C) (n : nat) :
  Cim (Csum f n) = Rsum (fun i => Cim (f i)) n.
Proof. induction n as [|n IH]; simpl; [reflexivity | rewrite <- IH; reflexivity]. Qed.

(** ** Sums of cosines and sines over one period *)

Lemma sum_cos_telescope (phi : R) (n : nat) :
  2 * sin (phi / 2) * Rsum (fun t => cos (INR t * phi)) n
  = sin ((INR n - 1 / 2) * phi) + sin (phi / 2).
Proof.
  induction n as [|n IH].
  - simpl. replace ((0 - 1 / 2) * phi) with (- (phi / 2)) by lra.
    rewrite sin_neg. lra.
  - cbn [Rsum]. rewrite Rmult_plus_distr_l, IH, S_INR.
    replace ((INR n + 1 - 1 / 2) * phi) with (INR n * phi + phi / 2) by lra.
    replace ((INR n - 1 / 2) * phi) with (INR n * phi - phi / 2) by lra.
    rewrite sin_plus, sin_minus. lra.
Qed.

Lemma sum_sin_telescope (phi : R) (n : nat) :
  2 * sin (phi / 2) * Rsum (fun t => sin (INR t * phi)) n
  = cos (phi / 2) - cos ((INR n - 1 / 2) * phi).
Proof.
  induction n as [|n IH].
  - simpl. replace ((0 - 1 / 2) * phi) with (- (phi / 2)) by lra.
    rewrite cos_neg. lra.
  - cbn [Rsum]. rewrite Rmult_plus_distr_l, IH, S_INR.
    replace ((INR n + 1 - 1 / 2) * phi) with (INR n * phi + phi / 2) by lra.
    replace ((INR n - 1 / 2) * phi) with (INR n * phi - phi / 2) by lra.
    rewrite cos_plus, cos_minus. lra.
Qed.

Lemma angle_unfold (N m n : nat) :
  angle N m n = INR n * (2 * PI * INR m / INR N).
Proof. unfold angle. lra. Qed.

Lemma angle_0_l (N n : nat) : angle N 0 n = 0.
Proof. unfold angle. simpl. lra. Qed.

Lemma half_angle_sin_pos (N m : nat) :
  (0 < m < N)%nat -> 0 < sin (2 * PI * INR m / INR N / 2).
Proof.
  intros [Hm HmN].
  assert (HN : 0 < INR N) by (apply lt_0_INR; lia).
  assert (Hm' : 0 < INR m) by (apply lt_0_INR; lia).
  assert (HmN' : INR m < INR N) by (apply lt_INR; lia).
  pose proof PI_RGT_0 as Hpi.
  replace (2 * PI * INR m / INR N / 2) with (PI * (INR m / INR N))
    by (field; lra).
  assert (Hq : 0 < INR m / INR N < 1).
  { split.
    - apply Rdiv_lt_0_compat; assumption.
    - apply (Rmult_lt_reg_r (INR N)); [assumption|].
      unfold Rdiv. rewrite Rmult_assoc, Rinv_l by lra. lra. }
  apply sin_gt_0; nra.
Qed.

(** Over one period the cosines and the sines of a harmonic [0 < m < N]
    sum to zero. *)
Lemma sum_cos_period (N m : nat) :
  (0 < m < N)%nat -> Rsum (fun t => cos (angle N m t)) N = 0.
Proof.
  intros Hm.
  pose proof (half_angle_sin_pos N m Hm) as Hs.
  assert (HN : 0 < INR N) by (apply lt_0_INR; lia).
  set (phi := 2 * PI * INR m / INR N) in *.
  rewrite (Rsum_ext _ (fun t => cos (INR t * phi)))
    by (intros t _; now rewrite angle_unfold).
  pose proof (sum_cos_telescope phi N) as Ht.
  replace ((INR N - 1 / 2) * phi) with (- (phi / 2) + 2 * INR m * PI) in Ht
    by (unfold phi; field; lra).
  rewrite sin_period, sin_neg in Ht. nra.
Qed.

Lemma sum_sin_period (N m : nat) :
  (0 < m < N)%nat -> Rsum (fun t => sin (angle N m t)) N = 0.
Proof.
  intros Hm.
  pose proof (half_angle_sin_pos N m Hm) as Hs.
  assert (HN : 0 < INR N) by (apply lt_0_INR; lia).
  set (phi := 2 * PI * INR m / INR N) in *.
  rewrite (Rsum_ext _ (fun t => sin (INR t * phi)))
    by (intros t _; now rewrite angle_unfold).
  pose proof (sum_sin_telescope phi N) as Ht.
  replace ((INR N - 1 / 2) * phi) with (- (phi / 2) + 2 * INR m * PI) in Ht
    by (unfold phi; field; lra).
  rewrite cos_period, cos_neg in Ht. nra.
Qed.

Lemma angle_plus (N j k n : nat) :
  angle N (j + k) n = angle N j n + angle N k n.
Proof. unfold angle. rewrite plus_INR. lra. Qed.

Lemma angle_minus (N j k n : nat) :
  (k <= j)%nat -> angle N (j - k) n = angle N j n - angle N k n.
Proof. intros Hkj. unfold angle. rewrite minus_INR by exact Hkj. lra. Qed.

(** The harmonic [N - k] is the conjugate of the harmonic [k]. *)
Lemma cos_angle_conj (N k n : nat) :
  (0 < N)%nat -> (k <= N)%nat ->
  cos (angle N (N - k) n) = cos (angle N k n).
Proof.
  intros HN Hk.
  assert (HN' : 0 < INR N) by (apply lt_0_INR; lia).
  replace (angle N (N - k) n) with (- angle N k n + 2 * INR n * PI).
  - rewrite cos_period. apply cos_neg.
  - unfold angle. rewrite minus_INR by exact Hk. field. lra.
Qed.

Lemma sin_angle_conj (N k n : nat) :
  (0 < N)%nat -> (k <= N)%nat ->
  sin (angle N (N - k) n) = - sin (angle N k n).
Proof.
  intros HN Hk.
  assert (HN' : 0 < INR N) by (apply lt_0_INR; lia).
  replace (angle N (N - k) n) with (- angle N k n + 2 * INR n * PI).
  - rewrite sin_period. apply sin_neg.
  - unfold angle. rewrite minus_INR by exact Hk. field. lra.
Qed.

(** ** Orthogonality of the harmonics *)

Lemma sum_cos_diff (N j k : nat) :
  j <> k -> (j < N)%nat -> (k < N)%nat ->
  Rsum (fun t => cos (angle N j t - angle N k t)) N = 0.
Proof.
  intros Hne Hj Hk.
  destruct (Nat.lt_ge_cases j k) as [Hlt | Hge].
  - rewrite (Rsum_ext _ (fun t => cos (angle N (k - j) t))).
    + apply sum_cos_period. lia.
    + intros t _. rewrite angle_minus by lia.
      rewrite <- cos_neg. f_equal. lra.
  - rewrite (Rsum_ext _ (fun t => cos (angle N (j - k) t))).
    + apply sum_cos_period. lia.
    + intros t _. rewrite angle_minus by lia. reflexivity.
Qed.

Lemma sum_sin_diff (N j k : nat) :
  (j < N)%nat -> (k < N)%nat ->
  Rsum (fun t => sin (angle N j t - angle N k t)) N = 0.
Proof.
  intros Hj Hk.
  destruct (Nat.eq_dec j k) as [-> | Hne].
  { apply Rsum_zero. intros t _.
    replace (angle N k t - angle N k t) with 0 by lra. apply sin_0. }
  destruct (Nat.lt_ge_cases j k) as [Hlt | Hge].
  - rewrite (Rsum_ext _ (fun t => -1 * sin (angle N (k - j) t))).
    + rewrite Rsum_scal, sum_sin_period by lia. lra.
    + intros t _. rewrite angle_minus by lia.
      replace (angle N j t - angle N k t)
        with (- (angle N k t - angle N j t)) by lra.
      rewrite sin_neg. lra.
  - rewrite (Rsum_ext _ (fun t => sin (angle N (j - k) t))).
    + apply sum_sin_period. lia.
    + intros t _. rewrite angle_minus by lia. reflexivity.
Qed.

Lemma sum_cos_cos (N j k : nat) :
  (0 < j)%nat -> (0 < k)%nat -> (j + k < N)%nat ->
  Rsum (fun t => cos (angle N j t) * cos (angle N k t)) N
  = if Nat.eqb j k then INR N / 2 else 0.
Proof.
  intros Hj Hk Hjk.
  rewrite (Rsum_ext _ (fun t => / 2 * (cos (angle N j t - angle N k t)
                                       + cos (angle N (j + k) t)))).
  2:{ intros t _. rewrite angle_plus, cos_plus, cos_minus. lra. }
  rewrite Rsum_scal, Rsum_plus, sum_cos_period by lia.
  destruct (Nat.eqb_spec j k) as [-> | Hne].
  - rewrite (Rsum_ext _ (fun _ => 1)), Rsum_const.
    + lra.
    + intros t _. replace (angle N k t - angle N k t) with 0 by lra.
      apply cos_0.
  - rewrite sum_cos_diff by lia. lra.
Qed.

Lemma sum_sin_sin (N j k : nat) :
  (0 < j)%nat -> (0 < k)%nat -> (j + k < N)%nat ->
  Rsum (fun t => sin (angle N j t) * sin (angle N k t)) N
  = if Nat.eqb j k then INR N / 2 else 0.
Proof.
  intros Hj Hk Hjk.
  rewrite (Rsum_ext _ (fun t => / 2 * (cos (angle N j t - angle N k t)
                                       + -1 * cos (angle N (j + k) t)))).
  2:{ intros t _. rewrite angle_plus, cos_plus, cos_minus. lra. }
  rewrite Rsum_scal, Rsum_plus, Rsum_scal, sum_cos_period by lia.
  destruct (Nat.eqb_spec j k) as [-> | Hne].
  - rewrite (Rsum_ext _ (fun _ => 1)), Rsum_const.
    + lra.
    + intros t _. replace (angle N k t - angle N k t) with 0 by lra.
      apply cos_0.
  - rewrite sum_cos_diff by lia. lra.
Qed.

Lemma sum_sin_cos (N j k : nat) :
  (0 < j)%nat -> (0 < k)%nat -> (j + k < N)%nat ->
  Rsum (fun t => sin (angle N j t) * cos (angle N k t)) N = 0.
Proof.
  intros Hj Hk Hjk.
  rewrite (Rsum_ext _ (fun t => / 2 * (sin (angle N j t - angle N k t)
                                       + sin (angle N (j + k) t)))).
  2:{ intros t _. rewrite angle_plus, sin_plus, sin_minus. lra. }
  rewrite Rsum_scal, Rsum_plus, sum_sin_period, sum_sin_diff by lia.
  lra.
Qed.

Lemma sum_cos_sin (N j k : nat) :
  (0 < j)%nat -> (0 < k)%nat -> (j + k < N)%nat ->
  Rsum (fun t => cos (angle N j t) * sin (angle N k t)) N = 0.
Proof.
  intros Hj Hk Hjk.
  rewrite (Rsum_ext _ (fun t => sin (angle N k t) * cos (angle N j t)))
    by (intros t _; lra).
  apply sum_sin_cos; lia.
Qed.

(** ** The coefficients of a trigonometric sum *)

Lemma trig_series_times (F : rarray) (K N n d : nat) (c : R) :
  trig_series F K N n d * c
  = entry F 0 d * c
    + Rsum (fun j => entry F (2 * j + 1) d * (cos (angle N (S j) n) * c)
                     + entry F (2 * j + 2) d * (sin (angle N (S j) n) * c))
           K.
Proof.
  unfold trig_series. rewrite Rmult_plus_distr_r. f_equal.
  rewrite Rmult_comm, <- Rsum_scal. apply Rsum_ext. intros j _. lra.
Qed.

Lemma analysis_mean (F : rarray) (K N d : nat) :
  (2 * K < N)%nat ->
  Rsum (fun n => trig_series F K N n d) N = INR N * entry F 0 d.
Proof.
  intros HK. unfold trig_series.
  rewrite Rsum_plus, Rsum_const, Rsum_swap.
  rewrite Rsum_zero; [lra|].
  intros j Hj.
  rewrite Rsum_plus, !Rsum_scal, sum_cos_period, sum_sin_period by lia.
  lra.
Qed.

Lemma analysis_cos (F : rarray) (K N d h : nat) :
  (0 < h <= K)%nat -> (2 * K < N)%nat ->
  Rsum (fun n => trig_series F K N n d * cos (angle N h n)) N
  = INR N / 2 * entry F (2 * h - 1) d.
Proof.
  intros Hh HK.
  rewrite (Rsum_ext _ _ N (fun n _ => trig_series_times F K N n d _)).
  rewrite Rsum_plus, Rsum_scal, sum_cos_period, Rsum_swap by lia.
  rewrite (Rsum_ext _ (fun j => if Nat.eqb (S j) h
                                then INR N / 2 * entry F (2 * j + 1) d
                                else 0)).
  2:{ intros j Hj.
      rewrite Rsum_plus, !Rsum_scal, sum_cos_cos, sum_sin_cos by lia.
      destruct (Nat.eqb (S j) h); lra. }
  rewrite (Rsum_single _ K (h - 1)).
  - replace (S (h - 1)) with h by lia. rewrite Nat.eqb_refl.
    replace (2 * (h - 1) + 1)%nat with (2 * h - 1)%nat by lia. lra.
  - lia.
  - intros i Hi Hne. destruct (Nat.eqb_spec (S i) h); [lia | reflexivity].
Qed.

Lemma analysis_sin (F : rarray) (K N d h : nat) :
  (0 < h <= K)%nat -> (2 * K < N)%nat ->
  Rsum (fun n => trig_series F K N n d * sin (angle N h n)) N
  = INR N / 2 * entry F (2 * h) d.
Proof.
  intros Hh HK.
  rewrite (Rsum_ext _ _ N (fun n _ => trig_series_times F K N n d _)).
  rewrite Rsum_plus, Rsum_scal, sum_sin_period, Rsum_swap by lia.
  rewrite (Rsum_ext _ (fun j => if Nat.eqb (S j) h
                                then INR N / 2 * entry F (2 * j + 2) d
                                else 0)).
  2:{ intros j Hj.
      rewrite Rsum_plus, !Rsum_scal, sum_cos_sin, sum_sin_sin by lia.
      destruct (Nat.eqb (S j) h); lra. }
  rewrite (Rsum_single _ K (h - 1)).
  - replace (S (h - 1)) with h by lia. rewrite Nat.eqb_refl.
    replace (2 * (h - 1) + 2)%nat with (2 * h)%nat by lia. lra.
  - lia.
  - intros i Hi Hne. destruct (Nat.eqb_spec (S i) h); [lia | reflexivity].
Qed.

(** ** The time series is the trigonometric sum *)

Lemma fourier_rows_nrows (F : rarray) (Nht Nt' : nat) :
  nrows F = (2 * Nht + 1)%nat ->
  nrows (fourier_rows F Nt') = (2 * Nht + 2)%nat.
Proof.
  intros HF. unfold fourier_rows.
  cbn [nrows amap vstack row_of azip rows_from rows_back azeros].
  rewrite HF.
  replace (2 * Nht + 1 + 1 - 1)%nat with (2 * Nht + 1)%nat by lia.
  replace (2 * Nht + 1 - 1)%nat with (2 * Nht)%nat by lia.
  rewrite div2_double_succ, div2_double. lia.
Qed.

(** The rows of [Xf]: the mean, the harmonics 1 to [Nht], a zero row,
    and the conjugates of the harmonics [Nht] down to 1. *)
Lemma fourier_rows_entry (F : rarray) (Nht Nt' m d : nat) :
  nrows F = (2 * Nht + 1)%nat ->
  entry (fourier_rows F Nt') m d
  = Cscale (INR Nt' / 2)
      (if Nat.eqb m 0 then (2 * entry F 0 d, 0)
       else if Nat.leb m Nht
       then (entry F (2 * m - 1) d, - entry F (2 * m) d)
       else if Nat.eqb m (Nht + 1) then (0, 0)
       else (entry F (2 * (2 * Nht + 2 - m) - 1) d,
             entry F (2 * (2 * Nht + 2 - m)) d)).
Proof.
  intros HF. unfold fourier_rows.
  cbn [entry nrows amap vstack row_of azip rows_from rows_back azeros].
  rewrite HF.
  replace (2 * Nht + 1 + 1 - 1)%nat with (2 * Nht + 1)%nat by lia.
  rewrite div2_double_succ.
  f_equal.
  destruct (Nat.eqb_spec m 0) as [-> | Hm0]; [reflexivity|].
  replace (Nat.ltb m 1) with false by (symmetry; apply Nat.ltb_ge; lia).
  destruct (Nat.leb_spec m Nht) as [Hle | Hgt].
  - replace (Nat.ltb (m - 1) Nht) with true
      by (symmetry; apply Nat.ltb_lt; lia).
    f_equal; [|f_equal]; f_equal; lia.
  - replace (Nat.ltb (m - 1) Nht) with false
      by (symmetry; apply Nat.ltb_ge; lia).
    destruct (Nat.eqb_spec m (Nht + 1)) as [-> | Hm1].
    + replace (Nat.ltb (Nht + 1 - 1 - Nht) 1) with true
        by (symmetry; apply Nat.ltb_lt; lia).
      reflexivity.
    + replace (Nat.ltb (m - 1 - Nht) 1) with false
        by (symmetry; apply Nat.ltb_ge; lia).
      f_equal; f_equal; lia.
Qed.

(** One term of [trig_series]. *)
Local Abbreviation wave F N n d j :=
  (entry F (2 * j + 1) d * cos (angle N (S j) n)
   + entry F (2 * j + 2) d * sin (angle N (S j) n)).

Lemma synthesis (F : rarray) (Nht n d : nat) :
  nrows F = (2 * Nht + 1)%nat ->
  let N := (2 * Nht + 2)%nat in
  entry (ifft_real (fourier_rows F N)) n d = trig_series F Nht N n d.
Proof.
  intros HF N.
  assert (HN : 0 < INR N) by (apply lt_0_INR; lia).
  unfold ifft_real. cbn [entry].
  rewrite (fourier_rows_nrows F Nht N HF). fold N.
  unfold Cscale at 1. cbn [Cre fst].
  change (fst (Csum ?f N)) with (Cre (Csum f N)).
  rewrite Cre_Csum.
  set (T := fun m : nat =>
              Cre (Cmul (entry (fourier_rows F N) m d)
                     (cis (2 * PI * INR m * INR n / INR N)))).
  assert (HT0 : T 0%nat = INR N * entry F 0 d).
  { unfold T. rewrite (fourier_rows_entry F Nht N 0 d HF).
    cbn [Nat.eqb Cscale Cmul cis Cre fst snd].
    replace (2 * PI * INR 0 * INR n / INR N) with 0 by (simpl; lra).
    rewrite cos_0, sin_0. lra. }
  assert (HTlow : forall j, (j < Nht)%nat ->
                    T (1 + j)%nat = INR N / 2 * wave F N n d j).
  { intros j Hj. unfold T.
    rewrite (fourier_rows_entry F Nht N (1 + j) d HF).
    cbn [Nat.add Nat.eqb].
    replace (Nat.leb (S j) Nht) with true
      by (symmetry; apply Nat.leb_le; lia).
    cbn [Cscale Cmul cis Cre fst snd].
    replace (2 * S j - 1)%nat with (2 * j + 1)%nat by lia.
    replace (2 * S j)%nat with (2 * j + 2)%nat by lia.
    change (2 * PI * INR (S j) * INR n / INR N) with (angle N (S j) n).
    lra. }
  assert (HTmid : T (1 + Nht)%nat = 0).
  { unfold T. rewrite (fourier_rows_entry F Nht N (1 + Nht) d HF).
    replace (Nat.eqb (1 + Nht) 0) with false by reflexivity.
    replace (Nat.leb (1 + Nht) Nht) with false
      by (symmetry; apply Nat.leb_gt; lia).
    replace (Nat.eqb (1 + Nht) (Nht + 1)) with true
      by (symmetry; apply Nat.eqb_eq; lia).
    cbn [Cscale Cmul cis Cre fst snd]. lra. }
  assert (HThigh : forall i, (i < Nht)%nat ->
                     T (1 + Nht + 1 + i)%nat
                     = INR N / 2 * wave F N n d (Nht - 1 - i)).
  { intros i Hi. unfold T.
    rewrite (fourier_rows_entry F Nht N (1 + Nht + 1 + i) d HF).
    replace (Nat.eqb (1 + Nht + 1 + i) 0) with false
      by (symmetry; apply Nat.eqb_neq; lia).
    replace (Nat.leb (1 + Nht + 1 + i) Nht) with false
      by (symmetry; apply Nat.leb_gt; lia).
    replace (Nat.eqb (1 + Nht + 1 + i) (Nht + 1)) with false
      by (symmetry; apply Nat.eqb_neq; lia).
    cbn [Cscale Cmul cis Cre fst snd].
    change (2 * PI * INR (1 + Nht + 1 + i) * INR n / INR N)
      with (angle N (1 + Nht + 1 + i) n).
    replace (1 + Nht + 1 + i)%nat with (N - S (Nht - 1 - i))%nat
      by (unfold N; lia).
    rewrite cos_angle_conj, sin_angle_conj by (unfold N; lia).
    replace (2 * (2 * Nht + 2 - (N - S (Nht - 1 - i))) - 1)%nat
      with (2 * (Nht - 1 - i) + 1)%nat by (unfold N; lia).
    replace (2 * (2 * Nht + 2 - (N - S (Nht - 1 - i))))%nat
      with (2 * (Nht - 1 - i) + 2)%nat by (unfold N; lia).
    lra. }
  replace N with (1 + Nht + 1 + Nht)%nat at 2 by (unfold N; lia).
  rewrite !Rsum_app.
  cbn [Rsum].
  replace (1 + Nht + 0)%nat with (1 + Nht)%nat by lia.
  replace (0 + 0)%nat with 0%nat by lia.
  rewrite HT0, HTmid.
  rewrite (Rsum_ext _ _ Nht HTlow), (Rsum_ext _ _ Nht HThigh).
  rewrite !Rsum_scal.
  rewrite <- (Rsum_rev (fun j => wave F N n d j) Nht).
  unfold trig_series. field. lra.
Qed.

(** ** The coefficients that [get_fourier_coeff] reads off *)

Lemma fft_re (x : rarray) (k d : nat) :
  Cre (entry (fft x) k d)
  = Rsum (fun n => entry x n d * cos (angle (nrows x) k n)) (nrows x).
Proof.
  unfold fft. cbn [entry]. rewrite Cre_Csum.
  apply Rsum_ext. intros n _. cbn [Cscale cis Cre fst].
  rewrite cos_neg. reflexivity.
Qed.

Lemma fft_im (x : rarray) (k d : nat) :
  Cim (entry (fft x) k d)
  = - Rsum (fun n => entry x n d * sin (angle (nrows x) k n)) (nrows x).
Proof.
  unfold fft. cbn [entry]. rewrite Cim_Csum.
  transitivity
    (Rsum (fun n => -1 * (entry x n d * sin (angle (nrows x) k n)))
       (nrows x)).
  - apply Rsum_ext. intros n _. cbn [Cscale cis Cim snd].
    rewrite sin_neg. unfold angle. lra.
  - rewrite Rsum_scal. lra.
Qed.

Lemma fourier_loop_spec (xf : carray) (Nt zi : nat) (hs : list nat) :
  forall (i : nat) (v : rarray),
    Forall (fun k => (k < nrows xf)%nat) hs ->
    (2 * (i + length hs) + zi <= nrows v)%nat ->
    exists v',
      fourier_loop xf Nt zi hs i v = Ok v'
      /\ nrows v' = nrows v /\ ncols v' = ncols v
      /\ (forall r d, (r < 2 * i + zi)%nat -> entry v' r d = entry v r d)
      /\ (forall j k d, hs !! j = Some k ->
            entry v' (2 * (i + j) + zi) d
            = Cre (entry xf k d) / (INR Nt / 2)
            /\ entry v' (2 * (i + j) + 1 + zi) d
               = - Cim (entry xf k d) / (INR Nt / 2)).
Proof.
  induction hs as [|hi hs IH]; intros i v Hall Hrows.
  - exists v. do 4 (split; [reflexivity|]). intros j k d Hj. discriminate.
  - inversion Hall as [|? ? Hhi Hrest]; subst.
    cbn [length] in Hrows. cbn [fourier_loop].
    replace (Nat.ltb hi (nrows xf)) with true
      by (symmetry; apply Nat.ltb_lt; exact Hhi).
    cbn [mbind result_bind]. unfold set_row_checked.
    replace (Nat.ltb (2 * i + zi) (nrows v)) with true
      by (symmetry; apply Nat.ltb_lt; lia).
    cbn [mbind result_bind nrows set_row].
    replace (Nat.ltb (2 * i + 1 + zi) (nrows v)) with true
      by (symmetry; apply Nat.ltb_lt; lia).
    cbn [mbind result_bind].
    match goal with
    | |- context [fourier_loop xf Nt zi hs (S i) ?v2] =>
        destruct (IH (S i) v2 Hrest) as (v' & Hv' & Hr & Hc & Hold & Hnew)
    end.
    { cbn [nrows set_row]. lia. }
    exists v'. split; [exact Hv'|].
    cbn [nrows ncols set_row] in Hr, Hc.
    split; [exact Hr|]. split; [exact Hc|]. split.
    + intros r d Hlt. rewrite Hold by lia. cbn [entry set_row].
      replace (Nat.eqb r (2 * i + 1 + zi)) with false
        by (symmetry; apply Nat.eqb_neq; lia).
      replace (Nat.eqb r (2 * i + zi)) with false
        by (symmetry; apply Nat.eqb_neq; lia).
      reflexivity.
    + intros [|j] k d Hj.
      * cbn in Hj. injection Hj as <-.
        rewrite Nat.add_0_r.
        rewrite !Hold by lia. cbn [entry set_row].
        replace (Nat.eqb (2 * i + zi) (2 * i + 1 + zi)) with false
          by (symmetry; apply Nat.eqb_neq; lia).
        rewrite !Nat.eqb_refl. split; reflexivity.
      * cbn in Hj. destruct (Hnew j k d Hj) as [Hc' Hs'].
        replace (i + S j)%nat with (S i + j)%nat by lia.
        split; assumption.
Qed.

Lemma harmonics_below (h : list nat) (N : nat) :
  (list_max_nat h < N)%nat -> Forall (fun k => (k < N)%nat) h.
Proof.
  intros Hmax. apply Forall_forall. intros k Hk.
  apply list_elem_of_In, list_max_nat_ge in Hk. lia.
Qed.

Lemma get_fourier_coeff_spec (h : list nat) (x : rarray) :
  valid_h h -> (list_max_nat h < nrows x)%nat ->
  exists v,
    get_fourier_coeff h x = Ok v
    /\ nrows v = count_components h /\ ncols v = ncols x
    /\ (starts_with_zero h = true -> forall d,
          entry v 0 d = Cre (entry (fft x) 0 d) / INR (nrows x))
    /\ (forall j k d, drop (zero_offset h) h !! j = Some k ->
          entry v (2 * j + zero_offset h) d
          = Cre (entry (fft x) k d) / (INR (nrows x) / 2)
          /\ entry v (2 * j + 1 + zero_offset h) d
             = - Cim (entry (fft x) k d) / (INR (nrows x) / 2)).
Proof.
  intros Hvalid Hmax.
  pose proof (valid_h_zero_first h Hvalid) as Hzf.
  pose proof (count_components_valid h Hvalid) as Hcount.
  pose proof (harmonics_below h (nrows x) Hmax) as Hbelow.
  unfold get_fourier_coeff. rewrite Hzf.
  destruct Hvalid as (Hne & _ & _).
  destruct h as [|[|k0] h']; [congruence | |];
    cbn [mbind result_bind Nat.eqb zero_offset length] in *.
  - replace (Nat.eqb (nrows x) 0) with false
      by (symmetry; apply Nat.eqb_neq; lia).
    cbn [mbind result_bind]. unfold set_row_checked at 1.
    cbn [nrows azeros]. rewrite Hcount.
    replace (Nat.ltb 0 (2 * S (length h') - 1)) with true
      by (symmetry; apply Nat.ltb_lt; lia).
    cbn [mbind result_bind].
    replace (S (length h') - 1)%nat with (length h') by lia.
    change (drop 1 (0%nat :: h')) with h'. rewrite firstn_all.
    match goal with
    | |- context [fourier_loop ?xf ?Nt 1 h' 0 ?v1] =>
        destruct (fourier_loop_spec xf Nt 1 h' 0 v1)
          as (v' & Hv' & Hr & Hc & Hold & Hnew)
    end.
    { inversion Hbelow; assumption. }
    { cbn [nrows set_row azeros]. lia. }
    exists v'. split; [exact Hv'|].
    cbn [nrows ncols set_row azeros] in Hr, Hc.
    split; [rewrite Hr; lia|]. split; [exact Hc|]. split.
    + intros _ d. rewrite Hold by lia. reflexivity.
    + intros j k d Hj. apply (Hnew j k d Hj).
  - replace (Nat.eqb (nrows x) 0) with false
      by (symmetry; apply Nat.eqb_neq; lia).
    cbn [mbind result_bind].
    replace (S (length h') - 0)%nat with (length (S k0 :: h'))
      by (cbn [length]; lia).
    rewrite drop_0, firstn_all.
    match goal with
    | |- context [fourier_loop ?xf ?Nt 0 ?hs 0 ?v1] =>
        destruct (fourier_loop_spec xf Nt 0 hs 0 v1)
          as (v' & Hv' & Hr & Hc & Hold & Hnew)
    end.
    { exact Hbelow. }
    { cbn [nrows azeros length]. lia. }
    exists v'. split; [exact Hv'|].
    cbn [nrows ncols azeros] in Hr, Hc.
    split; [rewrite Hr; cbn [length] in *; lia|]. split; [exact Hc|]. split.
    + intros Hz. discriminate.
    + intros j k d Hj. apply (Hnew j k d Hj).
Qed.

(** ** The rows that [spread] assigns *)

Lemma assign_rows_from_spec {A} (idxs : list Z) :
  forall (X V X' : array2 A) (t : nat),
    NoDup idxs ->
    Forall (fun z => (0 <= z < Z.of_nat (nrows X))%Z) idxs ->
    (forall j, (j < length idxs)%nat ->
       (if Nat.eqb (nrows V) 1 then 0 else t + j)%nat = (t + j)%nat) ->
    assign_rows_from X idxs V t = Ok X' ->
    (forall j z d, idxs !! j = Some z ->
       entry X' (Z.to_nat z) d = entry V (t + j) d)
    /\ (forall r d, (forall z, In z idxs -> Z.to_nat z <> r) ->
          entry X' r d = entry X r d).
Proof.
  induction idxs as [|z idxs IH]; intros X V X' t Hnd Hall Hsel Hrun.
  - cbn in Hrun. injection Hrun as <-. split.
    + intros j z d Hj. discriminate.
    + reflexivity.
  - inversion Hnd as [|? ? Hnotin Hnd']; subst.
    inversion Hall as [|? ? Hz Hrest]; subst.
    cbn [assign_rows_from] in Hrun.
    rewrite (py_index_nonneg _ _ Hz) in Hrun.
    cbn [mbind result_bind] in Hrun.
    pose proof (Hsel 0%nat ltac:(cbn [length]; lia)) as Hsel0.
    rewrite Nat.add_0_r in Hsel0.
    assert (Hsel' : forall j, (j < length idxs)%nat ->
              (if Nat.eqb (nrows V) 1 then 0 else S t + j)%nat
              = (S t + j)%nat).
    { intros j Hj. specialize (Hsel (S j) ltac:(cbn [length]; lia)).
      destruct (Nat.eqb (nrows V) 1); lia. }
    match type of Hrun with
    | assign_rows_from ?X1 _ _ _ = _ =>
        destruct (IH X1 V X' (S t) Hnd' Hrest Hsel' Hrun) as [Hnew Hold]
    end.
    split.
    + intros [|j] z' d Hj.
      * cbn in Hj. injection Hj as <-.
        rewrite Hold.
        -- cbn [entry set_row]. rewrite Nat.eqb_refl, Hsel0, Nat.add_0_r.
           reflexivity.
        -- intros z' Hin Heq. apply list_elem_of_In in Hin.
           assert (Hz' : (0 <= z')%Z).
           { rewrite Forall_forall in Hrest. apply (Hrest z' Hin). }
           apply Hnotin. replace z with z' by lia. exact Hin.
      * cbn in Hj. rewrite (Hnew j z' d Hj). f_equal. lia.
    + intros r d Hr. rewrite Hold.
      * cbn [entry set_row].
        replace (Nat.eqb r (Z.to_nat z)) with false; [reflexivity|].
        symmetry. apply Nat.eqb_neq. intros ->.
        apply (Hr z); [left; reflexivity | reflexivity].
      * intros z' Hin. apply Hr. right. exact Hin.
Qed.

Lemma lookup_map_Some {A B} (f : A -> B) (l : list A) (j : nat) (a : A) :
  l !! j = Some a -> map f l !! j = Some (f a).
Proof.
  revert j. induction l as [|x l IH]; intros [|j] Hj; try discriminate.
  - cbn in *. congruence.
  - cbn in *. apply IH, Hj.
Qed.

Lemma NoDup_map_inj {A B} (f : A -> B) (l : list A) :
  (forall a b, In a l -> In b l -> f a = f b -> a = b) ->
  NoDup l -> NoDup (map f l).
Proof.
  induction l as [|x l IH]; intros Hinj Hnd; [constructor|].
  inversion Hnd as [|? ? Hnotin Hnd']; subst. cbn [map]. constructor.
  - intros Hin. apply list_elem_of_In, in_map_iff in Hin as (y & Hy & Hyin).
    apply Hnotin, list_elem_of_In. replace x with y; [exact Hyin|].
    apply Hinj; [right; exact Hyin | left; reflexivity | exact Hy].
  - apply IH; [|exact Hnd'].
    intros a b Ha Hb. apply Hinj; right; assumption.
Qed.

Lemma assign_rows_spec (X V : rarray) (f : nat -> Z) (l : list nat) :
  (forall a b, f a = f b -> a = b) -> NoDup l ->
  nrows V = length l ->
  Forall (fun k => (0 <= f k < Z.of_nat (nrows X))%Z) l ->
  exists X',
    assign_rows X (map f l) V = Ok X'
    /\ nrows X' = nrows X /\ ncols X' = ncols X
    /\ (forall j k d, l !! j = Some k ->
          entry X' (Z.to_nat (f k)) d = entry V j d)
    /\ (forall r d, (forall k, In k l -> Z.to_nat (f k) <> r) ->
          entry X' r d = entry X r d).
Proof.
  intros Hinj Hnd Hlen Hall.
  assert (Hall' : Forall (fun z => (0 <= z < Z.of_nat (nrows X))%Z)
                    (map f l)).
  { apply Forall_map. exact Hall. }
  destruct (assign_rows_ok X V (map f l)) as (X' & Hrun & Hfrom & Hr & Hc).
  { rewrite length_map. exact Hlen. }
  { exact Hall'. }
  exists X'. split; [exact Hrun|]. split; [exact Hr|]. split; [exact Hc|].
  destruct (assign_rows_from_spec (map f l) X V X' 0) as [Hnew Hold].
  - apply NoDup_map_inj; [|exact Hnd]. intros a b _ _. apply Hinj.
  - exact Hall'.
  - intros j Hj. rewrite length_map in Hj.
    destruct (Nat.eqb_spec (nrows V) 1); lia.
  - exact Hfrom.
  - split.
    + intros j k d Hj.
      apply (Hnew j (f k) d), lookup_map_Some, Hj.
    + intros r d Hr'. apply Hold.
      intros z Hz. apply in_map_iff in Hz as (k & <- & Hk).
      apply Hr', Hk.
Qed.

Lemma spread_spec (h : list nat) (X0 : rarray) :
  valid_h h -> nrows X0 = count_components h ->
  exists X,
    spread (list_max_nat h) h X0 = Ok X
    /\ nrows X = (2 * list_max_nat h + 1)%nat
    /\ ncols X = ncols X0
    /\ (starts_with_zero h = true -> forall d, entry X 0 d = entry X0 0 d)
    /\ (forall j k d, drop (zero_offset h) h !! j = Some k ->
          entry X (2 * k - 1) d = entry X0 (2 * j + zero_offset h) d
          /\ entry X (2 * k) d = entry X0 (2 * j + 1 + zero_offset h) d).
Proof.
  intros Hvalid Hrows.
  pose proof (valid_h_bounds h Hvalid) as Hb.
  rewrite (count_components_valid h Hvalid) in Hrows.
  destruct Hvalid as (Hne & Hnd & _).
  set (Nh := list_max_nat h) in *.
  assert (Hcos : forall a b : nat,
            (2 * Z.of_nat a - 1 = 2 * Z.of_nat b - 1)%Z -> a = b)
    by (intros; lia).
  assert (Hsin : forall a b : nat,
            (2 * Z.of_nat a = 2 * Z.of_nat b)%Z -> a = b)
    by (intros; lia).
  assert (Hnd' : NoDup (drop (zero_offset h) h)).
  { destruct h as [|[|k0] h']; cbn [zero_offset]; try rewrite drop_0;
      try exact Hnd.
    inversion Hnd; assumption. }
  unfold spread. fold Nh.
  set (hs := drop (zero_offset h) h) in *.
  assert (Hcosr : forall n : nat, n = (2 * Nh + 1)%nat ->
            Forall (fun k => (0 <= 2 * Z.of_nat k - 1 < Z.of_nat n)%Z) hs).
  { intros n ->. eapply Forall_impl; [exact Hb|]. cbn. intros k [? ?]. lia. }
  assert (Hsinr : forall n : nat, n = (2 * Nh + 1)%nat ->
            Forall (fun k => (0 <= 2 * Z.of_nat k < Z.of_nat n)%Z) hs).
  { intros n ->. eapply Forall_impl; [exact Hb|]. cbn. intros k [? ?]. lia. }
  assert (Hpos : forall k, In k hs -> (0 < k)%nat).
  { intros k Hk. rewrite Forall_forall in Hb.
    apply list_elem_of_In, Hb in Hk. lia. }
  destruct h as [|[|k0] h']; [congruence | |];
    cbn [zero_offset starts_with_zero tail length] in *;
    try rewrite drop_0 in *; subst hs.
  - change (drop 1 (0%nat :: h')) with h' in *.
    replace (Nat.ltb 0 (nrows X0)) with true
      by (symmetry; apply Nat.ltb_lt; lia).
    cbn [mbind result_bind].
    destruct (assign_rows_spec
                (set_row (azeros 0 (2 * Nh + 1) (ncols X0)) 0 (entry X0 0))
                (rows_from 1 X0) (fun k => (2 * Z.of_nat k - 1)%Z) h'
                Hcos Hnd')
      as (X2 & -> & Hr2 & Hc2 & Hnew2 & Hold2).
    { cbn [nrows rows_from].
      replace (nrows X0 + 1 - 1)%nat with (2 * length h' + 1)%nat by lia.
      apply div2_double_succ. }
    { apply Hcosr. reflexivity. }
    cbn [mbind result_bind].
    destruct (assign_rows_spec X2 (rows_from 2 X0)
                (fun k => (2 * Z.of_nat k)%Z) h' Hsin Hnd')
      as (X3 & -> & Hr3 & Hc3 & Hnew3 & Hold3).
    { cbn [nrows rows_from].
      replace (nrows X0 + 1 - 2)%nat with (2 * length h')%nat by lia.
      apply div2_double. }
    { apply Hsinr. rewrite Hr2. reflexivity. }
    exists X3. split; [reflexivity|].
    split; [rewrite Hr3, Hr2; reflexivity|].
    split; [rewrite Hc3, Hc2; reflexivity|]. split.
    + intros _ d. rewrite Hold3, Hold2; [reflexivity | |].
      * intros k Hk. specialize (Hpos k Hk). lia.
      * intros k Hk. specialize (Hpos k Hk). lia.
    + intros j k d Hj.
      assert (Hk : In k h').
      { apply list_elem_of_In. eapply list_elem_of_lookup_2, Hj. }
      pose proof (Hpos k Hk) as Hk0. split.
      * rewrite Hold3 by (intros k' Hk'; lia).
        replace (2 * k - 1)%nat with (Z.to_nat (2 * Z.of_nat k - 1)) by lia.
        rewrite (Hnew2 j k d Hj). cbn [entry rows_from]. f_equal. lia.
      * replace (2 * k)%nat with (Z.to_nat (2 * Z.of_nat k)) by lia.
        rewrite (Hnew3 j k d Hj). cbn [entry rows_from]. f_equal. lia.
  - destruct (assign_rows_spec (azeros 0 (2 * Nh + 1) (ncols X0))
                (rows_from 0 X0) (fun k => (2 * Z.of_nat k - 1)%Z)
                (S k0 :: h') Hcos Hnd')
      as (X1 & -> & Hr1 & Hc1 & Hnew1 & Hold1).
    { cbn [nrows rows_from length].
      replace (nrows X0 + 1 - 0)%nat with (2 * S (length h') + 1)%nat by lia.
      apply div2_double_succ. }
    { apply Hcosr. reflexivity. }
    cbn [mbind result_bind].
    destruct (assign_rows_spec X1 (rows_from 1 X0)
                (fun k => (2 * Z.of_nat k)%Z) (S k0 :: h') Hsin Hnd')
      as (X2 & -> & Hr2 & Hc2 & Hnew2 & Hold2).
    { cbn [nrows rows_from length].
      replace (nrows X0 + 1 - 1)%nat with (2 * S (length h'))%nat by lia.
      apply div2_double. }
    { apply Hsinr. rewrite Hr1. reflexivity. }
    exists X2. split; [reflexivity|].
    split; [rewrite Hr2, Hr1; reflexivity|].
    split; [rewrite Hc2, Hc1; reflexivity|]. split.
    + intros Hz. discriminate.
    + intros j k d Hj.
      assert (Hk : In k (S k0 :: h')).
      { apply list_elem_of_In. eapply list_elem_of_lookup_2, Hj. }
      pose proof (Hpos k Hk) as Hk0. split.
      * rewrite Hold2 by (intros k' Hk'; lia).
        replace (2 * k - 1)%nat with (Z.to_nat (2 * Z.of_nat k - 1)) by lia.
        rewrite (Hnew1 j k d Hj). cbn [entry rows_from]. f_equal. lia.
      * replace (2 * k)%nat with (Z.to_nat (2 * Z.of_nat k)) by lia.
        rewrite (Hnew2 j k d Hj). cbn [entry rows_from]. f_equal. lia.
Qed.

(** ** The two transforms *)

Lemma half_samples (Nt Nh : nat) :
  (2 * Nh + 1 < Nt)%nat -> (Nh <= Nt / 2 - 1)%nat.
Proof.
  intros HNt.
  assert (Nh + 1 <= Nt / 2)%nat
    by (apply Nat.div_le_lower_bound; lia).
  lia.
Qed.

(** With [order = 0], a well-formed call of [time_series_deriv] returns
    the samples of the trigonometric sum of its coefficients. *)
Lemma time_series_spec (Nt : nat) (h : list nat) (X0 : rarray) :
  valid_h h -> nrows X0 = count_components h ->
  (2 * list_max_nat h + 1 < Nt)%nat ->
  exists x F,
    time_series_deriv Nt h X0 0 = Ok x
    /\ nrows x = (2 * (Nt / 2 - 1) + 2)%nat
    /\ ncols x = ncols X0
    /\ (forall n d,
          entry x n d = trig_series F (Nt / 2 - 1) (nrows x) n d)
    /\ (starts_with_zero h = true -> forall d, entry F 0 d = entry X0 0 d)
    /\ (forall j k d, drop (zero_offset h) h !! j = Some k ->
          entry F (2 * k - 1) d = entry X0 (2 * j + zero_offset h) d
          /\ entry F (2 * k) d = entry X0 (2 * j + 1 + zero_offset h) d).
Proof.
  intros Hvalid Hrows HNt.
  pose proof (half_samples Nt _ HNt) as Hhalf.
  pose proof (valid_h_bounds h Hvalid) as Hb.
  destruct (spread_spec h X0 Hvalid Hrows)
    as (X & HX & Hr & Hc & Hzero & Hharm).
  unfold time_series_deriv. rewrite (valid_h_zero_first h Hvalid).
  destruct Hvalid as (Hne & _).
  set (Nh := list_max_nat h) in *.
  replace (match h with
           | [] => Raise ValueError
           | _ :: _ => Ok Nh
           end) with (Ok (A := nat) Nh)
    by (destruct h; [congruence | reflexivity]).
  cbn [mbind result_bind]. rewrite HX. cbn [mbind result_bind].
  replace (Nat.ltb (2 * Nh + 1) Nt) with true
    by (symmetry; apply Nat.ltb_lt; exact HNt).
  cbn [negb Nat.ltb Nat.leb].
  set (Nht := (Nt / 2 - 1)%nat) in *.
  set (F := vstack X (azeros 0 (2 * (Nht - Nh)) (ncols X0))).
  assert (HF : nrows F = (2 * Nht + 1)%nat).
  { unfold F. cbn [nrows vstack azeros]. rewrite Hr. lia. }
  rewrite (fourier_rows_nrows F Nht _ HF), Nat.eqb_refl. cbn [negb].
  exists (ifft_real (fourier_rows F (2 * Nht + 2))), F.
  split; [reflexivity|].
  assert (Hlow : forall r d, (r < 2 * Nh + 1)%nat ->
                   entry F r d = entry X r d).
  { intros r d Hlt. unfold F. cbn [entry vstack]. rewrite Hr.
    replace (Nat.ltb r (2 * Nh + 1)) with true
      by (symmetry; apply Nat.ltb_lt; exact Hlt).
    reflexivity. }
  assert (Hn : nrows (ifft_real (fourier_rows F (2 * Nht + 2)))
               = (2 * Nht + 2)%nat).
  { cbn [nrows ifft_real]. apply fourier_rows_nrows, HF. }
  split; [exact Hn|]. split.
  { cbn [ncols ifft_real fourier_rows amap vstack row_of]. exact Hc. }
  split.
  { intros n d. rewrite Hn. apply (synthesis F Nht n d HF). }
  split.
  { intros Hz d. rewrite Hlow by lia. apply Hzero, Hz. }
  intros j k d Hj.
  assert (Hk : (k <= Nh)%nat).
  { rewrite Forall_forall in Hb.
    apply list_elem_of_lookup_2, Hb in Hj. lia. }
  rewrite !Hlow by lia. apply Hharm, Hj.
Qed.

Lemma fft_of_series_cos (x F : rarray) (K k d : nat) :
  (forall n d, entry x n d = trig_series F K (nrows x) n d) ->
  (0 < k <= K)%nat -> (2 * K < nrows x)%nat ->
  Cre (entry (fft x) k d) / (INR (nrows x) / 2) = entry F (2 * k - 1) d.
Proof.
  intros Hx Hk HK.
  assert (HN : 0 < INR (nrows x)) by (apply lt_0_INR; lia).
  rewrite fft_re.
  rewrite (Rsum_ext _ (fun n => trig_series F K (nrows x) n d
                                * cos (angle (nrows x) k n)))
    by (intros n _; now rewrite Hx).
  rewrite analysis_cos by assumption. field. lra.
Qed.

Lemma fft_of_series_sin (x F : rarray) (K k d : nat) :
  (forall n d, entry x n d = trig_series F K (nrows x) n d) ->
  (0 < k <= K)%nat -> (2 * K < nrows x)%nat ->
  - Cim (entry (fft x) k d) / (INR (nrows x) / 2) = entry F (2 * k) d.
Proof.
  intros Hx Hk HK.
  assert (HN : 0 < INR (nrows x)) by (apply lt_0_INR; lia).
  rewrite fft_im.
  rewrite (Rsum_ext _ (fun n => trig_series F K (nrows x) n d
                                * sin (angle (nrows x) k n)))
    by (intros n _; now rewrite Hx).
  rewrite analysis_sin by assumption. field. lra.
Qed.

Lemma fft_of_series_mean (x F : rarray) (K d : nat) :
  (forall n d, entry x n d = trig_series F K (nrows x) n d) ->
  (2 * K < nrows x)%nat ->
  Cre (entry (fft x) 0 d) / INR (nrows x) = entry F 0 d.
Proof.
  intros Hx HK.
  assert (HN : 0 < INR (nrows x)) by (apply lt_0_INR; lia).
  rewrite fft_re.
  rewrite (Rsum_ext _ (fun n => trig_series F K (nrows x) n d)).
  2:{ intros n _. rewrite angle_0_l, cos_0, Hx. lra. }
  rewrite analysis_mean by assumption. field. lra.
Qed.

(** C2, with the conditions under which the two functions return: for a
    harmonic set without repeated harmonics that is not empty and has
    the zeroth harmonic, if any, first, a coefficient matrix [X0] with
    [Nhc(h)] rows and [Nt > 2*max(h)+1], [time_series_deriv] with
    [order = 0] returns a time series, [get_fourier_coeff] returns
    coefficients for it, and these are the matrix [X0]: same shape, same
    entries. The arithmetic is that of the real numbers, so the
    coefficients are equal and no tolerance is involved. *)
Theorem fourier_round_trip (Nt : nat) (h : list nat) (X0 : rarray) :
  valid_h h -> nrows X0 = count_components h ->
  (2 * list_max_nat h + 1 < Nt)%nat ->
  exists x_t v,
    time_series_deriv Nt h X0 0 = Ok x_t
    /\ get_fourier_coeff h x_t = Ok v
    /\ same_array v X0.
Proof.
  intros Hvalid Hrows HNt.
  destruct (time_series_spec Nt h X0 Hvalid Hrows HNt)
    as (x & F & Hx & Hn & Hcx & Hval & HF0 & HFh).
  pose proof (half_samples Nt _ HNt) as Hhalf.
  pose proof (valid_h_bounds h Hvalid) as Hb.
  pose proof (count_components_valid h Hvalid) as Hcount.
  set (Nht := (Nt / 2 - 1)%nat) in *.
  destruct (get_fourier_coeff_spec h x Hvalid)
    as (v & Hv & Hrv & Hcv & Hv0 & Hvh).
  { rewrite Hn. lia. }
  exists x, v. split; [exact Hx|]. split; [exact Hv|].
  split; [rewrite Hrv, Hrows; reflexivity|].
  split; [rewrite Hcv, Hcx; reflexivity|].
  intros i d Hi _. rewrite Hrv, Hcount in Hi.
  assert (HK : (2 * Nht < nrows x)%nat) by (rewrite Hn; lia).
  assert (Hlen : length (drop (zero_offset h) h)
                 = (length h - zero_offset h)%nat) by apply length_drop.
  assert (Hzi : (zero_offset h <= 1)%nat)
    by (destruct h as [|[|?] ?]; cbn; lia).
  assert (Hzlen : (zero_offset h <= length h)%nat)
    by (destruct h as [|[|?] ?]; cbn; lia).
  destruct (Nat.lt_ge_cases i (zero_offset h)) as [Hlt | Hge].
  - assert (Hz : starts_with_zero h = true)
      by (destruct h as [|[|?] ?]; cbn in *; [lia | reflexivity | lia]).
    replace i with 0%nat by lia.
    rewrite (Hv0 Hz d), (fft_of_series_mean x F Nht d Hval HK).
    apply HF0, Hz.
  - pose proof (Nat.div_mod_eq (i - zero_offset h) 2) as Hdm.
    pose proof (Nat.mod_upper_bound (i - zero_offset h) 2
                  ltac:(discriminate)) as Hmod.
    set (j := ((i - zero_offset h) / 2)%nat) in *.
    assert (Hj : (j < length (drop (zero_offset h) h))%nat)
      by (rewrite Hlen; lia).
    destruct (lookup_lt_is_Some_2 _ _ Hj) as [k Hjk].
    assert (Hk : (0 < k <= Nht)%nat).
    { rewrite Forall_forall in Hb.
      pose proof (Hb k (list_elem_of_lookup_2 _ _ _ Hjk)). lia. }
    destruct (Hvh j k d Hjk) as [Hvc Hvs].
    destruct (HFh j k d Hjk) as [HFc HFs].
    destruct (Nat.eq_dec ((i - zero_offset h) mod 2) 0%nat) as [Hev | Hodd].
    + replace i with (2 * j + zero_offset h)%nat by lia.
      rewrite Hvc, (fft_of_series_cos x F Nht k d Hval Hk HK).
      exact HFc.
    + replace i with (2 * j + 1 + zero_offset h)%nat by lia.
      rewrite Hvs, (fft_of_series_sin x F Nht k d Hval Hk HK).
      exact HFs.
Qed.

(** Eight samples of the harmonics 0, 1 and 3 give the coefficients
    back. *)
Lemma fourier_round_trip_witness :
  exists x_t v,
    time_series_deriv 8 ex_h ex_X0 0 = Ok x_t
    /\ get_fourier_coeff ex_h x_t = Ok v
    /\ same_array v ex_X0.
Proof.
  apply (fourier_round_trip 8 ex_h ex_X0).
  - exact ex_h_valid.
  - reflexivity.
  - cbn. lia.
Defined.

(** A zeroth harmonic that is not first is rejected by both functions,
    whatever the other arguments are. *)
Lemma zero_not_first_raises (h : list nat) :
  has_zero h && negb (starts_with_zero h) = true ->
  (forall Nt X0 order,
     time_series_deriv Nt h X0 order
     = Raise (AssertionError "Zeroth harmonic must be first"))
  /\ (forall x_t,
        get_fourier_coeff h x_t
        = Raise (AssertionError "Zeroth harmonic must be first")).
Proof.
  intros Hz. split.
  - intros Nt X0 order. unfold time_series_deriv. rewrite Hz. reflexivity.
  - intros x_t. unfold get_fourier_coeff. rewrite Hz.
    destruct h as [|k h']; [discriminate | reflexivity].
Qed.

(** C2, refuted as stated: the harmonics [1, 0] are not repeated and
    [8 > 2*1+1], and [time_series_deriv] raises its assertion error
    because the zeroth harmonic is not first; so does
    [get_fourier_coeff] on any time series. *)
Lemma round_trip_zero_not_first :
  NoDup ex_h_zero_last
  /\ (2 * list_max_nat ex_h_zero_last + 1 < 8)%nat
  /\ nrows ex_X0_zero_last = count_components ex_h_zero_last
  /\ time_series_deriv 8 ex_h_zero_last ex_X0_zero_last 0
     = Raise (AssertionError "Zeroth harmonic must be first")
  /\ get_fourier_coeff ex_h_zero_last (azeros 0 8 1)
     = Raise (AssertionError "Zeroth harmonic must be first").
Proof.
  split.
  { unfold ex_h_zero_last.
    repeat (apply NoDup_cons; split); try apply NoDup_nil_2;
      rewrite ?elem_of_cons, ?elem_of_nil; intuition discriminate. }
  split; [cbn; lia|]. split; [reflexivity|]. split; reflexivity.
Qed.

End FourierFacts.

(** * Force elements: [aft] assigns nothing *)

Section ForceFacts.
Import Num Forces Examples.

Lemma read_only_ret {S A} (a : A) : read_only (mret a : method S A).
Proof. intros s. reflexivity. Qed.

Lemma read_only_attr {S A} (f : S -> A) : read_only (attr f).
Proof. intros s. reflexivity. Qed.

Lemma read_only_call {S A} (r : result A) : read_only (call r : method S A).
Proof. intros s. reflexivity. Qed.

Lemma read_only_bind {S A B} (m : method S A) (k : A -> method S B) :
  read_only m -> (forall a, read_only (k a)) -> read_only (m ≫= k).
Proof.
  intros Hm Hk s. unfold mbind, method_bind.
  specialize (Hm s). destruct (m s) as [[a | e] s']; simpl in Hm; subst s'.
  - apply Hk.
  - reflexivity.
Qed.

(** A method that is read only returns, when it is called again, what
    it returned the first time. *)
Lemma read_only_again {S A} (m : method S A) (s : S) :
  read_only m -> m (snd (m s)) = m s.
Proof. intros Hm. now rewrite (Hm s). Qed.

(** An assignment is not read only, unless it assigns what is there. *)
Lemma assign_read_only_iff {S} (f : S -> S) :
  read_only (assign f) <-> forall s, f s = s.
Proof. split; intros Hf s; apply (Hf s). Qed.

Ltac read_only_step :=
  first
    [ apply read_only_ret | apply read_only_attr | apply read_only_call
    | apply read_only_bind; [| intros ?]
    | match goal with
      | |- read_only (match ?x with _ => _ end) => destruct x
      end ].

Section Kernel.
Context `{Kernels}.

Lemma Jenkins_aft_read_only U w h Nt tol :
  read_only (Jenkins.aft U w h Nt tol).
Proof. unfold Jenkins.aft. repeat read_only_step. Qed.

Lemma RoughContact_aft_read_only U w h Nt tol max_repeats return_local
    calc_grad :
  read_only (RoughContact.aft U w h Nt tol max_repeats return_local
               calc_grad).
Proof. unfold RoughContact.aft. repeat read_only_step. Qed.

Lemma local_force_history_read_only unlt unlth0 max_repeats :
  read_only (RoughContact.local_force_history unlt unlth0 max_repeats).
Proof. unfold RoughContact.local_force_history. repeat read_only_step. Qed.

(** [force] without [update_hist] is read only as well. *)
Lemma force_read_only X return_aux :
  read_only (RoughContact.force X false return_aux).
Proof. unfold RoughContact.force. repeat read_only_step. Qed.

(** The history that [update_history] commits is not an input of [aft]:
    what [aft] returns is the same before and after. *)
Lemma aft_ignores_history U w h Nt tol max_repeats return_local calc_grad
    unmax' Fm_prev' fxy0' uxyn0' (e : RoughContact.RoughContactFriction) :
  fst (RoughContact.aft U w h Nt tol max_repeats return_local calc_grad
         (RoughContact.with_history unmax' Fm_prev' fxy0' uxyn0' e))
  = fst (RoughContact.aft U w h Nt tol max_repeats return_local calc_grad e).
Proof.
  unfold RoughContact.aft, mbind, method_bind, attr, call, mret, method_ret.
  cbn [RoughContact.Q RoughContact.with_history].
  destruct (to_local (RoughContact.Q e) U w h)
    as [[[[Nhc Ulocal] Ndnl] Uwlocal] | err]; [| reflexivity].
  cbn [RoughContact.uxyn_initialize RoughContact.mu RoughContact.meso_gap
       RoughContact.gaps RoughContact.gap_weights RoughContact.Re
       RoughContact.poisson RoughContact.Estar RoughContact.elastic_mod
       RoughContact.tangent_mod RoughContact.delta_y RoughContact.sys
       RoughContact.Gstar RoughContact.tangent_model
       RoughContact.with_history].
  destruct calc_grad.
  - destruct (RoughContact._local_aft_grad _ _ _ _ _ _ _ _ _ _ _ _ _ _ _ _ _ _)
      as [[J F] | err]; [| reflexivity].
    destruct (jnp_reshape_F F Ndnl Nhc) as [Fl | err]; [| reflexivity].
    destruct return_local.
    + destruct (last_column J); reflexivity.
    + cbn [RoughContact.T RoughContact.Q RoughContact.with_history].
      destruct (to_global _ _ _ _ _ _ _) as [[[a b] c] | err]; reflexivity.
  - cbn [mbind method_bind].
    destruct (RoughContact._local_aft _ _ _ _ _ _ _ _ _ _ _ _ _ _ _ _ _ _)
      as [[F F'] | err]; [| reflexivity].
    destruct (jnp_reshape_F F Ndnl Nhc) as [Fl | err]; [| reflexivity].
    destruct return_local; [reflexivity |].
    cbn [RoughContact.T RoughContact.with_history].
    destruct (matmul _ _) as [TF | err]; [| reflexivity].
    destruct (flatten_F _ _); reflexivity.
Qed.

(** C4: two successive calls of [aft] with the same arguments, with no
    other method of the element called in between, return the same
    outputs (or raise the same exception), and after each of the calls
    the element is the object that it was before, so that its history
    (the slider position [u0] of the Jenkins element; [unmax],
    [Fm_prev], [fxy0] and [uxyn0] of the rough contact element) is
    unchanged. This holds for the two element classes, for every input
    and every value of the optional arguments. *)
Theorem aft_twice_same_outputs_and_state :
  (forall U w h Nt tol (e : Jenkins.JenkinsForce),
     let first := Jenkins.aft U w h Nt tol e in
     let second := Jenkins.aft U w h Nt tol (snd first) in
     fst second = fst first /\ snd first = e /\ snd second = e)
  /\ (forall U w h Nt tol max_repeats return_local calc_grad
        (e : RoughContact.RoughContactFriction),
     let first :=
       RoughContact.aft U w h Nt tol max_repeats return_local calc_grad e in
     let second :=
       RoughContact.aft U w h Nt tol max_repeats return_local calc_grad
         (snd first) in
     fst second = fst first /\ snd first = e /\ snd second = e).
Proof.
  split.
  - intros U w h Nt tol e first second.
    pose proof (Jenkins_aft_read_only U w h Nt tol) as Hro.
    assert (Hfirst : snd first = e) by apply Hro.
    subst second. rewrite Hfirst. auto.
  - intros U w h Nt tol max_repeats return_local calc_grad e first second.
    pose proof (RoughContact_aft_read_only U w h Nt tol max_repeats
                  return_local calc_grad) as Hro.
    assert (Hfirst : snd first = e) by apply Hro.
    subst second. rewrite Hfirst. auto.
Qed.

End Kernel.

(** The calls of the example elements return forces, and return them
    again. *)
Lemma ex_jenkins_aft_value :
  fst (Jenkins.aft (H := spring_kernels) ex_U2 (Fin 1) [0; 1]%nat 4 (Fin 0)
         ex_jenkins)
  = Ok ([Fin 0; Fin 0; Fin 1; Fin 0; Fin (-1); Fin 0],
        Forces.table 6 6 (fun _ _ => Fin 0),
        [Fin 0; Fin 0; Fin 0; Fin 0; Fin 0; Fin 0]).
Proof. vm_compute. reflexivity. Qed.

Lemma ex_contact_aft_value :
  fst (RoughContact.aft (H := spring_kernels) ex_U3 (Fin 1) [0; 1]%nat 4
         (Fin 0) 2 false false ex_contact)
  = Ok (RoughContact.Global1
          [Fin 0; Fin 0; Fin 12; Fin 5; Fin 0; Fin 0; Fin (-1); Fin 2;
           Fin 0]).
Proof. vm_compute. reflexivity. Qed.

Lemma aft_twice_same_outputs_and_state_witness :
  let first :=
    RoughContact.aft (H := spring_kernels) ex_U3 (Fin 1) [0; 1]%nat 4
      (Fin 0) 2 false false ex_contact in
  let second :=
    RoughContact.aft (H := spring_kernels) ex_U3 (Fin 1) [0; 1]%nat 4
      (Fin 0) 2 false false (snd first) in
  fst second = fst first /\ snd first = ex_contact
  /\ snd second = ex_contact.
Proof.
  exact (proj2 (aft_twice_same_outputs_and_state (H := spring_kernels))
           ex_U3 (Fin 1) [0; 1]%nat 4%nat (Fin 0) 2%nat false false
           ex_contact).
Defined.

(** What [aft] does not do: [force] with [update_hist] commits the
    history, and the element is another object afterwards. *)
Lemma force_commits_history :
  let after :=
    snd (RoughContact.force (H := spring_kernels) [Fin 1; Fin 0; Fin 2]
           true false ex_contact) in
  RoughContact.unmax after = Fin 2
  /\ RoughContact.Fm_prev after = [Fin 8; Fin 4]
  /\ RoughContact.fxy0 after = [[Fin 1; Fin 0]; [Fin 1; Fin 0]]
  /\ RoughContact.uxyn0 after = [Fin 1; Fin 0; Fin 2]
  /\ after <> ex_contact.
Proof.
  vm_compute. repeat split; try reflexivity. discriminate.
Qed.

(** The friction coefficient is an input of [aft]: after
    [set_prestress_mu] the same call returns other forces. *)
Lemma aft_reads_mu :
  fst (RoughContact.aft (H := spring_kernels) ex_U3 (Fin 1) [0; 1]%nat 4
         (Fin 0) 2 false false
         (snd (RoughContact.set_prestress_mu ex_contact)))
  = Ok (RoughContact.Global1
          [Fin 0; Fin 0; Fin 12; Fin 0; Fin 0; Fin 0; Fin 0; Fin 0;
           Fin 0]).
Proof. vm_compute. reflexivity. Qed.

End ForceFacts.

(** * Properties of the continuation *)

Section ContinuationFacts.
Import Num Continuation Examples.

(** ** The constructor and the caller's list *)

Lemma feqb_refl_not_nan (x : fnum) : isnan x = false -> feqb x x = true.
Proof.
  destruct x; simpl; try reflexivity; try discriminate.
  intros _. apply Qeq_bool_iff. reflexivity.
Qed.

(** C10. When the dictionary holds a list under ['FracLamList'] that does
    not start with the configured ['FracLam'] (0.5 when the key is
    absent), the constructor inserts that value at index 0 of the
    caller's own list object: the object of the new Continuation and the
    dictionary refer to one list, which has changed in the store. A
    second construction from the same dictionary reads the modified
    list, which now starts with ['FracLam'], and leaves it as it is
    (unless the value is NaN, which equals nothing and is inserted
    again). *)
Theorem init_inserts_into_callers_list (st : store) (ds0_arg : fnum)
    (CtoP_arg : option vec) (RPtoC_arg : option rptoc) (u : user_config)
    (l : loc) (xs : list fnum) :
  let fl := default (Fin (1 # 2)) (u_FracLam u) in
  u_FracLamList u = Some l ->
  st !! l = Some xs ->
  starts_with fl xs = false ->
  exists obj obj2 st2,
    __init__ st ds0_arg CtoP_arg RPtoC_arg u = Ok (obj, <[l := fl :: xs]> st)
    /\ FracLamList (cfg obj) = l
    /\ (<[l := fl :: xs]> st) !! l = Some (fl :: xs)
    /\ fl :: xs <> xs
    /\ __init__ (<[l := fl :: xs]> st) ds0_arg CtoP_arg RPtoC_arg u
       = Ok (obj2, st2)
    /\ FracLamList (cfg obj2) = l
    /\ st2 !! l = Some (if isnan fl then fl :: fl :: xs else fl :: xs).
Proof.
  intros fl Hl Hxs Hstart.
  assert (Hne : fl :: xs <> xs).
  { intros Heq. apply (f_equal length) in Heq. simpl in Heq. lia. }
  unfold __init__. rewrite Hl. cbv zeta.
  cbn [FracLamList FracLam merge_config]. rewrite Hl.
  change (default (fresh (dom st)) (Some l)) with l.
  change (default (fresh (dom (<[l:=fl :: xs]> st))) (Some l)) with l.
  fold fl. rewrite Hxs, Hstart.
  cbn [negb]. rewrite orb_true_r, lookup_insert_eq.
  destruct (isnan fl) eqn:Hnan.
  - assert (Hs : starts_with fl (fl :: xs) = false).
    { destruct fl; try discriminate. reflexivity. }
    rewrite Hs. cbn [negb]. rewrite orb_true_r.
    eexists _, _, _. split; [reflexivity|].
    split; [cbn [cfg FracLamList merge_config]; now rewrite Hl|].
    split; [reflexivity|]. split; [exact Hne|].
    split; [reflexivity|].
    split; [cbn [cfg FracLamList merge_config]; now rewrite Hl|].
    rewrite lookup_insert_eq. reflexivity.
  - assert (Hs : starts_with fl (fl :: xs) = true).
    { simpl. now apply feqb_refl_not_nan. }
    rewrite Hs. cbn [negb length Nat.eqb orb].
    eexists _, _, _. split; [reflexivity|].
    split; [cbn [cfg FracLamList merge_config]; now rewrite Hl|].
    split; [reflexivity|]. split; [exact Hne|].
    split; [reflexivity|].
    split; [cbn [cfg FracLamList merge_config]; now rewrite Hl|].
    rewrite lookup_insert_eq. reflexivity.
Qed.

(** The list [[0.9, 0.7]] with ['FracLam' : 0.5]. *)
Lemma init_inserts_into_callers_list_witness :
  exists obj obj2 st2,
    __init__ ex_store (Fin (1 # 100)) None None ex_user_config
    = Ok (obj,
          <[ex_list := [Fin (1 # 2); Fin (9 # 10); Fin (7 # 10)]]> ex_store)
    /\ FracLamList (cfg obj) = ex_list
    /\ __init__
         (<[ex_list := [Fin (1 # 2); Fin (9 # 10); Fin (7 # 10)]]> ex_store)
         (Fin (1 # 100)) None None ex_user_config
       = Ok (obj2, st2)
    /\ st2 !! ex_list = Some [Fin (1 # 2); Fin (9 # 10); Fin (7 # 10)].
Proof.
  destruct (init_inserts_into_callers_list ex_store (Fin (1 # 100)) None None
              ex_user_config ex_list [Fin (9 # 10); Fin (7 # 10)])
    as (obj & obj2 & st2 & H1 & H2 & _ & _ & H3 & _ & H4).
  - reflexivity.
  - reflexivity.
  - reflexivity.
  - exists obj, obj2, st2. repeat split; assumption.
Defined.

(** ** Traces *)

Lemma trace_bind {A B} (m : W A) (k : A -> W B) :
  trace (m ≫= k)
  = match outcome m with
    | Ok a => (trace m ++ trace (k a))%list
    | Raise _ => trace m
    end.
Proof. unfold mbind, W_bind. destruct (outcome m); reflexivity. Qed.

Lemma outcome_bind {A B} (m : W A) (k : A -> W B) :
  outcome (m ≫= k)
  = match outcome m with
    | Ok a => outcome (k a)
    | Raise e => Raise e
    end.
Proof. unfold mbind, W_bind. destruct (outcome m); reflexivity. Qed.

Lemma Forall_trace_bind {A B} (P : event -> Prop) (m : W A)
    (k : A -> W B) :
  Forall P (trace m) ->
  (forall a, outcome m = Ok a -> Forall P (trace (k a))) ->
  Forall P (trace (m ≫= k)).
Proof.
  intros Hm Hk. rewrite trace_bind.
  destruct (outcome m) as [a|e]; [|exact Hm].
  apply Forall_app. split; [exact Hm | now apply Hk].
Qed.

Lemma outcome_bind_ok {A B} (m : W A) (k : A -> W B) (b : B) :
  outcome (m ≫= k) = Ok b ->
  exists a, outcome m = Ok a /\ outcome (k a) = Ok b.
Proof.
  rewrite outcome_bind. destruct (outcome m) as [a|e]; [|discriminate].
  intros H. exists a. split; [reflexivity | exact H].
Qed.

(** ** The corrector option *)

Section Corrector.

Variable str_upper : string -> string.
Variable qsqrt : Q -> Q.
Variable nsolve :
  Solvers.resfun -> vec -> option fnum ->
  result (vec * vec * mat * Solvers.sol).
Variable lin_solve : mat -> vec -> vec.
Variable conditioning_wrapper :
  Solvers.resfun -> vec -> vec -> Solvers.resfun.
Variable st : store.

(** The corrector residual of an object whose corrector is neither
    ['Pseudo'] nor ['Ortho'] (in any case of the letters) never returns. *)
Lemma correct_res_invalid (o : continuation_object) (fun_ : cfun)
    (XlamC XlamC0 : vec) (ds : fnum) (dirC : option vec) (calc_grad : bool) :
  str_upper (corrector (cfg o)) <> "PSEUDO" ->
  str_upper (corrector (cfg o)) <> "ORTHO" ->
  correct_res str_upper qsqrt o fun_ XlamC XlamC0 ds dirC calc_grad
  = match fun_ (vmul XlamC (CtoP o)) calc_grad with
    | Raise e => Raise e
    | Ok (R, dRdXP, dRdlamP) =>
        match (if calc_grad
               then condition_jacobian dRdXP dRdlamP (CtoP o)
               else Ok []) with
        | Raise e => Raise e
        | Ok _ =>
            Raise (AssertionError
                     ("Invalid corrector type: "
                      ++ str_upper (corrector (cfg o))))
        end
    end.
Proof.
  intros Hp Ho. unfold correct_res.
  destruct (fun_ (vmul XlamC (CtoP o)) calc_grad) as [[[R J] dl]|e];
    [|reflexivity].
  cbn [mbind result_bind].
  destruct (if calc_grad then condition_jacobian J dl (CtoP o) else Ok [])
    as [Jc|e]; [|reflexivity].
  cbn [mbind result_bind].
  apply String.eqb_neq in Hp, Ho. rewrite Hp, Ho. reflexivity.
Qed.

(** ** The retry ladder *)

Lemma flt_irrefl (a : fnum) : flt a a = false.
Proof.
  destruct a; try reflexivity. simpl. unfold Qlt_bool.
  apply negb_false_iff, Qle_bool_iff. apply Qle_refl.
Qed.

(** The halved step size is never below the minimum. *)
Lemma pymax_not_below (x m : fnum) : flt (pymax x m) m = false.
Proof.
  unfold pymax. destruct (flt x m) eqn:H; [apply flt_irrefl | exact H].
Qed.

Lemma chain_app_last (dm : fnum) (t1 t2 : list event) (e : event) :
  chain dm t1 -> last t1 = Some e -> chain dm (e :: t2) ->
  chain dm (t1 ++ t2).
Proof.
  intros H1. induction H1 as [|e1|e1 e2 t Hlink Hch IH]; intros Hlast H2.
  - discriminate.
  - simpl in Hlast. injection Hlast as ->. exact H2.
  - simpl. apply chain_cons; [exact Hlink|].
    apply IH; [|exact H2]. exact Hlast.
Qed.

Lemma same_frame_refl (o : continuation_object) : same_frame o o.
Proof. repeat split. Qed.

Lemma same_frame_trans (o1 o2 o3 : continuation_object) :
  same_frame o1 o2 -> same_frame o2 o3 -> same_frame o1 o3.
Proof.
  unfold same_frame. intros (?&?&?&?&?&?&?) (?&?&?&?&?&?&?).
  repeat split; congruence.
Qed.

(** One corrector solve logs one event, and keeps the object and the
    direction. *)
Lemma solve_corrector_spec (fun_ : cfun) (X0 : vec) (ind : nat)
    (ls : ladder_state) (d : fnum) :
  exists Xs res,
    trace (solve_corrector str_upper qsqrt nsolve fun_ X0 ind ls d)
    = [SolveCorrector ind (FracLam (cfg (l_obj ls))) d Xs res]
    /\ match outcome (solve_corrector str_upper qsqrt nsolve fun_ X0 ind ls d) with
       | Ok ls' =>
           res = Some (Solvers.success (l_sol ls'))
           /\ l_obj ls' = l_obj ls /\ l_dirC ls' = l_dirC ls
           /\ l_ds ls' = d
       | Raise _ => res = None
       end.
Proof.
  unfold solve_corrector.
  match goal with
  | |- context [nsolve ?f ?x ?t] =>
      destruct (nsolve f x t) as [[[[XlamC R] J] sl]|e]
  end; cbn [trace outcome]; eexists _, _; (split; [reflexivity|]);
    cbn; auto.
Qed.

(** The loop over the step size, after a solve that logged [e0]: the
    events are linked, all for the same [FracLam], and the loop is left
    after a success or with a step size that does not exceed the
    minimum. *)
Lemma retry_chain (fun_ : cfun) (X0 : vec) (ind : nat) (fuel : nat) :
  forall (ls : ladder_state) (Xs : vec),
    let dm := dsmin (cfg (l_obj ls)) in
    let fl := FracLam (cfg (l_obj ls)) in
    let e0 := SolveCorrector ind fl (l_ds ls) Xs
                (Some (Solvers.success (l_sol ls))) in
    let r := retry str_upper qsqrt nsolve fuel fun_ X0 ind ls in
    chain dm (e0 :: trace r)
    /\ Forall (fun ev => exists d X s, ev = SolveCorrector ind fl d X s)
              (trace r)
    /\ match outcome r with
       | Ok ls' =>
           l_obj ls' = l_obj ls /\ l_dirC ls' = l_dirC ls
           /\ (Solvers.success (l_sol ls') = false ->
               flt dm (l_ds ls') = false)
           /\ exists Xs',
               last (e0 :: trace r)
               = Some (SolveCorrector ind fl (l_ds ls') Xs'
                         (Some (Solvers.success (l_sol ls'))))
       | Raise _ => True
       end.
Proof.
  induction fuel as [|fuel IH]; intros ls Xs dm fl e0 r; subst r;
    cbn [retry]; fold dm;
    destruct (negb (Solvers.success (l_sol ls)) && flt dm (l_ds ls))
      eqn:Hcond.
  - cbn [lift trace outcome]. repeat split; constructor.
  - cbn [mret W_ret trace outcome]. split; [constructor|].
    split; [constructor|]. split; [reflexivity|]. split; [reflexivity|].
    split.
    + intros Hfail. rewrite Hfail in Hcond. exact Hcond.
    + exists Xs. reflexivity.
  - apply andb_true_iff in Hcond as [Hfail Hgt].
    apply negb_true_iff in Hfail.
    set (d := pymax (fdiv (l_ds ls) (Fin 2)) dm).
    destruct (solve_corrector_spec fun_ X0 ind ls d)
      as (Xs1 & res & Htr & Hout).
    rewrite trace_bind, outcome_bind, Htr.
    fold fl in Htr |- *.
    assert (Hlink : retry_link dm e0 (SolveCorrector ind fl d Xs1 res)).
    { subst e0. simpl. rewrite Hfail. split; [reflexivity|].
      left. repeat split. exact Hgt. }
    destruct (outcome (solve_corrector str_upper qsqrt nsolve fun_ X0 ind ls d))
      as [ls'|e].
    + destruct Hout as (-> & Hobj & HdirC & Hds).
      specialize (IH ls' Xs1). cbn zeta in IH.
      rewrite Hobj, Hds in IH. fold dm fl in IH.
      destruct IH as (Hch & Hall & Hres).
      split; [apply chain_cons; [exact Hlink | exact Hch]|].
      split.
      { constructor; [eexists _, _, _; reflexivity | exact Hall]. }
      destruct (outcome (retry str_upper qsqrt nsolve fuel fun_ X0 ind ls'))
        as [ls''|e]; [|exact I].
      destruct Hres as (Hobj' & HdirC' & Hexit & Xs' & Hlast).
      split; [congruence|]. split; [congruence|].
      split; [exact Hexit|].
      exists Xs'. cbn [app]. rewrite <- Hlast. reflexivity.
    + split; [apply chain_cons; [exact Hlink | constructor]|].
      split; [|exact I].
      constructor; [eexists _, _, _; reflexivity | constructor].
  - cbn [mret W_ret trace outcome]. split; [constructor|].
    split; [constructor|]. split; [reflexivity|]. split; [reflexivity|].
    split.
    + intros Hfail. rewrite Hfail in Hcond. exact Hcond.
    + exists Xs. reflexivity.
Qed.

Lemma chain_prefix_one (dm : fnum) (prefix : list event) (e1 : event)
    (t : list event) :
  (prefix = [] \/ exists e0, prefix = [e0] /\ retry_link dm e0 e1) ->
  chain dm (e1 :: t) -> chain dm (prefix ++ e1 :: t).
Proof.
  intros [-> | (e0 & -> & Hlink)] Hch; [exact Hch|].
  simpl. apply chain_cons; assumption.
Qed.

(** The loop over [FracLamList]: the events are linked, the entry of
    index [i] is solved with the value [FracLamList[i]], the first solve
    uses the step size with which the ladder is entered, and the object
    keeps its conditioning. The events may follow a failed solve
    [prefix] of the entry before [ind] at a step size that does not
    exceed the minimum. *)
Lemma ladder_chain (fun_ : cfun) (X0 Xprev : vec) (fuel : nat) :
  forall (lams : list fnum) (ind : nat) (ls : ladder_state)
         (prefix : list event),
    let dm := dsmin (cfg (l_obj ls)) in
    let r := ladder str_upper qsqrt nsolve lin_solve fuel fun_ X0 Xprev lams ind ls in
    (prefix = []
     \/ exists i fl Xs,
         ind = S i
         /\ prefix = [SolveCorrector i fl (l_ds ls) Xs (Some false)]
         /\ flt dm (l_ds ls) = false) ->
    chain dm (prefix ++ trace r)
    /\ Forall (fun ev => exists i fl d X s,
                   ev = SolveCorrector i fl d X s
                   /\ (ind <= i)%nat /\ lams !! (i - ind)%nat = Some fl)
              (trace r)
    /\ (forall e t', trace r = e :: t' ->
          exists fl X s, e = SolveCorrector ind fl (l_ds ls) X s)
    /\ match outcome r with
       | Ok ls' => same_frame (l_obj ls) (l_obj ls')
       | Raise _ => True
       end.
Proof.
  induction lams as [|fl rest IH]; intros ind ls prefix dm r Hpre; subst r.
  - cbn [ladder mret W_ret trace outcome]. rewrite app_nil_r.
    split.
    { destruct Hpre as [-> | (i & f & Xs & _ & -> & _)]; constructor. }
    split; [constructor|]. split; [discriminate|]. apply same_frame_refl.
  - cbn [ladder].
    set (o := with_cfg (l_obj ls) (set_FracLam (cfg (l_obj ls)) fl)).
    rewrite trace_bind, outcome_bind. cbn [lift trace outcome app].
    destruct (predict qsqrt lin_solve o fun_ X0 Xprev (l_dirC ls))
      as [[dirC' RP]|e].
    2:{ rewrite app_nil_r. split.
        { destruct Hpre as [-> | (i & f & Xs & _ & -> & _)]; constructor. }
        split; [constructor|]. split; [discriminate | exact I]. }
    set (ls1 := {| l_obj := with_RPtoC o RP; l_dirC := dirC';
                   l_ds := l_ds ls; l_XlamC := l_XlamC ls;
                   l_sol := l_sol ls |}).
    destruct (solve_corrector_spec fun_ X0 ind ls1 (l_ds ls))
      as (Xs1 & res & Htr & Hout).
    change (FracLam (cfg (l_obj ls1))) with fl in Htr.
    rewrite trace_bind, outcome_bind, Htr.
    set (e1 := SolveCorrector ind fl (l_ds ls) Xs1 res) in *.
    assert (Hpre1 : prefix = []
                    \/ exists e0, prefix = [e0] /\ retry_link dm e0 e1).
    { destruct Hpre as [-> | (i & f & Xs & -> & -> & Hmin)]; [now left|].
      right. eexists. split; [reflexivity|]. simpl.
      split; [reflexivity|]. right. repeat split. exact Hmin. }
    assert (He1 : exists i f d X s,
               e1 = SolveCorrector i f d X s
               /\ (ind <= i)%nat
               /\ (fl :: rest) !! (i - ind)%nat = Some f).
    { eexists _, _, _, _, _. split; [reflexivity|]. split; [lia|].
      now rewrite Nat.sub_diag. }
    destruct (outcome (solve_corrector str_upper qsqrt nsolve fun_ X0 ind ls1 (l_ds ls)))
      as [ls2|e].
    2:{ split; [apply chain_prefix_one; [exact Hpre1 | constructor]|].
        split; [constructor; [exact He1 | constructor]|].
        split; [|exact I].
        intros e' t' Heq. injection Heq as <- _.
        eexists _, _, _. reflexivity. }
    destruct Hout as (-> & Hobj2 & HdirC2 & Hds2).
    pose proof (retry_chain fun_ X0 ind fuel ls2 Xs1) as Hretry.
    cbn zeta in Hretry. rewrite Hobj2, Hds2 in Hretry.
    change (dsmin (cfg (l_obj ls1))) with dm in Hretry.
    change (FracLam (cfg (l_obj ls1))) with fl in Hretry.
    fold e1 in Hretry.
    destruct Hretry as (Hch & Hall & Hres).
    rewrite trace_bind, outcome_bind.
    assert (Hall' : Forall (fun ev => exists i f d X s,
                       ev = SolveCorrector i f d X s
                       /\ (ind <= i)%nat
                       /\ (fl :: rest) !! (i - ind)%nat = Some f)
                     (trace (retry str_upper qsqrt nsolve fuel fun_ X0 ind ls2))).
    { eapply Forall_impl; [exact Hall|]. simpl.
      intros ev (d & X & s & ->).
      eexists _, _, _, _, _. split; [reflexivity|]. split; [lia|].
      now rewrite Nat.sub_diag. }
    destruct (outcome (retry str_upper qsqrt nsolve fuel fun_ X0 ind ls2))
      as [ls3|e].
    2:{ split; [apply chain_prefix_one; [exact Hpre1 | exact Hch]|].
        split; [constructor; [exact He1 | exact Hall']|].
        split; [|exact I].
        intros e' t' Heq. injection Heq as <- _.
        eexists _, _, _. reflexivity. }
    destruct Hres as (Hobj3 & HdirC3 & Hexit & Xs3 & Hlast).
    assert (Hframe3 : same_frame (l_obj ls) (l_obj ls3)).
    { rewrite Hobj3. repeat split. }
    destruct (Solvers.success (l_sol ls3)) eqn:Hsucc.
    + cbn [mret W_ret trace outcome]. rewrite app_nil_r.
      split; [apply chain_prefix_one; [exact Hpre1 | exact Hch]|].
      split; [constructor; [exact He1 | exact Hall']|].
      split; [|exact Hframe3].
      intros e' t' Heq. injection Heq as <- _.
      eexists _, _, _. reflexivity.
    + specialize (IH (S ind) ls3
                     [SolveCorrector ind fl (l_ds ls3) Xs3 (Some false)]).
      cbn zeta in IH.
      assert (Hdm3 : dsmin (cfg (l_obj ls3)) = dm).
      { rewrite Hobj3. reflexivity. }
      rewrite Hdm3 in IH.
      destruct IH as (Hch' & Hall3 & _ & Hframe').
      { right. eexists _, _, _. split; [reflexivity|].
        split; [reflexivity|]. apply Hexit. reflexivity. }
      split.
      { match goal with
        | |- chain _ (prefix ++ [e1] ++ ?tr ++ ?tl) =>
            replace (prefix ++ [e1] ++ tr ++ tl)%list
              with ((prefix ++ e1 :: tr) ++ tl)%list
              by (now rewrite <- app_assoc)
        end.
        eapply chain_app_last; [| |exact Hch'].
        - apply chain_prefix_one; [exact Hpre1 | exact Hch].
        - rewrite last_app. rewrite Hlast. reflexivity. }
      split.
      { constructor; [exact He1|]. apply Forall_app. split; [exact Hall'|].
        eapply Forall_impl; [exact Hall3|]. simpl.
        intros ev (i & f & d & X & s & -> & Hle & Hlook).
        eexists _, _, _, _, _. split; [reflexivity|]. split; [lia|].
        replace (i - ind)%nat with (S (i - S ind)) by lia. exact Hlook. }
      split.
      { intros e' t' Heq. injection Heq as <- _.
        eexists _, _, _. reflexivity. }
      destruct (outcome (ladder str_upper qsqrt nsolve lin_solve fuel fun_ X0 Xprev
                           rest (S ind) ls3)); [|exact I].
      eapply same_frame_trans; eassumption.
Qed.

(** *** Halving reaches the minimum *)

Lemma pow2_pos (n : nat) : (0 < inject_Z (2 ^ Z.of_nat n))%Q.
Proof.
  change 0%Q with (inject_Z 0). rewrite <- Zlt_Qlt.
  apply Z.pow_pos_nonneg; lia.
Qed.

Lemma pow2_ge_1 (n : nat) : (1 <= inject_Z (2 ^ Z.of_nat n))%Q.
Proof.
  change 1%Q with (inject_Z 1). rewrite <- Zle_Qle.
  assert (0 < 2 ^ Z.of_nat n)%Z by (apply Z.pow_pos_nonneg; lia). lia.
Qed.

Lemma pow2_S (n : nat) :
  (inject_Z (2 ^ Z.of_nat (S n)) == 2 * inject_Z (2 ^ Z.of_nat n))%Q.
Proof.
  rewrite Nat2Z.inj_succ, Z.pow_succ_r by lia.
  rewrite inject_Z_mult. reflexivity.
Qed.

Lemma flt_Fin_iff (p q : Q) : flt (Fin p) (Fin q) = true <-> (p < q)%Q.
Proof.
  cbn [flt]. unfold Qlt_bool. rewrite negb_true_iff.
  split.
  - intros H. apply Qnot_le_lt. intros Hle.
    apply Qle_bool_iff in Hle. congruence.
  - intros H. destruct (Qle_bool q p) eqn:E; [|reflexivity].
    apply Qle_bool_iff in E. exfalso. now apply (Qlt_not_le _ _ H).
Qed.

(** The halved step size, [max(ds/2, dsmin)], of finite numbers. *)
Lemma halved_Fin (p q : Q) :
  exists p', pymax (fdiv (Fin p) (Fin 2)) (Fin q) = Fin p'
             /\ ((p' == q)%Q \/ (p' == p / 2)%Q).
Proof.
  unfold pymax. cbn [fdiv]. change (Qeq_bool 2 0) with false. cbn iota.
  destruct (flt (Fin (Qred (p / 2))) (Fin q)).
  - exists q. split; [reflexivity | left; reflexivity].
  - exists (Qred (p / 2)). split; [reflexivity | right; apply Qred_correct].
Qed.

(** A step size above the minimum is not within zero halvings of it. *)
Lemma halvings_zero (d m : fnum) :
  halvings_suffice 0 d m -> flt m d = false.
Proof.
  intros (p & q & -> & -> & Hq & Hle).
  destruct (flt (Fin q) (Fin p)) eqn:E; [|reflexivity].
  apply flt_Fin_iff in E. exfalso. apply (Qlt_not_le _ _ E).
  change (inject_Z (2 ^ Z.of_nat 0)) with 1%Q in Hle.
  now rewrite Qmult_1_r in Hle.
Qed.

Lemma halvings_pred (n : nat) (d m : fnum) :
  halvings_suffice (S n) d m ->
  halvings_suffice n (pymax (fdiv d (Fin 2)) m) m.
Proof.
  intros (p & q & -> & -> & Hq & Hle).
  destruct (halved_Fin p q) as (p' & -> & Hp').
  exists p', q. split; [reflexivity|]. split; [reflexivity|].
  split; [exact Hq|].
  pose proof (pow2_ge_1 n) as H1. rewrite pow2_S in Hle.
  destruct Hp' as [-> | ->].
  - rewrite <- (Qmult_1_r q) at 1. apply Qmult_le_l; assumption.
  - apply Qle_shift_div_r; [reflexivity|].
    rewrite <- Qmult_assoc, (Qmult_comm _ 2). exact Hle.
Qed.

Lemma halvings_keep (n : nat) (d m : fnum) :
  halvings_suffice n d m -> flt m d = true ->
  halvings_suffice n (pymax (fdiv d (Fin 2)) m) m.
Proof.
  intros (p & q & -> & -> & Hq & Hle) Hgt. apply flt_Fin_iff in Hgt.
  destruct (halved_Fin p q) as (p' & -> & Hp').
  exists p', q. split; [reflexivity|]. split; [reflexivity|].
  split; [exact Hq|].
  pose proof (pow2_ge_1 n) as H1.
  destruct Hp' as [-> | ->].
  - rewrite <- (Qmult_1_r q) at 1. apply Qmult_le_l; assumption.
  - apply Qle_trans with p; [|exact Hle].
    apply Qle_shift_div_r; [reflexivity|].
    assert (0 < p)%Q by (eapply Qlt_trans; eassumption).
    Lqa.lra.
Qed.

(** The loop over the step size keeps the step size within the
    halvings it was within. *)
Lemma retry_bound (fun_ : cfun) (X0 : vec) (ind : nat) (n : nat)
    (fuel : nat) :
  forall ls ls' : ladder_state,
    halvings_suffice n (l_ds ls) (dsmin (cfg (l_obj ls))) ->
    outcome (retry str_upper qsqrt nsolve fuel fun_ X0 ind ls) = Ok ls' ->
    halvings_suffice n (l_ds ls') (dsmin (cfg (l_obj ls))).
Proof.
  induction fuel as [|fuel IH]; intros ls ls' Hn; cbn [retry];
    destruct (negb (Solvers.success (l_sol ls))
              && flt (dsmin (cfg (l_obj ls))) (l_ds ls)) eqn:Hcond;
    cbn [lift mret W_ret outcome]; try discriminate;
    try (intros [= <-]; exact Hn).
  apply andb_true_iff in Hcond as [_ Hgt].
  set (d := pymax (fdiv (l_ds ls) (Fin 2)) (dsmin (cfg (l_obj ls)))).
  destruct (solve_corrector_spec fun_ X0 ind ls d)
    as (Xs1 & res & _ & Hout).
  rewrite outcome_bind.
  destruct (outcome (solve_corrector str_upper qsqrt nsolve fun_ X0 ind ls d))
    as [ls1|e]; [|discriminate].
  destruct Hout as (_ & Hobj & _ & Hds).
  intros Hret. rewrite <- Hobj. apply (IH ls1 ls'); [|exact Hret].
  rewrite Hobj, Hds. apply halvings_keep; assumption.
Qed.

(** The loop over the step size raises only because a solve raised,
    which is then the last event, or, in this embedding, because the
    step size was not within [fuel] halvings of the minimum. *)
Lemma retry_raises (fun_ : cfun) (X0 : vec) (ind : nat) (fuel : nat) :
  forall (ls : ladder_state) (e : exn),
    let r := retry str_upper qsqrt nsolve fuel fun_ X0 ind ls in
    outcome r = Raise e ->
    (exists fl d X, last (trace r) = Some (SolveCorrector ind fl d X None))
    \/ (e = Timeout
        /\ ~ halvings_suffice fuel (l_ds ls) (dsmin (cfg (l_obj ls)))).
Proof.
  induction fuel as [|fuel IH]; intros ls e r; subst r; cbn [retry];
    destruct (negb (Solvers.success (l_sol ls))
              && flt (dsmin (cfg (l_obj ls))) (l_ds ls)) eqn:Hcond;
    cbn [lift mret W_ret outcome trace]; try discriminate.
  - intros [= <-]. right. split; [reflexivity|].
    intros Hn. apply halvings_zero in Hn.
    apply andb_true_iff in Hcond as [_ Hgt]. congruence.
  - set (d := pymax (fdiv (l_ds ls) (Fin 2)) (dsmin (cfg (l_obj ls)))).
    destruct (solve_corrector_spec fun_ X0 ind ls d)
      as (Xs1 & res & Htr & Hout).
    rewrite trace_bind, outcome_bind, Htr.
    destruct (outcome (solve_corrector str_upper qsqrt nsolve fun_ X0 ind ls d))
      as [ls1|e1].
    + destruct Hout as (_ & Hobj & _ & Hds). intros Hret.
      destruct (IH ls1 e Hret) as [(fl & d' & X & Hlast) | [-> Hno]].
      * left. exists fl, d', X. rewrite last_app, Hlast. reflexivity.
      * right. split; [reflexivity|]. intros Hn. apply Hno.
        rewrite Hobj, Hds. now apply halvings_pred.
    + intros _. left. subst res. eexists _, _, _. reflexivity.
Qed.

(** How the loop over [FracLamList] ends. When it returns, its last
    event is the solve whose result it returns, and that solve either
    succeeded or failed for the last entry of the list at a step size
    that does not exceed the minimum. When it raises, a solve raised,
    which is then the last event, or the predictor raised, or, in this
    embedding, the step size was not within [fuel] halvings of the
    minimum. *)
Lemma ladder_ends (fun_ : cfun) (X0 Xprev : vec) (fuel : nat) :
  forall (lams : list fnum) (ind : nat) (ls : ladder_state),
    let dm := dsmin (cfg (l_obj ls)) in
    let r := ladder str_upper qsqrt nsolve lin_solve fuel fun_ X0 Xprev
               lams ind ls in
    match outcome r with
    | Ok ls' =>
        (lams = [] /\ ls' = ls)
        \/ exists i fl X,
             last (trace r)
             = Some (SolveCorrector i fl (l_ds ls') X
                       (Some (Solvers.success (l_sol ls'))))
             /\ (Solvers.success (l_sol ls') = false ->
                 flt dm (l_ds ls') = false
                 /\ S i = (ind + length lams)%nat)
    | Raise e =>
        (exists i fl d X,
            last (trace r) = Some (SolveCorrector i fl d X None))
        \/ (exists o' dirC',
               predict qsqrt lin_solve o' fun_ X0 Xprev dirC' = Raise e)
        \/ (e = Timeout /\ ~ halvings_suffice fuel (l_ds ls) dm)
    end.
Proof.
  induction lams as [|fl rest IH]; intros ind ls dm r; subst r.
  - cbn [ladder mret W_ret outcome]. left. split; reflexivity.
  - cbn [ladder].
    set (o := with_cfg (l_obj ls) (set_FracLam (cfg (l_obj ls)) fl)).
    rewrite trace_bind, outcome_bind. cbn [lift trace outcome app].
    destruct (predict qsqrt lin_solve o fun_ X0 Xprev (l_dirC ls))
      as [[dirC' RP]|e] eqn:Hpred.
    { set (ls1 := {| l_obj := with_RPtoC o RP; l_dirC := dirC';
                     l_ds := l_ds ls; l_XlamC := l_XlamC ls;
                     l_sol := l_sol ls |}).
      destruct (solve_corrector_spec fun_ X0 ind ls1 (l_ds ls))
        as (Xs1 & res & Htr & Hout).
      change (FracLam (cfg (l_obj ls1))) with fl in Htr.
      rewrite trace_bind, outcome_bind, Htr.
      destruct (outcome (solve_corrector str_upper qsqrt nsolve fun_ X0 ind
                           ls1 (l_ds ls))) as [ls2|e].
      2:{ left. subst res. eexists _, _, _, _. reflexivity. }
      destruct Hout as (-> & Hobj2 & HdirC2 & Hds2).
      pose proof (retry_chain fun_ X0 ind fuel ls2 Xs1) as Hretry.
      cbn zeta in Hretry. rewrite Hobj2, Hds2 in Hretry.
      change (dsmin (cfg (l_obj ls1))) with dm in Hretry.
      change (FracLam (cfg (l_obj ls1))) with fl in Hretry.
      destruct Hretry as (_ & _ & Hres).
      pose proof (retry_raises fun_ X0 ind fuel ls2) as Hraise.
      pose proof (retry_bound fun_ X0 ind fuel fuel ls2) as Hbound.
      rewrite Hobj2, Hds2 in Hraise, Hbound.
      change (dsmin (cfg (l_obj ls1))) with dm in Hraise, Hbound.
      cbn [l_ds ls1] in Hraise, Hbound.
      rewrite trace_bind, outcome_bind.
      destruct (outcome (retry str_upper qsqrt nsolve fuel fun_ X0 ind ls2))
        as [ls3|e].
      2:{ destruct (Hraise e eq_refl) as [(f & d & X & Hlast) | [-> Hno]].
          - left. exists ind, f, d, X.
            change (?a :: ?l)%list with ([a] ++ l)%list.
            rewrite last_app, Hlast. reflexivity.
          - right. right. split; [reflexivity | exact Hno]. }
      destruct Hres as (Hobj3 & _ & Hexit & Xs3 & Hlast).
      assert (Hdm3 : dsmin (cfg (l_obj ls3)) = dm)
        by (rewrite Hobj3; reflexivity).
      destruct (Solvers.success (l_sol ls3)) eqn:Hsucc.
      + cbn [mret W_ret trace outcome]. rewrite app_nil_r, Hsucc.
        right. exists ind, fl, Xs3. split; [exact Hlast | discriminate].
      + specialize (IH (S ind) ls3). cbn zeta in IH. rewrite Hdm3 in IH.
        destruct (outcome (ladder str_upper qsqrt nsolve lin_solve fuel fun_
                             X0 Xprev rest (S ind) ls3)) as [ls4|e].
        * right.
          destruct IH as [[-> ->] | (i & f & X & Hlast4 & Hfail4)].
          -- cbn [ladder mret W_ret trace]. rewrite app_nil_r, Hsucc.
             exists ind, fl, Xs3. split; [exact Hlast|].
             intros _. split; [now apply Hexit|]. cbn [length]. lia.
          -- exists i, f, X. split.
             ++ rewrite !app_assoc, last_app, Hlast4. reflexivity.
             ++ intros Hf. destruct (Hfail4 Hf) as [H1 H2].
                split; [exact H1|]. cbn [length]. lia.
        * destruct IH as [(i & f & d & X & Hlast4)
                         | [(o' & d' & Hp) | [-> Hno]]].
          -- left. exists i, f, d, X.
             rewrite !app_assoc, last_app, Hlast4. reflexivity.
          -- right. left. exists o', d'. exact Hp.
          -- right. right. split; [reflexivity|]. intros Hn. apply Hno.
             apply (Hbound ls3 Hn eq_refl). }
    right. left. exists o, (l_dirC ls). exact Hpred.
Qed.


(** ** Dynamic conditioning *)

Lemma fmaximum_ge (a b : fnum) :
  isnan (fmaximum a b) = false -> fle b (fmaximum a b) = true.
Proof.
  unfold fmaximum.
  destruct (isnan a) eqn:Ha; [discriminate|].
  destruct (isnan b) eqn:Hb; [discriminate|]. cbn [orb].
  destruct (flt a b) eqn:Hab; intros _; unfold fle.
  - rewrite Hb, flt_irrefl. reflexivity.
  - rewrite Hb, Ha, Hab. reflexivity.
Qed.

Lemma vzip_lookup (f : fnum -> fnum -> fnum) (u v : vec) (j : nat)
    (x : fnum) :
  vzip f u v !! j = Some x ->
  exists a b, u !! j = Some a /\ v !! j = Some b /\ x = f a b.
Proof.
  unfold vzip. revert v j.
  induction u as [|a u IH]; intros [|b v] [|j]; simpl; try discriminate.
  - intros H. injection H as <-. eauto.
  - apply IH.
Qed.

Lemma floored_ge (point floor : vec) (j : nat) (a x : fnum) :
  floor !! j = Some a -> floored point floor !! j = Some x ->
  isnan x = false -> fle a x = true.
Proof.
  unfold floored. intros Ha Hx Hnan.
  apply vzip_lookup in Hx as (p & a' & _ & Ha' & ->).
  rewrite Ha in Ha'. injection Ha' as <-.
  now apply fmaximum_ge.
Qed.

Lemma stored_rows_app (t1 t2 : list event) :
  stored_rows (t1 ++ t2) = (stored_rows t1 ++ stored_rows t2)%list.
Proof. apply omap_app. Qed.

(** The ladder stores no point. *)
Lemma ladder_stores_nothing (fun_ : cfun) (X0 Xprev : vec) (fuel : nat)
    (lams : list fnum) (ls : ladder_state) :
  stored_rows
    (trace (ladder str_upper qsqrt nsolve lin_solve fuel fun_ X0 Xprev
              lams 0 ls)) = [].
Proof.
  destruct (ladder_chain fun_ X0 Xprev fuel lams 0 ls [] (or_introl eq_refl))
    as (_ & Hall & _).
  induction Hall as [|ev t (i & fl & d & X & s & -> & _) _ IH];
    [reflexivity | exact IH].
Qed.

(** One pass through the loop body under dynamic conditioning. A pass
    after which the loop goes on has stored one point, under the
    conditioning vector [np.maximum(np.abs(XlamP_full[step-1]), CtoP0)],
    and has appended it to the history; the floor [CtoP0] stays. A pass
    that ends the loop has stored nothing, and one that raises has
    stored at most that point. *)
Lemma step_body_rows (fuel : nat) (fun_ : cfun) (silent : bool)
    (s : loop_state) :
  DynamicCtoP (cfg (obj s)) = true ->
  let r := step_body str_upper qsqrt nsolve lin_solve st fuel fun_ silent s in
  let c := floored (List.last (XlamP_full s) []) (CtoP0 (obj s)) in
  match outcome r with
  | Ok (s', true) =>
      exists p, stored_rows (trace r) = [(c, p)]
                /\ XlamP_full s' = (XlamP_full s ++ [p])%list
                /\ CtoP0 (obj s') = CtoP0 (obj s)
                /\ DynamicCtoP (cfg (obj s')) = true
  | Ok (s', false) => stored_rows (trace r) = []
  | Raise _ =>
      stored_rows (trace r) = [] \/ exists p, stored_rows (trace r) = [(c, p)]
  end.
Proof.
  intros Hdyn r c. subst r. unfold step_body. rewrite Hdyn.
  set (o := with_CtoP (obj s) _).
  assert (Ho : CtoP o = c) by reflexivity.
  rewrite trace_bind, outcome_bind. cbn [lift trace outcome app].
  destruct (st !! FracLamList (cfg o)) as [lams|]; [|left; reflexivity].
  set (ls0 := {| l_obj := o; l_dirC := dirC s; l_ds := ds s;
                 l_XlamC := XlamC s; l_sol := sol s |}).
  pose proof (ladder_stores_nothing fun_ (XlamP0 s) (XlamPprev s) fuel lams
                ls0) as Hnone.
  pose proof (ladder_chain fun_ (XlamP0 s) (XlamPprev s) fuel lams 0 ls0 []
                (or_introl eq_refl)) as (_ & _ & _ & Hframe).
  rewrite trace_bind, outcome_bind.
  destruct (outcome (ladder str_upper qsqrt nsolve lin_solve fuel fun_
                       (XlamP0 s) (XlamPprev s) lams 0 ls0)) as [ls|e];
    [|left; exact Hnone].
  destruct Hframe as (HC & HC0 & HD & _). cbn [l_obj ls0] in HC, HC0, HD.
  destruct (negb (Solvers.success (l_sol ls)) && negb silent).
  { cbn [mret W_ret trace outcome]. rewrite app_nil_r. exact Hnone. }
  rewrite trace_bind, outcome_bind. cbn [lift trace outcome app].
  destruct (l_XlamC ls) as [xc|];
    [|left; rewrite app_nil_r; exact Hnone].
  rewrite trace_bind, outcome_bind. cbn [emit trace outcome].
  rewrite trace_bind, outcome_bind. cbn [lift trace outcome app].
  rewrite stored_rows_app, Hnone, HC, Ho. cbn [app].
  destruct (Nat.eqb (Solvers.nfev (l_sol ls)) 0).
  { right. eexists. reflexivity. }
  rewrite trace_bind, outcome_bind.
  assert (Hcb : forall w : W unit,
             w = (if callback (cfg (l_obj ls))
                  then emit (Callback (vmul c xc)
                                      (vmul (l_dirC ls) c))
                  else mret tt) ->
             outcome w = Ok tt /\ stored_rows (trace w) = []).
  { intros w ->. destruct (callback (cfg (l_obj ls))); split; reflexivity. }
  destruct (Hcb _ eq_refl) as [Hcb1 Hcb2]. rewrite Hcb1.
  cbn [mret W_ret trace outcome]. rewrite app_nil_r.
  change (?a :: ?l)%list with ([a] ++ l)%list.
  rewrite stored_rows_app, Hcb2.
  exists (vmul c xc). split; [reflexivity|]. split; [reflexivity|].
  cbn [obj]. split; [exact HC0 | rewrite HD; exact Hdyn].
Qed.

(** The loop: every point is stored under the conditioning vector made
    from the point stored last. *)
Lemma steps_conditioned (fuel : nat) (fun_ : cfun) (silent : bool)
    (direct lam0 lam1 : fnum) (n : nat) :
  forall s : loop_state,
    DynamicCtoP (cfg (obj s)) = true ->
    conditioned_by_last (CtoP0 (obj s)) (List.last (XlamP_full s) [])
      (stored_rows (trace (steps str_upper qsqrt nsolve lin_solve st n fuel
                             fun_ silent direct lam0 lam1 s))).
Proof.
  induction n as [|n IH]; intros s Hdyn; cbn [steps]; [exact I|].
  rewrite trace_bind. cbn [lift trace outcome app].
  destruct (keep_going s direct lam0 lam1) as [[|]|e]; try exact I.
  rewrite trace_bind.
  pose proof (step_body_rows fuel fun_ silent s Hdyn) as Hbody.
  cbn zeta in Hbody.
  destruct (outcome (step_body str_upper qsqrt nsolve lin_solve st fuel fun_
                       silent s)) as [[s' [|]]|e].
  - destruct Hbody as (p & Hrows & Hfull & HC0 & Hdyn').
    rewrite stored_rows_app, Hrows. cbn [app conditioned_by_last].
    split; [reflexivity|].
    specialize (IH s' Hdyn'). rewrite HC0, Hfull, last_last in IH.
    exact IH.
  - cbn [mret W_ret trace]. rewrite app_nil_r, Hbody. exact I.
  - destruct Hbody as [-> | (p & ->)]; [exact I|].
    split; [reflexivity | exact I].
Qed.

Lemma conditioned_by_last_ge (floor : vec) :
  forall (rows : list (vec * vec)) (last : vec),
    conditioned_by_last floor last rows ->
    Forall (fun row => forall j a x,
                floor !! j = Some a -> row.1 !! j = Some x ->
                isnan x = false -> fle a x = true) rows.
Proof.
  induction rows as [|[c p] rows IH]; intros last H; [constructor|].
  destruct H as [-> H]. constructor; [|exact (IH p H)].
  intros j a x Ha Hx Hnan. eapply floored_ge; eassumption.
Qed.

(** What [prepare] leaves of the object. *)
Lemma prepare_spec (o : continuation_object) (X : vec) :
  CtoP (prepare o X) = (if setCtoPto1 o then ones_like X else CtoP o)
  /\ CtoP0 (prepare o X) = CtoP0 o
  /\ cfg (prepare o X)
     = (if (verbose (cfg o) <? 0)%Z then set_verbose (cfg o) 0 else cfg o).
Proof.
  unfold prepare.
  set (o1 := if (verbose (cfg o) <? 0)%Z then _ else o).
  set (o2 := if setCtoPto1 o1 then _ else o1).
  set (o3 := if setRPtoCto1 o2 then _ else o2).
  assert (H1 : CtoP o1 = CtoP o /\ setCtoPto1 o1 = setCtoPto1 o
               /\ CtoP0 o1 = CtoP0 o
               /\ cfg o1 = (if (verbose (cfg o) <? 0)%Z
                            then set_verbose (cfg o) 0 else cfg o))
    by (subst o1; destruct (verbose (cfg o) <? 0)%Z; repeat split).
  destruct H1 as (H1a & H1b & H1c & H1d).
  assert (H2 : CtoP o2 = (if setCtoPto1 o then ones_like X else CtoP o)
               /\ CtoP0 o2 = CtoP0 o /\ cfg o2 = cfg o1).
  { subst o2. rewrite H1b. destruct (setCtoPto1 o); repeat split;
      assumption. }
  destruct H2 as (H2a & H2b & H2c).
  assert (H3 : CtoP o3 = CtoP o2 /\ CtoP0 o3 = CtoP0 o2 /\ cfg o3 = cfg o2)
    by (subst o3; destruct (setRPtoCto1 o2); repeat split).
  destruct H3 as (H3a & H3b & H3c).
  destruct (RPtoC o3) as [x|[|x [|y v]]]; cbn [CtoP CtoP0 cfg with_RPtoC];
    rewrite ?H3a, ?H3b, ?H3c, ?H2a, ?H2b, ?H2c, ?H1d; repeat split.
Qed.

(** C5, as the code has it. In a run with dynamic conditioning every
    point is stored under the conditioning vector
    [np.maximum(np.abs(prev), floor)], where [prev] is the point that
    the run stored last, the initial point for the first step, and
    [floor] is the conditioning vector with which the run starts (ones
    when none was given); a run whose initial solve raises stores
    nothing. Every entry of such a vector that is not NaN is at least
    the entry of the floor. Nothing makes it at least the conditioning
    vector of the step before. *)
Theorem dynamic_CtoP_is_floored (fuel : nat) (o : continuation_object)
    (fun_ : cfun) (X : vec) (lam0 lam1 : fnum) (return_grad : bool) :
  DynamicCtoP (cfg o) = true ->
  let floor := if setCtoPto1 o then ones_like X else CtoP o in
  let rows :=
    stored_rows
      (trace (continuation str_upper qsqrt nsolve lin_solve
                conditioning_wrapper st fuel o fun_ X lam0 lam1
                return_grad)) in
  match solve_initial nsolve conditioning_wrapper (prepare o X) fun_ X lam0
  with
  | Ok (Xc, _, _, _) =>
      conditioned_by_last floor (vmul Xc (removelast floor) ++ [lam0])%list
        rows
  | Raise _ => rows = []
  end
  /\ Forall (fun row => forall j a x,
                 floor !! j = Some a -> row.1 !! j = Some x ->
                 isnan x = false -> fle a x = true) rows.
Proof.
  intros Hdyn floor rows.
  destruct (prepare_spec o X) as (HC & HC0 & Hcfg). fold floor in HC.
  assert (Hdyn4 : DynamicCtoP (cfg (prepare o X)) = true).
  { rewrite Hcfg. destruct (verbose (cfg o) <? 0)%Z; exact Hdyn. }
  assert (Hmain :
            match solve_initial nsolve conditioning_wrapper (prepare o X)
                    fun_ X lam0 with
            | Ok (Xc, _, _, _) =>
                conditioned_by_last floor
                  (vmul Xc (removelast floor) ++ [lam0])%list rows
            | Raise _ => rows = []
            end).
  { subst rows. unfold continuation.
    rewrite trace_bind. cbn [lift trace outcome app].
    destruct return_grad.
    { destruct (solve_initial _ _ _ _ _ _) as [[[[Xc R] J] sol0]|e];
        [exact I | reflexivity]. }
    cbn zeta. set (o4 := prepare o X) in *.
    rewrite trace_bind.
    destruct (solve_initial nsolve conditioning_wrapper o4 fun_ X lam0)
      as [[[[Xc R] J] sol0]|e]; cbn [trace outcome snd]; [|reflexivity].
    rewrite trace_bind. cbn [lift trace outcome app].
    destruct (Solvers.success sol0); [|exact I].
    rewrite trace_bind.
    assert (Hcb : forall w : W unit,
               w = (if callback (cfg o4)
                    then emit (Callback (vmul Xc (removelast (CtoP o4))
                                           ++ [lam0])%list
                                 (vscale NaN
                                    (vmul Xc (removelast (CtoP o4))
                                       ++ [lam0])%list))
                    else mret tt) ->
               outcome w = Ok tt /\ stored_rows (trace w) = []).
    { intros w ->. destruct (callback (cfg o4)); split; reflexivity. }
    destruct (Hcb _ eq_refl) as [Hcb1 Hcb2]. rewrite Hcb1.
    change (?a :: ?l)%list with ([a] ++ l)%list.
    rewrite !stored_rows_app, Hcb2.
    change (stored_rows [SolveInitial ?a ?b]) with (@nil (vec * vec)).
    cbn [app].
    rewrite trace_bind. cbn [lift trace outcome app].
    destruct (Nat.eqb (MaxSteps (cfg o4)) 0); [exact I|].
    rewrite Hdyn4, trace_bind, ?HC.
    match goal with
    | |- context [steps _ _ _ _ _ ?n _ _ ?sl ?d _ _ ?s0] =>
        pose proof (steps_conditioned fuel fun_ sl d lam0 lam1 n s0 Hdyn4)
          as Hsteps;
        destruct (outcome (steps str_upper qsqrt nsolve lin_solve st n fuel
                             fun_ sl d lam0 lam1 s0)) as [s|e]
    end; cbn [obj XlamP_full with_CtoP0 CtoP0 List.last] in Hsteps;
      rewrite ?HC in Hsteps; [|exact Hsteps].
    rewrite stored_rows_app.
    match goal with
    | |- conditioned_by_last _ _ (_ ++ stored_rows (trace ?m))%list =>
        assert (Hfin : stored_rows (trace m) = [])
    end.
    { rewrite trace_bind.
      match goal with
      | |- context [outcome ?w] =>
          assert (Hw : stored_rows (trace w) = [])
      end.
      { destruct (callback (cfg (obj s))); [|reflexivity].
        destruct (negb (Solvers.success (sol s))).
        - rewrite trace_bind. reflexivity.
        - rewrite trace_bind. cbn [lift trace outcome app].
          destruct (predict _ _ _ _ _ _ _) as [[d r]|e]; reflexivity. }
      match goal with
      | |- context [outcome ?w] => destruct (outcome w)
      end; [|exact Hw].
      rewrite stored_rows_app, Hw. reflexivity. }
    rewrite Hfin, app_nil_r. exact Hsteps. }
  split; [exact Hmain|].
  destruct (solve_initial nsolve conditioning_wrapper (prepare o X) fun_ X
              lam0) as [[[[Xc R] J] sol0]|e].
  - eapply conditioned_by_last_ge. exact Hmain.
  - rewrite Hmain. constructor.
Qed.

(** ** A corrector that is not among the two *)

Section InvalidCorrector.

(** The solver evaluates the function at its starting point before
    anything else, as [NonlinearSolverOMP.nsolve] does. *)
Hypothesis solver_evaluates_first :
  forall (f : Solvers.resfun) (x : vec) (t : option fnum) (e : exn),
    f x true = Raise e -> nsolve f x t = Raise e.

Variable fun_ : cfun.

Local Abbreviation invalid o :=
  (str_upper (corrector (cfg o)) <> "PSEUDO"
   /\ str_upper (corrector (cfg o)) <> "ORTHO").

Lemma correct_res_raises (o : continuation_object)
    (XlamC XlamC0 : vec) (ds : fnum) (dirC : option vec) (calc_grad : bool) :
  invalid o ->
  exists e,
    correct_res str_upper qsqrt o fun_ XlamC XlamC0 ds dirC calc_grad
    = Raise e.
Proof.
  intros [Hp Ho]. rewrite correct_res_invalid by assumption.
  destruct (fun_ _ calc_grad) as [[[R J] dl]|e]; [|eexists; reflexivity].
  destruct (if calc_grad then _ else _); eexists; reflexivity.
Qed.

(** The exception of a corrector solve is that of the corrector
    residual at the predicted point. *)
Local Abbreviation from_residual o X0 d e :=
  (exists o1 XlamC0 dirC,
      corrector (cfg o1) = corrector (cfg o)
      /\ correct_res str_upper qsqrt o1 fun_ X0 XlamC0 d (Some dirC) true
         = Raise e).

Lemma solve_corrector_invalid (X0 : vec) (ind : nat) (ls : ladder_state)
    (d : fnum) :
  invalid (l_obj ls) ->
  exists Xs e,
    solve_corrector str_upper qsqrt nsolve fun_ X0 ind ls d
    = mkW [SolveCorrector ind (FracLam (cfg (l_obj ls))) d Xs None] (Raise e)
    /\ from_residual (l_obj ls) Xs d e.
Proof.
  intros Hinv. unfold solve_corrector.
  set (Xs := vadd _ _).
  destruct (correct_res_raises (l_obj ls) Xs
              (vzip fdiv X0 (CtoP (l_obj ls))) d (Some (l_dirC ls)) true Hinv)
    as (e & He).
  rewrite (solver_evaluates_first _ Xs _ e He).
  exists Xs, e. split; [reflexivity|].
  eexists _, _, _. split; [reflexivity | exact He].
Qed.

(** The ladder of such an object returns only when [FracLamList] is
    empty; otherwise it raises, in the predictor or in the first
    corrector solve. *)
Lemma ladder_invalid (X0 Xprev : vec) (fuel : nat) (lams : list fnum)
    (ls : ladder_state) :
  invalid (l_obj ls) ->
  let r := ladder str_upper qsqrt nsolve lin_solve fuel fun_ X0 Xprev
             lams 0 ls in
  (r = mret ls)
  \/ (trace r = [] /\ exists e, outcome r = Raise e)
  \/ (exists fl Xs e,
         trace r = [SolveCorrector 0 fl (l_ds ls) Xs None]
         /\ outcome r = Raise e
         /\ from_residual (l_obj ls) Xs (l_ds ls) e).
Proof.
  intros Hinv r. subst r. destruct lams as [|fl rest]; [left; reflexivity|].
  right. cbn [ladder].
  set (o := with_cfg (l_obj ls) (set_FracLam (cfg (l_obj ls)) fl)).
  rewrite trace_bind, outcome_bind. cbn [lift trace outcome app].
  destruct (predict qsqrt lin_solve o fun_ X0 Xprev (l_dirC ls))
    as [[dirC' RP]|e]; [|left; split; [reflexivity | eexists; reflexivity]].
  right.
  set (ls1 := {| l_obj := with_RPtoC o RP; l_dirC := dirC';
                 l_ds := l_ds ls; l_XlamC := l_XlamC ls;
                 l_sol := l_sol ls |}).
  destruct (solve_corrector_invalid X0 0 ls1 (l_ds ls) Hinv)
    as (Xs & e & Hrun & Hres).
  rewrite trace_bind, outcome_bind, Hrun. cbn [trace outcome].
  exists fl, Xs, e. split; [reflexivity|]. split; [reflexivity|].
  exact Hres.
Qed.

(** The first pass through the loop body, which is entered without a
    corrected point and after a successful solve, raises. *)
Lemma first_step_invalid (fuel : nat) (silent : bool) (s : loop_state) :
  invalid (obj s) -> XlamC s = None -> Solvers.success (sol s) = true ->
  let r := step_body str_upper qsqrt nsolve lin_solve st fuel fun_ silent s in
  exists e,
    outcome r = Raise e
    /\ (trace r = []
        \/ exists fl Xs,
             trace r = [SolveCorrector 0 fl (ds s) Xs None]
             /\ from_residual (obj s) Xs (ds s) e).
Proof.
  intros Hinv Hxc Hsucc r. subst r. unfold step_body.
  set (o := if DynamicCtoP (cfg (obj s)) then _ else obj s).
  assert (Ho : corrector (cfg o) = corrector (cfg (obj s)))
    by (subst o; destruct (DynamicCtoP (cfg (obj s))); reflexivity).
  assert (Hinv' : invalid o) by (rewrite Ho; exact Hinv).
  rewrite trace_bind, outcome_bind. cbn [lift trace outcome app].
  destruct (st !! FracLamList (cfg o)) as [lams|];
    [|eexists; split; [reflexivity | left; reflexivity]].
  set (ls0 := {| l_obj := o; l_dirC := dirC s; l_ds := ds s;
                 l_XlamC := XlamC s; l_sol := sol s |}).
  rewrite trace_bind, outcome_bind.
  destruct (ladder_invalid (XlamP0 s) (XlamPprev s) fuel lams ls0 Hinv')
    as [-> | [(-> & e & ->) | (fl & Xs & e & -> & -> & Hres)]].
  - cbn [mret W_ret trace outcome l_sol l_XlamC ls0 app].
    rewrite Hsucc, Hxc. cbn [negb andb].
    rewrite trace_bind, outcome_bind. cbn [lift trace outcome].
    eexists. split; [reflexivity | left; reflexivity].
  - exists e. split; [reflexivity | left; reflexivity].
  - exists e. split; [reflexivity|]. right. exists fl, Xs.
    split; [reflexivity|].
    destruct Hres as (o1 & x0 & d & Hc & He).
    exists o1, x0, d. split; [rewrite Hc; exact Ho | exact He].
Qed.

(** The loop from that state: it is left at once, or raises in its
    first pass. *)
Lemma steps_invalid (fuel : nat) (silent : bool) (direct lam0 lam1 : fnum)
    (n : nat) (s : loop_state) :
  invalid (obj s) -> XlamC s = None -> Solvers.success (sol s) = true ->
  let r := steps str_upper qsqrt nsolve lin_solve st n fuel fun_ silent
             direct lam0 lam1 s in
  (r = mret s /\ (n = 0%nat \/ keep_going s direct lam0 lam1 = Ok false))
  \/ (exists e,
         outcome r = Raise e
         /\ (trace r = []
             \/ exists fl Xs,
                  trace r = [SolveCorrector 0 fl (ds s) Xs None]
                  /\ from_residual (obj s) Xs (ds s) e)).
Proof.
  intros Hinv Hxc Hsucc r. subst r.
  destruct n as [|n]; cbn [steps]; [left; split; [reflexivity | now left]|].
  rewrite trace_bind, outcome_bind. cbn [lift trace outcome app].
  destruct (keep_going s direct lam0 lam1) as [[|]|e] eqn:Hgo.
  - right.
    destruct (first_step_invalid fuel silent s Hinv Hxc Hsucc)
      as (e & He & Htr).
    cbn zeta in He, Htr.
    rewrite trace_bind, outcome_bind, He. exists e.
    split; [reflexivity | exact Htr].
  - left. unfold mbind, W_bind. cbn [lift outcome trace].
    split; [reflexivity | now right].
  - right. exists e. split; [reflexivity | left; reflexivity].
Qed.

(** C8, as the code has it. A corrector other than ['Pseudo'] and
    ['Ortho'] (compared in upper case) is rejected where the corrector
    residual is evaluated, not when the run starts. Every call of
    [correct_res] raises, with the assertion error
    ['Invalid corrector type: ...'] once the followed function has been
    evaluated. Every run first makes the nonlinear solve of the initial
    point, which does not evaluate the corrector residual. After it the
    run stores no point: either it makes no corrector solve, and then
    it can return, with the initial point as the only row, when
    [MaxSteps <= 1] or [lam0] is not inside the range of the loop; or
    it raises in its first corrector solve, at the step size [ds0], the
    exception of the corrector residual at the predicted point. The
    solver is one that evaluates the function at its starting point. *)
Theorem invalid_corrector_is_rejected_by_correct_res
    (o : continuation_object) :
  str_upper (corrector (cfg o)) <> "PSEUDO" ->
  str_upper (corrector (cfg o)) <> "ORTHO" ->
  (forall XlamC XlamC0 ds dirC calc_grad,
      is_ok (correct_res str_upper qsqrt o fun_ XlamC XlamC0 ds dirC calc_grad)
      = false)
  /\ (forall XlamC XlamC0 ds dirC calc_grad R dRdX dRdlam,
        fun_ (vmul XlamC (CtoP o)) calc_grad = Ok (R, dRdX, dRdlam) ->
        CtoP o <> [] ->
        correct_res str_upper qsqrt o fun_ XlamC XlamC0 ds dirC calc_grad
        = Raise (AssertionError
                   ("Invalid corrector type: "
                    ++ str_upper (corrector (cfg o)))))
  /\ (forall fuel X lam0 lam1,
        let run := continuation str_upper qsqrt nsolve lin_solve
                     conditioning_wrapper st fuel o fun_ X lam0 lam1 false in
        exists start res rest,
          trace run = SolveInitial start res :: rest
          /\ ((Forall (fun ev => is_callback ev = true) rest
               /\ forall full o', outcome run = Ok (full, o') ->
                    exists first,
                      full = [first]
                      /\ ((MaxSteps (cfg o) <= 1)%nat
                          \/ inside_range (fsignum (fsub lam1 lam0)) lam0
                               lam1 (backtrackStop (cfg o)) first = false))
              \/ (exists pre fl Xs e,
                     rest = (pre ++ [SolveCorrector 0 fl (ds0 (cfg o)) Xs
                                       None])%list
                     /\ Forall (fun ev => is_callback ev = true) pre
                     /\ outcome run = Raise e
                     /\ exists o1 XlamC0 dirC,
                          corrector (cfg o1) = corrector (cfg o)
                          /\ correct_res str_upper qsqrt o1 fun_ Xs XlamC0
                               (ds0 (cfg o)) (Some dirC) true = Raise e))).
Proof.
  intros Hp Ho. split; [|split].
  - intros XlamC XlamC0 ds dirC cg.
    rewrite correct_res_invalid by assumption.
    destruct (fun_ _ cg) as [[[R J] dl]|e]; [|reflexivity].
    destruct (if cg then _ else _); reflexivity.
  - intros XlamC XlamC0 ds dirC cg R J dl Hfun Hne.
    rewrite correct_res_invalid by assumption. rewrite Hfun.
    destruct cg; [|reflexivity].
    unfold condition_jacobian, last_entry.
    destruct (last (CtoP o)) eqn:Hlast; [reflexivity|].
    apply last_None in Hlast. contradiction.
  - intros fuel X lam0 lam1 run. subst run. unfold continuation.
    rewrite trace_bind, outcome_bind. cbn [lift trace outcome app].
    cbn zeta. set (o4 := prepare o X).
    destruct (prepare_spec o X) as (_ & _ & Hcfg). fold o4 in Hcfg.
    assert (H4 : corrector (cfg o4) = corrector (cfg o)
                 /\ MaxSteps (cfg o4) = MaxSteps (cfg o)
                 /\ backtrackStop (cfg o4) = backtrackStop (cfg o)
                 /\ ds0 (cfg o4) = ds0 (cfg o)).
    { rewrite Hcfg. destruct (verbose (cfg o) <? 0)%Z; repeat split. }
    destruct H4 as (Hcor & HM & HB & Hds).
    rewrite trace_bind, outcome_bind.
    destruct (solve_initial nsolve conditioning_wrapper o4 fun_ X lam0)
      as [[[[Xc R] J] sol0]|e]; cbn [trace outcome snd app].
    2:{ eexists _, _, _. split; [reflexivity|]. left.
        split; [constructor | discriminate]. }
    rewrite trace_bind, outcome_bind. cbn [lift trace outcome app].
    destruct (Solvers.success sol0) eqn:Hsucc.
    2:{ eexists _, _, _. split; [reflexivity|]. left.
        split; [constructor | discriminate]. }
    set (first := (vmul Xc (removelast (CtoP o4)) ++ [lam0])%list).
    rewrite trace_bind, outcome_bind.
    assert (Hcb : forall w : W unit,
               w = (if callback (cfg o4)
                    then emit (Callback first (vscale NaN first))
                    else mret tt) ->
               outcome w = Ok tt
               /\ Forall (fun ev => is_callback ev = true) (trace w)).
    { intros w ->. destruct (callback (cfg o4)); split;
        try reflexivity; repeat constructor. }
    destruct (Hcb _ eq_refl) as [Hcb1 Hcb2]. rewrite Hcb1.
    set (cb := trace (if callback (cfg o4) then _ else _)) in *.
    rewrite trace_bind, outcome_bind. cbn [lift trace outcome app].
    destruct (Nat.eqb (MaxSteps (cfg o4)) 0).
    { eexists _, _, _. split; [reflexivity|]. left.
      rewrite app_nil_r. split; [exact Hcb2 | discriminate]. }
    rewrite trace_bind, outcome_bind.
    match goal with
    | |- context [steps _ _ _ _ _ ?n _ _ ?sl ?d _ _ ?s0] =>
        destruct (steps_invalid fuel sl d lam0 lam1 n s0)
          as [[Hret Hwhy] | (e & He & Htr)];
        [ cbn [obj]; destruct (DynamicCtoP (cfg o4)); split;
          cbn [cfg with_CtoP0]; rewrite Hcor; assumption
        | reflexivity | exact Hsucc | | ];
        set (s00 := s0) in *
    end.
    + cbn zeta in Hret. rewrite Hret. cbn [mret W_ret trace outcome app].
      eexists _, _, _. split; [reflexivity|]. left.
      rewrite trace_bind, outcome_bind.
      assert (Hfin : forall w : W loop_state,
                 w = (if callback (cfg (obj s00))
                      then if negb (Solvers.success (sol s00))
                           then _ ← emit (Callback (vscale NaN (dirC s00))
                                            (vmul (dirC s00)
                                               (CtoP (obj s00))));
                                mret s00
                           else '(dirC', RPtoC') ←
                                  lift (predict qsqrt lin_solve (obj s00)
                                          fun_ (XlamP0 s00) (XlamPprev s00)
                                          (dirC s00));
                                _ ← emit (Callback (vscale NaN dirC')
                                            (vmul dirC' (CtoP (obj s00))));
                                mret {| obj := with_RPtoC (obj s00) RPtoC';
                                        step := step s00;
                                        XlamP_full := XlamP_full s00;
                                        XlamP0 := XlamP0 s00;
                                        XlamPprev := XlamPprev s00;
                                        dirC := dirC';
                                        ds := ds s00; XlamC := XlamC s00;
                                        sol := sol s00 |}
                      else mret s00) ->
                 Forall (fun ev => is_callback ev = true) (trace w)
                 /\ forall s2, outcome w = Ok s2 ->
                      XlamP_full s2 = XlamP_full s00).
      { intros w ->. destruct (callback (cfg (obj s00)));
          [|split; [constructor | now intros s2 [= <-]]].
        destruct (negb (Solvers.success (sol s00))).
        - split; [repeat constructor | now intros s2 [= <-]].
        - rewrite trace_bind, outcome_bind. cbn [lift trace outcome app].
          destruct (predict _ _ _ _ _ _ _) as [[d r]|e];
            split; try discriminate; try constructor;
            try reflexivity; try constructor.
          now intros s2 [= <-]. }
      destruct (Hfin _ eq_refl) as [Hf1 Hf2].
      split.
      { rewrite ?app_nil_r.
        match goal with
        | |- Forall _ (_ ++ match outcome ?w with _ => _ end)%list =>
            destruct (outcome w)
        end; rewrite ?app_nil_r; try apply Forall_app; auto. }
      intros full o' Hout.
      match type of Hout with
      | match outcome ?w with _ => _ end = _ =>
          destruct (outcome w) as [s2|] eqn:Hw; [|discriminate]
      end.
      cbn [mret W_ret outcome] in Hout. injection Hout as <- _.
      rewrite (Hf2 s2 eq_refl). exists first. split; [reflexivity|].
      destruct Hwhy as [Hn | Hgo].
      * left.
        assert (HM' : MaxSteps (cfg (if DynamicCtoP (cfg o4)
                                     then with_CtoP0 o4 (CtoP o4) else o4))
                      = MaxSteps (cfg o))
          by (destruct (DynamicCtoP (cfg o4)); exact HM).
        rewrite HM' in Hn. lia.
      * unfold keep_going, s00 in Hgo.
        cbn [step obj XlamP_full List.last] in Hgo.
        assert (Hc : cfg (if DynamicCtoP (cfg o4)
                          then with_CtoP0 o4 (CtoP o4) else o4) = cfg o4)
          by (destruct (DynamicCtoP (cfg o4)); reflexivity).
        rewrite Hc, HM, HB in Hgo.
        destruct (Nat.ltb_spec 1 (MaxSteps (cfg o))); [|left; lia].
        right. unfold inside_range.
        destruct (last_entry first); [|reflexivity].
        cbn [mbind result_bind] in Hgo. now injection Hgo.
    + cbn zeta in He, Htr. rewrite He.
      assert (Hds' : ds s00 = ds0 (cfg o)).
      { subst s00. cbn [ds]. destruct (DynamicCtoP (cfg o4)); exact Hds. }
      destruct Htr as [-> | (fl & Xs & -> & Hres)].
      * eexists _, _, _. split; [reflexivity|]. left.
        rewrite app_nil_r. split; [exact Hcb2 | discriminate].
      * eexists _, _, _. split; [reflexivity|]. right.
        exists cb, fl, Xs, e. rewrite Hds' in *.
        split; [reflexivity|]. split; [exact Hcb2|].
        split; [reflexivity|].
        destruct Hres as (o1 & x0 & d & Hc & Hr).
        exists o1, x0, d. split; [|exact Hr].
        rewrite Hc. subst s00. cbn [obj].
        destruct (DynamicCtoP (cfg o4)); exact Hcor.
Qed.

End InvalidCorrector.

End Corrector.

(** [NonlinearSolverOMP.nsolve] with [max_steps > 0] evaluates the
    function at the starting point before anything else. *)
Lemma nsolve_evaluates_first (qsqrt : Q -> Q) (factored : Type)
    (lin_factor : mat -> factored)
    (lin_factored_solve : factored -> vec -> vec) (c : Solvers.config)
    (f : Solvers.resfun) (x : vec) (t : option fnum) (e : exn) :
  (0 < Solvers.max_steps c)%nat ->
  f x true = Raise e ->
  Solvers.nsolve qsqrt lin_factor lin_factored_solve c f x t = Raise e.
Proof.
  intros Hpos Hf. unfold Solvers.nsolve.
  destruct (Solvers.max_steps c) as [|n]; [lia|].
  cbn [Solvers.loop]. unfold Solvers.body.
  cbn [Solvers.bfgs_ind Solvers.init_state Nat.eqb].
  unfold Solvers.newton_step. cbn [Solvers.X Solvers.init_state].
  rewrite Hf. reflexivity.
Qed.


(** C5, refuted as stated: down the line [x = 10 - 8 lam] from
    [x = 10], with the floor of ones, the first step is conditioned by
    [[10, 1]] and the second by [[9.6466..., 1]]: the entry of [x] has
    decreased. *)
Lemma dynamic_CtoP_decreases :
  stored_CtoP (trace falling_run)
  = [[Fin 10; Fin 1]; [Fin (4367690 # 452769); Fin 1]]
  /\ flt (Fin (4367690 # 452769)) (Fin 10) = true.
Proof. vm_compute. split; reflexivity. Qed.

(** The two steps of [falling_run], from the initial point
    [[10, 0]]: each is conditioned by the point stored before it,
    floored by ones. *)
Lemma dynamic_CtoP_is_floored_witness :
  DynamicCtoP (cfg falling_object) = true
  /\ conditioned_by_last [Fin 1; Fin 1] [Fin 10; Fin 0]
       (stored_rows
          (trace (continuation ascii_upper qsqrt_approx omp_nsolve
                    lin_solve2 conditioning_wrapper falling_store 10
                    falling_object falling_line [Fin 10; Fin 0] (Fin 0)
                    (Fin 1) false))).
Proof.
  split; [reflexivity|].
  pose proof (dynamic_CtoP_is_floored ascii_upper qsqrt_approx omp_nsolve
                lin_solve2 conditioning_wrapper falling_store 10
                falling_object falling_line [Fin 10; Fin 0] (Fin 0) (Fin 1)
                false eq_refl) as [H _].
  vm_compute in H. vm_compute. exact H.
Defined.


(** C8, refuted as stated: with [corrector='invalid'] the run solves the
    initial point, successfully, then starts the first corrector solve,
    and that solve raises the error; and the same run limited to one
    row ([MaxSteps = 1]) solves the initial point and returns it,
    without any error. *)
Lemma invalid_corrector_raises_after_initial_solve :
  outcome invalid_corrector_run
  = Raise (AssertionError "Invalid corrector type: INVALID")
  /\ trace invalid_corrector_run
     = [SolveInitial [Fin 10] (Some true);
        SolveCorrector 0 (Fin (1 # 2)) (Fin (1 # 25))
          [Fin (4367690 # 452769); Fin (20000 # 452769)] None]
  /\ existsb is_solve (trace invalid_corrector_run) = true
  /\ trace invalid_corrector_short_run = [SolveInitial [Fin 10] (Some true)]
  /\ (exists o', outcome invalid_corrector_short_run
                 = Ok ([[Fin 10; Fin 0]], o')).
Proof.
  vm_compute. repeat split. eexists. reflexivity.
Qed.

(** The theorem for the object and the run with [corrector='invalid']:
    the corrector residual raises the assertion error, and the run
    raises in its first corrector solve. *)
Lemma invalid_corrector_is_rejected_by_correct_res_witness :
  correct_res ascii_upper qsqrt_approx invalid_corrector_object falling_line
    [Fin 10; Fin 0] [Fin 10; Fin 0] (Fin (1 # 25)) (Some [Fin 0; Fin 1]) true
  = Raise (AssertionError "Invalid corrector type: INVALID")
  /\ exists start res rest,
       trace (continuation ascii_upper qsqrt_approx omp_nsolve lin_solve2
                conditioning_wrapper ∅ 10 invalid_corrector_object
                falling_line [Fin 10; Fin 0] (Fin 0) (Fin 1) false)
       = SolveInitial start res :: rest.
Proof.
  destruct (invalid_corrector_is_rejected_by_correct_res ascii_upper
              qsqrt_approx omp_nsolve lin_solve2 conditioning_wrapper ∅
              (fun f x t e =>
                 nsolve_evaluates_first qsqrt_approx mat (fun A => A)
                   lin_solve2 newton_config f x t e ltac:(cbn; lia))
              falling_line invalid_corrector_object)
    as (_ & H & Hrun).
  - vm_compute. discriminate.
  - vm_compute. discriminate.
  - split.
    + eapply H; [reflexivity | discriminate].
    + destruct (Hrun 10%nat [Fin 10; Fin 0] (Fin 0) (Fin 1))
        as (start & res & rest & Htr & _).
      exists start, res, rest. exact Htr.
Defined.

End ContinuationFacts.

(** * More on the scalars and the force elements *)

Section NumOrder.
Import Num.

Lemma flt_Fin (p q : Q) : flt (Fin p) (Fin q) = true <-> (p < q)%Q.
Proof.
  cbn. unfold Qlt_bool. rewrite negb_true_iff.
  split.
  - intros H. apply Qnot_le_lt. intros Hle. apply Qle_bool_iff in Hle. congruence.
  - intros H. destruct (Qle_bool q p) eqn:E; [|reflexivity].
    apply Qle_bool_iff in E. exfalso. apply (Qlt_not_le _ _ H E).
Qed.

Lemma flt_Fin_false (p q : Q) : flt (Fin p) (Fin q) = false <-> (q <= p)%Q.
Proof.
  cbn. unfold Qlt_bool. rewrite negb_false_iff. apply Qle_bool_iff.
Qed.

Lemma fle_Fin (p q : Q) : fle (Fin p) (Fin q) = true <-> (p <= q)%Q.
Proof.
  unfold fle. cbn [isnan negb andb]. rewrite negb_true_iff. apply flt_Fin_false.
Qed.

(** [np.maximum(np.minimum(f, Fs), -Fs)] lies between [-Fs] and [Fs]
    unless it is NaN. *)
Lemma clamp_within (Fs f : fnum) :
  fle (Fin 0) Fs = true ->
  let x := fmaximum (fminimum f Fs) (fneg Fs) in
  isnan x = true \/ (fle (fneg Fs) x = true /\ fle x Fs = true).
Proof.
  intros HFs x. subst x.
  destruct Fs as [s| | |]; try discriminate.
  - apply fle_Fin in HFs.
    assert (Hneg : (- s <= s)%Q).
    { apply (Qle_trans _ 0); [|exact HFs].
      apply (Qopp_le_compat 0 s) in HFs. exact HFs. }
    unfold fminimum, fmaximum.
    destruct f as [q| | |]; cbn [isnan orb fneg]; [| | |left; reflexivity].
    + destruct (flt (Fin s) (Fin q)) eqn:E1; cbn [isnan orb].
      * destruct (flt (Fin s) (Fin (- s))) eqn:E2.
        { apply flt_Fin in E2. exfalso. apply (Qlt_not_le _ _ E2 Hneg). }
        right. split; apply fle_Fin; [exact Hneg | apply Qle_refl].
      * destruct (flt (Fin q) (Fin (- s))) eqn:E2.
        { right. split; apply fle_Fin; [apply Qle_refl | exact Hneg]. }
        right. split; apply fle_Fin.
        -- apply flt_Fin_false in E2. exact E2.
        -- apply flt_Fin_false in E1. exact E1.
    + change (flt (Fin s) PInf) with true. cbn iota. cbn [isnan orb].
      destruct (flt (Fin s) (Fin (- s))) eqn:E2.
      { apply flt_Fin in E2. exfalso. apply (Qlt_not_le _ _ E2 Hneg). }
      right. split; apply fle_Fin; [exact Hneg | apply Qle_refl].
    + change (flt (Fin s) NInf) with false. cbn iota. cbn [isnan orb].
      change (flt NInf (Fin (- s))) with true. cbn iota.
      right. split; apply fle_Fin; [apply Qle_refl | exact Hneg].
  - destruct f as [q| | |]; cbn; auto.
Qed.
End NumOrder.

Section JenkinsLoop.
Import Num Forces.

Lemma length_tabulate {A} (n : nat) (f : nat -> A) :
  length (tabulate n f) = n.
Proof. unfold tabulate. now rewrite length_map, length_seq. Qed.

Lemma nth_tabulate {A} (n i : nat) (f : nat -> A) (d : A) :
  (i < n)%nat -> nth i (tabulate n f) d = f i.
Proof.
  intros Hi. unfold tabulate.
  rewrite (nth_indep _ d (f 0%nat)) by (now rewrite length_map, length_seq).
  rewrite (map_nth f (seq 0 n) 0%nat i), seq_nth by exact Hi. reflexivity.
Qed.

Lemma length_set_row (m : mat) (i : nat) (v : vec) :
  length (set_row m i v) = length m.
Proof. apply length_tabulate. Qed.

Lemma row_set_row (m : mat) (i k : nat) (v : vec) :
  (k < length m)%nat ->
  row (set_row m i v) k = if Nat.eqb k i then v else row m k.
Proof. intros Hk. unfold row at 1, set_row. now rewrite nth_tabulate. Qed.

Lemma fori_loop_S {A} (n : nat) (body : nat -> A -> A) (init : A) :
  fori_loop (S n) body init = body n (fori_loop n body init).
Proof. unfold fori_loop. rewrite seq_S, fold_left_app. reflexivity. Qed.

Lemma loop_body_length ind ft unlt kt Fs :
  length (Jenkins._local_jenkins_loop_body ind ft unlt kt Fs) = length ft.
Proof. apply length_set_row. Qed.

Lemma loop_body_within ind ft unlt kt Fs :
  fle (Fin 0) Fs = true -> (ind < length ft)%nat ->
  Forall (Jenkins.within_slip_limit Fs)
         (row (Jenkins._local_jenkins_loop_body ind ft unlt kt Fs) ind).
Proof.
  intros HFs Hind. unfold Jenkins._local_jenkins_loop_body.
  rewrite row_set_row, Nat.eqb_refl by exact Hind.
  rewrite map_map. apply Forall_map, Forall_forall. intros f _.
  apply (clamp_within Fs f HFs).
Qed.

Lemma loop_body_other ind ft unlt kt Fs k :
  k <> ind -> (k < length ft)%nat ->
  row (Jenkins._local_jenkins_loop_body ind ft unlt kt Fs) k = row ft k.
Proof.
  intros Hne Hk. unfold Jenkins._local_jenkins_loop_body.
  rewrite row_set_row by exact Hk.
  replace (Nat.eqb k ind) with false
    by (symmetry; apply Nat.eqb_neq; exact Hne).
  reflexivity.
Qed.

Lemma one_pass_within Nt unlt kt Fs :
  fle (Fin 0) Fs = true ->
  forall ft, (Nt <= length ft)%nat ->
    let ft' := fori_loop Nt
                 (fun i f => Jenkins._local_jenkins_loop_body i f unlt kt Fs)
                 ft in
    length ft' = length ft
    /\ forall i, (i < Nt)%nat ->
         Forall (Jenkins.within_slip_limit Fs) (row ft' i).
Proof.
  intros HFs ft. induction Nt as [|n IH]; intros Hlen ft'; subst ft'.
  - split; [reflexivity | intros i Hi; lia].
  - rewrite fori_loop_S.
    destruct (IH ltac:(lia)) as [Hl Hrows].
    split; [rewrite loop_body_length; exact Hl|].
    intros i Hi. destruct (Nat.eq_dec i n) as [-> | Hne].
    + apply loop_body_within; [exact HFs | rewrite Hl; lia].
    + rewrite loop_body_other by (try exact Hne; rewrite Hl; lia).
      apply Hrows. lia.
Qed.

(** X1. After one or more passes through the hysteresis loop every
    force sample of the [Nt] time steps lies between [-Fs] and [Fs], or
    is NaN, whatever the displacements, the stiffness and the forces
    the loop starts from, for a slip force that is not negative. *)
Theorem jenkins_forces_within_slip_limit (passes Nt : nat) (unlt ft : mat)
    (kt Fs : fnum) (i : nat) :
  fle (Fin 0) Fs = true -> (0 < passes)%nat ->
  (Nt <= length ft)%nat -> (i < Nt)%nat ->
  Forall (Jenkins.within_slip_limit Fs)
         (row (Jenkins.hysteresis_loops passes Nt unlt kt Fs ft) i).
Proof.
  intros HFs Hp HNt Hi. unfold Jenkins.hysteresis_loops.
  destruct passes as [|p]; [lia|]. rewrite fori_loop_S.
  set (ft1 := fori_loop p _ ft).
  assert (Hl : length ft1 = length ft).
  { subst ft1. clear Hp. induction p as [|p IH]; [reflexivity|].
    rewrite fori_loop_S.
    rewrite (proj1 (one_pass_within Nt unlt kt Fs HFs _ ltac:(rewrite IH; exact HNt))).
    exact IH. }
  apply (one_pass_within Nt unlt kt Fs HFs ft1); [rewrite Hl; exact HNt | exact Hi].
Qed.
End JenkinsLoop.

Section ForceMore.
Import Num Forces Examples.

Lemma history_only_read_only {A}
    (m : method RoughContact.RoughContactFriction A) :
  read_only m -> RoughContact.history_only m.
Proof. intros Hm s. left. apply Hm. Qed.

Lemma history_only_bind {A B}
    (m : method RoughContact.RoughContactFriction A)
    (k : A -> method RoughContact.RoughContactFriction B) :
  RoughContact.history_only m -> (forall a, RoughContact.history_only (k a)) -> RoughContact.history_only (m ≫= k).
Proof.
  intros Hm Hk s. unfold mbind, method_bind.
  specialize (Hm s). destruct (m s) as [[a | e] s']; cbn [snd] in Hm.
  - destruct Hm as [-> | (a1 & b1 & c1 & d1 & ->)]; [apply Hk|].
    destruct (Hk a (RoughContact.with_history a1 b1 c1 d1 s))
      as [-> | (a2 & b2 & c2 & d2 & ->)]; right.
    + eexists _, _, _, _. reflexivity.
    + eexists _, _, _, _. reflexivity.
  - cbn [snd]. destruct Hm as [-> | (a1 & b1 & c1 & d1 & ->)];
      [left; reflexivity | right; eexists _, _, _, _; reflexivity].
Qed.

Lemma history_only_assign a b c d :
  RoughContact.history_only (assign (RoughContact.with_history a b c d)).
Proof. intros s. right. eexists _, _, _, _. reflexivity. Qed.

Ltac history_step :=
  first
    [ apply history_only_assign
    | apply history_only_read_only;
      first [apply read_only_ret | apply read_only_attr | apply read_only_call]
    | apply history_only_bind; [| intros ?]
    | match goal with
      | |- RoughContact.history_only (match ?x with _ => _ end) => destruct x
      end ].

Lemma update_history_history_only uxyn Fm fxy :
  RoughContact.history_only (RoughContact.update_history uxyn Fm fxy).
Proof. unfold RoughContact.update_history. repeat history_step. Qed.

Lemma init_history_history_only : RoughContact.history_only RoughContact.init_history.
Proof. unfold RoughContact.init_history. repeat history_step. Qed.

Section Kernel.
Context `{Kernels}.

Lemma force_history_only X update_hist return_aux :
  RoughContact.history_only (RoughContact.force X update_hist return_aux).
Proof.
  unfold RoughContact.force.
  repeat first [ apply update_history_history_only | history_step ].
Qed.

(** X3. What [aft] of the rough contact element returns does not depend
    on the stored history: after [update_history], after [init_history]
    and after a call of [force] that commits its state, [aft] returns
    what it returns before. *)
Theorem aft_after_history_commit U w h Nt tol max_repeats return_local
    calc_grad (e : RoughContact.RoughContactFriction) :
  let aft_of e' :=
    fst (RoughContact.aft U w h Nt tol max_repeats return_local calc_grad e') in
  (forall uxyn Fm_curr fxy_curr,
     aft_of (snd (RoughContact.update_history uxyn Fm_curr fxy_curr e))
     = aft_of e)
  /\ aft_of (snd (RoughContact.init_history e)) = aft_of e
  /\ (forall X return_aux,
        aft_of (snd (RoughContact.force X true return_aux e)) = aft_of e).
Proof.
  intros aft_of.
  assert (Hany : forall A (m : method RoughContact.RoughContactFriction A),
            RoughContact.history_only m -> aft_of (snd (m e)) = aft_of e).
  { intros A m Hm. destruct (Hm e) as [-> | (a & b & c & d & ->)];
      [reflexivity | apply aft_ignores_history]. }
  split; [|split].
  - intros. apply Hany, update_history_history_only.
  - apply Hany, init_history_history_only.
  - intros. apply Hany, force_history_only.
Qed.

(** X4. [force] without [update_hist] leaves the element as it is.
    With [update_hist] it returns the same result, for an element whose
    [Q] has a row, and when it returns it has stored the local
    displacements [Q @ X] in [uxyn0] and replaced [unmax] by the
    maximum of [unmax] and the normal displacement. *)
Theorem force_update_hist_flag X return_aux
    (e : RoughContact.RoughContactFriction) :
  snd (RoughContact.force X false return_aux e) = e
  /\ (RoughContact.Q e <> [] ->
      fst (RoughContact.force X true return_aux e)
      = fst (RoughContact.force X false return_aux e))
  /\ (forall r, fst (RoughContact.force X true return_aux e) = Ok r ->
      exists uxyn un,
        matvec (RoughContact.Q e) X = Ok uxyn
        /\ last_item uxyn = Ok un
        /\ RoughContact.uxyn0 (snd (RoughContact.force X true return_aux e))
           = uxyn
        /\ RoughContact.unmax (snd (RoughContact.force X true return_aux e))
           = fmaximum un (RoughContact.unmax e)).
Proof.
  split; [apply force_read_only|].
  unfold RoughContact.force, mbind, method_bind, attr, call, mret, method_ret.
  cbn [fst snd].
  destruct (matvec (RoughContact.Q e) X) as [uxyn | err] eqn:Hmv.
  2:{ split; [reflexivity | intros r Hr; discriminate]. }
  destruct (RoughContact._static_force_grad _ _ _ _ _ _ _ _ _ _ _ _ _ _ _ _ _)
    as [[[J fnl] [[[[[f1 Fm] fxy] db] Rb] a]] | err]; cbn [fst snd].
  2:{ split; [reflexivity | intros r Hr; discriminate]. }
  destruct (matvec (RoughContact.T e) fnl) as [F | err]; cbn [fst snd].
  2:{ split; [reflexivity | intros r Hr; discriminate]. }
  destruct (matmul (RoughContact.T e) J) as [Td | err]; cbn [fst snd].
  2:{ split; [reflexivity | intros r Hr; discriminate]. }
  destruct (matmul Td (RoughContact.Q e)) as [dFdX | err]; cbn [fst snd].
  2:{ split; [reflexivity | intros r Hr; discriminate]. }
  unfold RoughContact.update_history, mbind, method_bind, attr, call, assign.
  destruct (last_item uxyn) as [un | err] eqn:Hlast; cbn [fst snd].
  - split.
    + intros _. destruct return_aux; reflexivity.
    + intros r Hr. exists uxyn, un.
      split; [first [exact Hmv | reflexivity]|].
      split; [first [exact Hlast | reflexivity]|].
      split; destruct return_aux; reflexivity.
  - split.
    + intros HQ. exfalso. unfold matvec in Hmv.
      destruct (Nat.eqb _ _); [|discriminate]. injection Hmv as <-.
      unfold last_item in Hlast. destruct (RoughContact.Q e); [congruence|].
      discriminate.
    + intros r Hr. discriminate.
Qed.

End Kernel.
End ForceMore.

Section ZerothOnly.
Import Num Forces Examples.

Lemma reshape_one_short (U : vec) (w : fnum) (c : nat) :
  jnp_reshape_F (removelast (U ++ [w])%list) (length (U ++ [w])%list / 1) 1
  = Raise TypeError.
Proof.
  unfold jnp_reshape_F. rewrite removelast_last, Nat.div_1_r, length_app.
  cbn [length]. replace (Nat.eqb _ _) with false; [reflexivity|].
  symmetry. apply Nat.eqb_neq. lia.
Qed.

Section Kernel.
Context `{Kernels}.

(** X5. With the zeroth harmonic alone, [h = [0]], the local functions
    of both elements raise: [Nhc] is 1, so
    [Ndnl = int(Uwlocal.shape[0] / Nhc)] counts the frequency entry as
    well, and [Uwlocal[:-1]] cannot be reshaped to [(Ndnl, Nhc)]. So
    [aft] of the rough contact element without gradient never returns,
    and neither does [aft] with gradient, of either element, when
    [jacfwd] passes on the exceptions of the function it
    differentiates. *)
Theorem aft_fails_with_zeroth_harmonic_alone :
  (forall pars u0 Nt u0h0 U w,
     Jenkins._local_aft_jenkins pars u0 [0%nat] Nt u0h0 (U ++ [w])%list
     = Raise TypeError)
  /\ (forall unlth0 mu meso_gap gaps gap_weights Re Possion Estar Emod Etan
             delta_y Sys Gstar Nt repeats tangent_model U w,
        RoughContact._local_aft unlth0 mu meso_gap gaps gap_weights Re
          Possion Estar Emod Etan delta_y Sys Gstar [0%nat] Nt repeats
          tangent_model (U ++ [w])%list
        = Raise TypeError)
  /\ (forall U w Nt tol max_repeats return_local e,
        is_ok (fst (RoughContact.aft U w [0%nat] Nt tol max_repeats
                      return_local false e)) = false)
  /\ ((forall Aux (f : vec -> result (vec * Aux)) x err,
          f x = Raise err -> jacfwd f x = Raise err) ->
      (forall U w Nt tol e,
          is_ok (fst (Jenkins.aft U w [0%nat] Nt tol e)) = false)
      /\ (forall U w Nt tol max_repeats return_local e,
            is_ok (fst (RoughContact.aft U w [0%nat] Nt tol max_repeats
                          return_local true e)) = false)).
Proof.
  assert (HJ : forall pars u0 Nt u0h0 U w,
     Jenkins._local_aft_jenkins pars u0 [0%nat] Nt u0h0 (U ++ [w])%list
     = Raise TypeError).
  { intros. unfold Jenkins._local_aft_jenkins.
    change (Harmonic.Nhc [0%nat]) with (Ok 1%nat).
    cbn [mbind result_bind int_div Nat.eqb].
    rewrite (reshape_one_short U w 0). reflexivity. }
  assert (HR : forall unlth0 mu meso_gap gaps gap_weights Re Possion Estar
             Emod Etan delta_y Sys Gstar Nt repeats tangent_model U w,
        RoughContact._local_aft unlth0 mu meso_gap gaps gap_weights Re
          Possion Estar Emod Etan delta_y Sys Gstar [0%nat] Nt repeats
          tangent_model (U ++ [w])%list
        = Raise TypeError).
  { intros. unfold RoughContact._local_aft.
    change (Harmonic.Nhc [0%nat]) with (Ok 1%nat).
    cbn [mbind result_bind int_div Nat.eqb].
    rewrite (reshape_one_short U w 0). reflexivity. }
  split; [exact HJ|]. split; [exact HR|]. split.
  - intros. unfold RoughContact.aft, mbind, method_bind, attr, call.
    cbn [fst snd].
    unfold to_local. 
    destruct (reshape_F U _ _) as [Uc|]; [|reflexivity].
    cbn [mbind result_bind].
    destruct (matmul _ Uc) as [QU|]; [|reflexivity].
    cbn [mbind result_bind].
    destruct (flatten_F _ _) as [flat|]; [|reflexivity].
    cbn [mbind result_bind fst snd].
    rewrite HR. reflexivity.
  - intros Hjac. split.
    + intros. unfold Jenkins.aft, mbind, method_bind, attr, call.
      cbn [fst snd].
      unfold to_local. 
      destruct (reshape_F U _ _) as [Uc|]; [|reflexivity].
      cbn [mbind result_bind].
      destruct (matmul _ Uc) as [QU|]; [|reflexivity].
      cbn [mbind result_bind].
      destruct (flatten_F _ _) as [flat|]; [|reflexivity].
      cbn [mbind result_bind fst snd].
      unfold Jenkins._local_aft_jenkins_grad.
      destruct (Jenkins.u0 e); cbn [fst snd];
        rewrite (Hjac _ _ _ _ (HJ _ _ _ _ _ _)); reflexivity.
    + intros. unfold RoughContact.aft, mbind, method_bind, attr, call.
      cbn [fst snd].
      unfold to_local. 
      destruct (reshape_F U _ _) as [Uc|]; [|reflexivity].
      cbn [mbind result_bind].
      destruct (matmul _ Uc) as [QU|]; [|reflexivity].
      cbn [mbind result_bind].
      destruct (flatten_F _ _) as [flat|]; [|reflexivity].
      cbn [mbind result_bind fst snd].
      unfold RoughContact._local_aft_grad.
      rewrite (Hjac _ _ _ _ (HR _ _ _ _ _ _ _ _ _ _ _ _ _ _ _ _ _ _)).
      reflexivity.
Qed.
End Kernel.

Lemma aft_fails_with_zeroth_harmonic_alone_witness :
  is_ok (fst (Jenkins.aft (H := spring_kernels) [Fin 1; Fin 2] (Fin 1)
                [0%nat] 4 (Fin 0) ex_jenkins)) = false.
Proof.
  apply (proj1 (proj2 (proj2 (proj2
           (aft_fails_with_zeroth_harmonic_alone (H := spring_kernels))))
           ltac:(intros Aux f x err Hf; cbn; unfold difference_jacobian;
                 rewrite Hf; reflexivity))).
Defined.
End ZerothOnly.

Section Prestress.
Import Num Forces Examples.

(** X6. Switching the friction off for a prestress analysis and on again
    gives back the element: [reset_real_mu] after [set_prestress_mu]
    restores the object that [__init__] built (Jenkins), and any rough
    contact element whose [mu] is its [real_mu]; in between the slip
    force, respectively the friction coefficient, is the prestress
    value. *)
Theorem prestress_round_trip :
  (forall Q T kt Fs u0,
     let e := Jenkins.__init__ Q T kt Fs u0 in
     Jenkins.Fs (snd (Jenkins.set_prestress_mu e)) = Fin 0
     /\ snd (Jenkins.reset_real_mu (snd (Jenkins.set_prestress_mu e))) = e)
  /\ (forall e : RoughContact.RoughContactFriction,
        RoughContact.mu (snd (RoughContact.set_prestress_mu e))
        = RoughContact.prestress_mu e
        /\ snd (RoughContact.reset_real_mu
                  (snd (RoughContact.set_prestress_mu e)))
           = RoughContact.with_mu (RoughContact.real_mu e) e
        /\ (RoughContact.mu e = RoughContact.real_mu e ->
            snd (RoughContact.reset_real_mu
                   (snd (RoughContact.set_prestress_mu e))) = e)).
Proof.
  split.
  - intros. split; reflexivity.
  - intros e. split; [reflexivity|]. split; [reflexivity|].
    intros Hmu. destruct e. cbn in *. subst. reflexivity.
Qed.

Lemma prestress_round_trip_witness :
  snd (RoughContact.reset_real_mu
         (snd (RoughContact.set_prestress_mu ex_contact))) = ex_contact.
Proof.
  apply (proj2 (proj2 (proj2 prestress_round_trip ex_contact))).
  reflexivity.
Defined.

Lemma jenkins_forces_within_slip_limit_witness :
  Forall (Jenkins.within_slip_limit (Fin 1))
    (row (Jenkins.hysteresis_loops 2 4
            [[Fin 3]; [Fin 0]; [Fin (-3)]; [Fin 0]] (Fin 2) (Fin 1)
            [[Fin 0]; [Fin 0]; [Fin 0]; [Fin 0]]) 1).
Proof.
  apply jenkins_forces_within_slip_limit;
    [reflexivity | lia | cbn; lia | lia].
Defined.

Lemma force_update_hist_flag_witness :
  fst (RoughContact.force (H := spring_kernels) [Fin 1; Fin 0; Fin 2] true
         false ex_contact)
  = fst (RoughContact.force (H := spring_kernels) [Fin 1; Fin 0; Fin 2]
           false false ex_contact).
Proof.
  apply (proj1 (proj2 (force_update_hist_flag (H := spring_kernels)
                         [Fin 1; Fin 0; Fin 2] false ex_contact))).
  discriminate.
Defined.
End Prestress.

(** * The hysteresis loop of the Jenkins element *)

Ltac split_med :=
  unfold SliderAnalysis.med;
  repeat match goal with
         | |- context [Qlt_le_dec ?p ?q] =>
             lazymatch p with
             | context [Qlt_le_dec _ _] => fail
             | _ => lazymatch q with
                    | context [Qlt_le_dec _ _] => fail
                    | _ => destruct (Qlt_le_dec p q)
                    end
             end
         end.

Section SliderAlgebra.
Import Num SliderAnalysis.
Local Open Scope Q_scope.

Lemma med_compose (F a b y d : Q) :
  0 <= F -> a <= b -> - F <= a -> b <= F ->
  med (- F) (d + med a y b) F
  == med (med (- F) (d + a) F) (y + d) (med (- F) (d + b) F)
  /\ med (- F) (d + a) F <= med (- F) (d + b) F
  /\ - F <= med (- F) (d + a) F
  /\ med (- F) (d + b) F <= F.
Proof.
  intros HF Hab Ha Hb. split_med; (split; [|split; [|split]]); Lqa.lra.
Qed.

Lemma med_idem (a b y : Q) : a <= b -> med a (med a y b) b == med a y b.
Proof.
  intros Hab. split_med; Lqa.lra.
Qed.

Lemma med_compat (a b y y' : Q) : y == y' -> med a y b == med a y' b.
Proof.
  intros Hy. split_med; Lqa.lra.
Qed.
End SliderAlgebra.

Section SliderScalars.
Import Num SliderAnalysis.
Local Open Scope Q_scope.

Lemma slide_Fin (k F u up x : Q) :
  exists r,
    slide (Fin k) (Fin F) (Fin u) (Fin up) (Fin x) = Fin r
    /\ r == med (- F) (k * (u - up) + x) F.
Proof.
  unfold slide, fsub, fneg, fmul, fadd, fminimum, fmaximum.
  cbn [isnan orb].
  set (y := Qred (Qred (k * Qred (u + - up)) + x)).
  assert (Hy : y == k * (u - up) + x).
  { unfold y. rewrite !Qred_correct. Lqa.lra. }
  destruct (flt (Fin F) (Fin y)) eqn:E1; cbn [isnan orb].
  - apply flt_Fin in E1.
    destruct (flt (Fin F) (Fin (- F))) eqn:E2;
      [apply flt_Fin in E2 | apply flt_Fin_false in E2];
      eexists; (split; [reflexivity|]); split_med; Lqa.lra.
  - apply flt_Fin_false in E1.
    destruct (flt (Fin y) (Fin (- F))) eqn:E2;
      [apply flt_Fin in E2 | apply flt_Fin_false in E2];
      eexists; (split; [reflexivity|]); split_med; Lqa.lra.
Qed.

Lemma finite_Fin (a : fnum) : finite a = true -> a = Fin (qval a).
Proof. destruct a; try discriminate. reflexivity. Qed.

(** Two forces of one value give one force. *)
Lemma slide_compat (kt Fs u up x x' : fnum) :
  finite x = true -> finite x' = true -> qval x == qval x' ->
  slide kt Fs u up x = slide kt Fs u up x'.
Proof.
  intros Hx Hx' Hq. rewrite (finite_Fin x Hx), (finite_Fin x' Hx').
  cbn [qval] in Hq. unfold slide. f_equal. f_equal.
  destruct (fmul kt (fsub u up)) as [p| | |]; try reflexivity.
  cbn [fadd]. f_equal. apply Qred_complete. rewrite Hq. reflexivity.
Qed.
End SliderScalars.

Section SliderCycle.
Import Num SliderAnalysis.
Local Open Scope Q_scope.

Variables (k F : Q) (N : nat) (U : nat -> fnum).
Hypothesis HF : 0 <= F.
Hypothesis HU : forall i, finite (U i) = true.
Hypothesis HN : (0 < N)%nat.

Lemma before_finite (i : nat) : finite (before N U i) = true.
Proof. destruct i; apply HU. Qed.

Lemma run_step (n : nat) (x : fnum) :
  finite (run (Fin k) (Fin F) N U n x) = true ->
  exists r,
    run (Fin k) (Fin F) N U (S n) x = Fin r
    /\ r == med (- F)
              (k * (qval (U n) - qval (before N U n))
               + qval (run (Fin k) (Fin F) N U n x)) F.
Proof.
  intros Hfin. cbn [run].
  rewrite (finite_Fin _ (HU n)), (finite_Fin _ (before_finite n)),
    (finite_Fin _ Hfin).
  apply slide_Fin.
Qed.

(** After [n >= 1] samples the force is the force at entry, shifted by
    [kt] times the displacement since the last sample of the cycle
    before, and held between two bounds that do not depend on it. *)
Lemma run_form (n : nat) :
  (S n <= N)%nat ->
  exists a b,
    - F <= a /\ a <= b /\ b <= F
    /\ forall x, finite x = true ->
         finite (run (Fin k) (Fin F) N U (S n) x) = true
         /\ qval (run (Fin k) (Fin F) N U (S n) x)
            == med a (qval x + k * (qval (U n) - qval (U (N - 1)%nat))) b.
Proof.
  induction n as [|n IH]; intros Hn.
  - exists (- F), F. repeat split; try Lqa.lra.
    + destruct (run_step 0 x H) as (r & -> & _). reflexivity.
    + destruct (run_step 0 x H) as (r & -> & Hr). cbn [qval run before] in *.
      rewrite Hr. apply med_compat. Lqa.lra.
  - destruct (IH ltac:(lia)) as (a & b & Ha & Hab & Hb & Hrun).
    set (d := k * (qval (U (S n)) - qval (U n))).
    destruct (med_compose F a b 0 d HF Hab Ha Hb) as (_ & Hab' & Ha' & Hb').
    exists (med (- F) (d + a) F), (med (- F) (d + b) F).
    split; [exact Ha'|]. split; [exact Hab'|]. split; [exact Hb'|].
    intros x Hx. destruct (Hrun x Hx) as [Hfin Hval].
    destruct (run_step (S n) x Hfin) as (r & Hr & Hrv).
    rewrite Hr. split; [reflexivity|]. cbn [qval]. rewrite Hrv.
    cbn [before]. fold d.
    transitivity (med (- F)
                    (d + med a (qval x + k * (qval (U n) - qval (U (N - 1)%nat))) b) F).
    { apply med_compat. rewrite Hval. reflexivity. }
    rewrite (proj1 (med_compose F a b _ d HF Hab Ha Hb)).
    apply med_compat. unfold d. Lqa.lra.
Qed.

(** A second cycle ends where the first one did. *)
Lemma run_cycle_idem (x : fnum) :
  finite x = true ->
  finite (run (Fin k) (Fin F) N U N x) = true
  /\ finite (run (Fin k) (Fin F) N U N (run (Fin k) (Fin F) N U N x)) = true
  /\ qval (run (Fin k) (Fin F) N U N (run (Fin k) (Fin F) N U N x))
     == qval (run (Fin k) (Fin F) N U N x).
Proof.
  intros Hx.
  destruct (run_form (N - 1) ltac:(lia)) as (a & b & Ha & Hab & Hb & Hrun).
  replace (S (N - 1)) with N in Hrun by lia.
  set (n := (N - 1)%nat) in *.
  destruct (Hrun x Hx) as [Hf1 Hv1].
  destruct (Hrun _ Hf1) as [Hf2 Hv2].
  split; [exact Hf1|]. split; [exact Hf2|].
  rewrite Hv2.
  transitivity (med a (med a (qval x) b) b).
  { apply med_compat. rewrite Hv1.
    assert (Hm : med a (qval x + k * (qval (U n) - qval (U n))) b
                 == med a (qval x) b)
      by (apply med_compat; Lqa.lra).
    rewrite Hm. Lqa.lra. }
  rewrite (med_idem a b (qval x) Hab). rewrite Hv1.
  apply med_compat. Lqa.lra.
Qed.
End SliderCycle.

Section SliderMatrix.
Import Num Forces SliderAnalysis.

Lemma nth_vzip (f : fnum -> fnum -> fnum) (u v : vec) (c : nat) (d : fnum) :
  (c < length u)%nat -> length u = length v ->
  nth c (vzip f u v) d = f (nth c u (Fin 0)) (nth c v (Fin 0)).
Proof.
  intros Hc Hlen. unfold vzip.
  rewrite (nth_indep _ d ((fun p => f (fst p) (snd p)) (Fin 0, Fin 0)))
    by (rewrite length_map, length_combine; lia).
  rewrite (map_nth (fun p => f (fst p) (snd p))), combine_nth by exact Hlen.
  reflexivity.
Qed.

Lemma length_vzip (f : fnum -> fnum -> fnum) (u v : vec) :
  length u = length v -> length (vzip f u v) = length u.
Proof.
  intros Hlen. unfold vzip. rewrite length_map, length_combine. lia.
Qed.

Lemma nth_map_fnum (g : fnum -> fnum) (u : vec) (c : nat) (d : fnum) :
  (c < length u)%nat -> nth c (map g u) d = g (nth c u (Fin 0)).
Proof.
  intros Hc. rewrite (nth_indep _ d (g (Fin 0))) by (now rewrite length_map).
  apply map_nth.
Qed.

Section OneLoop.
Variables (kt Fs : fnum) (unlt : mat) (C N : nat).
Hypothesis Hrect : finite_rows C unlt.
Hypothesis HlenU : length unlt = N.
Hypothesis HN : (0 < N)%nat.

Lemma unlt_row (i : nat) :
  (i < N)%nat ->
  length (row unlt i) = C /\ Forall (fun a => finite a = true) (row unlt i).
Proof.
  intros Hi. unfold finite_rows in Hrect. rewrite Forall_forall in Hrect.
  apply Hrect. unfold row. apply list_elem_of_In, nth_In. lia.
Qed.

Lemma unlt_row_before (i : nat) :
  (i < N)%nat ->
  length (row_before unlt i) = C
  /\ Forall (fun a => finite a = true) (row_before unlt i).
Proof.
  intros Hi. destruct i; cbn [row_before]; apply unlt_row; lia.
Qed.

Lemma length_new_row (i : nat) (p : vec) :
  (i < N)%nat -> length p = C -> length (new_row kt Fs unlt i p) = C.
Proof.
  intros Hi Hp. unfold new_row, vadd, vsub, vscale.
  destruct (unlt_row i Hi) as [Hl _].
  destruct (unlt_row_before i Hi) as [Hlb _].
  rewrite !length_map, length_vzip; rewrite length_map, length_vzip; lia.
Qed.

Lemma nth_new_row (i c : nat) (p : vec) :
  (i < N)%nat -> (c < C)%nat -> length p = C ->
  nth c (new_row kt Fs unlt i p) (Fin 0)
  = slide kt Fs (column unlt c i) (before N (column unlt c) i)
      (nth c p (Fin 0)).
Proof.
  intros Hi Hc Hp. unfold new_row, vadd, vsub, vscale.
  destruct (unlt_row i Hi) as [Hl _].
  destruct (unlt_row_before i Hi) as [Hlb _].
  assert (Hsub : length (vzip fsub (row unlt i) (row_before unlt i)) = C)
    by (rewrite length_vzip; lia).
  rewrite !nth_map_fnum;
    try (rewrite ?length_map, ?length_vzip; rewrite ?length_map; lia).
  rewrite nth_vzip by (rewrite ?length_map; lia).
  rewrite nth_map_fnum by lia.
  rewrite nth_vzip by lia.
  unfold slide. do 4 f_equal.
  destruct i; cbn [row_before before]; unfold column; rewrite ?HlenU; reflexivity.
Qed.

Lemma body_new_row (i : nat) (f : mat) :
  Jenkins._local_jenkins_loop_body i f unlt kt Fs
  = set_row f i (new_row kt Fs unlt i (row_before f i)).
Proof. reflexivity. Qed.

(** The rows of a pass that has reached sample [n]: each row below [n]
    comes from the row before it, row 0 from the last row of the
    array that the pass was entered with; the rows from [n] on are
    still those of that array. *)
Lemma pass_rows (ft : mat) (n : nat) :
  length ft = N -> (n <= N)%nat ->
  let P := pass n unlt kt Fs ft in
  length P = N
  /\ (forall i, (n <= i)%nat -> row P i = row ft i)
  /\ (forall i, (i < n)%nat ->
        row P i = new_row kt Fs unlt i
                    (match i with
                     | O => row ft (N - 1)
                     | S j => row P j
                     end)).
Proof.
  intros Hft. induction n as [|n IH]; intros Hn P; subst P.
  - split; [exact Hft|]. split; [reflexivity | intros i Hi; lia].
  - unfold pass. rewrite fori_loop_S. fold (pass n unlt kt Fs ft).
    destruct (IH ltac:(lia)) as (Hl & Hhigh & Hlow).
    set (P := pass n unlt kt Fs ft) in *.
    rewrite body_new_row.
    split; [rewrite length_set_row; exact Hl|]. split.
    + intros i Hi. destruct (Nat.lt_ge_cases i N) as [HiN | HiN].
      * rewrite row_set_row by lia.
        replace (Nat.eqb i n) with false
          by (symmetry; apply Nat.eqb_neq; lia).
        apply Hhigh. lia.
      * unfold row. rewrite !nth_overflow; try reflexivity;
          rewrite ?length_set_row; lia.
    + intros i Hi. rewrite row_set_row by lia.
      destruct (Nat.eqb_spec i n) as [-> | Hne].
      * f_equal. destruct n as [|j]; cbn [row_before].
        -- rewrite Hl. apply Hhigh. lia.
        -- rewrite row_set_row by lia.
           replace (Nat.eqb j (S j)) with false
             by (symmetry; apply Nat.eqb_neq; lia).
           reflexivity.
      * rewrite (Hlow i ltac:(lia)). f_equal.
        destruct i as [|j]; [reflexivity|].
        rewrite row_set_row by lia.
        replace (Nat.eqb j n) with false
          by (symmetry; apply Nat.eqb_neq; lia).
        reflexivity.
Qed.

(** A pass is determined by its first row. *)
Lemma pass_determined (A B : mat) :
  length A = N -> length B = N ->
  new_row kt Fs unlt 0 (row A (N - 1)) = new_row kt Fs unlt 0 (row B (N - 1)) ->
  pass N unlt kt Fs A = pass N unlt kt Fs B.
Proof.
  intros HA HB Hfirst.
  destruct (pass_rows A N HA (Nat.le_refl N)) as (HlA & _ & HrA).
  destruct (pass_rows B N HB (Nat.le_refl N)) as (HlB & _ & HrB).
  apply (nth_ext _ _ [] []); [lia|].
  intros i Hi. rewrite HlA in Hi.
  change (row (pass N unlt kt Fs A) i = row (pass N unlt kt Fs B) i).
  induction i as [|j IH].
  - rewrite HrA, HrB by lia. exact Hfirst.
  - rewrite HrA, HrB by lia. f_equal. apply IH. lia.
Qed.

(** Column [c] of row [i] of a pass, from the force at entry. *)
Lemma pass_column (ft : mat) (c : nat) :
  length ft = N -> length (row ft (N - 1)) = C -> (c < C)%nat ->
  forall i, (i < N)%nat ->
    length (row (pass N unlt kt Fs ft) i) = C
    /\ nth c (row (pass N unlt kt Fs ft) i) (Fin 0)
       = run kt Fs N (column unlt c) (S i) (nth c (row ft (N - 1)) (Fin 0)).
Proof.
  intros Hft Hlast Hc.
  destruct (pass_rows ft N Hft (Nat.le_refl N)) as (Hl & _ & Hr).
  induction i as [|j IH]; intros Hi.
  - rewrite Hr by lia. split.
    + apply length_new_row; [lia | exact Hlast].
    + rewrite nth_new_row by (try lia; exact Hlast). reflexivity.
  - destruct (IH ltac:(lia)) as [Hlj Hnj].
    rewrite Hr by lia. split.
    + apply length_new_row; [lia | exact Hlj].
    + rewrite nth_new_row by (try lia; exact Hlj).
      rewrite Hnj. reflexivity.
Qed.

End OneLoop.

(** The lemmas of the loop, with their hypotheses written out. *)
Lemma unlt_row_at unlt C N i :
  finite_rows C unlt -> length unlt = N -> (0 < N)%nat -> (i < N)%nat ->
  length (row unlt i) = C /\ Forall (fun a => finite a = true) (row unlt i).
Proof. intros. eapply unlt_row; eassumption. Qed.

Lemma length_new_row_at kt Fs unlt C N i p :
  finite_rows C unlt -> length unlt = N -> (0 < N)%nat ->
  (i < N)%nat -> length p = C -> length (new_row kt Fs unlt i p) = C.
Proof. intros. eapply length_new_row; eassumption. Qed.

Lemma nth_new_row_at kt Fs unlt C N i c p :
  finite_rows C unlt -> length unlt = N -> (0 < N)%nat ->
  (i < N)%nat -> (c < C)%nat -> length p = C ->
  nth c (new_row kt Fs unlt i p) (Fin 0)
  = slide kt Fs (column unlt c i) (before N (column unlt c) i)
      (nth c p (Fin 0)).
Proof. intros. eapply nth_new_row; eassumption. Qed.

Lemma pass_length_at kt Fs unlt C N ft :
  finite_rows C unlt -> length unlt = N -> (0 < N)%nat ->
  length ft = N -> length (pass N unlt kt Fs ft) = N.
Proof.
  intros. eapply (pass_rows kt Fs unlt); try eassumption. apply Nat.le_refl.
Qed.

Lemma pass_determined_at kt Fs unlt C N A B :
  finite_rows C unlt -> length unlt = N -> (0 < N)%nat ->
  length A = N -> length B = N ->
  new_row kt Fs unlt 0 (row A (N - 1)) = new_row kt Fs unlt 0 (row B (N - 1)) ->
  pass N unlt kt Fs A = pass N unlt kt Fs B.
Proof. intros. eapply pass_determined; eassumption. Qed.

Lemma pass_column_at kt Fs unlt C N ft c i :
  finite_rows C unlt -> length unlt = N -> (0 < N)%nat ->
  length ft = N -> length (row ft (N - 1)) = C -> (c < C)%nat ->
  (i < N)%nat ->
  length (row (pass N unlt kt Fs ft) i) = C
  /\ nth c (row (pass N unlt kt Fs ft) i) (Fin 0)
     = run kt Fs N (column unlt c) (S i) (nth c (row ft (N - 1)) (Fin 0)).
Proof. intros. eapply pass_column; eassumption. Qed.

End SliderMatrix.

Section SliderSteady.
Import Num Forces SliderAnalysis.

Lemma column_finite (C : nat) (unlt : mat) (c i : nat) :
  finite_rows C unlt -> finite (column unlt c i) = true.
Proof.
  intros Hrect. unfold column, row.
  destruct (Nat.lt_ge_cases i (length unlt)) as [Hi | Hi].
  - unfold finite_rows in Hrect. rewrite Forall_forall in Hrect.
    destruct (Hrect (nth i unlt []) ltac:(apply list_elem_of_In, nth_In; lia))
      as [_ Hfin].
    destruct (Nat.lt_ge_cases c (length (nth i unlt []))) as [Hc | Hc].
    + rewrite Forall_forall in Hfin. apply Hfin, list_elem_of_In, nth_In, Hc.
    + rewrite (nth_overflow (nth i unlt [])) by lia. reflexivity.
  - rewrite (nth_overflow unlt) by lia. destruct c; reflexivity.
Qed.

Lemma three_passes (Nt C : nat) (unlt ft : mat) (kt Fs : fnum) :
  finite kt = true -> finite Fs = true -> fle (Fin 0) Fs = true ->
  (0 < Nt)%nat -> length unlt = Nt -> length ft = Nt ->
  finite_rows C unlt -> finite_rows C ft ->
  pass Nt unlt kt Fs (pass Nt unlt kt Fs (pass Nt unlt kt Fs ft))
  = pass Nt unlt kt Fs (pass Nt unlt kt Fs ft).
Proof.
  intros Hkt HFs HFs0 HN HlU Hlft HrU Hrft.
  rewrite (finite_Fin kt Hkt), (finite_Fin Fs HFs) in *.
  set (k := qval kt) in *. set (F := qval Fs) in *.
  apply fle_Fin in HFs0.
  set (P1 := pass Nt unlt (Fin k) (Fin F) ft).
  assert (HlP1 : length P1 = Nt)
    by (apply (pass_length_at _ _ _ C); assumption).
  set (P2 := pass Nt unlt (Fin k) (Fin F) P1).
  assert (HlP2 : length P2 = Nt)
    by (apply (pass_length_at _ _ _ C); assumption).
  assert (Hlast : length (row ft (Nt - 1)) = C
                  /\ Forall (fun a => finite a = true) (row ft (Nt - 1))).
  { unfold finite_rows in Hrft. rewrite Forall_forall in Hrft.
    apply Hrft. unfold row. apply list_elem_of_In, nth_In. lia. }
  destruct Hlast as [Hlast Hfinlast].
  assert (Hrow0 : length (row unlt 0) = C)
    by (apply (unlt_row_at unlt C Nt 0); assumption).
  assert (HlP1row : length (row P1 (Nt - 1)) = C).
  { destruct C as [|C'].
    - destruct (pass_rows (Fin k) (Fin F) unlt Nt) with (ft := ft) (n := Nt)
        as (_ & _ & Hr); try assumption; try apply Nat.le_refl.
      fold P1 in Hr. rewrite (Hr (Nt - 1)%nat) by lia.
      unfold new_row, vadd, vsub, vscale, vzip.
      destruct (unlt_row_at unlt 0 Nt (Nt - 1) HrU HlU HN ltac:(lia))
        as [Hl0 _].
      apply length_zero_iff_nil in Hl0. rewrite Hl0. reflexivity.
    - apply (pass_column_at (Fin k) (Fin F) unlt (S C') Nt ft 0 (Nt - 1));
        try assumption; lia. }
  assert (HlP2row : length (row P2 (Nt - 1)) = C).
  { destruct C as [|C'].
    - destruct (pass_rows (Fin k) (Fin F) unlt Nt) with (ft := P1) (n := Nt)
        as (_ & _ & Hr); try assumption; try apply Nat.le_refl.
      fold P2 in Hr. rewrite (Hr (Nt - 1)%nat) by lia.
      unfold new_row, vadd, vsub, vscale, vzip.
      destruct (unlt_row_at unlt 0 Nt (Nt - 1) HrU HlU HN ltac:(lia))
        as [Hl0 _].
      apply length_zero_iff_nil in Hl0. rewrite Hl0. reflexivity.
    - apply (pass_column_at (Fin k) (Fin F) unlt (S C') Nt P1 0 (Nt - 1));
        try assumption; lia. }
  apply (pass_determined_at (Fin k) (Fin F) unlt C Nt); try assumption.
  apply (nth_ext _ _ (Fin 0) (Fin 0)).
  { rewrite !(length_new_row_at (Fin k) (Fin F) unlt C Nt)
      by (try lia; assumption). reflexivity. }
  intros c Hc.
  rewrite (length_new_row_at (Fin k) (Fin F) unlt C Nt) in Hc
    by (try lia; assumption).
  rewrite !(nth_new_row_at (Fin k) (Fin F) unlt C Nt)
    by (try lia; assumption).
  destruct (pass_column_at (Fin k) (Fin F) unlt C Nt ft c (Nt - 1))
    as [_ H1]; try assumption; try lia.
  destruct (pass_column_at (Fin k) (Fin F) unlt C Nt P1 c (Nt - 1))
    as [_ H2]; try assumption; try lia.
  fold P1 in H1. fold P2 in H2.
  replace (S (Nt - 1)) with Nt in H1, H2 by lia.
  rewrite H2, H1.
  assert (Hs0 : finite (nth c (row ft (Nt - 1)) (Fin 0)) = true).
  { rewrite Forall_forall in Hfinlast.
    apply Hfinlast, list_elem_of_In, nth_In. lia. }
  destruct (run_cycle_idem k F Nt (column unlt c) HFs0
              (fun i => column_finite C unlt c i HrU) HN _ Hs0)
    as (Hf1 & Hf2 & Hv).
  apply slide_compat; assumption.
Qed.

(** X2. Two passes through the hysteresis loop reach the steady state:
    every further pass returns the forces of the second one. *)
Theorem jenkins_two_passes_reach_steady_state (passes Nt C : nat)
    (unlt ft : mat) (kt Fs : fnum) :
  finite kt = true -> finite Fs = true -> fle (Fin 0) Fs = true ->
  (0 < Nt)%nat -> length unlt = Nt -> length ft = Nt ->
  finite_rows C unlt -> finite_rows C ft ->
  (2 <= passes)%nat ->
  Jenkins.hysteresis_loops passes Nt unlt kt Fs ft
  = Jenkins.hysteresis_loops 2 Nt unlt kt Fs ft.
Proof.
  intros Hkt HFs HFs0 HN HlU Hlft HrU Hrft Hp.
  pose proof (three_passes Nt C unlt ft kt Fs Hkt HFs HFs0 HN HlU Hlft
                HrU Hrft) as H3.
  assert (H2 : Jenkins.hysteresis_loops 2 Nt unlt kt Fs ft
               = pass Nt unlt kt Fs (pass Nt unlt kt Fs ft)) by reflexivity.
  induction passes as [|p IH]; [lia|].
  destruct (Nat.eq_dec p 1) as [-> | Hne]; [reflexivity|].
  unfold Jenkins.hysteresis_loops. rewrite fori_loop_S.
  fold (Jenkins.hysteresis_loops p Nt unlt kt Fs ft).
  rewrite IH by lia. rewrite H2. exact H3.
Qed.
End SliderSteady.

Section SliderExample.
Import Num Forces SliderAnalysis.

Lemma jenkins_two_passes_reach_steady_state_witness :
  Jenkins.hysteresis_loops 3 4 [[Fin 0]; [Fin 3]; [Fin 0]; [Fin 0]]
    (Fin 1) (Fin 1) [[Fin 0]; [Fin 0]; [Fin 0]; [Fin 0]]
  = Jenkins.hysteresis_loops 2 4 [[Fin 0]; [Fin 3]; [Fin 0]; [Fin 0]]
      (Fin 1) (Fin 1) [[Fin 0]; [Fin 0]; [Fin 0]; [Fin 0]].
Proof.
  apply (jenkins_two_passes_reach_steady_state 3 4 1);
    try reflexivity; try lia;
    repeat (constructor; [split; [reflexivity | repeat constructor]|]);
    constructor.
Defined.

(** One pass is not enough: the first pass starts from the force that
    the slider is initialised with, the second from the force at the
    end of the cycle. *)
Lemma jenkins_one_pass_is_transient :
  Jenkins.hysteresis_loops 1 4 [[Fin 0]; [Fin 3]; [Fin 0]; [Fin 0]]
    (Fin 1) (Fin 1) [[Fin 0]; [Fin 0]; [Fin 0]; [Fin 0]]
  = [[Fin 0]; [Fin 1]; [Fin (-1)]; [Fin (-1)]]
  /\ Jenkins.hysteresis_loops 2 4 [[Fin 0]; [Fin 3]; [Fin 0]; [Fin 0]]
       (Fin 1) (Fin 1) [[Fin 0]; [Fin 0]; [Fin 0]; [Fin 0]]
     = [[Fin (-1)]; [Fin 1]; [Fin (-1)]; [Fin (-1)]].
Proof. split; vm_compute; reflexivity. Qed.
End SliderExample.
Section SolverMore.
Import Num Solvers Examples.

(** ** [_check_convg] *)

Lemma check_loop_true cfg er (l : list string) :
  check_loop cfg er true l = Ok true.
Proof. induction l as [|k l IH]; [reflexivity | exact IH]. Qed.

Lemma check_loop_false_cons cfg er (key : string) (l : list string) :
  check_loop cfg er false (key :: l)
  = match criterion cfg er key with
    | Ok true => Ok true
    | Ok false => check_loop cfg er false l
    | Raise e => Raise e
    end.
Proof.
  cbn [check_loop]. destruct (criterion cfg er key) as [[|]|e];
    cbn [mbind result_bind]; [apply check_loop_true | reflexivity..].
Qed.

(** X7. The result of [_check_convg] is that of the first criterion in the
    list that does not evaluate to [False]: [True] if it holds, its
    exception if it raises; the names after it are not looked at. The
    result is [False] when all criteria evaluate to [False], so for the
    empty list. A listed tolerance that is [None] raises [TypeError],
    a name that is not a tolerance [KeyError]. *)
Theorem check_convg_first_match (l : list string) (cfg : config)
    (er : errors) :
  let quiet := Forall (fun k => criterion cfg er k = Ok false) in
  (_check_convg l cfg er = Ok false <-> quiet l)
  /\ (forall r, r <> Ok false ->
        (_check_convg l cfg er = r <->
         exists l1 key l2,
           l = (l1 ++ key :: l2)%list /\ quiet l1
           /\ criterion cfg er key = r))
  /\ (forall key, tol_dict cfg key = Ok None ->
        criterion cfg er key = Raise TypeError)
  /\ (forall key, tol_dict cfg key = Raise (KeyError key) ->
        criterion cfg er key = Raise (KeyError key)).
Proof.
  intros quiet. unfold _check_convg. split; [|split; [|split]].
  - induction l as [|k l IH].
    + split; [constructor | reflexivity].
    + rewrite check_loop_false_cons. split.
      * destruct (criterion cfg er k) as [[|]|e] eqn:Ek; try discriminate.
        intros Hl. constructor; [exact Ek | apply IH, Hl].
      * intros Hq. inversion Hq as [|? ? Hk Hl]; subst.
        rewrite Hk. apply IH, Hl.
  - intros r Hr. induction l as [|k l IH].
    + split.
      * intros H. cbn in H. congruence.
      * intros (l1 & key & l2 & Heq & _). destruct l1; discriminate.
    + rewrite check_loop_false_cons. split.
      * destruct (criterion cfg er k) as [[|]|e] eqn:Ek.
        -- intros <-. exists [], k, l. repeat split; [constructor | exact Ek].
        -- intros H. apply IH in H as (l1 & key & l2 & -> & Hq & Hk).
           exists (k :: l1), key, l2.
           split; [reflexivity|]. split; [constructor; assumption | exact Hk].
        -- intros <-. exists [], k, l. repeat split; [constructor | exact Ek].
      * intros (l1 & key & l2 & Heq & Hq & Hk).
        destruct l1 as [|k1 l1]; cbn in Heq; injection Heq as -> ->.
        -- rewrite Hk. destruct r as [[|]|e]; congruence.
        -- inversion Hq as [|? ? Hk1 Hq1]; subst. rewrite Hk1.
           apply IH. exists l1, key, l2. repeat split; assumption.
  - intros key Htol. unfold criterion.
    assert (Herr : exists x, error_dict er key = Ok x).
    { unfold tol_dict in Htol. unfold error_dict.
      repeat (destruct (String.eqb key _); [eexists; reflexivity|]).
      discriminate. }
    destruct Herr as [x ->]. cbn [mbind result_bind]. rewrite Htol.
    reflexivity.
  - intros key Htol. unfold criterion.
    assert (Herr : error_dict er key = Raise (KeyError key)).
    { unfold tol_dict in Htol. unfold error_dict.
      repeat (destruct (String.eqb key _); [discriminate|]).
      reflexivity. }
    rewrite Herr. reflexivity.
Qed.
End SolverMore.
Section SolverCounts.
Import Num Solvers Examples.

#[local] Arguments X {factored} _.
#[local] Arguments R {factored} _.
#[local] Arguments dRdX {factored} _.
#[local] Arguments deltaX {factored} _.
#[local] Arguments bfgs_ind {factored} _.
#[local] Arguments s_nfev {factored} _.
#[local] Arguments s_njev {factored} _.
#[local] Arguments final {factored} _.
#[local] Arguments no_nan_vals {factored} _.
#[local] Arguments converged_in_loop {factored} _.
#[local] Arguments BreakNaN {factored} _.
#[local] Arguments BreakConverged {factored} _.
#[local] Arguments Continue {factored} _.

Variable qsqrt : Q -> Q.
Variable factored : Type.
Variable lin_factor : mat -> factored.
Variable lin_factored_solve : factored -> vec -> vec.
Variable cfg : config.
Variable fun_ : resfun.

Local Abbreviation body_ :=
  (body qsqrt factored lin_factor lin_factored_solve cfg fun_).
Local Abbreviation loop_ :=
  (loop qsqrt factored lin_factor lin_factored_solve cfg fun_).

(** What every way out of [update_and_check] keeps of the state it was
    given. *)
Lemma update_and_check_keeps (i : nat) (st : lstate factored)
    (r : step_end factored) :
  update_and_check qsqrt factored cfg i st = Ok r ->
  match r with
  | BreakNaN st' => st' = st
  | BreakConverged st' =>
      s_nfev st' = s_nfev st /\ s_njev st' = s_njev st
      /\ R st' = R st /\ deltaX st' = deltaX st
      /\ X st' = vadd (X st) (deltaX st)
      /\ dRdX st' = dRdX st /\ isnan (vsum (deltaX st)) = false
  | Continue st' =>
      s_nfev st' = s_nfev st /\ s_njev st' = s_njev st
      /\ R st' = R st /\ deltaX st' = deltaX st
      /\ X st' = vadd (X st) (deltaX st)
      /\ dRdX st' = dRdX st /\ isnan (vsum (deltaX st)) = false
      /\ bfgs_ind st' = Nat.modulo (S (bfgs_ind st)) (reform_freq cfg)
  end.
Proof.
  unfold update_and_check.
  destruct (isnan (vsum (deltaX st))) eqn:Hd.
  - intros [= <-]. reflexivity.
  - match goal with
    | |- context [_check_convg ?l ?c ?e] =>
        destruct (_check_convg l c e) as [[|]|err]
    end; cbn [mbind result_bind]; intros [= <-]; cbn; repeat split.
Qed.

(** [s] is [st] moved by a step that is free of NaN, with the residual
    evaluated at the iterate of [st]; after a Newton pass the Jacobian
    is from there too, and the step is the Newton step. *)
Local Abbreviation moved_from st s :=
  ((exists b J, fun_ (X st) b = Ok (R s, J))
   /\ X s = vadd (X st) (deltaX s)
   /\ isnan (vsum (deltaX s)) = false
   /\ (bfgs_ind st = 0%nat ->
       fun_ (X st) true = Ok (R s, dRdX s)
       /\ deltaX s
          = newton_deltaX factored lin_factor lin_factored_solve
              (dRdX s) (R s))).

(** One pass through the loop body evaluates [fun] once, and the
    Jacobian exactly when [bfgs_ind] is 0; when the pass moves the
    iterate, the residual it leaves in [R] was evaluated at the iterate
    before the move. *)
Lemma body_counts (i : nat) (st : lstate factored) (r : step_end factored) :
  body_ i st = Ok r ->
  let st' := match r with
             | BreakNaN s | BreakConverged s | Continue s => s
             end in
  s_nfev st' = S (s_nfev st)
  /\ s_njev st'
     = (if Nat.eqb (bfgs_ind st) 0 then S (s_njev st) else s_njev st)
  /\ match r with
     | BreakNaN _ => True
     | BreakConverged s => moved_from st s
     | Continue s =>
         moved_from st s
         /\ bfgs_ind s = Nat.modulo (S (bfgs_ind st)) (reform_freq cfg)
     end.
Proof.
  unfold body. destruct (Nat.eqb (bfgs_ind st) 0) eqn:Eb.
  - unfold newton_step.
    destruct (fun_ (X st) true) as [[R' J']|err] eqn:Ef;
      cbn [mbind result_bind]; [|discriminate].
    destruct (isnan (vsum R')); [intros [= <-]; cbn; auto|].
    destruct (isnan (msum J')); [intros [= <-]; cbn; auto|].
    destruct (reform_freq cfg) as [|m] eqn:Erf; [discriminate|].
    intros Hu. apply update_and_check_keeps in Hu.
    destruct r as [s|s|s];
      cbn [X R dRdX deltaX bfgs_ind s_nfev s_njev] in Hu |- *.
    + subst s. cbn [s_nfev s_njev]. auto.
    + destruct Hu as (-> & -> & HR & Hd & HX & HJ & Hn).
      rewrite HR, HX, Hd, HJ. repeat split; eauto.
    + destruct Hu as (-> & -> & HR & Hd & HX & HJ & Hn & Hb).
      rewrite HR, HX, Hd, HJ, Hb, Erf. repeat split; eauto.
  - unfold bfgs_step.
    destruct (fun_ (X st) false) as [[R' J']|err] eqn:Ef;
      cbn [mbind result_bind]; [|discriminate].
    destruct (isnan (vsum R')); [intros [= <-]; cbn; auto|].
    destruct (bfgs_update qsqrt factored lin_factored_solve st R')
      as [[v' w'] dX].
    intros Hu. apply update_and_check_keeps in Hu.
    apply Nat.eqb_neq in Eb.
    destruct r as [s|s|s];
      cbn [X R dRdX deltaX bfgs_ind s_nfev s_njev] in Hu |- *.
    + subst s. cbn [s_nfev s_njev]. auto.
    + destruct Hu as (-> & -> & HR & Hd & HX & HJ & Hn).
      rewrite HR, HX, Hd. repeat split; eauto; contradiction.
    + destruct Hu as (-> & -> & HR & Hd & HX & HJ & Hn & Hb).
      rewrite HR, HX, Hd, Hb. repeat split; eauto; contradiction.
Qed.

Lemma jacobian_count_step (i rf : nat) :
  0 < rf ->
  (if Nat.eqb (Nat.modulo i rf) 0 then S ((i + rf - 1) / rf)
   else (i + rf - 1) / rf) = (S i + rf - 1) / rf.
Proof.
  intros Hrf.
  pose proof (Nat.div_mod_eq i rf) as Hi.
  pose proof (Nat.mod_upper_bound i rf ltac:(lia)) as Hr.
  set (q := i / rf) in *. set (r := i mod rf) in *.
  destruct (Nat.eqb r 0) eqn:Er.
  - apply Nat.eqb_eq in Er.
    assert (H1 : (i + rf - 1) / rf = q).
    { symmetry. apply (Nat.div_unique _ _ _ (rf - 1)); nia. }
    assert (H2 : (S i + rf - 1) / rf = S q).
    { symmetry. apply (Nat.div_unique _ _ _ 0); nia. }
    rewrite H1, H2. reflexivity.
  - apply Nat.eqb_neq in Er.
    assert (H1 : (i + rf - 1) / rf = S q).
    { symmetry. apply (Nat.div_unique _ _ _ (r - 1)); nia. }
    assert (H2 : (S i + rf - 1) / rf = S q).
    { symmetry. apply (Nat.div_unique _ _ _ r); nia. }
    rewrite H1, H2. reflexivity.
Qed.

(** The counters when the loop is left, from a state before iteration
    [i] whose counters agree with [i] iterations done. *)
Lemma loop_counts (n i : nat) (st : lstate factored)
    (le : loop_end factored) :
  loop_ n i st = Ok le ->
  s_nfev st = i ->
  (0 < n -> bfgs_ind st = 0) ->
  s_njev st <= s_nfev st ->
  (0 < n -> i < s_nfev (final le))
  /\ i <= s_nfev (final le) <= i + n
  /\ s_njev (final le) <= s_nfev (final le)
  /\ (0 < n -> s_njev st < s_njev (final le)).
Proof.
  (* the Jacobian is evaluated at the first iteration; later ones only
     need the weaker invariant *)
  assert (Hweak : forall n i st le,
    loop_ n i st = Ok le -> s_nfev st = i -> s_njev st <= s_nfev st ->
    (0 < n -> i < s_nfev (final le))
    /\ i <= s_nfev (final le) <= i + n
    /\ s_njev (final le) <= s_nfev (final le)
    /\ s_njev st <= s_njev (final le)).
  { clear. intros n. induction n as [|n IH]; intros i st le Hl Hi Hj.
    - injection Hl as <-. cbn. lia.
    - cbn [loop] in Hl.
      destruct (body_ i st) as [r|err] eqn:Hb; cbn [mbind result_bind] in Hl;
        [|discriminate].
      apply body_counts in Hb. cbn zeta in Hb.
      destruct Hb as (Hf & Hjv & _).
      assert (Hjv' : s_njev st <=
                match r with BreakNaN s | BreakConverged s | Continue s =>
                  s_njev s end <= S (s_njev st)).
      { destruct r; destruct (Nat.eqb (bfgs_ind st) 0); lia. }
      destruct r as [s|s|s].
      + injection Hl as <-. cbn. lia.
      + injection Hl as <-. cbn. lia.
      + apply IH in Hl; [|lia..]. lia. }
  intros Hl Hi Hb0 Hj.
  destruct n as [|n].
  - injection Hl as <-. cbn. lia.
  - cbn [loop] in Hl.
    destruct (body_ i st) as [r|err] eqn:Hb; cbn [mbind result_bind] in Hl;
      [|discriminate].
    apply body_counts in Hb. cbn zeta in Hb.
    destruct Hb as (Hf & Hjv & _).
    rewrite Hb0 in Hjv by lia. cbn in Hjv.
    destruct r as [s|s|s].
    + injection Hl as <-. cbn. lia.
    + injection Hl as <-. cbn. lia.
    + apply Hweak in Hl; [|lia..]. lia.
Qed.

(** With a positive [reform_freq] the Jacobian is evaluated at the
    iterations that are multiples of it. *)
Lemma loop_jacobian_count (n i : nat) (st : lstate factored)
    (le : loop_end factored) :
  0 < reform_freq cfg ->
  loop_ n i st = Ok le ->
  s_nfev st = i ->
  bfgs_ind st = Nat.modulo i (reform_freq cfg) ->
  s_njev st = (i + reform_freq cfg - 1) / reform_freq cfg ->
  s_njev (final le)
  = (s_nfev (final le) + reform_freq cfg - 1) / reform_freq cfg.
Proof.
  intros Hrf. revert i st.
  induction n as [|n IH]; intros i st Hl Hi Hb0 Hj.
  - injection Hl as <-. cbn. rewrite Hi. exact Hj.
  - cbn [loop] in Hl.
    destruct (body_ i st) as [r|err] eqn:Hb; cbn [mbind result_bind] in Hl;
      [|discriminate].
    apply body_counts in Hb. cbn zeta in Hb.
    destruct Hb as (Hf & Hjv & Hr).
    rewrite Hb0, Hj, jacobian_count_step in Hjv by exact Hrf.
    rewrite Hi in Hf.
    destruct r as [s|s|s].
    + injection Hl as <-. cbn. rewrite Hf. exact Hjv.
    + injection Hl as <-. cbn. rewrite Hf. exact Hjv.
    + destruct Hr as [_ Hbs].
      apply IH in Hl; [exact Hl | exact Hf | | exact Hjv].
      rewrite Hbs, Hb0.
      rewrite <- Nat.add_1_r.
      rewrite Nat.Div0.add_mod_idemp_l. rewrite Nat.add_1_r. reflexivity.
Qed.

(** The state in which the loop is left without a NaN is one that a
    pass has moved, or the state before the loop if no pass ran. *)
Lemma loop_residual (n i : nat) (st : lstate factored)
    (le : loop_end factored) :
  loop_ n i st = Ok le ->
  no_nan_vals le || converged_in_loop le = true ->
  (n = 0%nat /\ final le = st)
  \/ exists st0 : lstate factored, moved_from st0 (final le)
                 /\ (reform_freq cfg = 1%nat -> bfgs_ind st = 0%nat ->
                     bfgs_ind st0 = 0%nat).
Proof.
  revert i st. induction n as [|n IH]; intros i st Hl Hnan.
  - injection Hl as <-. left. split; reflexivity.
  - right. cbn [loop] in Hl.
    destruct (body_ i st) as [r|err] eqn:Hb; cbn [mbind result_bind] in Hl;
      [|discriminate].
    apply body_counts in Hb. cbn zeta in Hb.
    destruct Hb as (_ & _ & Hr).
    destruct r as [s|s|s].
    + injection Hl as <-. discriminate.
    + injection Hl as <-. exists st. split; [exact Hr | auto].
    + destruct Hr as [Hr Hbs].
      destruct (IH _ _ Hl Hnan) as [[-> Hfin] | (st0 & Hm & Hb0)].
      * exists st. rewrite Hfin. split; [exact Hr | auto].
      * exists st0. split; [exact Hm|].
        intros Hrf _. apply Hb0; [exact Hrf|].
        rewrite Hbs, Hrf. apply Nat.mod_1_r.
Qed.

End SolverCounts.

Section SolverReturn.
Import Num Solvers Examples.

#[local] Arguments X {factored} _.
#[local] Arguments R {factored} _.
#[local] Arguments dRdX {factored} _.
#[local] Arguments deltaX {factored} _.
#[local] Arguments bfgs_ind {factored} _.
#[local] Arguments s_nfev {factored} _.
#[local] Arguments s_njev {factored} _.
#[local] Arguments final {factored} _.
#[local] Arguments no_nan_vals {factored} _.
#[local] Arguments converged_in_loop {factored} _.
#[local] Arguments BreakNaN {factored} _.
#[local] Arguments BreakConverged {factored} _.
#[local] Arguments Continue {factored} _.

(** X8. A call of [nsolve] that returns has evaluated [fun] at least once
    and at most [max_steps] times, and the Jacobian at least once and
    no more often than [fun]; with a positive [reform_freq] the Jacobian
    count is the number of iterations that are multiples of
    [reform_freq], so [ceil(nfev/reform_freq)]. *)
Theorem nsolve_evaluation_counts (qsqrt : Q -> Q) (factored : Type)
    (lin_factor : mat -> factored)
    (lin_factored_solve : factored -> vec -> vec)
    (cfg : config) (fun_ : resfun) (X0 : vec) (xtol_arg : option fnum)
    (X R : vec) (dRdX : mat) (s : sol) :
  nsolve qsqrt lin_factor lin_factored_solve cfg fun_ X0 xtol_arg
  = Ok (X, R, dRdX, s) ->
  1 <= nfev s <= max_steps cfg
  /\ 1 <= njev s <= nfev s
  /\ (0 < reform_freq cfg ->
      njev s = (nfev s + reform_freq cfg - 1) / reform_freq cfg).
Proof.
  unfold nsolve. destruct (max_steps cfg) as [|m] eqn:Hm; [discriminate|].
  match goal with
  | |- context [loop ?q ?f ?lf ?ls ?c ?fn ?n ?i ?st] =>
      destruct (loop q f lf ls c fn n i st) as [le|err] eqn:Hl
  end; cbn [mbind result_bind]; [|discriminate].
  intros Hfin.
  assert (Hs : nfev s = s_nfev (final le) /\ njev s = s_njev (final le)).
  { unfold finish in Hfin.
    match type of Hfin with
    | context [mbind _ ?a] => destruct a as [acc|err]
    end; cbn [mbind result_bind] in Hfin; [|discriminate].
    injection Hfin as _ _ _ <-. split; reflexivity. }
  destruct Hs as [-> ->].
  pose proof (loop_counts _ _ _ _ _ _ _ _ _ _ Hl eq_refl
                (fun _ => eq_refl) (Nat.le_refl _)) as (H1 & H2 & H3 & H4).
  cbn in H1, H2, H4. split; [lia|]. split; [lia|].
  intros Hrf.
  apply (loop_jacobian_count qsqrt factored lin_factor lin_factored_solve
           (set_xtol cfg (Some (resolve_xtol cfg xtol_arg X0))) fun_
           _ _ _ _ Hrf Hl eq_refl).
  - cbn [init_state bfgs_ind]. rewrite Nat.Div0.mod_0_l. reflexivity.
  - cbn [init_state s_njev]. symmetry. apply Nat.div_small.
    change (reform_freq (set_xtol cfg (Some (resolve_xtol cfg xtol_arg X0))))
      with (reform_freq cfg). lia.
Qed.

(** X9. The residual [R] that a successful [nsolve] returns was evaluated
    at the iterate before the last step, not at the returned [X], which
    is that iterate moved by a step free of NaN. With [reform_freq = 1],
    the default, the returned [dRdX] is from the same evaluation and the
    returned [X] is one Newton step away from it. *)
Theorem nsolve_residual_is_from_before_last_step (qsqrt : Q -> Q)
    (factored : Type) (lin_factor : mat -> factored)
    (lin_factored_solve : factored -> vec -> vec)
    (cfg : config) (fun_ : resfun) (X0 : vec) (xtol_arg : option fnum)
    (X R : vec) (dRdX : mat) (s : sol) :
  nsolve qsqrt lin_factor lin_factored_solve cfg fun_ X0 xtol_arg
  = Ok (X, R, dRdX, s) ->
  success s = true ->
  (exists Xe step b J,
     fun_ Xe b = Ok (R, J) /\ X = vadd Xe step
     /\ isnan (vsum step) = false)
  /\ (reform_freq cfg = 1%nat ->
      exists Xe,
        fun_ Xe true = Ok (R, dRdX)
        /\ X = vadd Xe (lin_factored_solve
                          (lin_factor (mscale (Fin (-1)) dRdX)) R)).
Proof.
  unfold nsolve. destruct (max_steps cfg) as [|m] eqn:Hm; [discriminate|].
  match goal with
  | |- context [loop ?q ?f ?lf ?ls ?c ?fn ?n ?i ?st] =>
      destruct (loop q f lf ls c fn n i st) as [le|err] eqn:Hl
  end; cbn [mbind result_bind]; [|discriminate].
  intros Hfin Hok.
  assert (Hs : X = Solvers.X (final le) /\ R = Solvers.R (final le)
               /\ dRdX = Solvers.dRdX (final le)
               /\ no_nan_vals le || converged_in_loop le = true).
  { unfold finish in Hfin.
    destruct (no_nan_vals le) eqn:Hnn, (converged_in_loop le) eqn:Hc;
      cbn [andb negb orb mbind result_bind] in Hfin |- *.
    - injection Hfin as <- <- <- <-. auto.
    - match type of Hfin with
      | context [mbind _ ?a] => destruct a as [acc|err]
      end; cbn [mbind result_bind] in Hfin; [|discriminate].
      injection Hfin as <- <- <- <-. auto.
    - injection Hfin as <- <- <- <-. auto.
    - injection Hfin as <- <- <- <-. discriminate. }
  destruct Hs as (-> & -> & -> & Hnn).
  destruct (loop_residual _ _ _ _ _ _ _ _ _ _ Hl Hnn)
    as [[Hz _] | (st0 & ((b & J & Hf) & HX & Hn & Hnewton) & Hb0)];
    [discriminate|].
  split.
  - exists (Solvers.X st0), (Solvers.deltaX (final le)), b, J. auto.
  - intros Hrf. destruct Hnewton as [Hf' Hd]; [apply Hb0; auto|].
    exists (Solvers.X st0). split; [exact Hf'|].
    rewrite HX, Hd. reflexivity.
Qed.

End SolverReturn.

Section SolverSetting.
Import Num Solvers Forces.

Lemma set_xtol_back (cfg : config) (x : option fnum) :
  set_xtol (set_xtol cfg x) (xtol cfg) = cfg.
Proof. destruct cfg. reflexivity. Qed.

(** X10. [nsolve] puts the [xtol] setting of the solver back when it returns,
    and only then: a call that raises leaves [self.config['xtol']] at
    the tolerance it resolved for itself, so that a later call without
    [xtol] takes that tolerance over, whatever the setting was and
    whatever the size of its own [X0]. What the call returns or raises
    does not depend on this. *)
Theorem nsolve_restores_xtol_unless_it_raises (qsqrt : Q -> Q)
    (factored : Type) (lin_factor : mat -> factored)
    (lin_factored_solve : factored -> vec -> vec)
    (fun_ : resfun) (X0 : vec) (xtol_arg : option fnum) (cfg : config) :
  let out :=
    SolverObject.nsolve qsqrt lin_factor lin_factored_solve fun_ X0
      xtol_arg cfg in
  out.1 = Solvers.nsolve qsqrt lin_factor lin_factored_solve cfg fun_ X0
            xtol_arg
  /\ match out.1 with
     | Ok _ => out.2 = cfg
     | Raise _ =>
         out.2 = set_xtol cfg (Some (resolve_xtol cfg xtol_arg X0))
         /\ forall X0' : vec,
              resolve_xtol out.2 None X0' = resolve_xtol cfg xtol_arg X0
     end.
Proof.
  cbn zeta. unfold SolverObject.nsolve, Solvers.nsolve.
  unfold mbind, method_bind, attr, assign, call, mret, method_ret.
  cbn [fst snd].
  change (max_steps (set_xtol cfg (Some (resolve_xtol cfg xtol_arg X0))))
    with (max_steps cfg).
  destruct (max_steps cfg) as [|m]; cbn [fst snd].
  - split; [reflexivity|]. split; reflexivity.
  - match goal with
    | |- context [result_bind _ _ ?k ?a] => destruct (result_bind _ _ k a) as [r|e]
    end; cbn [fst snd].
    + split; [reflexivity | apply set_xtol_back].
    + split; [reflexivity|]. split; reflexivity.
Qed.

End SolverSetting.

Section SolverExamples.
Import Num Solvers Examples.

(** The first-match rule on the measures of iteration 1 of Newton's
    method on [x^2]: ['xtol_rel'] does not hold, and ['rtol'], whose
    tolerance is [None], raises. *)
Lemma check_convg_first_match_witness :
  _check_convg ["xtol_rel"; "rtol"] xtol_rel_config errors_at_iteration_1
  = Raise TypeError.
Proof.
  pose proof (check_convg_first_match ["xtol_rel"; "rtol"] xtol_rel_config
                errors_at_iteration_1) as (_ & Hfirst & Hnone & _).
  apply (Hfirst (Raise TypeError)); [discriminate|].
  exists ["xtol_rel"], "rtol", []. split; [reflexivity|]. split.
  - constructor; [reflexivity | constructor].
  - apply Hnone. reflexivity.
Defined.

(** Newton's method on [x^2] from [x = 1] stops in the third
    iteration. *)
Lemma nsolve_evaluation_counts_witness :
  nsolve qsqrt_floor lin_factor1 lin_factored_solve1 xtol_rel_config
    square_residual [Fin 1] None
  = Ok ([Fin (1 # 8)], [Fin (1 # 16)], [[Fin (1 # 2)]],
        {| message := "Converged"; nfev := 3; njev := 3;
           success := true |})
  /\ (1 <= 3 <= 5)%nat /\ (1 <= 3 <= 3)%nat
  /\ ((0 < 1)%nat -> 3%nat = ((3 + 1 - 1) / 1)%nat).
Proof.
  assert (Hrun : nsolve qsqrt_floor lin_factor1 lin_factored_solve1
                   xtol_rel_config square_residual [Fin 1] None
                 = Ok ([Fin (1 # 8)], [Fin (1 # 16)], [[Fin (1 # 2)]],
                       {| message := "Converged"; nfev := 3; njev := 3;
                          success := true |}))
    by (vm_compute; reflexivity).
  split; [exact Hrun|].
  exact (nsolve_evaluation_counts _ _ _ _ _ _ _ _ _ _ _ _ Hrun).
Defined.

(** The same solve: the returned residual [1/16] is that of [x = 1/4],
    not of the returned [x = 1/8]. *)
Lemma nsolve_residual_is_from_before_last_step_witness :
  (exists Xe step b J,
     square_residual Xe b = Ok ([Fin (1 # 16)], J)
     /\ [Fin (1 # 8)] = vadd Xe step /\ isnan (vsum step) = false)
  /\ (1%nat = 1%nat ->
      exists Xe,
        square_residual Xe true = Ok ([Fin (1 # 16)], [[Fin (1 # 2)]])
        /\ [Fin (1 # 8)]
           = vadd Xe (lin_factored_solve1
                        (lin_factor1 (mscale (Fin (-1)) [[Fin (1 # 2)]]))
                        [Fin (1 # 16)])).
Proof.
  assert (Hrun : nsolve qsqrt_floor lin_factor1 lin_factored_solve1
                   xtol_rel_config square_residual [Fin 1] None
                 = Ok ([Fin (1 # 8)], [Fin (1 # 16)], [[Fin (1 # 2)]],
                       {| message := "Converged"; nfev := 3; njev := 3;
                          success := true |}))
    by (vm_compute; reflexivity).
  exact (nsolve_residual_is_from_before_last_step _ _ _ _ _ _ _ _ _ _ _ _
           Hrun eq_refl).
Defined.

(** A residual function that rejects the size of [X0] raises inside the
    first iteration: the solver keeps the tolerance [1e-6 * 2] that the
    call resolved, where the setting was [None]. *)
Lemma nsolve_restores_xtol_unless_it_raises_witness :
  let out := SolverObject.nsolve qsqrt_floor lin_factor1
               lin_factored_solve1 square_residual [Fin 1; Fin 1] None
               xtol_rel_config in
  out.1 = Raise ValueError
  /\ xtol out.2 = Some (Fin (2 # 1000000))
  /\ resolve_xtol out.2 None [Fin 1] = Fin (2 # 1000000)
  /\ resolve_xtol xtol_rel_config None [Fin 1] = Fin (1 # 1000000).
Proof.
  cbv zeta.
  pose proof (nsolve_restores_xtol_unless_it_raises qsqrt_floor mat
                lin_factor1 lin_factored_solve1 square_residual
                [Fin 1; Fin 1] None xtol_rel_config) as [Hout Hcfg].
  cbv zeta in Hout, Hcfg.
  assert (Hrun : nsolve qsqrt_floor lin_factor1 lin_factored_solve1
                   xtol_rel_config square_residual [Fin 1; Fin 1] None
                 = Raise ValueError) by (vm_compute; reflexivity).
  rewrite Hrun in Hout. rewrite Hout in Hcfg. destruct Hcfg as [Hc Hnext].
  split; [exact Hout|]. split; [rewrite Hc; reflexivity|].
  split; [rewrite Hnext; reflexivity | reflexivity].
Defined.

End SolverExamples.

(** * Harmonic utilities: derivatives, conditioning, crossings *)

Section ListLookup.

Lemma lookup_map_list {A B} (f : A -> B) (l : list A) (i : nat) :
  map f l !! i = f <$> (l !! i).
Proof.
  revert i. induction l as [|a l IH]; intros [|i]; cbn; auto.
Qed.

Lemma lookup_combine {A B} (l : list A) (k : list B) (i : nat) (p : A * B) :
  combine l k !! i = Some p <-> l !! i = Some (fst p) /\ k !! i = Some (snd p).
Proof.
  revert k i. induction l as [|a l IH]; intros [|b k] [|i]; cbn;
    try (split; [discriminate | intros [? ?]; discriminate]).
  - destruct p as [x y]. cbn. split.
    + intros [= -> ->]. auto.
    + intros [[= ->] [= ->]]. reflexivity.
  - apply IH.
Qed.

Lemma lookup_removelast {A} (l : list A) (i : nat) (a : A) :
  removelast l !! i = Some a -> l !! i = Some a /\ (S i < length l)%nat.
Proof.
  revert i. induction l as [|x l IH]; intros i; [discriminate|].
  cbn [removelast]. destruct l as [|y l]; [discriminate|].
  destruct i as [|i]; cbn [lookup list_lookup].
  - intros [= ->]. split; [reflexivity | cbn; lia].
  - intros H. apply IH in H as [H1 H2]. split; [exact H1 | cbn in *; lia].
Qed.

Lemma lookup_tail_list {A} (l : list A) (i : nat) :
  tail l !! i = l !! S i.
Proof. destruct l; reflexivity. Qed.

Lemma length_removelast_tail {A} (l : list A) :
  length (removelast l) = length (tail l).
Proof.
  induction l as [|x l IH]; [reflexivity|].
  cbn [removelast tail]. destruct l as [|y l]; [reflexivity|].
  cbn [length]. rewrite IH. reflexivity.
Qed.

End ListLookup.

Section ZeroCrossing.
Import Num Harmonic.

Lemma flt_mul_negative (a b : fnum) :
  flt (fmul a b) (Fin 0) = true -> (fsign a * fsign b = -1)%Z.
Proof.
  assert (Hinf : forall s : Z, flt (inf_of_sign s) (Fin 0) = true ->
                   s = (-1)%Z \/ (s < -1)%Z).
  { intros [|p|p]; cbn; try discriminate. intros _. lia. }
  destruct a as [p| | |], b as [q| | |];
    cbn [fmul flt fsign inf_of_sign Z.mul]; try discriminate;
    try (intros H; apply Hinf in H; unfold Qsgn in *;
         repeat match goal with
                | x : Q |- _ => destruct x as [[|?|?] ?]
                end; cbn in *; lia).
  unfold Qlt_bool. intros H. apply negb_true_iff in H.
  assert (Hlt : (Qred (p * q) < 0)%Q).
  { destruct (Qlt_le_dec (Qred (p * q)) 0) as [Hl|Hl]; [exact Hl|].
    apply Qle_bool_iff in Hl. congruence. }
  rewrite Qred_correct in Hlt.
  unfold Qsgn. unfold Qlt in Hlt. cbn in Hlt.
  destruct p as [pn pd], q as [qn qd]. cbn in *. nia.
Qed.

(** X11. [zero_crossing] returns one flag for each entry of [X]. A flag is
    set only at an index [i] whose entry and the next are both nonzero,
    neither NaN, of opposite signs, with [abs(X[i])] below [zero_tol]:
    the crossing is marked at the entry before the change of sign, an
    entry that is exactly zero is never marked and neither is its
    predecessor, and the flag of the last entry is never set. *)
Theorem zero_crossing_marks_sign_changes (X : vec) (zero_tol : fnum) :
  length (zero_crossing X zero_tol) = length X
  /\ (forall i, zero_crossing X zero_tol !! i = Some true ->
        exists a b,
          X !! i = Some a /\ X !! S i = Some b
          /\ (fsign a * fsign b = -1)%Z
          /\ flt (fabs a) zero_tol = true)
  /\ (forall i, length X = S i ->
        zero_crossing X zero_tol !! i = Some false).
Proof.
  unfold zero_crossing.
  set (near := map (fun x => flt (fabs x) zero_tol) X).
  set (prod := map (fun p : fnum * fnum =>
                      flt (fmul (fst p) (snd p)) (Fin 0))
                 (combine (removelast X) (tail X))).
  assert (Hprod : length prod = (length X - 1)%nat).
  { unfold prod. rewrite length_map, length_combine,
      length_removelast_tail. destruct X; cbn; lia. }
  assert (Hnear : length near = length X) by apply length_map.
  split; [|split].
  - rewrite length_map, length_combine, length_app, Hnear, Hprod. cbn. lia.
  - intros i Hi. rewrite lookup_map_list in Hi.
    apply fmap_Some in Hi as ([u v] & Hc & Huv). cbn [fst snd] in Huv.
    symmetry in Huv. destruct (andb_prop _ _ Huv) as [-> ->].
    apply lookup_combine in Hc as [Hu Hv]. cbn [fst snd] in Hu, Hv.
    unfold near in Hu. rewrite lookup_map_list in Hu.
    apply fmap_Some in Hu as (a & Ha & Hnear_a).
    apply lookup_app_Some in Hv as [Hv | [_ Hv]].
    2:{ destruct (i - length prod)%nat; cbn in Hv; [congruence|discriminate]. }
    unfold prod in Hv. rewrite lookup_map_list in Hv.
    apply fmap_Some in Hv as ([a' b] & Hp & Hneg). cbn [fst snd] in Hneg.
    apply lookup_combine in Hp as [Ha' Hb]. cbn [fst snd] in Ha', Hb.
    apply lookup_removelast in Ha' as [Ha' _].
    rewrite lookup_tail_list in Hb.
    assert (a' = a) by congruence. subst a'.
    exists a, b. repeat split; auto using flt_mul_negative.
  - intros i Hlen. rewrite lookup_map_list.
    assert (Hn : exists u, near !! i = Some u).
    { apply lookup_lt_is_Some. lia. }
    destruct Hn as [u Hu].
    assert (Hf : (prod ++ [false])%list !! i = Some false).
    { rewrite lookup_app_r by lia.
      replace (i - length prod)%nat with 0%nat by lia. reflexivity. }
    assert (Hc : combine near (prod ++ [false])%list !! i = Some (u, false)).
    { apply lookup_combine. split; assumption. }
    rewrite Hc. cbn. rewrite andb_false_r. reflexivity.
Qed.

End ZeroCrossing.

Section PhaseShift.
Import Harmonic.
Local Open Scope R_scope.

(** X12. [shift_pm_pi] moves every entry by at most one turn, to an angle
    with the same sine and cosine. The result lies in [(-pi, pi]]
    exactly for the entries in [(-3*pi, 3*pi]]: an entry further away
    stays outside. *)
Theorem shift_pm_pi_single_turn (phase : list R) :
  length (shift_pm_pi phase) = length phase
  /\ forall i x, phase !! i = Some x ->
       exists y, shift_pm_pi phase !! i = Some y
         /\ (y = x \/ y = x - 2 * PI \/ y = x + 2 * PI)
         /\ cos y = cos x /\ sin y = sin x
         /\ (- PI < y <= PI <-> - (3 * PI) < x <= 3 * PI).
Proof.
  unfold shift_pm_pi. split; [now rewrite !length_map|].
  intros i x Hx. rewrite !lookup_map_list, Hx. cbn.
  eexists. split; [reflexivity|].
  pose proof PI_RGT_0 as Hpi.
  assert (Hdown : cos (x - 2 * PI) = cos x /\ sin (x - 2 * PI) = sin x).
  { rewrite cos_minus, sin_minus, cos_2PI, sin_2PI. split; ring. }
  assert (Hup : cos (x + 2 * PI) = cos x /\ sin (x + 2 * PI) = sin x).
  { rewrite cos_plus, sin_plus, cos_2PI, sin_2PI. split; ring. }
  destruct (Rlt_dec PI x) as [Hgt|Hle].
  - destruct (Rle_dec (x - 2 * PI) (- PI)) as [H2|H2]; [lra|].
    split; [auto|]. split; [apply Hdown|]. split; [apply Hdown|]. lra.
  - destruct (Rle_dec x (- PI)) as [H2|H2].
    + split; [auto|]. split; [apply Hup|]. split; [apply Hup|]. lra.
    + split; [auto|]. split; [reflexivity|]. split; [reflexivity|]. lra.
Qed.

End PhaseShift.
Section NonNegative.
Import Num.

Lemma fle_zero_fabs (x : fnum) :
  isnan x = false -> fle (Fin 0) (fabs x) = true.
Proof.
  destruct x as [q| | |]; try reflexivity; try discriminate.
  intros _. cbn [fabs]. apply fle_Fin. apply Qabs_nonneg.
Qed.

Lemma fle_zero_fadd (a b : fnum) :
  fle (Fin 0) a = true -> fle (Fin 0) b = true ->
  fle (Fin 0) (fadd a b) = true.
Proof.
  destruct a as [p| | |], b as [q| | |]; try discriminate; try reflexivity.
  rewrite !fle_Fin. cbn [fadd]. intros Hp Hq. apply fle_Fin.
  rewrite Qred_correct. Lqa.lra.
Qed.

Lemma fle_zero_fold (l : vec) (acc : fnum) :
  fle (Fin 0) acc = true ->
  Forall (fun x => fle (Fin 0) x = true) l ->
  fle (Fin 0) (fold_left fadd l acc) = true.
Proof.
  intros Hacc Hl. revert acc Hacc.
  induction Hl as [|x l Hx _ IH]; intros acc Hacc; [exact Hacc|].
  cbn [fold_left]. apply IH. apply fle_zero_fadd; assumption.
Qed.

Lemma has_nan_false (v : vec) :
  has_nan v = false -> Forall (fun x => isnan x = false) v.
Proof.
  induction v as [|x v IH]; [constructor|].
  cbn [has_nan existsb]. intros H. apply orb_false_iff in H as [Hx Hv].
  constructor; [exact Hx | apply IH, Hv].
Qed.

Lemma fle_fmaximum (d c m : fnum) :
  fle d c = true -> isnan m = false -> fle d (fmaximum c m) = true.
Proof.
  intros Hdc Hm. unfold fmaximum.
  assert (Hc : isnan c = false).
  { destruct d, c; try reflexivity; discriminate. }
  rewrite Hc, Hm. cbn [orb].
  destruct (flt c m) eqn:Hlt; [|exact Hdc].
  destruct d as [d| | |], c as [c| | |], m as [m| | |];
    try discriminate; try reflexivity.
  apply fle_Fin. apply fle_Fin in Hdc. apply flt_Fin in Hlt. Lqa.lra.
Qed.

End NonNegative.

Section Conditioning.
Import Num Harmonic.

Lemma mean_abs_not_nan (v : vec) :
  v <> [] -> has_nan v = false -> isnan (mean_abs v) = false.
Proof.
  intros Hne Hnan. unfold mean_abs, vsum.
  assert (Hsum : fle (Fin 0) (fold_left fadd (map fabs v) (Fin 0)) = true).
  { apply fle_zero_fold; [reflexivity|].
    apply Forall_map. eapply Forall_impl; [apply has_nan_false, Hnan|].
    intros x Hx. apply fle_zero_fabs, Hx. }
  destruct v as [|x v]; [congruence|].
  set (s := fold_left fadd (map fabs (x :: v)) (Fin 0)) in *.
  cbn [length]. rewrite Nat2Z.inj_succ.
  destruct s as [q| | |]; try discriminate.
  - cbn [fdiv]. destruct (Qeq_bool _ 0) eqn:Hz; [|reflexivity].
    apply Qeq_bool_eq in Hz. unfold Qeq in Hz. cbn in Hz. lia.
  - cbn [fdiv]. destruct (Qeq_bool _ 0) eqn:Hz; [reflexivity|].
    unfold Qsgn. cbn [fsign inject_Z Qnum].
    destruct (Z.succ (Z.of_nat (length v))) eqn:Hs; try lia. reflexivity.
Qed.

Lemma length_slice_of {A} (a b : nat) (l : list A) :
  length (slice_of a b l) = Nat.min (b - a) (length l - a).
Proof. unfold slice_of. rewrite length_take, length_drop. reflexivity. Qed.

Lemma length_update_slice {A} (a b : nat) (f : A -> A) (l : list A) :
  length (update_slice a b f l) = length l.
Proof.
  unfold update_slice.
  rewrite !length_app, length_map, length_slice_of, length_take, length_drop.
  lia.
Qed.

Lemma length_last_entries {A} (m : nat) (l : list A) :
  length (last_entries m l) = Nat.min m (length l).
Proof. unfold last_entries. rewrite length_drop. lia. Qed.

Lemma length_flat_repeat {A} (n : nat) (l : list A) :
  length (flat_map (fun x => repeat x n) l) = (length l * n)%nat.
Proof.
  induction l as [|x l IH]; [reflexivity|].
  cbn [flat_map length]. rewrite length_app, repeat_length, IH. lia.
Qed.

(** The loop keeps the length of [CtoP]. *)
Lemma conditioning_loop_length (X : vec) (Ndof : nat) (hs : list nat)
    (hindex haszero : nat) (C C' : vec) :
  conditioning_loop X Ndof hs hindex haszero C = Ok C' ->
  length C' = length C.
Proof.
  revert hindex haszero C.
  induction hs as [|k hs IH]; intros hindex haszero C.
  - intros [= <-]. reflexivity.
  - cbn [conditioning_loop].
    destruct (Nat.eqb k 0); [destruct (Nat.eqb hindex 0)|];
      cbn [mbind result_bind]; try discriminate;
      intros H; apply IH in H; rewrite H; apply length_update_slice.
Qed.

(** The loop raises exactly when a zeroth harmonic is met after the
    first position. *)
Lemma conditioning_loop_ok (X : vec) (Ndof : nat) (hs : list nat)
    (hindex haszero : nat) (C : vec) :
  is_ok (conditioning_loop X Ndof hs hindex haszero C) = true
  <-> Forall (fun k => k <> 0%nat)
        (if Nat.eqb hindex 0 then tail hs else hs).
Proof.
  revert hindex haszero C.
  induction hs as [|k hs IH]; intros hindex haszero C.
  - cbn. split; [intros _; destruct (Nat.eqb hindex 0); constructor | auto].
  - cbn [conditioning_loop tail].
    destruct (Nat.eqb_spec k 0) as [-> | Hk];
      [destruct (Nat.eqb_spec hindex 0) as [-> | Hh]|];
      cbn [mbind result_bind].
    + rewrite IH. reflexivity.
    + cbn [is_ok]. split; [discriminate|].
      intros H. inversion H; congruence.
    + rewrite IH. cbn [Nat.eqb].
      destruct (Nat.eqb hindex 0).
      * reflexivity.
      * split; [intros H; constructor; assumption|].
        intros H. inversion H; assumption.
Qed.

Lemma Forall_update_slice {A} (P : A -> Prop) (a b : nat) (f : A -> A)
    (l : list A) :
  Forall P l -> (slice_of a b l <> [] -> forall c, P c -> P (f c)) ->
  Forall P (update_slice a b f l).
Proof.
  intros Hl Hf. unfold update_slice.
  apply Forall_app. split; [apply Forall_take, Hl|].
  apply Forall_app. split; [|apply Forall_drop, Hl].
  apply Forall_map.
  destruct (slice_of a b l) as [|c s] eqn:Hs; [constructor|].
  assert (Hall : Forall P (c :: s)).
  { rewrite <- Hs. unfold slice_of. apply Forall_take, Forall_drop, Hl. }
  eapply Forall_impl; [exact Hall|]. intros x Hx. apply Hf; [discriminate|].
  exact Hx.
Qed.

Lemma has_nan_slice (a b : nat) (X : vec) :
  has_nan X = false -> has_nan (slice_of a b X) = false.
Proof.
  intros H. apply has_nan_false in H.
  assert (Hs : Forall (fun x => isnan x = false) (slice_of a b X)).
  { unfold slice_of. apply Forall_take, Forall_drop, H. }
  clear H. induction Hs as [|x s Hx _ IH]; [reflexivity|].
  cbn [has_nan existsb]. rewrite Hx. exact IH.
Qed.

(** The loop never lowers an entry of [CtoP], as long as [X] holds no
    NaN. *)
Lemma conditioning_loop_bound (d : fnum) (X : vec) (Ndof : nat)
    (hs : list nat) (hindex haszero : nat) (C C' : vec) :
  has_nan X = false -> length C = length X ->
  conditioning_loop X Ndof hs hindex haszero C = Ok C' ->
  Forall (fun c => fle d c = true) C ->
  Forall (fun c => fle d c = true) C'.
Proof.
  intros Hnan. revert hindex haszero C.
  assert (Hstep : forall a b C, length C = length X ->
            Forall (fun c => fle d c = true) C ->
            Forall (fun c => fle d c = true)
              (update_slice a b
                 (fun c => fmaximum c (mean_abs (slice_of a b X))) C)).
  { intros a b C Hlen HC. apply Forall_update_slice; [exact HC|].
    intros Hne c Hc. apply fle_fmaximum; [exact Hc|].
    apply mean_abs_not_nan; [|apply has_nan_slice, Hnan].
    intros Hnil. apply Hne. apply length_zero_iff_nil.
    apply (f_equal length) in Hnil. rewrite length_slice_of in Hnil |- *.
    cbn in Hnil. lia. }
  induction hs as [|k hs IH]; intros hindex haszero C Hlen.
  - intros [= <-]. auto.
  - cbn [conditioning_loop].
    destruct (Nat.eqb k 0); [destruct (Nat.eqb hindex 0)|];
      cbn [mbind result_bind]; try discriminate;
      intros H HC; (eapply IH; [|exact H|apply Hstep; assumption]);
      rewrite length_update_slice; exact Hlen.
Qed.

(** When [CtoP] has the length of [X], the assignment to the last [m]
    entries goes through and keeps the length. *)
Lemma condition_extras_same_length (X : vec) (m : nat) (C : vec) :
  length C = length X ->
  exists C',
    condition_extras X m C = Ok C'
    /\ length C' = length X
    /\ forall d, has_nan X = false ->
         Forall (fun c => fle d c = true) C ->
         Forall (fun c => fle d c = true) C'.
Proof.
  intros Hlen. unfold condition_extras.
  rewrite length_map, !length_last_entries, Hlen, Nat.eqb_refl.
  eexists. split; [reflexivity|]. split.
  - unfold vzip. rewrite length_app, length_map, length_combine,
      length_take, length_map, !length_last_entries. lia.
  - intros d Hnan HC. apply Forall_app. split; [apply Forall_take, HC|].
    unfold vzip.
    assert (HtC : Forall (fun c => fle d c = true) (last_entries m C))
      by (apply Forall_drop, HC).
    assert (HtX : Forall (fun x => isnan x = false)
                    (map fabs (last_entries m X))).
    { apply Forall_map. eapply Forall_impl;
        [apply Forall_drop, has_nan_false, Hnan|].
      intros x Hx. destruct x; try reflexivity; discriminate. }
    revert HtX. generalize (map fabs (last_entries m X)).
    induction HtC as [|c s Hc _ IH]; intros t Ht; [constructor|].
    destruct t as [|x t]; [constructor|].
    inversion Ht; subst. cbn [combine map fst snd]. constructor.
    + apply fle_fmaximum; assumption.
    + apply IH. assumption.
Qed.

(** X13. With a float [delta], [harmonic_wise_conditioning] returns exactly
    when no harmonic is repeated and the zeroth harmonic, if any, comes
    first; the vector it returns has the size of [X], whatever [Ndof]
    and the number of extra unknowns are, and when [X] and [delta] hold
    no NaN every entry is at least [delta]. *)
Theorem conditioning_float_delta (X : vec) (Ndof : nat) (h : list nat)
    (d : fnum) :
  (is_ok (harmonic_wise_conditioning X Ndof h (DeltaFloat d)) = true
   <-> NoDup h /\ Forall (fun k => k <> 0%nat) (tail h))
  /\ forall CtoP,
       harmonic_wise_conditioning X Ndof h (DeltaFloat d) = Ok CtoP ->
       length CtoP = length X
       /\ (has_nan X = false -> isnan d = false ->
           Forall (fun c => fle d c = true) CtoP).
Proof.
  unfold harmonic_wise_conditioning.
  destruct (decide (NoDup h)) as [Hnd|Hdup].
  2:{ rewrite (Nhc_dup h Hdup). cbn [mbind result_bind is_ok].
      split; [|discriminate].
      split; [discriminate | intros [? _]; contradiction]. }
  rewrite (Nhc_NoDup h Hnd). cbn [mbind result_bind].
  set (C0 := map (fun _ : fnum => d) X).
  assert (HC0 : length C0 = length X) by apply length_map.
  pose proof (conditioning_loop_ok X Ndof h 0 0 C0) as Hok.
  cbn [Nat.eqb] in Hok.
  destruct (conditioning_loop X Ndof h 0 0 C0) as [C1|e] eqn:Hloop;
    cbn [mbind result_bind is_ok] in *.
  2:{ split; [|discriminate].
      split; [discriminate|]. intros [_ H]. apply Hok in H. discriminate. }
  pose proof (conditioning_loop_length _ _ _ _ _ _ _ Hloop) as HC1.
  rewrite HC0 in HC1.
  destruct (condition_extras_same_length X
              (Z.to_nat (Z.of_nat (length X)
                         - Z.of_nat (count_components h * Ndof))) C1 HC1)
    as (C2 & Hext & HC2 & Hbound).
  split.
  - split; [intros _; split; [exact Hnd | apply Hok; reflexivity]|].
    intros _. destruct (_ <? _)%Z; [rewrite Hext|]; reflexivity.
  - intros CtoP Hres.
    assert (Hd : has_nan X = false -> isnan d = false ->
                 Forall (fun c => fle d c = true) C1).
    { intros Hnan Hdn.
      apply (conditioning_loop_bound d _ _ _ _ _ _ _ Hnan HC0 Hloop).
      unfold C0. apply Forall_map. apply Forall_forall. intros x _.
      destruct d; try reflexivity; try discriminate.
      apply fle_Fin. apply Qle_refl. }
    destruct (_ <? _)%Z.
    + rewrite Hext in Hres. injection Hres as <-.
      split; [exact HC2 | intros; apply Hbound; auto].
    + injection Hres as <-. split; [exact HC1 | exact Hd].
Qed.

End Conditioning.

Section ConditioningArray.
Import Num Harmonic.

Lemma Nhc_Ok (h : list nat) (n : nat) :
  Nhc h = Ok n -> NoDup h /\ n = count_components h.
Proof.
  intros H. destruct (decide (NoDup h)) as [Hnd|Hdup].
  - rewrite (Nhc_NoDup h Hnd) in H. injection H as <-. auto.
  - rewrite (Nhc_dup h Hdup) in H. discriminate.
Qed.

(** X14. With a [delta] that is not a float and extra unknowns after the
    harmonic ones, [harmonic_wise_conditioning] works only while there
    are fewer than [2*Ndof] extras: the cut [CtoP[:(m-2*Ndof)]] then
    removes the surplus of the last column and the result has the size
    of [X]; from [m = 2*Ndof] on it keeps [m-2*Ndof] entries and the
    assignment to [CtoP[-m:]] cannot be broadcast, so the call always
    raises. *)
Theorem conditioning_array_delta_extras (X : vec) (Ndof : nat)
    (h : list nat) (d : vec) (nhc : nat) :
  Nhc h = Ok nhc -> (0 < Ndof)%nat -> (nhc * Ndof < length X)%nat ->
  let m := (length X - nhc * Ndof)%nat in
  ((2 * Ndof <= m)%nat ->
   is_ok (harmonic_wise_conditioning X Ndof h (DeltaArray d)) = false)
  /\ ((m < 2 * Ndof)%nat -> h <> [] ->
      Forall (fun k => k <> 0%nat) (tail h) ->
      length d = S (length h) ->
      exists CtoP,
        harmonic_wise_conditioning X Ndof h (DeltaArray d) = Ok CtoP
        /\ length CtoP = length X).
Proof.
  intros HNhc HNdof Hextra m.
  unfold harmonic_wise_conditioning. rewrite HNhc. cbn [mbind result_bind].
  apply Nhc_Ok in HNhc as [Hnd Hn].
  set (mz := (Z.of_nat (length X) - Z.of_nat (nhc * Ndof))%Z).
  assert (Hmz : mz = Z.of_nat m) by (unfold mz, m; lia).
  assert (Hpos : (0 <? mz)%Z = true) by (apply Z.ltb_lt; lia).
  rewrite Hpos. split.
  - intros Hbig.
    destruct (delta_columns Ndof h mz d) as [C0|e] eqn:Hcols;
      cbn [mbind result_bind]; [|reflexivity].
    assert (HC0 : (length C0 <= m - 2 * Ndof)%nat).
    { unfold delta_columns in Hcols. rewrite Hpos in Hcols.
      destruct h as [|k0 h']; [discriminate|].
      cbn [mbind result_bind] in Hcols.
      match type of Hcols with
      | context [mbind _ ?r] => destruct r as [row|e]
      end; cbn [mbind result_bind] in Hcols; [|discriminate].
      replace (mz - 2 * Z.of_nat Ndof <? 0)%Z with false in Hcols
        by (symmetry; apply Z.ltb_ge; lia).
      injection Hcols as <-. rewrite length_take. lia. }
    destruct (conditioning_loop X Ndof h 0 0 C0) as [C1|e] eqn:Hloop;
      cbn [mbind result_bind]; [|reflexivity].
    apply conditioning_loop_length in Hloop.
    unfold condition_extras.
    rewrite length_map, !length_last_entries.
    replace (Z.to_nat mz) with m by lia.
    replace (Nat.eqb (Nat.min m (length C1)) (Nat.min m (length X)))
      with false by (symmetry; apply Nat.eqb_neq; lia).
    assert (Hlen : length (map fabs (last_entries m X)) = m).
    { rewrite length_map, length_last_entries. lia. }
    destruct (map fabs (last_entries m X)) as [|x [|y t]]; cbn in Hlen;
      try reflexivity. lia.
  - intros Hsmall Hne Htail Hd.
    assert (Hvalid : valid_h h) by (split; [|split]; assumption).
    pose proof (count_components_valid h Hvalid) as Hcount.
    assert (Hcols : exists C0, delta_columns Ndof h mz d = Ok C0
                               /\ length C0 = length X).
    { unfold delta_columns. rewrite Hpos.
      destruct h as [|k0 h']; [congruence|].
      cbn [mbind result_bind]. rewrite Hd.
      replace (length (k0 :: h') + 1)%nat with (S (length (k0 :: h')))
        by lia.
      rewrite Nat.eqb_refl. cbn [mbind result_bind].
      replace (mz - 2 * Z.of_nat Ndof <? 0)%Z with true
        by (symmetry; apply Z.ltb_lt; lia).
      eexists. split; [reflexivity|].
      rewrite length_take, length_drop, length_flat_repeat, Hd.
      assert (Hb : (if Nat.eqb k0 0 then 1 else 0)%nat
                   = zero_offset (k0 :: h'))
        by (destruct k0; reflexivity).
      rewrite Hb. subst nhc. rewrite Hcount in *.
      assert (Hz : (zero_offset (k0 :: h') <= 1)%nat)
        by (destruct k0; cbn; lia).
      cbn [length] in *. unfold m in *. nia. }
    destruct Hcols as (C0 & -> & HC0). cbn [mbind result_bind].
    pose proof (conditioning_loop_ok X Ndof h 0 0 C0) as Hok.
    cbn [Nat.eqb] in Hok.
    destruct (conditioning_loop X Ndof h 0 0 C0) as [C1|e] eqn:Hloop;
      cbn [mbind result_bind is_ok] in *.
    2:{ apply Hok in Htail. discriminate. }
    apply conditioning_loop_length in Hloop. rewrite HC0 in Hloop.
    destruct (condition_extras_same_length X (Z.to_nat mz) C1 Hloop)
      as (C2 & -> & HC2 & _).
    exists C2. split; [reflexivity | exact HC2].
Qed.

End ConditioningArray.

Section ConditioningExamples.
Import Num Harmonic.

(** One degree of freedom and the first harmonic alone: with one
    extra unknown the per-harmonic floors work, with two they raise. *)
Lemma conditioning_array_delta_extras_witness :
  is_ok (harmonic_wise_conditioning [Fin 1; Fin 2; Fin 3; Fin 4] 1 [1%nat]
           (DeltaArray [Fin 1; Fin 1])) = false
  /\ exists CtoP,
       harmonic_wise_conditioning [Fin 1; Fin 2; Fin 3] 1 [1%nat]
         (DeltaArray [Fin 1; Fin 1]) = Ok CtoP
       /\ length CtoP = 3%nat.
Proof.
  split.
  - apply (conditioning_array_delta_extras [Fin 1; Fin 2; Fin 3; Fin 4] 1
             [1%nat] [Fin 1; Fin 1] 2 eq_refl); cbn; lia.
  - apply (conditioning_array_delta_extras [Fin 1; Fin 2; Fin 3] 1
             [1%nat] [Fin 1; Fin 1] 2 eq_refl); cbn;
      try lia; try congruence; constructor.
Defined.

(** Three degrees of freedom are not needed to see the floor: the
    first harmonic of one degree of freedom, with one extra unknown. *)
Lemma conditioning_float_delta_witness :
  exists CtoP,
    harmonic_wise_conditioning [Fin 0; Fin (1 # 2); Fin (-4)] 1 [1%nat]
      (DeltaFloat (Fin (1 # 10))) = Ok CtoP
    /\ length CtoP = 3%nat
    /\ Forall (fun c => fle (Fin (1 # 10)) c = true) CtoP.
Proof.
  pose proof (conditioning_float_delta [Fin 0; Fin (1 # 2); Fin (-4)] 1
                [1%nat] (Fin (1 # 10))) as [Hok Hres].
  destruct (harmonic_wise_conditioning [Fin 0; Fin (1 # 2); Fin (-4)] 1
              [1%nat] (DeltaFloat (Fin (1 # 10)))) as [C|e] eqn:Hrun.
  - exists C. destruct (Hres C eq_refl) as [Hlen Hfloor].
    split; [reflexivity|]. split; [exact Hlen|].
    apply Hfloor; reflexivity.
  - exfalso. cbn [is_ok] in Hok.
    assert (H : false = true); [|discriminate H].
    apply Hok. split; [|constructor].
    apply NoDup_singleton.
Defined.

End ConditioningExamples.
Section TimeDerivative.
Import Harmonic.
Local Open Scope R_scope.

(** The rows of the full coefficient array that no harmonic of [h]
    addresses stay zero. *)
Lemma spread_rest (h : list nat) (X0 X : rarray) :
  valid_h h -> nrows X0 = count_components h ->
  spread (list_max_nat h) h X0 = Ok X ->
  forall r d, (r = 0%nat -> starts_with_zero h = false) ->
    (forall k, In k (drop (zero_offset h) h) ->
       r <> (2 * k - 1)%nat /\ r <> (2 * k)%nat) ->
    entry X r d = 0.
Proof.
  intros Hvalid Hrows Hrun r d Hr Hoff.
  pose proof (valid_h_bounds h Hvalid) as Hb.
  rewrite (count_components_valid h Hvalid) in Hrows.
  destruct Hvalid as (Hne & Hnd & _).
  set (Nh := list_max_nat h) in *.
  assert (Hcos : forall a b : nat,
            (2 * Z.of_nat a - 1 = 2 * Z.of_nat b - 1)%Z -> a = b)
    by (intros; lia).
  assert (Hsin : forall a b : nat,
            (2 * Z.of_nat a = 2 * Z.of_nat b)%Z -> a = b)
    by (intros; lia).
  assert (Hnd' : NoDup (drop (zero_offset h) h)).
  { destruct h as [|[|k0] h']; cbn [zero_offset]; try rewrite drop_0;
      try exact Hnd.
    inversion Hnd; assumption. }
  unfold spread in Hrun. fold Nh in Hrun.
  set (hs := drop (zero_offset h) h) in *.
  assert (Hcosr : forall n : nat, n = (2 * Nh + 1)%nat ->
            Forall (fun k => (0 <= 2 * Z.of_nat k - 1 < Z.of_nat n)%Z) hs).
  { intros n ->. eapply Forall_impl; [exact Hb|]. cbn. intros k [? ?]. lia. }
  assert (Hsinr : forall n : nat, n = (2 * Nh + 1)%nat ->
            Forall (fun k => (0 <= 2 * Z.of_nat k < Z.of_nat n)%Z) hs).
  { intros n ->. eapply Forall_impl; [exact Hb|]. cbn. intros k [? ?]. lia. }
  assert (Hpos : forall k, In k hs -> (0 < k)%nat).
  { intros k Hk. rewrite Forall_forall in Hb.
    apply list_elem_of_In, Hb in Hk. lia. }
  assert (Hc1 : forall k, In k hs -> Z.to_nat (2 * Z.of_nat k - 1) <> r).
  { intros k Hk. destruct (Hoff k Hk). specialize (Hpos k Hk). lia. }
  assert (Hc2 : forall k, In k hs -> Z.to_nat (2 * Z.of_nat k) <> r).
  { intros k Hk. destruct (Hoff k Hk). lia. }
  destruct h as [|[|k0] h']; [congruence | |];
    cbn [zero_offset starts_with_zero tail length] in *;
    try rewrite drop_0 in *; subst hs.
  - change (drop 1 (0%nat :: h')) with h' in *.
    replace (Nat.ltb 0 (nrows X0)) with true in Hrun
      by (symmetry; apply Nat.ltb_lt; lia).
    cbn [mbind result_bind] in Hrun.
    destruct (assign_rows_spec
                (set_row (azeros 0 (2 * Nh + 1) (ncols X0)) 0 (entry X0 0))
                (rows_from 1 X0) (fun k => (2 * Z.of_nat k - 1)%Z) h'
                Hcos Hnd')
      as (X2 & HX2 & Hr2 & _ & _ & Hold2).
    { cbn [nrows rows_from].
      replace (nrows X0 + 1 - 1)%nat with (2 * length h' + 1)%nat by lia.
      apply div2_double_succ. }
    { apply Hcosr. reflexivity. }
    rewrite HX2 in Hrun. cbn [mbind result_bind] in Hrun.
    destruct (assign_rows_spec X2 (rows_from 2 X0)
                (fun k => (2 * Z.of_nat k)%Z) h' Hsin Hnd')
      as (X3 & HX3 & _ & _ & _ & Hold3).
    { cbn [nrows rows_from].
      replace (nrows X0 + 1 - 2)%nat with (2 * length h')%nat by lia.
      apply div2_double. }
    { apply Hsinr. rewrite Hr2. reflexivity. }
    rewrite HX3 in Hrun. injection Hrun as <-.
    rewrite Hold3, Hold2 by assumption.
    cbn [entry set_row azeros].
    replace (Nat.eqb r 0) with false; [reflexivity|].
    symmetry. apply Nat.eqb_neq. intros Hr0. specialize (Hr Hr0).
    discriminate.
  - destruct (assign_rows_spec (azeros 0 (2 * Nh + 1) (ncols X0))
                (rows_from 0 X0) (fun k => (2 * Z.of_nat k - 1)%Z)
                (S k0 :: h') Hcos Hnd')
      as (X1 & HX1 & Hr1 & _ & _ & Hold1).
    { cbn [nrows rows_from length].
      replace (nrows X0 + 1 - 0)%nat with (2 * S (length h') + 1)%nat by lia.
      apply div2_double_succ. }
    { apply Hcosr. reflexivity. }
    rewrite HX1 in Hrun. cbn [mbind result_bind] in Hrun.
    destruct (assign_rows_spec X1 (rows_from 1 X0)
                (fun k => (2 * Z.of_nat k)%Z) (S k0 :: h') Hsin Hnd')
      as (X2 & HX2 & _ & _ & _ & Hold2).
    { cbn [nrows rows_from length].
      replace (nrows X0 + 1 - 1)%nat with (2 * S (length h'))%nat by lia.
      apply div2_double. }
    { apply Hsinr. rewrite Hr1. reflexivity. }
    rewrite HX2 in Hrun. injection Hrun as <-.
    rewrite Hold2, Hold1 by assumption. reflexivity.
Qed.

(** *** The derivative matrix *)

Lemma derivative_matrix_shape (D : rarray) (hs : list nat) :
  nrows (derivative_matrix D hs) = nrows D
  /\ ncols (derivative_matrix D hs) = ncols D.
Proof.
  revert D. induction hs as [|k hs IH]; intros D; [split; reflexivity|].
  cbn [derivative_matrix]. destruct (IH
    (set_entry (set_entry D ((k - 1) * 2 + 1) ((k - 1) * 2 + 2) (INR k))
       ((k - 1) * 2 + 2) ((k - 1) * 2 + 1) (-1 * INR k))) as [-> ->].
  split; reflexivity.
Qed.

Lemma set_entry_entry (D : rarray) (i j i' j' : nat) (x : R) :
  entry (set_entry D i j x) i' j'
  = if Nat.eqb i' i && Nat.eqb j' j then x else entry D i' j'.
Proof. reflexivity. Qed.

(** An entry that is of no harmonic keeps its value. *)
Lemma derivative_matrix_other (D : rarray) (hs : list nat) (i j : nat) :
  Forall (fun k => (0 < k)%nat) hs ->
  (forall k, In k hs ->
     ~ (i = (2 * k - 1)%nat /\ j = (2 * k)%nat)
     /\ ~ (i = (2 * k)%nat /\ j = (2 * k - 1)%nat)) ->
  entry (derivative_matrix D hs) i j = entry D i j.
Proof.
  intros Hpos. revert D.
  induction Hpos as [|k hs Hk _ IH]; intros D Hoff; [reflexivity|].
  cbn [derivative_matrix].
  rewrite IH by (intros k' Hk'; apply Hoff; right; exact Hk').
  destruct (Hoff k (or_introl eq_refl)) as [H1 H2].
  rewrite !set_entry_entry.
  replace (Nat.eqb i ((k - 1) * 2 + 2) && Nat.eqb j ((k - 1) * 2 + 1))
    with false.
  2:{ symmetry. apply andb_false_iff.
      destruct (Nat.eqb_spec i ((k - 1) * 2 + 2)); [|auto].
      destruct (Nat.eqb_spec j ((k - 1) * 2 + 1)); [|auto].
      exfalso. apply H2. lia. }
  replace (Nat.eqb i ((k - 1) * 2 + 1) && Nat.eqb j ((k - 1) * 2 + 2))
    with false; [reflexivity|].
  symmetry. apply andb_false_iff.
  destruct (Nat.eqb_spec i ((k - 1) * 2 + 1)); [|auto].
  destruct (Nat.eqb_spec j ((k - 1) * 2 + 2)); [|auto].
  exfalso. apply H1. lia.
Qed.

(** The two entries of a harmonic [k]: [k] in the cosine row and [-k]
    in the sine row. *)
Lemma derivative_matrix_harmonic (D : rarray) (hs : list nat) (k : nat) :
  Forall (fun k => (0 < k)%nat) hs -> In k hs ->
  entry (derivative_matrix D hs) (2 * k - 1) (2 * k) = INR k
  /\ entry (derivative_matrix D hs) (2 * k) (2 * k - 1) = -1 * INR k.
Proof.
  intros Hpos. revert D.
  induction Hpos as [|k' hs Hk' Hpos IH]; intros D Hin; [destruct Hin|].
  cbn [derivative_matrix].
  destruct (In_dec Nat.eq_dec k hs) as [Hrest|Hnot]; [apply IH, Hrest|].
  destruct Hin as [-> | Hin]; [|contradiction].
  assert (Hk : (0 < k)%nat) by exact Hk'.
  rewrite !derivative_matrix_other; try exact Hpos.
  - rewrite !set_entry_entry.
    replace ((k - 1) * 2 + 1)%nat with (2 * k - 1)%nat by lia.
    replace ((k - 1) * 2 + 2)%nat with (2 * k)%nat by lia.
    rewrite !Nat.eqb_refl. cbn [andb].
    replace (Nat.eqb (2 * k - 1) (2 * k)) with false
      by (symmetry; apply Nat.eqb_neq; lia).
    cbn [andb]. split; reflexivity.
  - intros k'' Hk''. assert (k'' <> k) by congruence.
    rewrite Forall_forall in Hpos.
    pose proof (Hpos k'' (proj2 (list_elem_of_In _ _) Hk'')). lia.
  - intros k'' Hk''. assert (k'' <> k) by congruence.
    rewrite Forall_forall in Hpos.
    pose proof (Hpos k'' (proj2 (list_elem_of_In _ _) Hk'')). lia.
Qed.


(** [matrix_power D 1 @ X] is [D @ X]. *)
Lemma matmul_power_one (D X : rarray) (n r d : nat) :
  nrows D = n -> ncols D = n ->
  entry (matmul (matrix_power D 1) X) r d
  = Rsum (fun c => entry D r c * entry X c d) n.
Proof.
  intros Hr Hc. cbn [matrix_power matmul entry ncols identity].
  rewrite Hr, Hc. apply Rsum_ext. intros c Hlt. f_equal.
  rewrite (Rsum_single _ n c Hlt).
  - rewrite Nat.eqb_refl. lra.
  - intros l _ Hne.
    replace (Nat.eqb l c) with false by (symmetry; apply Nat.eqb_neq; lia).
    lra.
Qed.

(** The rows of the product of the derivative matrix with coefficients
    that vanish off the harmonics [hs]: the cosine row of harmonic [k]
    becomes [k] times its sine row, its sine row [-k] times its cosine
    row, and the row of the zeroth harmonic vanishes. *)
Lemma rotated_rows (hs : list nat) (Nh : nat) (X : rarray) (d : nat) :
  Forall (fun k => (0 < k)%nat) hs ->
  (forall r, (0 < r)%nat ->
     (forall k, In k hs -> r <> (2 * k - 1)%nat /\ r <> (2 * k)%nat) ->
     entry X r d = 0) ->
  let n := (2 * Nh + 1)%nat in
  let D := derivative_matrix (azeros 0 n n) hs in
  Rsum (fun c => entry D 0 c * entry X c d) n = 0
  /\ forall k, (1 <= k <= Nh)%nat ->
       Rsum (fun c => entry D (2 * k - 1) c * entry X c d) n
       = INR k * entry X (2 * k) d
       /\ Rsum (fun c => entry D (2 * k) c * entry X c d) n
          = - INR k * entry X (2 * k - 1) d.
Proof.
  intros Hpos Hzero n D.
  assert (Hpos' : forall k, In k hs -> (0 < k)%nat).
  { intros k Hk. rewrite Forall_forall in Hpos.
    apply Hpos, list_elem_of_In, Hk. }
  assert (Hoff : forall i j,
            (forall k, In k hs ->
               ~ (i = (2 * k - 1)%nat /\ j = (2 * k)%nat)
               /\ ~ (i = (2 * k)%nat /\ j = (2 * k - 1)%nat)) ->
            entry D i j = 0).
  { intros i j H. unfold D. rewrite derivative_matrix_other by assumption.
    reflexivity. }
  split.
  - apply Rsum_zero. intros c _. rewrite Hoff; [lra|].
    intros k Hk. specialize (Hpos' k Hk). lia.
  - intros k Hk.
    destruct (In_dec Nat.eq_dec k hs) as [Hin|Hnot].
    + destruct (derivative_matrix_harmonic (azeros 0 n n) hs k Hpos Hin)
        as [Hc Hs]. fold D in Hc, Hs.
      split.
      * rewrite (Rsum_single _ n (2 * k)%nat); [rewrite Hc; reflexivity | |].
        { unfold n. lia. }
        intros c _ Hne. rewrite Hoff; [lra|].
        intros k' Hk'. specialize (Hpos' k' Hk'). lia.
      * rewrite (Rsum_single _ n (2 * k - 1)%nat);
          [rewrite Hs; lra | |].
        { unfold n. lia. }
        intros c _ Hne. rewrite Hoff; [lra|].
        intros k' Hk'. specialize (Hpos' k' Hk'). lia.
    + assert (Hne : forall k', In k' hs -> k' <> k) by congruence.
      rewrite (Hzero (2 * k)%nat), (Hzero (2 * k - 1)%nat).
      * split; (rewrite Rsum_zero; [lra|]); intros c _;
          (rewrite Hoff; [lra|]); intros k' Hk';
          specialize (Hpos' k' Hk'); specialize (Hne k' Hk'); lia.
      * lia.
      * intros k' Hk'. specialize (Hpos' k' Hk'). specialize (Hne k' Hk').
        lia.
      * lia.
      * intros k' Hk'. specialize (Hpos' k' Hk'). specialize (Hne k' Hk').
        lia.
Qed.

Lemma filter_nonzero_valid (h : list nat) :
  valid_h h ->
  List.filter (fun k => negb (Nat.eqb k 0)) h = drop (zero_offset h) h.
Proof.
  intros (Hne & _ & Htl).
  assert (Hrest : forall l, Forall (fun k => k <> 0%nat) l ->
            List.filter (fun k => negb (Nat.eqb k 0)) l = l).
  { induction 1 as [|k l Hk _ IH]; [reflexivity|].
    cbn [List.filter]. destruct k; [congruence|]. cbn. rewrite IH.
    reflexivity. }
  destruct h as [|[|k] h]; [congruence | |].
  - cbn [List.filter Nat.eqb negb zero_offset tail] in *.
    rewrite Hrest by exact Htl. reflexivity.
  - cbn [zero_offset]. rewrite drop_0. apply Hrest.
    constructor; [lia | exact Htl].
Qed.

(** *** Differentiating a trigonometric polynomial *)

Lemma derivable_pt_lim_eq (f g : R -> R) (x l : R) :
  (forall y, f y = g y) -> derivable_pt_lim f x l -> derivable_pt_lim g x l.
Proof.
  intros Hfg Hf eps Heps. destruct (Hf eps Heps) as [delta Hd].
  exists delta. intros t Ht Hlt. rewrite <- !Hfg. apply Hd; assumption.
Qed.

Lemma derivable_pt_lim_wave (a b c x : R) :
  derivable_pt_lim (fun t => a * cos (c * t) + b * sin (c * t)) x
    (c * b * cos (c * x) - c * a * sin (c * x)).
Proof.
  assert (Hlin : derivable_pt_lim (fun t => c * t) x c).
  { apply (derivable_pt_lim_eq (mult_real_fct c id)); [reflexivity|].
    replace c with (c * 1) at 2 by lra.
    apply derivable_pt_lim_scal, derivable_pt_lim_id. }
  assert (Hcos : derivable_pt_lim (fun t => cos (c * t)) x
                   (- sin (c * x) * c)).
  { apply (derivable_pt_lim_eq (comp cos (fun t => c * t)));
      [reflexivity|].
    apply derivable_pt_lim_comp; [exact Hlin | apply derivable_pt_lim_cos]. }
  assert (Hsin : derivable_pt_lim (fun t => sin (c * t)) x
                   (cos (c * x) * c)).
  { apply (derivable_pt_lim_eq (comp sin (fun t => c * t)));
      [reflexivity|].
    apply derivable_pt_lim_comp; [exact Hlin | apply derivable_pt_lim_sin]. }
  apply (derivable_pt_lim_eq
           (plus_fct (mult_real_fct a (fun t => cos (c * t)))
                     (mult_real_fct b (fun t => sin (c * t)))));
    [reflexivity|].
  replace (c * b * cos (c * x) - c * a * sin (c * x))
    with (a * (- sin (c * x) * c) + b * (cos (c * x) * c)) by ring.
  apply derivable_pt_lim_plus; apply derivable_pt_lim_scal; assumption.
Qed.

(** The derivative of [trig_poly] with respect to the scaled time. *)
Lemma trig_poly_derivative (F : rarray) (K d : nat) (x : R) :
  derivable_pt_lim (trig_poly F K d) x
    (Rsum (fun j => INR (S j) * entry F (2 * j + 2) d * cos (INR (S j) * x)
                    - INR (S j) * entry F (2 * j + 1) d
                      * sin (INR (S j) * x)) K).
Proof.
  unfold trig_poly.
  assert (Hsum : forall K,
    derivable_pt_lim
      (fun tau => Rsum (fun j => entry F (2 * j + 1) d * cos (INR (S j) * tau)
                                 + entry F (2 * j + 2) d
                                   * sin (INR (S j) * tau)) K) x
      (Rsum (fun j => INR (S j) * entry F (2 * j + 2) d * cos (INR (S j) * x)
                      - INR (S j) * entry F (2 * j + 1) d
                        * sin (INR (S j) * x)) K)).
  { clear K. induction K as [|K IH].
    - cbn [Rsum]. apply derivable_pt_lim_const.
    - cbn [Rsum].
      apply (derivable_pt_lim_eq
               (plus_fct
                  (fun tau => Rsum (fun j =>
                     entry F (2 * j + 1) d * cos (INR (S j) * tau)
                     + entry F (2 * j + 2) d * sin (INR (S j) * tau)) K)
                  (fun tau => entry F (2 * K + 1) d * cos (INR (S K) * tau)
                              + entry F (2 * K + 2) d
                                * sin (INR (S K) * tau))));
        [reflexivity|].
      apply derivable_pt_lim_plus; [exact IH|].
      apply derivable_pt_lim_wave. }
  apply (derivable_pt_lim_eq
           (plus_fct (fct_cte (entry F 0 d))
              (fun tau => Rsum (fun j =>
                 entry F (2 * j + 1) d * cos (INR (S j) * tau)
                 + entry F (2 * j + 2) d * sin (INR (S j) * tau)) K)));
    [reflexivity|].
  match goal with
  | |- derivable_pt_lim _ _ ?l => replace l with (0 + l) by lra
  end.
  apply derivable_pt_lim_plus; [apply derivable_pt_lim_const | apply Hsum].
Qed.

Lemma angle_sample (N m n : nat) : angle N m n = INR m * sample N n.
Proof. unfold angle, sample. unfold Rdiv. ring. Qed.

Lemma trig_series_poly (F : rarray) (K N n d : nat) :
  trig_series F K N n d = trig_poly F K d (sample N n).
Proof.
  unfold trig_series, trig_poly. f_equal. apply Rsum_ext. intros j _.
  rewrite angle_sample. reflexivity.
Qed.

End TimeDerivative.

Section TimeDerivativeMain.
Import Harmonic Examples.
Local Open Scope R_scope.

(** What [time_series_deriv] returns for a well-formed call, in terms
    of the full coefficient array [X] and of [Y], its product with the
    power of the derivative matrix when [order > 0]. *)
Lemma time_series_run (Nt : nat) (h : list nat) (X0 X : rarray)
    (order : nat) :
  valid_h h -> spread (list_max_nat h) h X0 = Ok X ->
  nrows X = (2 * list_max_nat h + 1)%nat ->
  (2 * list_max_nat h + 1 < Nt)%nat ->
  let n := (2 * list_max_nat h + 1)%nat in
  let Y := if Nat.ltb 0 order
           then matmul (matrix_power
                          (derivative_matrix (azeros 0 n n)
                             (drop (zero_offset h) h)) order) X
           else X in
  nrows Y = n ->
  time_series_deriv Nt h X0 order
  = Ok (ifft_real
          (fourier_rows
             (vstack Y (azeros 0 (2 * (Nt / 2 - 1 - list_max_nat h))
                          (ncols X0)))
             (2 * (Nt / 2 - 1) + 2))).
Proof.
  intros Hvalid HX Hr HNt n Y HY.
  pose proof (half_samples Nt _ HNt) as Hhalf.
  unfold time_series_deriv. rewrite (valid_h_zero_first h Hvalid).
  rewrite (filter_nonzero_valid h Hvalid).
  destruct Hvalid as (Hne & _).
  set (Nh := list_max_nat h) in *.
  replace (match h with
           | [] => Raise ValueError
           | _ :: _ => Ok Nh
           end) with (Ok (A := nat) Nh)
    by (destruct h; [congruence | reflexivity]).
  cbn [mbind result_bind]. rewrite HX. cbn [mbind result_bind].
  replace (Nat.ltb (2 * Nh + 1) Nt) with true
    by (symmetry; apply Nat.ltb_lt; exact HNt).
  cbn [negb]. fold n. fold Y.
  set (Nht := (Nt / 2 - 1)%nat) in *.
  set (F := vstack Y (azeros 0 (2 * (Nht - Nh)) (ncols X0))).
  assert (HF : nrows F = (2 * Nht + 1)%nat).
  { unfold F. cbn [nrows vstack azeros]. rewrite HY. unfold n. lia. }
  rewrite (fourier_rows_nrows F Nht _ HF), Nat.eqb_refl. reflexivity.
Qed.

(** X15. With [order = 1], a well-formed call of [time_series_deriv] returns
    the derivative, with respect to the scaled time [tau = 2*pi*n/N],
    of the series that [order = 0] returns: there is a trigonometric
    polynomial with harmonics up to [Nt/2 - 1], carrying the
    coefficients of [X0] at the harmonics of [h] and zero at the
    others, whose values at the
    [N = 2*(Nt/2 - 1) + 2] sample times are the entries of the first
    result and whose derivatives there are the entries of the second. *)
Theorem time_series_first_derivative (Nt : nat) (h : list nat)
    (X0 : rarray) :
  valid_h h -> nrows X0 = count_components h ->
  (2 * list_max_nat h + 1 < Nt)%nat ->
  let K := (Nt / 2 - 1)%nat in
  let N := (2 * K + 2)%nat in
  exists x0 x1 F,
    time_series_deriv Nt h X0 0 = Ok x0
    /\ time_series_deriv Nt h X0 1 = Ok x1
    /\ nrows x1 = N /\ ncols x1 = ncols X0
    /\ (starts_with_zero h = true -> forall d, entry F 0 d = entry X0 0 d)
    /\ (forall j k d, drop (zero_offset h) h !! j = Some k ->
          entry F (2 * k - 1) d = entry X0 (2 * j + zero_offset h) d
          /\ entry F (2 * k) d = entry X0 (2 * j + 1 + zero_offset h) d)
    /\ (forall r d, (r = 0%nat -> starts_with_zero h = false) ->
          (forall k, In k (drop (zero_offset h) h) ->
             r <> (2 * k - 1)%nat /\ r <> (2 * k)%nat) ->
          entry F r d = 0)
    /\ (forall n d, entry x0 n d = trig_poly F K d (sample N n))
    /\ (forall n d,
          derivable_pt_lim (trig_poly F K d) (sample N n) (entry x1 n d)).
Proof.
  intros Hvalid Hrows HNt K N.
  pose proof (half_samples Nt _ HNt) as Hhalf.
  pose proof (valid_h_bounds h Hvalid) as Hb.
  destruct (spread_spec h X0 Hvalid Hrows)
    as (X & HX & Hr & Hc & Hzero & Hharm).
  pose proof (spread_rest h X0 X Hvalid Hrows HX) as Hrest.
  set (Nh := list_max_nat h) in *. fold K in Hhalf.
  set (hs := drop (zero_offset h) h) in *.
  set (n := (2 * Nh + 1)%nat).
  set (D := derivative_matrix (azeros 0 n n) hs).
  set (Y := matmul (matrix_power D 1) X).
  set (pad := azeros 0 (2 * (K - Nh)) (ncols X0)).
  assert (HD : nrows D = n /\ ncols D = n).
  { unfold D. destruct (derivative_matrix_shape (azeros 0 n n) hs)
      as [-> ->]. split; reflexivity. }
  destruct HD as [HDr HDc].
  assert (HY : nrows Y = n) by (unfold Y; cbn; exact HDr).
  pose proof (time_series_run Nt h X0 X 0 Hvalid HX Hr HNt Hr) as Hrun0.
  pose proof (time_series_run Nt h X0 X 1 Hvalid HX Hr HNt HY) as Hrun1.
  cbn [Nat.ltb Nat.leb] in Hrun0, Hrun1.
  fold Nh K hs n D Y pad N in Hrun0, Hrun1.
  set (F := vstack X pad) in *. set (G := vstack Y pad) in *.
  assert (HF : nrows F = (2 * K + 1)%nat).
  { unfold F. cbn [nrows vstack azeros pad]. rewrite Hr. lia. }
  assert (HG : nrows G = (2 * K + 1)%nat).
  { unfold G. cbn [nrows vstack azeros pad]. rewrite HY. unfold n. lia. }
  assert (Hlow : forall r d, (r < n)%nat -> entry F r d = entry X r d).
  { intros r d Hlt. unfold F. cbn [entry vstack]. rewrite Hr. fold n.
    replace (Nat.ltb r n) with true by (symmetry; apply Nat.ltb_lt; lia).
    reflexivity. }
  assert (Hhigh : forall r d, (n <= r)%nat -> entry F r d = 0).
  { intros r d Hle. unfold F. cbn [entry vstack]. rewrite Hr. fold n.
    replace (Nat.ltb r n) with false by (symmetry; apply Nat.ltb_ge; lia).
    reflexivity. }
  assert (HlowG : forall r d, (r < n)%nat -> entry G r d = entry Y r d).
  { intros r d Hlt. unfold G. cbn [entry vstack]. rewrite HY.
    replace (Nat.ltb r n) with true by (symmetry; apply Nat.ltb_lt; lia).
    reflexivity. }
  assert (HhighG : forall r d, (n <= r)%nat -> entry G r d = 0).
  { intros r d Hle. unfold G. cbn [entry vstack]. rewrite HY.
    replace (Nat.ltb r n) with false by (symmetry; apply Nat.ltb_ge; lia).
    reflexivity. }
  assert (Hpos : Forall (fun k => (0 < k)%nat) hs).
  { eapply Forall_impl; [exact Hb|]. cbn. intros k [? _]. lia. }
  (* the coefficients of the second series are those of the first,
     rotated and scaled by the harmonic *)
  assert (Hrot : forall d,
            entry G 0 d = 0
            /\ forall k, (1 <= k)%nat ->
                 entry G (2 * k - 1) d = INR k * entry F (2 * k) d
                 /\ entry G (2 * k) d = - INR k * entry F (2 * k - 1) d).
  { intros d.
    destruct (rotated_rows hs Nh X d Hpos
                (fun r Hr => Hrest r d ltac:(lia)))
      as [H0 Hk]. fold n D in H0, Hk.
    split.
    - rewrite HlowG by (unfold n; lia). unfold Y.
      rewrite (matmul_power_one D X n 0 d HDr HDc). exact H0.
    - intros k Hk1. destruct (le_lt_dec k Nh) as [Hle|Hgt].
      + destruct (Hk k (conj Hk1 Hle)) as [Hcos Hsin].
        rewrite !HlowG, !Hlow by (unfold n; lia). unfold Y.
        rewrite !(matmul_power_one D X n _ d HDr HDc). split; assumption.
      + rewrite !HhighG, !Hhigh by (unfold n; lia). split; lra. }
  exists (ifft_real (fourier_rows F N)), (ifft_real (fourier_rows G N)), F.
  split; [exact Hrun0|]. split; [exact Hrun1|].
  split; [cbn [nrows ifft_real]; apply fourier_rows_nrows, HG|].
  split.
  { cbn [ncols ifft_real fourier_rows amap vstack row_of]. unfold G, Y.
    cbn [ncols vstack matmul]. exact Hc. }
  split; [intros Hz d; rewrite Hlow by (unfold n; lia); apply Hzero, Hz|].
  split.
  { intros j k d Hj.
    assert (Hk : (k <= Nh)%nat).
    { rewrite Forall_forall in Hb.
      apply list_elem_of_lookup_2, Hb in Hj. lia. }
    rewrite !Hlow by (unfold n; lia). apply Hharm, Hj. }
  split.
  { intros r d Hr0 Hoff. destruct (le_lt_dec n r) as [Hle|Hlt].
    - apply Hhigh, Hle.
    - rewrite Hlow by exact Hlt. apply Hrest; assumption. }
  split.
  { intros i d. unfold N. rewrite (synthesis F K i d HF).
    apply trig_series_poly. }
  intros i d. unfold N. rewrite (synthesis G K i d HG).
  rewrite trig_series_poly. fold N.
  destruct (Hrot d) as [HG0 HGk].
  replace (trig_poly G K d (sample N i))
    with (Rsum (fun j => INR (S j) * entry F (2 * j + 2) d
                           * cos (INR (S j) * sample N i)
                         - INR (S j) * entry F (2 * j + 1) d
                           * sin (INR (S j) * sample N i)) K).
  { apply trig_poly_derivative. }
  unfold trig_poly. rewrite HG0, Rplus_0_l. apply Rsum_ext. intros j _.
  destruct (HGk (S j) ltac:(lia)) as [Hcos Hsin].
  replace (2 * S j - 1)%nat with (2 * j + 1)%nat in * by lia.
  replace (2 * S j)%nat with (2 * j + 2)%nat in * by lia.
  rewrite Hcos, Hsin. ring.
Qed.

(** The harmonics 0, 1 and 3 on eight samples. *)
Lemma time_series_first_derivative_witness :
  exists x0 x1 F,
    time_series_deriv 8 ex_h ex_X0 0 = Ok x0
    /\ time_series_deriv 8 ex_h ex_X0 1 = Ok x1
    /\ nrows x1 = 8%nat /\ ncols x1 = 1%nat
    /\ (starts_with_zero ex_h = true ->
        forall d, entry F 0 d = entry ex_X0 0 d)
    /\ (forall j k d, drop (zero_offset ex_h) ex_h !! j = Some k ->
          entry F (2 * k - 1) d = entry ex_X0 (2 * j + zero_offset ex_h) d
          /\ entry F (2 * k) d
             = entry ex_X0 (2 * j + 1 + zero_offset ex_h) d)
    /\ (forall r d, (r = 0%nat -> starts_with_zero ex_h = false) ->
          (forall k, In k (drop (zero_offset ex_h) ex_h) ->
             r <> (2 * k - 1)%nat /\ r <> (2 * k)%nat) ->
          entry F r d = 0)
    /\ (forall n d, entry x0 n d = trig_poly F 3 d (sample 8 n))
    /\ (forall n d,
          derivable_pt_lim (trig_poly F 3 d) (sample 8 n) (entry x1 n d)).
Proof.
  apply (time_series_first_derivative 8 ex_h ex_X0).
  - exact ex_h_valid.
  - reflexivity.
  - cbn. lia.
Defined.

End TimeDerivativeMain.
Section StiffnessGradient.
Import Harmonic.
Local Open Scope Q_scope.

Variable e : Q.

(** Four arrays of one shape whose entries satisfy
    [E2 = E1 + e*F + e^2*S]. *)
Local Abbreviation expands E1 E2 F S :=
  (nrows E2 = nrows E1 /\ ncols E2 = ncols E1
   /\ nrows F = nrows E1 /\ ncols F = ncols E1
   /\ nrows S = nrows E1 /\ ncols S = ncols E1
   /\ forall i j, entry E2 i j
                  == entry E1 i j + e * entry F i j + e ^ 2 * entry S i j).

Lemma set_slice_expands (E1 E2 F S B1 B2 BF BS : matrix) (a b c d : nat)
    (E1' E2' F' S' : matrix) :
  expands E1 E2 F S -> expands B1 B2 BF BS ->
  set_slice E1 a b c d B1 = Ok E1' ->
  set_slice E2 a b c d B2 = Ok E2' ->
  set_slice F a b c d BF = Ok F' ->
  set_slice S a b c d BS = Ok S' ->
  expands E1' E2' F' S'.
Proof.
  intros (Hr2 & Hc2 & HrF & HcF & HrS & HcS & HE)
         (Br2 & Bc2 & BrF & BcF & BrS & BcS & HB).
  unfold set_slice.
  rewrite Hr2, Hc2, HrF, HcF, HrS, HcS, Br2, Bc2, BrF, BcF, BrS, BcS.
  destruct ((_ || _) && (_ || _))%bool; [|discriminate].
  intros [= <-] [= <-] [= <-] [= <-]. cbn [nrows ncols entry].
  repeat (split; [assumption || reflexivity|]).
  intros i j. destruct (in_range _ _ i && in_range _ _ j)%bool.
  - apply HB.
  - apply HE.
Qed.

Lemma madd_entry (A B D : matrix) :
  madd A B = Ok D ->
  nrows D = nrows A /\ ncols D = ncols A
  /\ nrows B = nrows A /\ ncols B = ncols A
  /\ forall i j, entry D i j = entry A i j + entry B i j.
Proof.
  unfold madd.
  destruct (Nat.eqb_spec (nrows A) (nrows B)) as [Hr|]; [|discriminate].
  destruct (Nat.eqb_spec (ncols A) (ncols B)) as [Hc|]; [|discriminate].
  intros [= <-]. repeat split; auto.
Qed.

Tactic Notation "peel_slice" hyp(H) ident(A) ident(Ha) :=
  match type of H with
  | context [mbind _ (set_slice ?E ?a ?b ?c ?d ?B)] =>
      destruct (set_slice E a b c d B) as [A|] eqn:Ha;
      cbn [mbind result_bind] in H; [|discriminate H]
  end.

Tactic Notation "peel_madd" hyp(H) ident(A) ident(Ha) :=
  match type of H with
  | context [mbind _ (madd ?X ?Y)] =>
      destruct (madd X Y) as [A|] eqn:Ha;
      cbn [mbind result_bind] in H; [|discriminate H]
  end.

(** One harmonic: the blocks written at [w + e] are those written at
    [w], plus [e] times the blocks of the gradient, plus [e^2] times
    the blocks written for the mass matrix alone. *)
Lemma stiffness_E_expands (M C K : matrix) (w : Q) (nd zi : nat)
    (inc : bool) (hind k : nat) (E1 E2 F S E1' E2' F' S' : matrix) :
  expands E1 E2 F S ->
  stiffness_E M C K w nd zi inc hind k E1 = Ok E1' ->
  stiffness_E M C K (w + e) nd zi inc hind k E2 = Ok E2' ->
  stiffness_dEdw M C w nd zi inc hind k F = Ok F' ->
  stiffness_E M (mscale 0 C) (mscale 0 K) 1 nd zi inc hind k S = Ok S' ->
  expands E1' E2' F' S'.
Proof.
  intros Hrel H1 H2 HF HS.
  unfold stiffness_E in H1, H2, HS. unfold stiffness_dEdw in HF.
  cbn zeta in H1, H2, HF, HS.
  peel_slice H1 A1 Ha1. peel_slice H2 A2 Ha2.
  peel_slice HF AF HaF. peel_slice HS AS HaS.
  assert (HA : expands A1 A2 AF AS).
  { refine (set_slice_expands E1 E2 F S _ _ _ _ _ _ _ _ _ _ _ _
              Hrel _ Ha1 Ha2 HaF HaS).
    cbn [nrows ncols entry mscale]. repeat (split; [reflexivity|]).
    intros i j. ring. }
  peel_slice H1 B1 Hb1. peel_slice H2 B2 Hb2.
  peel_slice HF BF HbF. peel_slice HS BS HbS.
  assert (HB : expands B1 B2 BF BS).
  { refine (set_slice_expands A1 A2 AF AS _ _ _ _ _ _ _ _ _ _ _ _
              HA _ Hb1 Hb2 HbF HbS).
    cbn [nrows ncols entry mscale]. repeat (split; [reflexivity|]).
    intros i j. ring. }
  destruct inc.
  2:{ injection H1 as <-. injection H2 as <-. injection HF as <-.
      injection HS as <-. exact HB. }
  peel_madd H1 TL1 Ht1. peel_madd H2 TL2 Ht2. peel_madd HS TLS HtS.
  apply madd_entry in Ht1 as (T1r & T1c & M1r & M1c & T1e).
  apply madd_entry in Ht2 as (T2r & T2c & _ & _ & T2e).
  apply madd_entry in HtS as (TSr & TSc & _ & _ & TSe).
  cbn [nrows ncols mscale] in *.
  peel_slice H1 D1 Hd1. peel_slice H2 D2 Hd2.
  peel_slice HF DF HdF. peel_slice HS DS HdS.
  assert (HD : expands D1 D2 DF DS).
  { refine (set_slice_expands B1 B2 BF BS _ _ _ _ _ _ _ _ _ _ _ _
              HB _ Hd1 Hd2 HdF HdS).
    cbn [nrows ncols mscale].
    repeat (split; [congruence|]).
    intros i j. rewrite T1e, T2e, TSe. cbn [entry mscale]. ring. }
  refine (set_slice_expands D1 D2 DF DS _ _ _ _ _ _ _ _ _ _ _ _
            HD _ H1 H2 HF HS).
  cbn [nrows ncols mscale].
  repeat (split; [congruence|]).
  intros i j. rewrite T1e, T2e, TSe. cbn [entry mscale]. ring.
Qed.

(** The loop over the harmonics keeps the expansion, and computes [E]
    the same way with and without the gradient. *)
Lemma stiffness_loop_expands (M C K : matrix) (w : Q) (nd zi : nat)
    (inc : bool) (hs : list nat) :
  forall (hind : nat) (E1 E2 F S E1' E2' F' S' : matrix),
    expands E1 E2 F S ->
    stiffness_loop M C K w nd zi inc hind hs (E1, Some F)
    = Ok (E1', Some F') ->
    stiffness_loop M C K (w + e) nd zi inc hind hs (E2, None)
    = Ok (E2', None) ->
    stiffness_loop M (mscale 0 C) (mscale 0 K) 1 nd zi inc hind hs (S, None)
    = Ok (S', None) ->
    expands E1' E2' F' S'
    /\ stiffness_loop M C K w nd zi inc hind hs (E1, None) = Ok (E1', None).
Proof.
  induction hs as [|k hs IH]; intros hind E1 E2 F S E1' E2' F' S' Hrel.
  - cbn [stiffness_loop]. intros [= <- <-] [= <-] [= <-]. auto.
  - cbn [stiffness_loop]. unfold stiffness_body. cbn [fst snd].
    destruct (stiffness_E M C K w nd zi inc hind k E1) as [A1|] eqn:Ha1;
      cbn [mbind result_bind]; [|discriminate].
    destruct (stiffness_dEdw M C w nd zi inc hind k F) as [AF|] eqn:HaF;
      cbn [mbind result_bind]; [|discriminate].
    destruct (stiffness_E M C K (w + e) nd zi inc hind k E2)
      as [A2|] eqn:Ha2; cbn [mbind result_bind]; [|discriminate].
    destruct (stiffness_E M (mscale 0 C) (mscale 0 K) 1 nd zi inc hind k S)
      as [AS|] eqn:HaS; cbn [mbind result_bind]; [|discriminate].
    apply IH.
    eapply stiffness_E_expands; eassumption.
Qed.

End StiffnessGradient.

Section StiffnessGradientMain.
Import Harmonic Examples.
Local Open Scope Q_scope.

(** For a valid harmonic set and square matrices the call returns, with
    a gradient exactly when [calc_grad] holds. *)
Lemma harmonic_stiffness_returns (M C K : matrix) (w : Q) (h : list nat)
    (calc_grad only_C : bool) (nd : nat) :
  valid_h h -> square nd C ->
  (only_C = false -> square nd M /\ square nd K) ->
  exists E dEdw,
    harmonic_stiffness M C K w h calc_grad only_C = Ok (E, dEdw)
    /\ (calc_grad = false <-> dEdw = None).
Proof.
  intros Hvalid HC HKM.
  pose proof (count_components_valid h Hvalid) as Hcount.
  destruct Hvalid as (Hne & Hnd & _).
  rewrite (harmonic_stiffness_unfold M C K w h calc_grad only_C Hne Hnd).
  rewrite (proj1 HC).
  set (zi := zero_offset h) in *.
  set (D := (count_components h * nd)%nat) in *.
  assert (Hzi : (zi <= 1 /\ zi <= length h)%nat).
  { subst zi. destruct h as [|[|k0] h']; simpl; lia. }
  assert (HziD : (nd * ((zi + length (drop zi h)) * 2 - zi) <= D)%nat).
  { subst D. rewrite Hcount. rewrite length_drop. fold zi. nia. }
  assert (Hinit : exists E0,
             (if Nat.eqb zi 1 && negb only_C
              then set_slice (mzeros D D) 0 nd 0 nd K
              else Ok (mzeros D D)) = Ok E0
             /\ nrows E0 = D /\ ncols E0 = D).
  { destruct (Nat.eqb zi 1 && negb only_C) eqn:Hcase.
    - apply andb_true_iff in Hcase as [Hz Ho].
      apply Nat.eqb_eq in Hz. apply negb_true_iff in Ho.
      destruct (HKM Ho) as [_ [HKr HKc]].
      assert (nd <= D)%nat by (subst D; rewrite Hcount; fold zi; nia).
      destruct (set_slice_in_range (mzeros D D) 0 nd 0 nd K)
        as (E0 & -> & Hr & Hc & _); simpl; try lia.
      exists E0. repeat split; assumption.
    - exists (mzeros D D). repeat split; reflexivity. }
  destruct Hinit as (E0 & HE0 & HE0r & HE0c).
  destruct (stiffness_loop_spec M C K w nd zi (negb only_C) D HC
              ltac:(intros Ho; apply HKM; now apply negb_true_iff in Ho)
              (drop zi h) zi E0
              (if calc_grad then Some (mzeros D D) else None))
    as (E & dE & Hloop & _ & _ & Hnone & _);
    [lia | assumption | assumption
     | destruct calc_grad; simpl; auto | exact HziD |].
  exists E, dE. rewrite HE0. cbn [mbind result_bind].
  split; [exact Hloop|].
  destruct calc_grad; split; intros H; try discriminate; try reflexivity.
  - apply Hnone in H. discriminate.
  - now apply Hnone.
Qed.

(** X16. The gradient that [harmonic_stiffness] returns is the derivative of
    [E] with respect to [w]: for a valid harmonic set and square
    matrices there is an array [S], which does not depend on the
    frequency, such that for every [w] and [e] the call at [w] with
    [calc_grad] returns [(E, dEdw)], the call at [w + e] returns an
    [E'] with, entry by entry, [E' = E + e*dEdw + e^2*S]; the call at
    [w] without [calc_grad] returns the same [E]. *)
Theorem harmonic_stiffness_gradient_is_derivative (M C K : matrix)
    (h : list nat) (only_C : bool) (nd : nat) :
  valid_h h -> square nd C ->
  (only_C = false -> square nd M /\ square nd K) ->
  exists S : matrix,
    forall w e : Q,
      exists E dEdw E' : matrix,
        harmonic_stiffness M C K w h true only_C = Ok (E, Some dEdw)
        /\ harmonic_stiffness M C K w h false only_C = Ok (E, None)
        /\ harmonic_stiffness M C K (w + e) h false only_C = Ok (E', None)
        /\ nrows dEdw = nrows E /\ ncols dEdw = ncols E
        /\ forall i j,
             entry E' i j
             == entry E i j + e * entry dEdw i j + e ^ 2 * entry S i j.
Proof.
  intros Hvalid HC HKM.
  assert (HC0 : square nd (mscale 0 C)) by exact HC.
  assert (HKM0 : only_C = false -> square nd M /\ square nd (mscale 0 K)).
  { intros Ho. destruct (HKM Ho) as [HM HK]. split; [exact HM | exact HK]. }
  destruct (harmonic_stiffness_returns M (mscale 0 C) (mscale 0 K) 1 h false
              only_C nd Hvalid HC0 HKM0)
    as (S & dS & HS & HdS).
  assert (dS = None) by (apply HdS; reflexivity). subst dS.
  exists S. intros w e.
  destruct (harmonic_stiffness_returns M C K w h true only_C nd Hvalid HC HKM)
    as (E & dE & HE & HdE).
  destruct dE as [F|]; [|destruct HdE as [_ HdE]; specialize (HdE eq_refl);
                         discriminate].
  destruct (harmonic_stiffness_returns M C K (w + e) h false only_C nd
              Hvalid HC HKM)
    as (E' & dE' & HE' & HdE').
  assert (dE' = None) by (apply HdE'; reflexivity). subst dE'.
  exists E, F, E'.
  destruct Hvalid as (Hne & Hnd & _).
  rewrite (harmonic_stiffness_unfold _ _ _ _ _ _ _ Hne Hnd) in HS.
  rewrite (harmonic_stiffness_unfold _ _ _ _ _ _ _ Hne Hnd) in HE.
  rewrite (harmonic_stiffness_unfold _ _ _ _ _ _ _ Hne Hnd) in HE'.
  rewrite (harmonic_stiffness_unfold M C K w h true only_C Hne Hnd),
    (harmonic_stiffness_unfold M C K w h false only_C Hne Hnd),
    (harmonic_stiffness_unfold M C K (w + e) h false only_C Hne Hnd).
  cbn [nrows mscale] in HS.
  set (D := (count_components h * nrows C)%nat) in *.
  set (zi := zero_offset h) in *.
  (* the arrays before the loop *)
  destruct (if Nat.eqb zi 1 && negb only_C
            then set_slice (mzeros D D) 0 (nrows C) 0 (nrows C) K
            else Ok (mzeros D D)) as [E0|] eqn:HE0;
    cbn [mbind result_bind] in HE, HE' |- *; [|discriminate].
  destruct (if Nat.eqb zi 1 && negb only_C
            then set_slice (mzeros D D) 0 (nrows C) 0 (nrows C) (mscale 0 K)
            else Ok (mzeros D D)) as [S0|] eqn:HS0;
    cbn [mbind result_bind] in HS; [|discriminate].
  assert (H0 : nrows E0 = nrows E0 /\ ncols E0 = ncols E0
               /\ nrows (mzeros D D) = nrows E0
               /\ ncols (mzeros D D) = ncols E0
               /\ nrows S0 = nrows E0 /\ ncols S0 = ncols E0
               /\ forall i j, entry E0 i j
                    == entry E0 i j + e * entry (mzeros D D) i j
                       + e ^ 2 * entry S0 i j).
  { destruct (Nat.eqb zi 1 && negb only_C)%bool.
    - unfold set_slice in HE0, HS0. cbn [nrows ncols mzeros mscale] in *.
      destruct ((_ || _) && (_ || _))%bool; [|discriminate].
      injection HE0 as <-. injection HS0 as <-.
      cbn [nrows ncols entry mzeros mscale].
      repeat (split; [reflexivity|]). intros i j.
      destruct (in_range _ _ i && in_range _ _ j)%bool; ring.
    - injection HE0 as <-. injection HS0 as <-.
      cbn [nrows ncols entry mzeros].
      repeat (split; [reflexivity|]). intros i j. ring. }
  destruct (stiffness_loop_expands e M C K w (nrows C) zi (negb only_C)
              (drop zi h) zi E0 E0 (mzeros D D) S0 E E' F S H0 HE HE' HS)
    as [(_ & _ & HFr & HFc & _ & _ & Hexp) Hsame].
  split; [exact HE|]. split; [exact Hsame|]. split; [exact HE'|].
  split; [exact HFr|]. split; [exact HFc | exact Hexp].
Qed.

End StiffnessGradientMain.
Section FourierBounds.
Import Harmonic Examples.
Local Open Scope R_scope.

Lemma fourier_loop_outcome (xf : carray) (Nt zi : nat) (hs : list nat) :
  forall (i : nat) (v : rarray),
    match fourier_loop xf Nt zi hs i v with
    | Ok _ => Forall (fun k => (k < nrows xf)%nat) hs
    | Raise e => e = IndexError
    end.
Proof.
  induction hs as [|k hs IH]; intros i v; [constructor|].
  cbn [fourier_loop].
  destruct (Nat.ltb_spec k (nrows xf)) as [Hlt|Hge];
    cbn [mbind result_bind]; [|reflexivity].
  unfold set_row_checked at 2.
  destruct (Nat.ltb (2 * i + zi) (nrows v));
    cbn [mbind result_bind]; [|reflexivity].
  unfold set_row_checked at 1.
  destruct (Nat.ltb _ (nrows _));
    cbn [mbind result_bind]; [|reflexivity].
  match goal with
  | |- match fourier_loop ?a ?b ?c ?d ?e ?f with _ => _ end =>
      specialize (IH e f); destruct (fourier_loop a b c d e f)
  end; [constructor; assumption | exact IH].
Qed.

Lemma list_max_nat_In (h : list nat) :
  h <> [] -> In (list_max_nat h) h.
Proof.
  induction h as [|k h IH]; [congruence|]. intros _.
  cbn [list_max_nat fold_right]. fold (list_max_nat h).
  destruct h as [|k' h'].
  - cbn. left. lia.
  - destruct (Nat.max_spec k (list_max_nat (k' :: h'))) as [[_ ->]|[_ ->]].
    + right. apply IH. discriminate.
    + left. reflexivity.
Qed.

(** X17. [get_fourier_coeff] needs a time series with more samples than the
    highest harmonic, and nothing more: it returns the [Nhc(h)] rows of
    coefficients as soon as [max(h) < Nt], also for harmonics above
    [Nt/2], which [time_series_deriv] refuses to sample, and raises
    [IndexError] otherwise. *)
Theorem get_fourier_coeff_needs_max_h_samples (h : list nat) (x : rarray) :
  valid_h h -> (0 < nrows x)%nat ->
  ((list_max_nat h < nrows x)%nat ->
   exists v, get_fourier_coeff h x = Ok v
             /\ nrows v = count_components h /\ ncols v = ncols x)
  /\ ((nrows x <= list_max_nat h)%nat ->
      get_fourier_coeff h x = Raise IndexError).
Proof.
  intros Hvalid Hx. split.
  - intros Hmax.
    destruct (get_fourier_coeff_spec h x Hvalid Hmax)
      as (v & Hv & Hr & Hc & _).
    exists v. auto.
  - intros Hmax.
    pose proof (valid_h_zero_first h Hvalid) as Hzf.
    pose proof (count_components_valid h Hvalid) as Hcount.
    assert (Hin : In (list_max_nat h) (drop (zero_offset h) h)).
    { destruct Hvalid as (Hne & _ & _).
      pose proof (list_max_nat_In h Hne) as Hin.
      destruct h as [|[|k0] h']; [congruence | | exact Hin].
      cbn [zero_offset]. change (drop 1 (0%nat :: h')) with h'.
      destruct Hin as [Hz | Hin]; [lia | exact Hin]. }
    unfold get_fourier_coeff. rewrite Hzf.
    destruct Hvalid as (Hne & _ & _).
    destruct h as [|k0 h']; [congruence|].
    cbn [mbind result_bind].
    replace (Nat.eqb (nrows x) 0) with false
      by (symmetry; apply Nat.eqb_neq; lia).
    cbn [mbind result_bind].
    assert (Hloop : forall zi v,
              zi = zero_offset (k0 :: h') ->
              fourier_loop (fft x) (nrows x) zi
                (firstn (length (k0 :: h') - zi) (drop zi (k0 :: h'))) 0 v
              = Raise IndexError).
    { intros zi v ->.
      rewrite firstn_all2 by (rewrite length_drop; lia).
      pose proof (fourier_loop_outcome (fft x) (nrows x)
                    (zero_offset (k0 :: h'))
                    (drop (zero_offset (k0 :: h')) (k0 :: h')) 0 v) as Hout.
      destruct (fourier_loop _ _ _ _ _ _) as [v'|err];
        [|rewrite Hout; reflexivity].
      exfalso. rewrite Forall_forall in Hout.
      apply list_elem_of_In, Hout in Hin. cbn [nrows fft] in Hin. lia. }
    destruct k0 as [|k0]; cbn [Nat.eqb].
    + unfold set_row_checked at 1. cbn [nrows azeros].
      destruct (Nat.ltb 0 _); cbn [mbind result_bind]; [|reflexivity].
      apply (Hloop 1%nat). reflexivity.
    + cbn [mbind result_bind]. apply (Hloop 0%nat). reflexivity.
Qed.

End FourierBounds.

Section HarmonicExamples.
Import Num Harmonic Examples.

(** Between 1 and -1 the sign changes, and the flag is at the 1; the
    zero in the series is not marked. *)
Lemma zero_crossing_marks_sign_changes_witness :
  exists a b,
    [Fin 1; Fin (-1); Fin 0; Fin 1] !! 0%nat = Some a
    /\ [Fin 1; Fin (-1); Fin 0; Fin 1] !! 1%nat = Some b
    /\ (fsign a * fsign b = -1)%Z
    /\ flt (fabs a) PInf = true.
Proof.
  apply (proj1 (proj2 (zero_crossing_marks_sign_changes
                         [Fin 1; Fin (-1); Fin 0; Fin 1] PInf)) 0%nat).
  reflexivity.
Defined.

(** The phase 4 is above [pi]. *)
Lemma shift_pm_pi_single_turn_witness :
  exists y, shift_pm_pi [4%R] !! 0%nat = Some y
    /\ (y = 4 \/ y = 4 - 2 * PI \/ y = 4 + 2 * PI)%R
    /\ cos y = cos 4 /\ sin y = sin 4
    /\ (- PI < y <= PI <-> - (3 * PI) < 4 <= 3 * PI)%R.
Proof.
  apply (proj2 (shift_pm_pi_single_turn [4%R]) 0%nat 4%R). reflexivity.
Defined.

(** Two degrees of freedom and the harmonics 0, 1 and 3. *)
Lemma harmonic_stiffness_gradient_is_derivative_witness :
  exists S : matrix,
    forall w e : Q,
      exists E dEdw E' : matrix,
        harmonic_stiffness ex_M ex_C ex_K w ex_h true false
        = Ok (E, Some dEdw)
        /\ harmonic_stiffness ex_M ex_C ex_K w ex_h false false
           = Ok (E, None)
        /\ harmonic_stiffness ex_M ex_C ex_K (w + e) ex_h false false
           = Ok (E', None)
        /\ nrows dEdw = nrows E /\ ncols dEdw = ncols E
        /\ forall i j,
             (entry E' i j
              == entry E i j + e * entry dEdw i j + e ^ 2 * entry S i j)%Q.
Proof.
  apply (harmonic_stiffness_gradient_is_derivative ex_M ex_C ex_K ex_h
           false 2 ex_h_valid).
  - split; reflexivity.
  - intros _. split; split; reflexivity.
Defined.

(** Five samples are enough for the harmonics 0, 1 and 3, three are
    not. *)
Lemma get_fourier_coeff_needs_max_h_samples_witness :
  (exists v, get_fourier_coeff ex_h ex_X0 = Ok v
             /\ nrows v = count_components ex_h /\ ncols v = ncols ex_X0)
  /\ get_fourier_coeff ex_h ex_X0_zero_last = Raise IndexError.
Proof.
  split.
  - apply (get_fourier_coeff_needs_max_h_samples ex_h ex_X0 ex_h_valid);
      cbn; lia.
  - apply (get_fourier_coeff_needs_max_h_samples ex_h ex_X0_zero_last
             ex_h_valid); cbn; lia.
Defined.

End HarmonicExamples.

(** * Continuation: the history, the stored points and the settings *)

Section ContinuationMore.
Import Num Continuation Examples.

Variable str_upper : string -> string.
Variable qsqrt : Q -> Q.
Variable nsolve :
  Solvers.resfun -> vec -> option fnum ->
  result (vec * vec * mat * Solvers.sol).
Variable lin_solve : mat -> vec -> vec.
Variable conditioning_wrapper :
  Solvers.resfun -> vec -> vec -> Solvers.resfun.
Variable st : store.

Local Abbreviation ladder_ := (ladder str_upper qsqrt nsolve lin_solve).
Local Abbreviation step_body_ := (step_body str_upper qsqrt nsolve lin_solve st).
Local Abbreviation steps_ := (steps str_upper qsqrt nsolve lin_solve st).
Local Abbreviation continuation_ :=
  (continuation str_upper qsqrt nsolve lin_solve conditioning_wrapper st).

Lemma set_FracLam_same (c : config) : set_FracLam c (FracLam c) = c.
Proof. destruct c. reflexivity. Qed.

(** The ladder changes nothing of the settings but [FracLam]; when it
    returns after at least one entry of [FracLamList], the last event
    is the corrector solve whose result it returns. *)
Lemma ladder_end (fun_ : cfun) (X0 Xprev : vec) (fuel : nat) :
  forall (lams : list fnum) (ind : nat) (ls : ladder_state),
    match outcome (ladder_ fuel fun_ X0 Xprev lams ind ls) with
    | Ok ls' =>
        cfg (l_obj ls')
        = set_FracLam (cfg (l_obj ls)) (FracLam (cfg (l_obj ls')))
        /\ (lams <> [] ->
            exists t0 i fl d X,
              trace (ladder_ fuel fun_ X0 Xprev lams ind ls)
              = (t0 ++ [SolveCorrector i fl d X
                          (Some (Solvers.success (l_sol ls')))])%list
              /\ exists xc, l_XlamC ls' = Some xc)
    | Raise _ => True
    end.
Proof.
  induction lams as [|fl rest IH]; intros ind ls.
  - cbn [ladder mret W_ret trace outcome].
    split; [symmetry; apply set_FracLam_same | congruence].
  - cbn [ladder].
    set (o := with_cfg (l_obj ls) (set_FracLam (cfg (l_obj ls)) fl)).
    rewrite trace_bind, outcome_bind. cbn [lift trace outcome app].
    destruct (predict qsqrt lin_solve o fun_ X0 Xprev (l_dirC ls))
      as [[dirC' RP]|e]; [|exact I].
    set (ls1 := {| l_obj := with_RPtoC o RP; l_dirC := dirC';
                   l_ds := l_ds ls; l_XlamC := l_XlamC ls;
                   l_sol := l_sol ls |}).
    destruct (solve_corrector_spec str_upper qsqrt nsolve fun_ X0 ind ls1 (l_ds ls))
      as (Xs1 & res & Htr & Hout).
    assert (Hxc : forall ls2,
              outcome (solve_corrector str_upper qsqrt nsolve fun_ X0 ind ls1 (l_ds ls))
              = Ok ls2 -> exists xc, l_XlamC ls2 = Some xc).
    { unfold solve_corrector.
      match goal with
      | |- context [nsolve ?f ?x ?t] =>
          destruct (nsolve f x t) as [[[[XlamC R] J] sl]|e]
      end; cbn [outcome]; intros ls2 [= <-]. eexists. reflexivity. }
    rewrite trace_bind, outcome_bind, Htr.
    destruct (outcome (solve_corrector str_upper qsqrt nsolve fun_ X0 ind ls1 (l_ds ls)))
      as [ls2|e]; [|exact I].
    destruct Hout as (-> & Hobj2 & HdirC2 & Hds2).
    specialize (Hxc ls2 eq_refl).
    pose proof (retry_chain str_upper qsqrt nsolve fun_ X0 ind fuel ls2 Xs1) as Hretry.
    cbn zeta in Hretry. rewrite Hobj2, Hds2 in Hretry.
    destruct Hretry as (_ & _ & Hres).
    assert (Hxc3 : forall ls3,
              outcome (retry str_upper qsqrt nsolve fuel fun_ X0 ind ls2) = Ok ls3 ->
              exists xc, l_XlamC ls3 = Some xc).
    { clear -Hxc. revert ls2 Hxc. induction fuel as [|fuel' IHf];
        intros ls2 Hxc ls3; cbn [retry];
        destruct (negb (Solvers.success (l_sol ls2)) && _).
      - discriminate.
      - cbn [mret W_ret outcome]. intros [= <-]. exact Hxc.
      - rewrite outcome_bind.
        destruct (outcome (solve_corrector _ _ _ _ _ _ _ _)) as [ls'|e] eqn:Hs;
          [|discriminate].
        apply IHf. revert Hs. unfold solve_corrector.
        match goal with
        | |- context [nsolve ?f ?x ?t] =>
            destruct (nsolve f x t) as [[[[XlamC R] J] sl]|e]
        end; cbn [outcome]; intros [= <-]. eexists. reflexivity.
      - cbn [mret W_ret outcome]. intros [= <-]. exact Hxc. }
    rewrite trace_bind, outcome_bind.
    destruct (outcome (retry str_upper qsqrt nsolve fuel fun_ X0 ind ls2))
      as [ls3|e]; [|exact I].
    specialize (Hxc3 ls3 eq_refl).
    destruct Hres as (Hobj3 & _ & _ & Xs3 & Hlast).
    apply last_Some in Hlast as (t0 & Ht0).
    assert (Hcfg3 : cfg (l_obj ls3)
                    = set_FracLam (cfg (l_obj ls)) (FracLam (cfg (l_obj ls3)))).
    { rewrite Hobj3. reflexivity. }
    destruct (Solvers.success (l_sol ls3)) eqn:Hsucc.
    + cbn [mret W_ret trace outcome]. rewrite app_nil_r.
      split; [exact Hcfg3|]. intros _.
      cbn [app]. rewrite Hsucc.
      eexists t0, _, _, _, _. split; [exact Ht0 | exact Hxc3].
    + specialize (IH (S ind) ls3).
      destruct (outcome (ladder_ fuel fun_ X0 Xprev rest (S ind) ls3))
        as [ls4|e] eqn:Hrest; [|exact I].
      destruct IH as (Hcfg4 & Hlast4). split.
      { rewrite Hcfg4, Hcfg3. reflexivity. }
      intros _. destruct rest as [|fl' rest'].
      * cbn [ladder mret W_ret trace outcome] in Hrest |- *.
        injection Hrest as <-. rewrite app_nil_r. cbn [app].
        rewrite Hsucc.
        eexists t0, _, _, _, _. split; [exact Ht0 | exact Hxc3].
      * destruct (Hlast4 ltac:(discriminate))
          as (t4 & i & f & d & X & Htr4 & Hxc4).
        rewrite Htr4, !app_assoc.
        eexists _, i, f, d, X. split; [reflexivity | exact Hxc4].
Qed.


(** *** Stored points and the solves before them *)

Lemma stored_after_success_app (b : bool) (t1 t2 : list event) :
  stored_after_success b (t1 ++ t2)
  = stored_after_success b t1
    && stored_after_success
         (match last t1 with Some ev => is_success ev | None => b end) t2.
Proof.
  revert b. induction t1 as [|ev t1 IH]; intros b; [reflexivity|].
  cbn [app stored_after_success]. rewrite IH, andb_assoc, last_cons.
  destruct (last t1); reflexivity.
Qed.

Lemma stored_after_success_quiet (t : list event) :
  Forall (fun ev => stored_points [ev] = []) t ->
  forall b, stored_after_success b t = true.
Proof.
  induction 1 as [|ev t Hev _ IH]; intros b; [reflexivity|].
  cbn [stored_after_success]. rewrite IH.
  destruct ev; try reflexivity. discriminate.
Qed.

Lemma stored_after_success_bind {A B} (m : W A) (k : A -> W B) :
  (forall b, stored_after_success b (trace m) = true) ->
  (forall a, outcome m = Ok a ->
     forall b, stored_after_success b (trace (k a)) = true) ->
  forall b, stored_after_success b (trace (m ≫= k)) = true.
Proof.
  intros Hm Hk b. rewrite trace_bind.
  destruct (outcome m) as [a|e]; [|apply Hm].
  rewrite stored_after_success_app, Hm, (Hk a eq_refl). reflexivity.
Qed.

Lemma ladder_quiet (fun_ : cfun) (X0 Xprev : vec) (fuel : nat)
    (lams : list fnum) (ls : ladder_state) :
  Forall (fun ev => stored_points [ev] = [])
         (trace (ladder_ fuel fun_ X0 Xprev lams 0 ls)).
Proof.
  destruct (ladder_chain str_upper qsqrt nsolve lin_solve fun_ X0 Xprev fuel lams 0 ls
              [] (or_introl eq_refl)) as (_ & Hall & _).
  eapply Forall_impl; [exact Hall|]. cbn beta.
  intros ev (i & fl & d & X & s & -> & _). reflexivity.
Qed.

(** What one pass through the loop body does to the loop state. *)
Lemma step_body_state (fuel : nat) (fun_ : cfun) (silent : bool)
    (s s' : loop_state) (go : bool) :
  outcome (step_body_ fuel fun_ silent s) = Ok (s', go) ->
  cfg (obj s') = set_FracLam (cfg (obj s)) (FracLam (cfg (obj s')))
  /\ (if go
      then exists point,
             XlamP_full s' = (XlamP_full s ++ [point])%list
             /\ step s' = S (step s)
      else XlamP_full s' = XlamP_full s /\ step s' = step s).
Proof.
  unfold step_body.
  set (o := if DynamicCtoP (cfg (obj s)) then _ else obj s).
  assert (Ho : cfg o = cfg (obj s))
    by (subst o; destruct (DynamicCtoP (cfg (obj s))); reflexivity).
  intros Hout.
  apply outcome_bind_ok in Hout as (lams & _ & Hout).
  apply outcome_bind_ok in Hout as (ls & Hls & Hout).
  pose proof (ladder_end fun_ (XlamP0 s) (XlamPprev s) fuel lams 0
                {| l_obj := o; l_dirC := dirC s; l_ds := ds s;
                   l_XlamC := XlamC s; l_sol := sol s |}) as Hend.
  rewrite Hls in Hend. destruct Hend as [Hcfg _]. cbn [l_obj] in Hcfg.
  rewrite Ho in Hcfg.
  destruct (negb (Solvers.success (l_sol ls)) && negb silent).
  - cbn [mret W_ret outcome] in Hout. injection Hout as <- <-.
    cbn [obj XlamP_full step]. auto.
  - apply outcome_bind_ok in Hout as (xc & _ & Hout).
    apply outcome_bind_ok in Hout as (? & _ & Hout).
    apply outcome_bind_ok in Hout as (ratio & _ & Hout).
    apply outcome_bind_ok in Hout as (? & _ & Hout).
    cbn [mret W_ret outcome] in Hout. injection Hout as <- <-.
    cbn [obj XlamP_full step]. split; [exact Hcfg|].
    eexists. split; reflexivity.
Qed.

(** In a run that is not silent, the loop body stores a point only
    directly after a corrector solve that succeeded. *)
Lemma step_body_stored (fuel : nat) (fun_ : cfun) (s : loop_state)
    (fl : fnum) (rest : list fnum) :
  st !! FracLamList (cfg (obj s)) = Some (fl :: rest) ->
  forall b,
    stored_after_success b (trace (step_body_ fuel fun_ false s)) = true.
Proof.
  intros Hlams b. unfold step_body.
  set (o := if DynamicCtoP (cfg (obj s)) then _ else obj s).
  assert (Ho : cfg o = cfg (obj s))
    by (subst o; destruct (DynamicCtoP (cfg (obj s))); reflexivity).
  rewrite Ho, Hlams. rewrite trace_bind. cbn [lift trace outcome app].
  set (ls0 := {| l_obj := o; l_dirC := dirC s; l_ds := ds s;
                 l_XlamC := XlamC s; l_sol := sol s |}).
  rewrite trace_bind.
  pose proof (ladder_quiet fun_ (XlamP0 s) (XlamPprev s) fuel (fl :: rest)
                ls0) as Hquiet.
  pose proof (ladder_end fun_ (XlamP0 s) (XlamPprev s) fuel (fl :: rest) 0
                ls0) as Hend.
  destruct (outcome (ladder_ fuel fun_ (XlamP0 s) (XlamPprev s)
                       (fl :: rest) 0 ls0)) as [ls|e];
    [|apply stored_after_success_quiet, Hquiet].
  destruct Hend as [_ Hlast].
  destruct (Hlast ltac:(discriminate)) as (t0 & i & f & d & X & Htr & xc & Hxc).
  rewrite stored_after_success_app,
    (stored_after_success_quiet _ Hquiet b). cbn [andb].
  rewrite Htr, last_snoc. cbn [is_success].
  destruct (Solvers.success (l_sol ls)); cbn [negb andb];
    [|reflexivity].
  rewrite Hxc. rewrite trace_bind. cbn [lift trace outcome app].
  rewrite trace_bind. cbn [emit trace outcome app stored_after_success].
  apply stored_after_success_quiet.
  rewrite trace_bind. cbn [lift trace].
  destruct (outcome _) as [ratio|e]; [|constructor].
  cbn [app]. rewrite trace_bind.
  destruct (callback (cfg (l_obj ls)));
    cbn [emit mret W_ret trace outcome app];
    repeat constructor.
Qed.

(** The loop keeps the settings apart from [FracLam]. *)
Lemma steps_stored (fuel : nat) (fun_ : cfun) (direct lam0 lam1 : fnum)
    (fl : fnum) (rest : list fnum) (n : nat) :
  forall s : loop_state,
    st !! FracLamList (cfg (obj s)) = Some (fl :: rest) ->
    forall b,
      stored_after_success b
        (trace (steps_ n fuel fun_ false direct lam0 lam1 s)) = true.
Proof.
  induction n as [|n IH]; intros s Hlams; cbn [steps]; [reflexivity|].
  apply stored_after_success_bind; [reflexivity|]. intros go _.
  destruct go; [|reflexivity].
  apply stored_after_success_bind; [apply (step_body_stored _ _ _ _ _ Hlams)|].
  intros [s' continue] Hout.
  destruct continue; [|reflexivity].
  apply IH. apply step_body_state in Hout as [Hcfg _].
  rewrite Hcfg. exact Hlams.
Qed.

(** X18. A run that is not silent ([verbose >= 0]) stores a point only
    directly after a corrector solve that returned with success, so
    every row of the history after the first is a converged point; the
    list of weightings must not have been emptied after the
    construction. A silent run has no such check: it goes on from a
    failed step. *)
Theorem stored_points_follow_successful_solves (fuel : nat)
    (o : continuation_object) (fun_ : cfun) (X : vec) (lam0 lam1 : fnum)
    (return_grad : bool) (fl : fnum) (rest : list fnum) :
  (0 <= verbose (cfg o))%Z ->
  st !! FracLamList (cfg o) = Some (fl :: rest) ->
  stored_after_success false
    (trace (continuation_ fuel o fun_ X lam0 lam1 return_grad)) = true.
Proof.
  intros Hverb Hlams. unfold continuation.
  assert (Hneg : (verbose (cfg o) <? 0)%Z = false)
    by (apply Z.ltb_ge; exact Hverb).
  rewrite Hneg. cbn zeta. set (o4 := prepare o X).
  assert (H4 : cfg o4 = cfg o).
  { destruct (prepare_spec o X) as (_ & _ & Hc). subst o4.
    rewrite Hc, Hneg. reflexivity. }
  apply stored_after_success_bind; [reflexivity|]. intros _ _.
  apply stored_after_success_bind.
  { intros b. destruct (solve_initial _ _ _ _ _ _) as [r|e]; reflexivity. }
  intros [[[Xc R] J] sol0] _.
  apply stored_after_success_bind; [reflexivity|]. intros _ _.
  apply stored_after_success_bind.
  { intros b. destruct (callback (cfg o4)); reflexivity. }
  intros _ _.
  apply stored_after_success_bind; [reflexivity|]. intros _ _.
  apply stored_after_success_bind.
  { apply (steps_stored fuel fun_ _ lam0 lam1 fl rest).
    cbn [obj]. destruct (DynamicCtoP (cfg o4)); cbn [cfg with_CtoP0];
      rewrite H4; exact Hlams. }
  intros s _.
  apply stored_after_success_bind; [|intros; reflexivity].
  intros b. destruct (callback (cfg (obj s))); [|reflexivity].
  destruct (negb (Solvers.success (sol s))).
  - rewrite trace_bind. reflexivity.
  - rewrite trace_bind. cbn [lift trace outcome app].
    destruct (predict _ _ _ _ _ _ _) as [[d r]|e]; reflexivity.
Qed.


(** *** The rows of the history *)

Lemma keep_going_true (s : loop_state) (direct lam0 lam1 : fnum) :
  keep_going s direct lam0 lam1 = Ok true ->
  (step s < MaxSteps (cfg (obj s)))%nat
  /\ inside_range direct lam0 lam1 (backtrackStop (cfg (obj s)))
       (List.last (XlamP_full s) []) = true.
Proof.
  unfold keep_going, inside_range.
  destruct (Nat.ltb_spec (step s) (MaxSteps (cfg (obj s)))) as [Hlt|];
    [|discriminate].
  destruct (last_entry (List.last (XlamP_full s) [])) as [lam|e];
    cbn [mbind result_bind]; [|discriminate].
  intros [= ->]. auto.
Qed.

(** The loop appends rows to the history; the rows before the last one
    are rows from which the loop went on, and the number of rows does
    not exceed [MaxSteps]. *)
Lemma steps_rows (fuel : nat) (fun_ : cfun) (silent : bool)
    (direct lam0 lam1 : fnum) (n : nat) :
  forall s s' : loop_state,
    outcome (steps_ n fuel fun_ silent direct lam0 lam1 s) = Ok s' ->
    XlamP_full s <> [] ->
    step s = length (XlamP_full s) ->
    (step s <= MaxSteps (cfg (obj s)))%nat ->
    Forall (fun row => inside_range direct lam0 lam1
                         (backtrackStop (cfg (obj s))) row = true)
           (removelast (XlamP_full s)) ->
    (exists more, XlamP_full s' = (XlamP_full s ++ more)%list)
    /\ (length (XlamP_full s') <= MaxSteps (cfg (obj s)))%nat
    /\ Forall (fun row => inside_range direct lam0 lam1
                            (backtrackStop (cfg (obj s))) row = true)
              (removelast (XlamP_full s')).
Proof.
  induction n as [|n IH]; intros s s' Hout Hne Hstep Hmax Hin;
    cbn [steps] in Hout.
  - cbn [mret W_ret outcome] in Hout. injection Hout as <-.
    split; [exists []; now rewrite app_nil_r|]. split; [lia | exact Hin].
  - apply outcome_bind_ok in Hout as (go & Hgo & Hout).
    cbn [lift outcome] in Hgo.
    destruct go.
    2:{ cbn [mret W_ret outcome] in Hout. injection Hout as <-.
        split; [exists []; now rewrite app_nil_r|].
        split; [lia | exact Hin]. }
    apply keep_going_true in Hgo as [Hlt Hlast].
    apply outcome_bind_ok in Hout as ([s1 continue] & Hbody & Hout).
    apply step_body_state in Hbody as [Hcfg Hrows].
    assert (HM : MaxSteps (cfg (obj s1)) = MaxSteps (cfg (obj s))
                 /\ backtrackStop (cfg (obj s1))
                    = backtrackStop (cfg (obj s)))
      by (rewrite Hcfg; split; reflexivity).
    destruct HM as [HM HB].
    destruct continue.
    2:{ cbn [mret W_ret outcome] in Hout. injection Hout as <-.
        destruct Hrows as [-> _].
        split; [exists []; now rewrite app_nil_r|].
        split; [lia | exact Hin]. }
    destruct Hrows as (point & Hfull & Hstep1).
    destruct (IH s1 s' Hout) as ((more & Hmore) & Hlen & Hall).
    + rewrite Hfull. destruct (XlamP_full s); discriminate.
    + rewrite Hstep1, Hfull, length_app, Hstep. cbn. lia.
    + rewrite Hstep1, HM. lia.
    + rewrite Hfull, removelast_last, HB.
      rewrite (app_removelast_last [] Hne).
      apply Forall_app. split; [exact Hin|].
      constructor; [exact Hlast | constructor].
    + split; [|split].
      * exists (point :: more). rewrite Hmore, Hfull, <- app_assoc.
        reflexivity.
      * rewrite <- HM. exact Hlen.
      * rewrite <- HB. exact Hall.
Qed.

(** X19. The history that a run returns has at least the row of the initial
    point, which ends in [lam0], and at most [MaxSteps] rows; every row
    but the last is a point from which the loop went on, so its last
    entry lies, in the direction of the run, before [lam1] and after
    the backtracking limit: only the last row can reach or pass
    [lam1]. *)
Theorem continuation_history_rows (fuel : nat) (o o' : continuation_object)
    (fun_ : cfun) (X : vec) (lam0 lam1 : fnum) (return_grad : bool)
    (full : list vec) :
  outcome (continuation_ fuel o fun_ X lam0 lam1 return_grad)
  = Ok (full, o') ->
  (1 <= length full <= MaxSteps (cfg o))%nat
  /\ (exists Xsol, head full = Some (Xsol ++ [lam0])%list)
  /\ Forall (fun row => inside_range (fsignum (fsub lam1 lam0)) lam0 lam1
                          (backtrackStop (cfg o)) row = true)
            (removelast full).
Proof.
  unfold continuation. intros Hout.
  apply outcome_bind_ok in Hout as (_ & _ & Hout).
  cbn zeta in Hout. set (o4 := prepare o X) in Hout.
  assert (H4 : MaxSteps (cfg o4) = MaxSteps (cfg o)
               /\ backtrackStop (cfg o4) = backtrackStop (cfg o)).
  { destruct (prepare_spec o X) as (_ & _ & Hc). subst o4. rewrite Hc.
    destruct (verbose (cfg o) <? 0)%Z; split; reflexivity. }
  destruct H4 as [HM HB].
  apply outcome_bind_ok in Hout as ([[[Xc R] J] sol0] & _ & Hout).
  apply outcome_bind_ok in Hout as (_ & _ & Hout).
  apply outcome_bind_ok in Hout as (_ & _ & Hout).
  apply outcome_bind_ok in Hout as (u & Hsteps0 & Hout).
  cbn [lift outcome] in Hsteps0.
  destruct (Nat.eqb_spec (MaxSteps (cfg o4)) 0) as [|Hpos]; [discriminate|].
  apply outcome_bind_ok in Hout as (s & Hsteps & Hout).
  apply outcome_bind_ok in Hout as (s2 & Hfinal & Hout).
  cbn [mret W_ret outcome] in Hout. injection Hout as <- _.
  assert (Hsame : XlamP_full s2 = XlamP_full s).
  { destruct (callback (cfg (obj s))).
    - destruct (negb (Solvers.success (sol s))).
      + apply outcome_bind_ok in Hfinal as (_ & _ & Hfinal).
        cbn [mret W_ret outcome] in Hfinal. now injection Hfinal as <-.
      + apply outcome_bind_ok in Hfinal as ([d r] & _ & Hfinal).
        apply outcome_bind_ok in Hfinal as (_ & _ & Hfinal).
        cbn [mret W_ret outcome] in Hfinal. now injection Hfinal as <-.
    - cbn [mret W_ret outcome] in Hfinal. now injection Hfinal as <-. }
  rewrite Hsame.
  apply steps_rows in Hsteps; cbn [XlamP_full step obj removelast length].
  - assert (Hc : MaxSteps (cfg (if DynamicCtoP (cfg o4)
                                then with_CtoP0 o4 (CtoP o4) else o4))
                 = MaxSteps (cfg o)
                 /\ backtrackStop (cfg (if DynamicCtoP (cfg o4)
                                        then with_CtoP0 o4 (CtoP o4)
                                        else o4))
                    = backtrackStop (cfg o))
      by (destruct (DynamicCtoP (cfg o4)); split; assumption).
    destruct Hc as [HcM HcB].
    cbn [XlamP_full step obj] in Hsteps. rewrite HcM, HcB in Hsteps.
    destruct Hsteps as ((more & ->) & Hlen & Hall).
    split; [|split].
    + split; [cbn; lia | exact Hlen].
    + eexists. reflexivity.
    + exact Hall.
  - discriminate.
  - reflexivity.
  - destruct (DynamicCtoP (cfg o4)); cbn [cfg with_CtoP0]; lia.
  - constructor.
Qed.


(** *** The settings after a run *)

Lemma steps_cfg (fuel : nat) (fun_ : cfun) (silent : bool)
    (direct lam0 lam1 : fnum) (n : nat) :
  forall s s' : loop_state,
    outcome (steps_ n fuel fun_ silent direct lam0 lam1 s) = Ok s' ->
    cfg (obj s') = set_FracLam (cfg (obj s)) (FracLam (cfg (obj s'))).
Proof.
  induction n as [|n IH]; intros s s' Hout; cbn [steps] in Hout.
  - cbn [mret W_ret outcome] in Hout. injection Hout as <-.
    symmetry. apply set_FracLam_same.
  - apply outcome_bind_ok in Hout as (go & _ & Hout).
    destruct go.
    2:{ cbn [mret W_ret outcome] in Hout. injection Hout as <-.
        symmetry. apply set_FracLam_same. }
    apply outcome_bind_ok in Hout as ([s1 continue] & Hbody & Hout).
    apply step_body_state in Hbody as [Hcfg _].
    destruct continue.
    + apply IH in Hout. rewrite Hout, Hcfg. reflexivity.
    + cbn [mret W_ret outcome] in Hout. injection Hout as <-. exact Hcfg.
Qed.


End ContinuationMore.

Section ContinuationExamples.
Import Num Continuation Examples.

(** The two steps down the falling line: three rows, the first at
    [lam = 0]. *)
Lemma continuation_history_rows_witness :
  exists full o',
    outcome falling_run = Ok (full, o')
    /\ (1 <= length full <= 3)%nat
    /\ (exists Xsol, head full = Some (Xsol ++ [Fin 0])%list)
    /\ Forall (fun row => inside_range (fsignum (fsub (Fin 1) (Fin 0)))
                            (Fin 0) (Fin 1) PInf row = true)
              (removelast full).
Proof.
  destruct (outcome falling_run) as [[full o']|e] eqn:Hrun;
    [|vm_compute in Hrun; discriminate Hrun].
  exists full, o'. split; [reflexivity|].
  apply (continuation_history_rows ascii_upper qsqrt_approx omp_nsolve lin_solve2
           conditioning_wrapper falling_store 10 falling_object o'
           falling_line [Fin 10; Fin 0] (Fin 0) (Fin 1) false full).
  exact Hrun.
Defined.

(** The same run is not silent, and its list of weightings holds the
    default [FracLam]. *)
Lemma stored_points_follow_successful_solves_witness :
  stored_after_success false (trace falling_run) = true.
Proof.
  apply (stored_points_follow_successful_solves ascii_upper qsqrt_approx omp_nsolve
           lin_solve2 conditioning_wrapper falling_store 10 falling_object
           falling_line [Fin 10; Fin 0] (Fin 0) (Fin 1) false
           (Fin (1 # 2)) []).
  - cbn. lia.
  - reflexivity.
Defined.

(** The silent run whose solves fail goes on from the failed step: it
    stores the point of a solve that did not converge, which the same
    run with the default [verbose] does not. *)
Lemma silent_run_stores_failed_point :
  stored_after_success false (trace silent_failing_run) = false
  /\ map length (stored_points (trace silent_failing_run)) = [2%nat]
  /\ stored_points (trace failing_run) = [].
Proof. vm_compute. repeat split. Qed.


End ContinuationExamples.
Section ConstructorMore.
Import Num Continuation Examples.

(** X21. Whatever the dictionary holds, a construction that returns leaves
    under ['FracLamList'] a list that is in the store and is not empty:
    its first entry equals ['FracLam'], or is the NaN that was passed
    as ['FracLam']. The list is the caller's when the dictionary has
    one and a new one otherwise, and no other list of the store is
    touched. In the embedding the construction fails only for a
    dictionary whose reference has no list in the store. *)
Theorem init_list_starts_with_FracLam (st : store) (ds0_arg : fnum)
    (CtoP_arg : option vec) (RPtoC_arg : option rptoc) (u : user_config) :
  match __init__ st ds0_arg CtoP_arg RPtoC_arg u with
  | Ok (o, st') =>
      let l := FracLamList (cfg o) in
      let fl := FracLam (cfg o) in
      fl = default (Fin (1 # 2)) (u_FracLam u)
      /\ (exists x rest,
            st' !! l = Some (x :: rest)
            /\ (feqb x fl = true \/ (isnan fl = true /\ x = fl)))
      /\ match u_FracLamList u with
         | Some l' => l = l'
         | None => st !! l = None
         end
      /\ forall l', l' <> l -> st' !! l' = st !! l'
  | Raise _ =>
      exists l', u_FracLamList u = Some l' /\ st !! l' = None
  end.
Proof.
  unfold __init__. cbv zeta.
  cbn [FracLamList FracLam merge_config].
  set (fl := default (Fin (1 # 2)) (u_FracLam u)).
  assert (Hfl : feqb fl fl = true \/ (isnan fl = true /\ fl = fl)).
  { destruct (isnan fl) eqn:Hn; [right; auto | left].
    apply feqb_refl_not_nan, Hn. }
  destruct (u_FracLamList u) as [l|] eqn:Hl; cbn [default].
  - unfold Datatypes.id. destruct (st !! l) as [xs|] eqn:Hxs; lazy beta iota;
      [|exists l; auto].
    cbn [cfg FracLamList FracLam merge_config]. rewrite Hl. cbn [default].
    unfold Datatypes.id.
    fold fl. split; [reflexivity|].
    destruct xs as [|x xs]; cbn [length Nat.eqb orb starts_with].
    + split.
      { exists fl, []. split; [apply lookup_insert_eq | exact Hfl]. }
      split; [reflexivity|].
      intros l' Hne. apply lookup_insert_ne. congruence.
    + destruct (feqb x fl) eqn:Hx; cbn [negb].
      * split; [exists x, xs; auto|].
        split; [reflexivity | auto].
      * split.
        { exists fl, (x :: xs). split; [apply lookup_insert_eq | exact Hfl]. }
        split; [reflexivity|].
        intros l' Hne. apply lookup_insert_ne. congruence.
  - set (f := fresh (dom st)).
    assert (Hf : st !! f = None).
    { apply not_elem_of_dom. apply is_fresh. }
    rewrite lookup_insert_eq. cbn [length Nat.eqb orb].
    cbn [cfg FracLamList FracLam merge_config]. rewrite Hl. cbn [default].
    unfold Datatypes.id.
    fold fl f. split; [reflexivity|].
    split.
    { exists fl, []. split; [apply lookup_insert_eq | exact Hfl]. }
    split; [exact Hf|].
    intros l' Hne. rewrite lookup_insert_ne by congruence.
    apply lookup_insert_ne. congruence.
Qed.

End ConstructorMore.
Section ArcResidual.
Import Num Continuation Examples.

Local Abbreviation is_finite x := (exists q : Q, x = Fin q).

Lemma fsub_self (x : fnum) : is_finite x -> fsub x x = Fin 0.
Proof.
  intros [q ->]. unfold fsub, fneg, fadd.
  apply (f_equal Fin). change 0%Q with (Qred 0).
  apply Qred_complete. ring.
Qed.

Lemma fmul_zero_l (x : fnum) : is_finite x -> fmul (Fin 0) x = Fin 0.
Proof.
  intros [q ->]. unfold fmul.
  apply (f_equal Fin). change 0%Q with (Qred 0) at 2.
  apply Qred_complete. ring.
Qed.

Lemma fmul_zero_r (x : fnum) : is_finite x -> fmul x (Fin 0) = Fin 0.
Proof.
  intros [q ->]. unfold fmul.
  apply (f_equal Fin). change 0%Q with (Qred 0) at 2.
  apply Qred_complete. ring.
Qed.

Lemma vsub_self (v : vec) :
  Forall (fun x => is_finite x) v -> vsub v v = repeat (Fin 0) (length v).
Proof.
  induction 1 as [|x v Hx _ IH]; [reflexivity|].
  unfold vsub, vzip in *. cbn [combine map fst snd length repeat].
  rewrite IH, (fsub_self x Hx). reflexivity.
Qed.

Lemma dot_zeros (n : nat) (v : vec) :
  Forall (fun x => is_finite x) v -> dot (repeat (Fin 0) n) v = Fin 0.
Proof.
  intros Hv. unfold dot, vsum, vmul, vzip.
  assert (Hacc : forall (l : list (fnum * fnum)),
            Forall (fun p => fst p = Fin 0 /\ is_finite (snd p)) l ->
            fold_left fadd (map (fun p => fmul (fst p) (snd p)) l) (Fin 0)
            = Fin 0).
  { induction 1 as [|[a b] l [Ha Hb] _ IH]; [reflexivity|].
    cbn [map fold_left fst snd] in *. subst a.
    rewrite (fmul_zero_l b Hb). exact IH. }
  apply Hacc. clear Hacc. revert n.
  induction Hv as [|x v Hx _ IH]; intros [|n]; cbn [repeat combine];
    try constructor; auto.
Qed.

Lemma finite_vadd_scaled (ds : fnum) (u v : vec) :
  is_finite ds -> Forall (fun x => is_finite x) u ->
  Forall (fun x => is_finite x) v ->
  Forall (fun x => is_finite x) (vadd u (vscale ds v)).
Proof.
  intros [d ->] Hu. revert v.
  induction Hu as [|x u [p ->] _ IH]; intros v Hv; [constructor|].
  destruct Hv as [|y v [q ->] Hv]; [constructor|].
  unfold vadd, vscale, vzip in *. cbn [map combine fst snd].
  constructor; [eexists; reflexivity | apply IH, Hv].
Qed.

Lemma removelast_repeat {A} (x : A) (n : nat) :
  removelast (repeat x (S n)) = repeat x n.
Proof.
  induction n as [|n IH]; [reflexivity|].
  change (removelast (x :: repeat x (S n)) = x :: repeat x n).
  rewrite <- IH. reflexivity.
Qed.

(** X22. The point from which every corrector solve starts, the previous
    point moved by [ds] along the predicted direction, lies on the
    constraint of the orthogonal corrector: the arc length residual is
    exactly zero there, for finite vectors, finite weights [b] and [c]
    and a step size that is not zero. *)
Theorem orthogonal_residual_vanishes_at_prediction
    (XlamC0 dirC : vec) (ds b c : fnum) :
  Forall (fun x => is_finite x) XlamC0 ->
  Forall (fun x => is_finite x) dirC ->
  length XlamC0 = length dirC -> dirC <> [] ->
  is_finite ds -> feqb ds (Fin 0) = false ->
  is_finite b -> is_finite c ->
  exists dRarc,
    orthogonal_arc_res (vadd XlamC0 (vscale ds dirC)) XlamC0 dirC ds b c
    = Ok (Fin 0, dRarc).
Proof.
  intros HX Hd Hlen Hne Hds Hds0 Hb Hc.
  unfold orthogonal_arc_res.
  set (P := vadd XlamC0 (vscale ds dirC)).
  assert (HP : Forall (fun x => is_finite x) P)
    by (apply finite_vadd_scaled; assumption).
  assert (HPlen : length P = length dirC).
  { unfold P, vadd, vscale, vzip.
    rewrite length_map, length_combine, length_map. lia. }
  rewrite (vsub_self P HP), HPlen.
  assert (Hn : exists n, length dirC = S n).
  { destruct dirC; [congruence | eexists; reflexivity]. }
  destruct Hn as [n Hn]. rewrite Hn.
  assert (Hlast0 : last_entry (repeat (Fin 0) (S n)) = Ok (Fin 0)).
  { unfold last_entry.
    replace (repeat (Fin 0) (S n)) with (repeat (Fin 0) n ++ [Fin 0])%list
      by (rewrite <- repeat_cons; reflexivity).
    rewrite last_snoc. reflexivity. }
  rewrite Hlast0. cbn [mbind result_bind].
  assert (Hlastd : exists q, last_entry dirC = Ok (Fin q)).
  { unfold last_entry.
    destruct (last dirC) as [x|] eqn:Hl.
    - apply last_Some in Hl as (l' & ->).
      apply Forall_app in Hd as [_ Hx]. inversion Hx as [|? ? [q ->] _].
      exists q. reflexivity.
    - apply last_None in Hl. congruence. }
  destruct Hlastd as [dl ->]. cbn [mbind result_bind].
  rewrite removelast_repeat.
  rewrite dot_zeros.
  2:{ clear -Hd. induction Hd as [|x v Hx Hv IH]; [constructor|].
      cbn [removelast]. destruct v; [constructor|].
      constructor; [exact Hx | exact IH]. }
  destruct Hb as [bq ->], Hc as [cq ->], Hds as [dq ->].
  rewrite (fmul_zero_r (Fin cq)) by (eexists; reflexivity).
  rewrite (fmul_zero_r (Fin bq)) by (eexists; reflexivity).
  rewrite (fmul_zero_l (Fin dl)) by (eexists; reflexivity).
  cbn [feqb] in Hds0.
  assert (Hzero : fdiv (fadd (Fin 0) (Fin 0)) (Fin dq) = Fin 0).
  { change (fadd (Fin 0) (Fin 0)) with (Fin 0).
    cbn [fdiv]. rewrite Hds0. apply (f_equal Fin).
    transitivity (Qred 0); [apply Qred_complete | reflexivity].
    unfold Qdiv. ring. }
  rewrite Hzero. eexists. reflexivity.
Qed.

(** A step of 1/25 from [(10, 0)] in the direction [(0, 1)]. *)
Lemma orthogonal_residual_vanishes_at_prediction_witness :
  exists dRarc,
    orthogonal_arc_res
      (vadd [Fin 10; Fin 0] (vscale (Fin (1 # 25)) [Fin 0; Fin 1]))
      [Fin 10; Fin 0] [Fin 0; Fin 1] (Fin (1 # 25)) (Fin (1 # 2))
      (Fin (1 # 200))
    = Ok (Fin 0, dRarc).
Proof.
  apply orthogonal_residual_vanishes_at_prediction;
    try (repeat constructor; eexists; reflexivity);
    try reflexivity; try discriminate; eexists; reflexivity.
Defined.

End ArcResidual.
